(** * JSON.h of the Cpp-SupportLibrary: value model, conversions, serializer
      and recursive-descent parser, embedded in Rocq.

    The embedding follows [giri::json::JSON] (file JSON.h): the tagged union
    becomes an inductive type, [std::map<string,JSON>] a key-ordered
    association list, [std::deque<JSON>] a list, [long long] a [Z] kept in
    the 64-bit signed range, [double] the binary64 instance of the
    specification floats of the standard library.  The parser threads the
    cursor [offset] and the flag [ok] explicitly, and every [str[offset]]
    is a checked read, so that a read behind the buffer shows up as a
    result of its own. *)

From Stdlib Require Import ZArith List String Ascii Bool Lia Arith.
From Stdlib Require Import DecimalString DecimalZ DecimalPos.
From Stdlib Require Import SpecFloat OrderedTypeEx.
Import ListNotations.

Set Warnings "-register-all".

Open Scope list_scope.
Open Scope string_scope.

(** ** Results of a C++ computation *)

(** The two exceptions of <stdexcept> the code can meet. *)
Inductive exception : Type :=
| invalid_argument
| out_of_range.

(** Undefined behaviour, by cause. *)
Inductive undefined : Type :=
| ReadPastEnd (offset : nat)      (* str[offset] with offset > str.size() *)
| InactiveMember                  (* a union member read under another tag *)
| ElementPastEnd (index : Z)      (* deque::operator[] behind the last element *)
| FloatToIntRange                 (* double -> long long outside its range *)
| SignedOverflow                  (* a sum of two int outside the range of int *)
| Destroyed (x : nat)             (* an object used after its destructor ran *)
| Freed (p : nat)                 (* storage used or deleted when it is not live *)
| NullPointer.                    (* a null pointer dereferenced *)

Inductive outcome (A : Type) : Type :=
| Ret (a : A)
| Throw (e : exception)
| Undefined (u : undefined)
| OutOfFuel.

Arguments Ret {A} a.
Arguments Throw {A} e.
Arguments Undefined {A} u.
Arguments OutOfFuel {A}.

Definition bind {A B : Type} (m : outcome A) (k : A -> outcome B) : outcome B :=
  match m with
  | Ret a => k a
  | Throw e => Throw e
  | Undefined u => Undefined u
  | OutOfFuel => OutOfFuel
  end.

Notation "x <- m ;; k" := (bind m (fun x => k))
  (at level 61, m at next level, right associativity).
Notation "' pat <- m ;; k" := (bind m (fun x => match x with pat => k end))
  (at level 61, pat pattern, m at next level, right associativity).

(** ** Characters and strings *)

Definition DQ : ascii := "034".          (* the double quote *)
Definition BSL : ascii := "092".         (* the backslash *)
Definition NUL : ascii := "000".
Definition BS : ascii := "008".          (* \b *)
Definition HT : ascii := "009".          (* \t *)
Definition LF : ascii := "010".          (* \n *)
Definition VT : ascii := "011".          (* \v *)
Definition FF : ascii := "012".          (* \f *)
Definition CR : ascii := "013".          (* \r *)

Definition str1 (c : ascii) : string := String c EmptyString.

(** [c1 <= c && c <= c2] on character codes. *)
Definition in_range (c1 c2 c : ascii) : bool :=
  (nat_of_ascii c1 <=? nat_of_ascii c)%nat && (nat_of_ascii c <=? nat_of_ascii c2)%nat.

Definition is_digit (c : ascii) : bool := in_range "0" "9" c.

Definition digit_val (c : ascii) : Z := Z.of_nat (nat_of_ascii c) - 48.

(** <cctype> isspace in the "C" locale. *)
Definition isspace (c : ascii) : bool :=
  (c =? " ")%char || (c =? HT)%char || (c =? LF)%char || (c =? VT)%char
  || (c =? FF)%char || (c =? CR)%char.

(** [str[offset]]: the character at [offset]; [str[str.size()]] is the
    terminating NUL; anything further is a read behind the buffer. *)
Definition char_at (str : string) (offset : nat) : outcome ascii :=
  match String.get offset str with
  | Some c => Ret c
  | None => if (offset =? String.length str)%nat then Ret NUL
            else Undefined (ReadPastEnd offset)
  end.

(** [str.substr(pos, n)] for [pos <= str.size()]; beyond that the library
    throws [std::out_of_range]. *)
Definition substr (str : string) (pos n : nat) : outcome string :=
  if (pos <=? String.length str)%nat then Ret (String.substring pos n str)
  else Throw out_of_range.

(** [str.find(pat) != npos] *)
Fixpoint contains (pat str : string) : bool :=
  String.prefix pat str ||
  match str with
  | EmptyString => false
  | String _ str' => contains pat str'
  end.

(** ** 64-bit integers and their text *)

Definition LLONG_MIN : Z := - 2 ^ 63.
Definition LLONG_MAX : Z := 2 ^ 63 - 1.
Definition INT_MIN : Z := - 2 ^ 31.
Definition INT_MAX : Z := 2 ^ 31 - 1.
Definition UINT_MOD : Z := 2 ^ 32.

Definition in_llong (z : Z) : bool := (LLONG_MIN <=? z)%Z && (z <=? LLONG_MAX)%Z.
Definition in_int (z : Z) : bool := (INT_MIN <=? z)%Z && (z <=? INT_MAX)%Z.

(** [std::to_string(long long)]: decimal digits, a minus sign in front of a
    negative number. *)
Definition to_string (z : Z) : string := NilZero.string_of_int (Z.to_int z).

(** The digits at the head of [s], accumulated in base ten: the value read
    so far, whether a digit has been seen, and the rest of the text. *)
Fixpoint read_digits (s : string) (acc : Z) (seen : bool) : Z * bool * string :=
  match s with
  | String c s' =>
      if is_digit c then read_digits s' (10 * acc + digit_val c)%Z true
      else (acc, seen, s)
  | EmptyString => (acc, seen, s)
  end.

Fixpoint skip_space (s : string) : string :=
  match s with
  | String c s' => if isspace c then skip_space s' else s
  | EmptyString => s
  end.

(** The sign at the head of a number: [-], and [+] where the reader takes
    it; whether the number is negative, and the text behind the sign. *)
Definition take_sign (plus : bool) (s : string) : bool * string :=
  match s with
  | String c s' =>
      if (c =? "-")%char then (true, s')
      else if plus && (c =? "+")%char then (false, s')
      else (false, s)
  | EmptyString => (false, s)
  end.

(** [std::stol(s)] on a platform with 64-bit [long]: white space, a sign,
    digits; [std::invalid_argument] without a digit, [std::out_of_range]
    when the value does not fit. *)
Definition stol (s : string) : outcome Z :=
  let s := skip_space s in
  let '(neg, s) := take_sign true s in
  let '(n, seen, _) := read_digits s 0 false in
  if seen then
    let v := if neg then (- n)%Z else n in
    if in_llong v then Ret v else Throw out_of_range
  else Throw invalid_argument.

(** [std::from_chars(first, last, value)] in base ten: a minus sign and
    digits, nothing skipped; [None] stands for a set error code. *)
Definition from_chars (fits : Z -> bool) (s : string) : option Z :=
  let '(neg, s) := take_sign false s in
  let '(n, seen, _) := read_digits s 0 false in
  if seen then
    let v := if neg then (- n)%Z else n in
    if fits v then Some v else None
  else None.

(** ** Doubles

    [double] is IEEE 754 binary64, as the standard library specifies it.
    [double_of_Z], [double_mul] and [double_to_ll] are the conversions and
    the product the compiler emits; [pow10], [stod] and [to_string_double]
    stand for [std::pow(10, e)], [std::stod] and [std::to_string(double)]
    of the C++ library, taken as correctly rounded.  For [std::pow] that
    holds where the power is a double itself, from [10^0] to [10^22]; a
    power that has to be rounded the library may return one unit in the
    last place off, and no statement below rests on such a power.  [stod]
    covers the texts [parse_number] hands it, made of [-], digits and
    [.], with a value in the normal range: below it [std::stod] throws
    [std::out_of_range] where [stod] rounds.  A NaN is printed as [nan],
    the sign bit that makes the library print [-nan] not being kept by
    the specification floats. *)

Definition double : Type := spec_float.
Definition dprec : Z := 53.
Definition demax : Z := 1024.

Definition double_of_Z (z : Z) : double := binary_normalize dprec demax z 0 false.

Definition double_mul (x y : double) : double := SFmul dprec demax x y.

(** The double nearest to [num / den], for positive [num] and [den]. *)
Definition round_ratio (s : bool) (num den : Z) : double :=
  let '(q, e, l) := SFdiv_core_binary dprec demax num 0 den 0 in
  binary_round_aux dprec demax s q e l.

Definition pow10 (e : Z) : double :=
  if (0 <=? e)%Z then double_of_Z (10 ^ e) else round_ratio false 1 (10 ^ (- e)).

Definition stod (s : string) : outcome double :=
  let s := skip_space s in
  let '(neg, s) := take_sign true s in
  let '(ip, seen_i, s) := read_digits s 0 false in
  let '(D, seen_f, k) :=
    match s with
    | String c s' =>
        if (c =? ".")%char then
          let '(fp, seen_f, rest) := read_digits s' ip false in
          (fp, seen_f, (String.length s' - String.length rest)%nat)
        else (ip, false, 0%nat)
    | EmptyString => (ip, false, 0%nat)
    end in
  if seen_i || seen_f then
    if (D =? 0)%Z then Ret (S754_zero neg)
    else match round_ratio neg D (10 ^ Z.of_nat k) with
         | S754_finite s m e => Ret (S754_finite s m e)
         | _ => Throw out_of_range
         end
  else Throw invalid_argument.

Definition round_half_even (num den : Z) : Z :=
  let q := (num / den)%Z in
  match (2 * (num mod den) ?= den)%Z with
  | Lt => q
  | Eq => if Z.even q then q else (q + 1)%Z
  | Gt => (q + 1)%Z
  end.

Definition pad6 (n : Z) : string :=
  match to_string (1000000 + n) with
  | String _ s => s
  | EmptyString => ""
  end.

(** [std::to_string(double)] prints with "%f": six digits behind the point. *)
Definition to_string_double (d : double) : string :=
  match d with
  | S754_nan => "nan"
  | S754_infinity s => if s then "-inf" else "inf"
  | S754_zero s => (if s then "-" else "") ++ "0.000000"
  | S754_finite s m e =>
      let n := match e with
               | Zneg p => round_half_even (Zpos m * 10 ^ 6) (2 ^ Zpos p)
               | _ => (Zpos m * 2 ^ e * 10 ^ 6)%Z
               end in
      (if s then "-" else "") ++ to_string (n / 10 ^ 6) ++ "." ++ pad6 (n mod 10 ^ 6)
  end.

(** The conversion [double -> long long] truncates; outside the range of
    the target it is undefined. *)
Definition double_to_ll (d : double) : outcome Z :=
  match d with
  | S754_zero _ => Ret 0%Z
  | S754_finite s m e =>
      let a := match e with
               | Zneg p => (Zpos m / 2 ^ Zpos p)%Z
               | _ => (Zpos m * 2 ^ e)%Z
               end in
      let v := if s then (- a)%Z else a in
      if in_llong v then Ret v else Undefined FloatToIntRange
  | _ => Undefined FloatToIntRange
  end.

(** The conversion [double -> bool]: anything but a zero is [true]. *)
Definition double_to_bool (d : double) : bool :=
  match d with
  | S754_zero _ => false
  | _ => true
  end.

(** ** The value *)

(** [enum class Class] *)
Module Class.
Inductive t : Type :=
| Null | Object | Array | String | Floating | Integral | Boolean.

Definition eqb (a b : t) : bool :=
  match a, b with
  | Null, Null | Object, Object | Array, Array | String, String
  | Floating, Floating | Integral, Integral | Boolean, Boolean => true
  | _, _ => false
  end.

End Class.

(** [class JSON]: the member [Type] together with the member of the union
    [Internal] that is active under it.  A [std::map] keeps its entries in
    ascending order of the keys, and so does the list of [JObject]. *)
Inductive JSON : Type :=
| JNull
| JObject (Map : list (string * JSON))
| JArray (List : list JSON)
| JString (s : string)
| JFloating (Float : double)
| JIntegral (Int : Z)
| JBoolean (Bool : bool).

Definition JSONType (this : JSON) : Class.t :=
  match this with
  | JNull => Class.Null
  | JObject _ => Class.Object
  | JArray _ => Class.Array
  | JString _ => Class.String
  | JFloating _ => Class.Floating
  | JIntegral _ => Class.Integral
  | JBoolean _ => Class.Boolean
  end.

(** Induction that reaches the elements of arrays and the entries of
    objects. *)
Section JSON_nested_ind.
Variable P : JSON -> Prop.
Hypothesis HNull : P JNull.
Hypothesis HObject : forall m, Forall (fun kv => P (snd kv)) m -> P (JObject m).
Hypothesis HArray : forall l, Forall P l -> P (JArray l).
Hypothesis HString : forall s, P (JString s).
Hypothesis HFloating : forall d, P (JFloating d).
Hypothesis HIntegral : forall i, P (JIntegral i).
Hypothesis HBoolean : forall b, P (JBoolean b).

Fixpoint JSON_nested_ind (v : JSON) : P v :=
  match v with
  | JNull => HNull
  | JObject m =>
      HObject m
        ((fix entries (m : list (string * JSON)) : Forall (fun kv => P (snd kv)) m :=
            match m with
            | [] => Forall_nil _
            | kv :: m' => Forall_cons kv (JSON_nested_ind (snd kv)) (entries m')
            end) m)
  | JArray l =>
      HArray l
        ((fix elements (l : list JSON) : Forall P l :=
            match l with
            | [] => Forall_nil _
            | x :: l' => Forall_cons x (JSON_nested_ind x) (elements l')
            end) l)
  | JString s => HString s
  | JFloating d => HFloating d
  | JIntegral i => HIntegral i
  | JBoolean b => HBoolean b
  end.
End JSON_nested_ind.

(** *** The backing containers *)

(** [std::map<string,JSON>::find] *)
Fixpoint map_find (key : string) (m : list (string * JSON)) : option JSON :=
  match m with
  | [] => None
  | (k, x) :: m' => if (key =? k)%string then Some x else map_find key m'
  end.

(** Entry [key] set to [v]: overwritten where it is, or put in at its place
    in the order of the keys. *)
Fixpoint map_put (key : string) (v : JSON) (m : list (string * JSON))
  : list (string * JSON) :=
  match m with
  | [] => [(key, v)]
  | (k, x) :: m' =>
      match String.compare key k with
      | Lt => (key, v) :: m
      | Eq => (key, v) :: m'
      | Gt => (k, x) :: map_put key v m'
      end
  end.

(** [std::map::operator[]]: a missing key gets a default-constructed value. *)
Definition map_subscript (m : list (string * JSON)) (key : string)
  : list (string * JSON) :=
  match map_find key m with
  | Some _ => m
  | None => map_put key JNull m
  end.

(** [std::deque::resize(n)]: cut, or filled up with default-constructed
    values. *)
Definition resize (n : nat) (l : list JSON) : list JSON :=
  (firstn n l ++ repeat JNull (n - List.length l))%list.

(** An element overwritten in place. *)
Fixpoint list_set (l : list JSON) (i : nat) (v : JSON) : list JSON :=
  match l, i with
  | [], _ => []
  | _ :: l', O => v :: l'
  | x :: l', S i' => x :: list_set l' i' v
  end.

(** *** Escaping *)

Definition escape_char (c : ascii) : string :=
  if (c =? DQ)%char then String BSL (str1 DQ)
  else if (c =? BSL)%char then String BSL (str1 BSL)
  else if (c =? BS)%char then String BSL "b"
  else if (c =? FF)%char then String BSL "f"
  else if (c =? LF)%char then String BSL "n"
  else if (c =? CR)%char then String BSL "r"
  else if (c =? HT)%char then String BSL "t"
  else str1 c.

(** The text [json_escape] has written when its loop ends. *)
Fixpoint json_escape (str : string) : string :=
  match str with
  | EmptyString => ""
  | String c str' => escape_char c ++ json_escape str'
  end.

(** The loop of [json_escape] as the source counts it: [unsigned i] runs
    against [str.length()], a [size_t], and [++i] wraps at [2^32].
    [json_escape] above is the text the loop has written when it ends; on a
    string of [2^32] bytes or more the counter never reaches the length. *)
Fixpoint json_escape_loop (n : nat) (str : string) (i : Z) (output : string)
  : outcome string :=
  match n with
  | O => OutOfFuel
  | S n' =>
      if (i <? Z.of_nat (String.length str))%Z then
        c <- char_at str (Z.to_nat i) ;;
        json_escape_loop n' str ((i + 1) mod UINT_MOD) (output ++ escape_char c)
      else Ret output
  end.

(** *** Construction and tags *)

(** What [SetType] leaves in [Internal] for a new tag. *)
Definition fresh (type : Class.t) : JSON :=
  match type with
  | Class.Null => JNull
  | Class.Object => JObject []
  | Class.Array => JArray []
  | Class.String => JString ""
  | Class.Floating => JFloating (S754_zero false)
  | Class.Integral => JIntegral 0
  | Class.Boolean => JBoolean false
  end.

Definition SetType (type : Class.t) (this : JSON) : JSON :=
  if Class.eqb type (JSONType this) then this else fresh type.

(** [JSON::Make(type)], that is [JSON(type)]: [JSON()] and then [SetType]. *)
Definition Make (type : Class.t) : JSON := SetType type JNull.

(** *** Serializer *)

Definition dump_entries (dump : JSON -> string) :=
  fix entries (m : list (string * JSON)) (skip : bool) : string :=
    match m with
    | [] => ""
    | (k, x) :: m' =>
        (if skip then "" else ",")
        ++ (str1 DQ ++ k ++ String DQ ":" ++ dump x) ++ entries m' false
    end.

Definition dump_elements (dump : JSON -> string) :=
  fix elements (l : list JSON) (skip : bool) : string :=
    match l with
    | [] => ""
    | p :: l' => (if skip then "" else ",") ++ dump p ++ elements l' false
    end.

Fixpoint dumpMinified (this : JSON) : string :=
  match this with
  | JNull => "null"
  | JObject m => "{" ++ dump_entries dumpMinified m true ++ "}"
  | JArray l => "[" ++ dump_elements dumpMinified l true ++ "]"
  | JString s => str1 DQ ++ json_escape s ++ str1 DQ
  | JFloating d => to_string_double d
  | JIntegral i => to_string i
  | JBoolean b => if b then "true" else "false"
  end.

(** *** Conversions: the value and the flag [ok] *)

Definition ToString (this : JSON) : string * bool :=
  match this with
  | JString s => (json_escape s, true)
  | _ =>
  match this with
  | JObject _ => (dumpMinified this, true)
  | _ =>
  match this with
  | JArray _ => (dumpMinified this, true)
  | _ =>
  match this with
  | JBoolean b => (if b then "true" else "false", true)
  | _ =>
  match this with
  | JFloating d => (to_string_double d, true)
  | _ =>
  match this with
  | JIntegral i => (to_string i, true)
  | _ =>
  match this with
  | JNull => ("null", true)
  | _ => ("", false)
  end end end end end end end.

Definition ToInt (this : JSON) : outcome (Z * bool) :=
  match this with
  | JIntegral i => Ret (i, true)
  | _ =>
  match this with
  | JBoolean b => Ret (if b then 1%Z else 0%Z, true)
  | _ =>
  match this with
  | JFloating d => n <- double_to_ll d ;; Ret (n, true)
  | _ =>
  match this with
  | JString s =>
      match from_chars in_llong s with
      | Some parsed => Ret (parsed, true)
      | None => Ret (0%Z, false)
      end
  | _ => Ret (0%Z, false)
  end end end end.

Definition ToBool (this : JSON) : bool * bool :=
  match this with
  | JBoolean b => (b, true)
  | _ =>
  match this with
  | JIntegral i => (negb (i =? 0)%Z, true)
  | _ =>
  match this with
  | JFloating d => (double_to_bool d, true)
  | _ =>
  match this with
  | JString s =>
      if contains "true" s then (true, true)
      else if contains "false" s then (false, true)
      else match from_chars in_int s with
           | Some parsed => (negb (parsed =? 0)%Z, true)
           | None => (false, false)
           end
  | _ => (false, false)
  end end end end.

(** *** Accessors

    The mutable accessors return a [JSON&] into [*this].  Such a reference
    is kept as the key or the index of the entry it designates:
    [subscript_key] and [subscript_index] give [*this] as the call leaves
    it, [key_slot] and [index_slot] read through the reference, and
    [store_key] and [store_index] assign through it. *)

(** [JSON& operator[]( const string &key )] *)
Definition subscript_key (this : JSON) (key : string) : JSON :=
  match SetType Class.Object this with
  | JObject m => JObject (map_subscript m key)
  | other => other
  end.

Definition key_slot (this : JSON) (key : string) : option JSON :=
  match this with
  | JObject m => map_find key m
  | _ => None
  end.

Definition store_key (this : JSON) (key : string) (v : JSON) : JSON :=
  match this with
  | JObject m => JObject (map_put key v m)
  | other => other
  end.

(** [this[key] = v] *)
Definition assign_key (this : JSON) (key : string) (v : JSON) : JSON :=
  store_key (subscript_key this key) key v.

(** [this[key]] followed by a change [f] of the entry the reference
    designates, as in [this[key][inner]] or [this[key] = v]. *)
Definition update_key (this : JSON) (key : string) (f : JSON -> JSON) : JSON :=
  let this := subscript_key this key in
  match key_slot this key with
  | Some x => store_key this key (f x)
  | None => this
  end.

(** [JSON& operator[]( unsigned index )], for [0 <= index < 2^32];
    [index + 1] is computed in [unsigned]. *)
Definition subscript_index (this : JSON) (index : Z) : outcome JSON :=
  match SetType Class.Array this with
  | JArray l =>
      let l := if (Z.of_nat (List.length l) <=? index)%Z
               then resize (Z.to_nat ((index + 1) mod UINT_MOD)) l
               else l in
      if (index <? Z.of_nat (List.length l))%Z then Ret (JArray l)
      else Undefined (ElementPastEnd index)
  | other => Ret other
  end.

Definition index_slot (this : JSON) (index : Z) : option JSON :=
  match this with
  | JArray l => nth_error l (Z.to_nat index)
  | _ => None
  end.

Definition store_index (this : JSON) (index : Z) (v : JSON) : JSON :=
  match this with
  | JArray l => JArray (list_set l (Z.to_nat index) v)
  | other => other
  end.

(** [this[index] = v] *)
Definition assign_index (this : JSON) (index : Z) (v : JSON) : outcome JSON :=
  this <- subscript_index this index ;;
  Ret (store_index this index v).

(** [JSON &at( const string &key )] and [JSON &at( unsigned index )] *)
Definition at_key (this : JSON) (key : string) : JSON := subscript_key this key.

Definition at_index (this : JSON) (index : Z) : outcome JSON :=
  subscript_index this index.

(** [const JSON &at( const string &key ) const]: [Internal.Map->at( key )],
    whatever the tag; [std::map::at] throws [std::out_of_range]. *)
Definition at_key_const (this : JSON) (key : string) : outcome JSON :=
  match this with
  | JObject m =>
      match map_find key m with
      | Some x => Ret x
      | None => Throw out_of_range
      end
  | _ => Undefined InactiveMember
  end.

(** [const JSON &at( unsigned index ) const]: [Internal.List->at( index )]. *)
Definition at_index_const (this : JSON) (index : Z) : outcome JSON :=
  match this with
  | JArray l =>
      match nth_error l (Z.to_nat index) with
      | Some x => Ret x
      | None => Throw out_of_range
      end
  | _ => Undefined InactiveMember
  end.

(** [template <typename T> void append( T arg )] *)
Definition append (this : JSON) (arg : JSON) : JSON :=
  match SetType Class.Array this with
  | JArray l => JArray (l ++ [arg])%list
  | other => other
  end.

Definition hasKey (this : JSON) (key : string) : bool :=
  match this with
  | JObject m => match map_find key m with Some _ => true | None => false end
  | _ => false
  end.

(** ** The parser

    Every production takes the buffer [str], the cursor [offset] and the
    flag [ok], and gives back the value with the new cursor and flag.  The
    diagnostics written to [std::cerr] are left out.  The loops run on a
    counter that starts above the length of the buffer. *)

Definition parsed : Type := outcome (JSON * nat * bool).
Definition parser : Type := string -> nat -> bool -> parsed.

Definition steps (str : string) : nat := S (String.length str).

Fixpoint consume_ws_loop (n : nat) (str : string) (offset : nat) : outcome nat :=
  match n with
  | O => OutOfFuel
  | S n' =>
      c <- char_at str offset ;;
      if isspace c then consume_ws_loop n' str (S offset) else Ret offset
  end.

Definition consume_ws (str : string) (offset : nat) : outcome nat :=
  consume_ws_loop (steps str) str offset.

Definition is_hex (c : ascii) : bool :=
  in_range "0" "9" c || in_range "a" "f" c || in_range "A" "F" c.

(** The four characters behind [\u], appended to [val] as long as they are
    hexadecimal digits; [None] at the first one that is not. *)
Fixpoint unicode_digits (k i : nat) (str : string) (offset : nat) (val : string)
  : outcome (option string) :=
  match k with
  | O => Ret (Some val)
  | S k' =>
      c <- char_at str (offset + i) ;;
      if is_hex c then unicode_digits k' (S i) str offset (val ++ str1 c)
      else Ret None
  end.

(** The loop of [parse_string], entered with [offset] already advanced. *)
Fixpoint parse_string_loop (n : nat) (str : string) (offset : nat) (val : string)
  (ok : bool) : parsed :=
  match n with
  | O => OutOfFuel
  | S n' =>
      c <- char_at str offset ;;
      if (c =? DQ)%char then Ret (JString val, S offset, ok)
      else if (c =? BSL)%char then
        let offset := S offset in
        e <- char_at str offset ;;
        if (e =? DQ)%char then parse_string_loop n' str (S offset) (val ++ str1 DQ) ok
        else if (e =? BSL)%char then parse_string_loop n' str (S offset) (val ++ str1 BSL) ok
        else if (e =? "/")%char then parse_string_loop n' str (S offset) (val ++ "/") ok
        else if (e =? "b")%char then parse_string_loop n' str (S offset) (val ++ str1 BS) ok
        else if (e =? "f")%char then parse_string_loop n' str (S offset) (val ++ str1 FF) ok
        else if (e =? "n")%char then parse_string_loop n' str (S offset) (val ++ str1 LF) ok
        else if (e =? "r")%char then parse_string_loop n' str (S offset) (val ++ str1 CR) ok
        else if (e =? "t")%char then parse_string_loop n' str (S offset) (val ++ str1 HT) ok
        else if (e =? "u")%char then
          r <- unicode_digits 4 1 str offset (val ++ String BSL "u") ;;
          match r with
          | Some val => parse_string_loop n' str (S (offset + 4)) val ok
          | None => Ret (Make Class.String, offset, false)
          end
        else parse_string_loop n' str (S offset) (val ++ str1 BSL) ok
      else parse_string_loop n' str (S offset) (val ++ str1 c) ok
  end.

Definition parse_string (str : string) (offset : nat) (ok : bool) : parsed :=
  parse_string_loop (steps str) str (S offset) "" ok.

(** What may follow a number. *)
Definition ends_number (c : ascii) : bool :=
  isspace c || (c =? ",")%char || (c =? "]")%char || (c =? "}")%char.

(** The first loop of [parse_number]: the character that stopped it, the
    cursor behind that character, [val] and [isDouble]. *)
Fixpoint number_loop (n : nat) (str : string) (offset : nat) (val : string)
  (isDouble : bool) : outcome (ascii * nat * string * bool) :=
  match n with
  | O => OutOfFuel
  | S n' =>
      c <- char_at str offset ;;
      let offset := S offset in
      if (c =? "-")%char || is_digit c then
        number_loop n' str offset (val ++ str1 c) isDouble
      else if (c =? ".")%char then
        number_loop n' str offset (val ++ str1 c) true
      else Ret (c, offset, val, isDouble)
  end.

(** The loop over the digits of the exponent: [None] for the error exit. *)
Fixpoint exponent_loop (n : nat) (str : string) (offset : nat) (exp_str : string)
  : outcome (nat * option string) :=
  match n with
  | O => OutOfFuel
  | S n' =>
      c <- char_at str offset ;;
      let offset := S offset in
      if is_digit c then exponent_loop n' str offset (exp_str ++ str1 c)
      else if negb (ends_number c) then Ret (offset, None)
      else Ret (offset, Some exp_str)
  end.

(** The tail of [parse_number], behind the [--offset]. *)
Definition number_value (val exp_str : string) (isDouble : bool) (exp : Z)
  : outcome JSON :=
  if isDouble then
    d <- stod val ;; Ret (JFloating (double_mul d (pow10 exp)))
  else if negb (exp_str =? "")%string then
    n <- stol val ;; Ret (JFloating (double_mul (double_of_Z n) (pow10 exp)))
  else
    n <- stol val ;; Ret (JIntegral n).

Definition parse_number (str : string) (offset : nat) (ok : bool) : parsed :=
  '(c, offset, val, isDouble) <- number_loop (steps str) str offset "" false ;;
  if (c =? "E")%char || (c =? "e")%char then
    c <- char_at str offset ;;
    let '(offset, exp_str) :=
      if (c =? "-")%char then (S offset, "-")
      else if (c =? "+")%char then (S offset, "")
      else (offset, "") in
    '(offset, r) <- exponent_loop (steps str) str offset exp_str ;;
    match r with
    | None => Ret (Make Class.Null, offset, false)
    | Some exp_str =>
        exp <- stol exp_str ;;
        Number <- number_value val exp_str isDouble exp ;;
        Ret (Number, pred offset, ok)
    end
  else if negb (ends_number c) then Ret (Make Class.Null, offset, false)
  else
    Number <- number_value val "" isDouble 0 ;;
    Ret (Number, pred offset, ok).

Definition parse_bool (str : string) (offset : nat) (ok : bool) : parsed :=
  t <- substr str offset 4 ;;
  if (t =? "true")%string then
    let Bool := JBoolean true in
    Ret (Bool, offset + (if fst (ToBool Bool) then 4 else 5), ok)
  else
    f <- substr str offset 5 ;;
    if (f =? "false")%string then
      let Bool := JBoolean false in
      Ret (Bool, offset + (if fst (ToBool Bool) then 4 else 5), ok)
    else Ret (Make Class.Null, offset, false).

Definition parse_null (str : string) (offset : nat) (ok : bool) : parsed :=
  t <- substr str offset 4 ;;
  if negb (t =? "null")%string then Ret (Make Class.Null, offset, false)
  else Ret (JNull, offset + 4, ok).

Section Productions.

(** The productions for objects and arrays call back into [parse_next]. *)
Variable parse_next : parser.

Fixpoint parse_object_loop (n : nat) (str : string) (Object : JSON)
  (offset : nat) (ok : bool) : parsed :=
  match n with
  | O => OutOfFuel
  | S n' =>
      '(Key, offset, ok) <- parse_next str offset ok ;;
      offset <- consume_ws str offset ;;
      c <- char_at str offset ;;
      if negb (c =? ":")%char then Ret (Object, offset, false)
      else
        offset <- consume_ws str (S offset) ;;
        '(Value, offset, ok) <- parse_next str offset ok ;;
        let Object := assign_key Object (fst (ToString Key)) Value in
        offset <- consume_ws str offset ;;
        c <- char_at str offset ;;
        if (c =? ",")%char then parse_object_loop n' str Object (S offset) ok
        else if (c =? "}")%char then Ret (Object, S offset, ok)
        else Ret (Object, offset, false)
  end.

Definition parse_object (str : string) (offset : nat) (ok : bool) : parsed :=
  let Object := Make Class.Object in
  offset <- consume_ws str (S offset) ;;
  c <- char_at str offset ;;
  if (c =? "}")%char then Ret (Object, S offset, ok)
  else parse_object_loop (steps str) str Object offset ok.

Fixpoint parse_array_loop (n : nat) (str : string) (Array : JSON) (index : Z)
  (offset : nat) (ok : bool) : parsed :=
  match n with
  | O => OutOfFuel
  | S n' =>
      '(v, offset, ok) <- parse_next str offset ok ;;
      Array <- assign_index Array index v ;;
      let index := ((index + 1) mod UINT_MOD)%Z in
      offset <- consume_ws str offset ;;
      c <- char_at str offset ;;
      if (c =? ",")%char then parse_array_loop n' str Array index (S offset) ok
      else if (c =? "]")%char then Ret (Array, S offset, ok)
      else Ret (Make Class.Array, offset, false)
  end.

Definition parse_array (str : string) (offset : nat) (ok : bool) : parsed :=
  let Array := Make Class.Array in
  offset <- consume_ws str (S offset) ;;
  c <- char_at str offset ;;
  if (c =? "]")%char then Ret (Array, S offset, ok)
  else parse_array_loop (steps str) str Array 0 offset ok.

End Productions.

Fixpoint parse_next (fuel : nat) (str : string) (offset : nat) (ok : bool) : parsed :=
  match fuel with
  | O => OutOfFuel
  | S fuel' =>
      offset <- consume_ws str offset ;;
      value <- char_at str offset ;;
      if (value =? "[")%char then parse_array (parse_next fuel') str offset ok
      else if (value =? "{")%char then parse_object (parse_next fuel') str offset ok
      else if (value =? DQ)%char then parse_string str offset ok
      else if (value =? "t")%char || (value =? "f")%char then parse_bool str offset ok
      else if (value =? "n")%char then parse_null str offset ok
      else if is_digit value || (value =? "-")%char then parse_number str offset ok
      else Ret (JNull, offset, false)
  end.

(** [JSON::Load( str, ok )]: the value and the flag. *)
Definition Load (str : string) : outcome (JSON * bool) :=
  '(v, _, ok) <- parse_next (steps str) str 0 true ;;
  Ret (v, ok).

(** ** Objects in memory

    For the moves the union and the heap are kept apart: an object is its
    tag and its union, a container lives on the heap and is owned through
    the pointer in the union.  A map and a deque hold their elements,
    objects of the class themselves, each at a place of its own, so that
    an element can be the source of an assignment to the object that
    holds it.  A destructor runs through the elements and what they own;
    the counter [fuel] bounds that nesting. *)

Module Store.

Definition var : Type := nat.
Definition loc : Type := nat.

(** [union BackingData]: [List], [Map] and [String] share one pointer. *)
Inductive BackingData : Type :=
| Ptr (p : option loc)
| Float (d : double)
| Int (l : Z)
| Bool (b : bool).

Record object : Type := mk_object { Internal : BackingData; Type_ : Class.t }.

(** The elements of a map and of a deque by the places where they live. *)
Inductive container : Type :=
| CMap (m : list (string * var))
| CList (l : list var)
| CString (s : string).

(** At a place an object lives, or none does: not yet built, or
    destroyed. *)
Record memory : Type :=
  mk_memory { objects : var -> option object; heap : loc -> option container }.

Definition set_object (x : var) (o : option object) (m : memory) : memory :=
  mk_memory (fun y => if (y =? x)%nat then o else objects m y) (heap m).

(** A member of the object at [x] read: undefined where no object lives. *)
Definition read (x : var) (m : memory) : outcome object :=
  match objects m x with
  | Some o => Ret o
  | None => Undefined (Destroyed x)
  end.

Definition set_Internal (x : var) (i : BackingData) (m : memory) : outcome memory :=
  o <- read x m ;; Ret (set_object x (Some (mk_object i (Type_ o))) m).

Definition set_Type (x : var) (t : Class.t) (m : memory) : outcome memory :=
  o <- read x m ;; Ret (set_object x (Some (mk_object (Internal o) t)) m).

Definition free (p : loc) (m : memory) : memory :=
  mk_memory (objects m) (fun q => if (q =? p)%nat then None else heap m q).

Definition holds_pointer (t : Class.t) : bool :=
  match t with
  | Class.Object | Class.Array | Class.String => true
  | _ => false
  end.

(** The container an object owns. *)
Definition owned (o : object) : option loc :=
  if holds_pointer (Type_ o) then
    match Internal o with
    | Ptr p => p
    | _ => None
    end
  else None.

(** The elements a container holds. *)
Definition held (c : container) : list var :=
  match c with
  | CMap m => List.map snd m
  | CList l => l
  | CString _ => []
  end.

(** [~JSON()] on the element at [x] and the end of the element, [delete]
    standing for the operator applied to what the element owns. *)
Definition destroy_with (delete : loc -> memory -> outcome memory) (x : var)
  (m : memory) : outcome memory :=
  o <- read x m ;;
  m <- match owned o with
       | Some q => delete q m
       | None => Ret m
       end ;;
  Ret (set_object x None m).

(** [delete p]: the destructor of the container destroys the elements it
    holds, one after the other; then the storage is given back. *)
Fixpoint delete (fuel : nat) (p : loc) (m : memory) : outcome memory :=
  match fuel with
  | O => OutOfFuel
  | S fuel' =>
      match heap m p with
      | None => Undefined (Freed p)
      | Some c =>
          m <- fold_left (fun r x => m <- r ;; destroy_with (delete fuel') x m)
                 (held c) (Ret m) ;;
          Ret (free p m)
      end
  end.

Definition ClearInternal (fuel : nat) (this : var) (m : memory) : outcome memory :=
  o <- read this m ;;
  match owned o with
  | Some p => delete fuel p m
  | None => Ret m
  end.

(** [JSON& operator=( JSON&& other )] *)
Definition move_assign (fuel : nat) (this other : var) (m : memory) : outcome memory :=
  m <- ClearInternal fuel this m ;;
  o <- read other m ;;
  m <- set_Internal this (Internal o) m ;;
  o <- read other m ;;
  m <- set_Type this (Type_ o) m ;;
  m <- set_Internal other (Ptr None) m ;;
  set_Type other Class.Null m.


(** [new T( ... )]: the container [c] put at [p]. *)
Definition alloc (p : loc) (c : container) (m : memory) : memory :=
  mk_memory (objects m) (fun q => if (q =? p)%nat then Some c else heap m q).

(** The kind of container a tag stands for. *)
Definition fits (t : Class.t) (c : container) : bool :=
  match t, c with
  | Class.Object, CMap _ | Class.Array, CList _ | Class.String, CString _ => true
  | _, _ => false
  end.

(** A container like [c], with the elements [l] in the place of its
    own. *)
Definition refill (c : container) (l : list var) : container :=
  match c with
  | CMap es => CMap (combine (List.map fst es) l)
  | CList _ => CList l
  | CString s => CString s
  end.

(** The range constructors of [std::map] and [std::deque]: every element
    is copy-constructed, by [copy], at a place of its own.  The allocator
    hands out storage that is not in use: the places from [brk] on, one
    after the other. *)
Definition copy_elements (copy : var -> var -> nat -> memory -> outcome (nat * memory)) :=
  fix elements (l : list var) (brk : nat) (m : memory)
    : outcome (list var * nat * memory) :=
    match l with
    | [] => Ret ([], brk, m)
    | e :: l' =>
        '(brk1, m1) <- copy brk e (S brk) m ;;
        '(r, brk2, m2) <- elements l' brk1 m1 ;;
        Ret (brk :: r, brk2, m2)
    end.

(** The switch over [other.Type] of the copy constructor and of the copy
    assignment, followed by [Type = other.Type]: a container is copied
    into a new one, element by element, a number or a truth value with
    the union. *)
Fixpoint copy_into (fuel : nat) (this other : var) (brk : nat) (m : memory)
  : outcome (nat * memory) :=
  match fuel with
  | O => OutOfFuel
  | S fuel' =>
      o <- read other m ;;
      '(i, brk, m) <-
        (if holds_pointer (Type_ o) then
           match Internal o with
           | Ptr (Some q) =>
               match heap m q with
               | Some c =>
                   if fits (Type_ o) c then
                     '(l, brk', m) <-
                       copy_elements (copy_into fuel') (held c) (S brk) m ;;
                     Ret (Ptr (Some brk), brk', alloc brk (refill c l) m)
                   else Undefined InactiveMember
               | None => Undefined (Freed q)
               end
           | Ptr None => Undefined NullPointer
           | _ => Undefined InactiveMember
           end
         else Ret (Internal o, brk, m)) ;;
      o <- read other m ;;
      Ret (brk, set_object this (Some (mk_object i (Type_ o))) m)
  end.

(** [JSON( const JSON &other )], building an object at [this]. *)
Definition copy_construct (fuel : nat) (this other : var) (brk : nat) (m : memory)
  : outcome (nat * memory) :=
  copy_into fuel this other brk m.

(** [JSON& operator=( const JSON &other )] *)
Definition copy_assign (fuel : nat) (this other : var) (brk : nat) (m : memory)
  : outcome (nat * memory) :=
  if (other =? this)%nat then Ret (brk, m)
  else m <- ClearInternal fuel this m ;; copy_into fuel this other brk m.

(** [~JSON()] and the end of the object at [this]. *)
Definition destroy (fuel : nat) (this : var) (m : memory) : outcome memory :=
  destroy_with (delete fuel) this m.

Fixpoint traverse {A B : Type} (f : A -> option B) (l : list A) : option (list B) :=
  match l with
  | [] => Some []
  | x :: l' =>
      match f x, traverse f l' with
      | Some y, Some r => Some (y :: r)
      | _, _ => None
      end
  end.

(** The value an object record stands for, [rec] giving the values of the
    elements: its union has to fit its tag and its pointer a live
    container of the right kind. *)
Definition content (h : loc -> option container) (rec : var -> option JSON)
  (o : object) : option JSON :=
  match Type_ o, Internal o with
  | Class.Null, _ => Some JNull
  | Class.Object, Ptr (Some p) =>
      match h p with
      | Some (CMap es) =>
          option_map JObject
            (traverse (fun kx => option_map (pair (fst kx)) (rec (snd kx))) es)
      | _ => None
      end
  | Class.Array, Ptr (Some p) =>
      match h p with
      | Some (CList l) => option_map JArray (traverse rec l)
      | _ => None
      end
  | Class.String, Ptr (Some p) =>
      match h p with
      | Some (CString s) => Some (JString s)
      | _ => None
      end
  | Class.Floating, Float d => Some (JFloating d)
  | Class.Integral, Int i => Some (JIntegral i)
  | Class.Boolean, Bool b => Some (JBoolean b)
  | _, _ => None
  end.

(** The value of the object at [x]. *)
Fixpoint value_of (fuel : nat) (m : memory) (x : var) : option JSON :=
  match fuel with
  | O => None
  | S fuel' =>
      match objects m x with
      | Some o => content (heap m) (value_of fuel' m) o
      | None => None
      end
  end.

(** What an object record owns, at any depth: the elements of its
    container and theirs, and the containers. *)
Definition payload (h : loc -> option container)
  (rec : var -> option (list var * list loc)) (o : object)
  : option (list var * list loc) :=
  match owned o with
  | None => Some ([], [])
  | Some p =>
      match h p with
      | Some c =>
          match traverse rec (held c) with
          | Some rs => Some (flat_map fst rs, p :: flat_map snd rs)
          | None => None
          end
      | None => None
      end
  end.

(** The objects and the containers the object at [x] is made of: itself
    and what it owns. *)
Fixpoint extent (fuel : nat) (m : memory) (x : var) : option (list var * list loc) :=
  match fuel with
  | O => None
  | S fuel' =>
      match objects m x with
      | Some o =>
          match payload (heap m) (extent fuel' m) o with
          | Some (xs, ps) => Some (x :: xs, ps)
          | None => None
          end
      | None => None
      end
  end.

End Store.

(** ** Predicates of the statements *)

Definition key_lt (a b : string) : Prop := String.compare a b = Lt.

(** The keys of a [std::map]: ascending, none twice. *)
Fixpoint sorted_keys (m : list (string * JSON)) : Prop :=
  match m with
  | [] => True
  | (k, _) :: m' => Forall (fun kv => key_lt k (fst kv)) m' /\ sorted_keys m'
  end.

Fixpoint all_chars (f : ascii -> bool) (s : string) : bool :=
  match s with
  | EmptyString => true
  | String c s' => f c && all_chars f s'
  end.

(** The characters the first loop of [parse_number] collects. *)
Definition num_char (c : ascii) : bool :=
  (c =? "-")%char || is_digit c || (c =? ".")%char.

Fixpoint has_dot (s : string) : bool :=
  match s with
  | EmptyString => false
  | String c s' => (c =? ".")%char || has_dot s'
  end.

Definition number_start (s : string) : bool :=
  match s with
  | String c _ => is_digit c || (c =? "-")%char
  | EmptyString => false
  end.

(** A double whose six-decimal text is a plain number that reads back as
    the same double. *)
Definition float_reads_back (d : double) : Prop :=
  let t := to_string_double d in
  number_start t = true /\ all_chars num_char t = true /\
  number_value t "" (has_dot t) 0 = Ret (JFloating d).

(** A key as [parse_object] stores it: the escaped form of some text. *)
Definition escaped_key (k : string) : Prop := exists s, k = json_escape s.

(** The values whose minified text reads back: integers of 64 bits, doubles
    that read back, arrays below [2^32] elements, objects with their keys
    in order and in escaped form. *)
Inductive reads_back : JSON -> Prop :=
| rb_Null : reads_back JNull
| rb_Boolean b : reads_back (JBoolean b)
| rb_String s : reads_back (JString s)
| rb_Integral i : in_llong i = true -> reads_back (JIntegral i)
| rb_Floating d : float_reads_back d -> reads_back (JFloating d)
| rb_Array l :
    (Z.of_nat (List.length l) < UINT_MOD)%Z -> Forall reads_back l ->
    reads_back (JArray l)
| rb_Object m :
    sorted_keys m ->
    Forall (fun kv => escaped_key (fst kv) /\ reads_back (snd kv)) m ->
    reads_back (JObject m).

Definition is_number (v : JSON) : bool :=
  match v with
  | JIntegral _ | JFloating _ => true
  | _ => false
  end.

(** Numeric text in the sense of the specification: an integer literal and
    nothing else. *)
Definition numeric_text (s : string) : bool :=
  let digits := snd (take_sign false s) in
  negb (digits =? "")%string && all_chars is_digit digits.

(** Whether a text begins with an integer literal: a digit, or a minus sign
    and a digit. *)
Definition starts_digit (s : string) : bool :=
  match s with
  | String c _ => is_digit c
  | EmptyString => false
  end.

Definition starts_integer (s : string) : bool :=
  starts_digit (snd (take_sign false s)).

(** The number a row of decimal digits stands for, behind the value [acc]
    of the digits before it. *)
Fixpoint uint_val (d : Decimal.uint) (acc : Z) : Z :=
  match d with
  | Decimal.Nil => acc
  | Decimal.D0 l => uint_val l (10 * acc + 0)
  | Decimal.D1 l => uint_val l (10 * acc + 1)
  | Decimal.D2 l => uint_val l (10 * acc + 2)
  | Decimal.D3 l => uint_val l (10 * acc + 3)
  | Decimal.D4 l => uint_val l (10 * acc + 4)
  | Decimal.D5 l => uint_val l (10 * acc + 5)
  | Decimal.D6 l => uint_val l (10 * acc + 6)
  | Decimal.D7 l => uint_val l (10 * acc + 7)
  | Decimal.D8 l => uint_val l (10 * acc + 8)
  | Decimal.D9 l => uint_val l (10 * acc + 9)
  end.

(** The characters [parse_next] takes as the start of a value. *)
Definition value_start (c : ascii) : bool :=
  (c =? "[")%char || (c =? "{")%char || (c =? DQ)%char || (c =? "t")%char
  || (c =? "f")%char || (c =? "n")%char || is_digit c || (c =? "-")%char.

Definition starts_value (s : string) : bool :=
  match s with
  | String c _ => value_start c
  | EmptyString => false
  end.

(** A text that begins with something a number may end on. *)
Definition stops (rest : string) : bool :=
  match rest with
  | String e _ => ends_number e
  | EmptyString => false
  end.

(** From the buffer [str], the text [s] starts at [offset]. *)
Definition reads (str : string) (offset : nat) (s : string) : Prop :=
  exists pre, str = pre ++ s /\ String.length pre = offset.

(** The text of an object with the entries [es], in their order, whatever
    their keys. *)
Definition object_text (es : list (string * JSON)) : string :=
  "{" ++ dump_entries dumpMinified es true ++ "}".

(** The entries assigned one after the other, as [parse_object] does. *)
Definition assign_all (es : list (string * JSON)) (Object : JSON) : JSON :=
  fold_left (fun O kv => assign_key O (fst kv) (snd kv)) es Object.

(** What [JSON::Load( str )] is printed back as. *)
Definition reprint (str : string) : outcome string :=
  '(v, _) <- Load str ;; Ret (dumpMinified v).

(** The parser [rec] reads the minified text of [x] back, wherever it
    stands in the buffer; behind a number there has to be something a
    number may end on. *)
Definition parses_back (rec : parser) (x : JSON) : Prop :=
  forall str o ok rest,
    reads str o (dumpMinified x ++ rest) ->
    (is_number x = true -> stops rest = true) ->
    rec str o ok = Ret (x, o + String.length (dumpMinified x), ok).

(** A computation that does not run out of steps and whose result, if it
    returns one, satisfies [P]. *)
Definition fine {A : Type} (P : A -> Prop) (r : outcome A) : Prop :=
  match r with
  | OutOfFuel => False
  | Ret a => P a
  | _ => True
  end.

(** The cursor of a result is not before [o]. *)
Definition from_cursor (o : nat) (r : JSON * nat * bool) : Prop := o <= snd (fst r).

(** From [b] on, the parser [rec] neither runs out of steps nor moves the
    cursor back. *)
Definition advancing (str : string) (b : nat) (rec : parser) : Prop :=
  forall o ok, b <= o -> o <= String.length str -> fine (from_cursor o) (rec str o ok).


(** The call [json_escape( str )] returns, and returns [output]. *)
Definition escapes (str output : string) : Prop :=
  exists n, json_escape_loop n str 0 "" = Ret output.

(** A string shorter than [2^32] bytes. *)
Definition short (s : string) : Prop := (Z.of_nat (String.length s) < UINT_MOD)%Z.

(** The Strings and the keys of a value, at any depth. *)
Fixpoint texts (v : JSON) : list string :=
  match v with
  | JString s => [s]
  | JArray l => flat_map texts l
  | JObject m => flat_map (fun kv => fst kv :: texts (snd kv)) m
  | _ => []
  end.

Definition short_texts (v : JSON) : Prop := Forall short (texts v).

(** [json_escape] returns on a text taken as it is, and on the text it is
    the escaped form of: what the serializer does with a String and the
    parser with a key. *)
Definition escape_returns (t : string) : Prop :=
  forall s, t = s \/ t = json_escape s -> escapes s (json_escape s).

(** A double whose six-decimal text is a plain number that reads back as a
    double printed as the same text. *)
Definition float_reprints (d : double) : Prop :=
  let t := to_string_double d in
  number_start t = true /\ all_chars num_char t = true /\
  exists d', number_value t "" (has_dot t) 0 = Ret (JFloating d')
             /\ to_string_double d' = t.

(** The values whose minified text is printed again from what it reads
    back as: those of [reads_back], with every double whose text comes
    back, be it from another double. *)
Inductive prints_back : JSON -> Prop :=
| pb_Null : prints_back JNull
| pb_Boolean b : prints_back (JBoolean b)
| pb_String s : prints_back (JString s)
| pb_Integral i : in_llong i = true -> prints_back (JIntegral i)
| pb_Floating d : float_reprints d -> prints_back (JFloating d)
| pb_Array l :
    (Z.of_nat (List.length l) < UINT_MOD)%Z -> Forall prints_back l ->
    prints_back (JArray l)
| pb_Object m :
    sorted_keys m ->
    Forall (fun kv => escaped_key (fst kv) /\ prints_back (snd kv)) m ->
    prints_back (JObject m).

(** What the text of a double reads back as, and a value with every double
    read back from its text. *)
Definition reread_double (d : double) : double :=
  let t := to_string_double d in
  match number_value t "" (has_dot t) 0 with
  | Ret (JFloating d') => d'
  | _ => d
  end.

Fixpoint reread (v : JSON) : JSON :=
  match v with
  | JObject m => JObject (List.map (fun kv => (fst kv, reread (snd kv))) m)
  | JArray l => JArray (List.map reread l)
  | JFloating d => JFloating (reread_double d)
  | _ => v
  end.

(** [n] is [d] with its fraction cut off: the integer on the side of zero
    that is less than one away from [d].  A finite double is
    [m * 2^e], that is [m * 2^max(0,e) / 2^max(0,-e)]. *)
Definition truncated (d : double) (n : Z) : Prop :=
  match d with
  | S754_zero _ => n = 0%Z
  | S754_finite s m e =>
      (if s then n <= 0 else 0 <= n)%Z
      /\ (Z.abs n * 2 ^ Z.max 0 (- e) <= Zpos m * 2 ^ Z.max 0 e
          < (Z.abs n + 1) * 2 ^ Z.max 0 (- e))%Z
  | _ => False
  end.

(** The number a row of decimal digits stands for, digit by digit from the
    left: each counts by the power of ten of its place. *)
Fixpoint digits_value (digits : string) : Z :=
  match digits with
  | EmptyString => 0%Z
  | String c s => (digit_val c * 10 ^ Z.of_nat (String.length s) + digits_value s)%Z
  end.

(** The double [d] is the integer [z], exactly. *)
Definition is_integer (d : double) (z : Z) : Prop :=
  match d with
  | S754_zero _ => z = 0%Z
  | S754_finite s m e =>
      ((if s then Zneg m else Zpos m) * 2 ^ Z.max 0 e = z * 2 ^ Z.max 0 (- e))%Z
  | _ => False
  end.

(** From [m] to [m'], the objects [xs] have been destroyed and the
    containers [ps] given back, and nothing else has changed. *)
Definition released (m m' : Store.memory) (xs : list Store.var) (ps : list Store.loc)
  : Prop :=
  (forall y, In y xs -> Store.objects m' y = None)
  /\ (forall y, ~ In y xs -> Store.objects m' y = Store.objects m y)
  /\ (forall q, In q ps -> Store.heap m' q = None)
  /\ (forall q, ~ In q ps -> Store.heap m' q = Store.heap m q).

(** From [brk] on no storage is in use. *)
Definition unused (brk : nat) (m : Store.memory) : Prop :=
  (forall y, brk <= y -> Store.objects m y = None)
  /\ (forall q, brk <= q -> Store.heap m q = None).

(** What a copy leaves: the copy at [dst], made of storage from [brk]
    on, with the value [v]; the memory below [brk] as it was, but for
    [dst]; and the storage from [brk'] on not in use. *)
Definition copied (f : nat) (m : Store.memory) (dst : Store.var) (brk : nat) (v : JSON)
  (r : nat * Store.memory) : Prop :=
  let '(brk', m') := r in
  brk <= brk' /\ unused brk' m'
  /\ (forall y, y < brk -> y <> dst -> Store.objects m' y = Store.objects m y)
  /\ (forall q, q < brk -> Store.heap m' q = Store.heap m q)
  /\ Store.value_of f m' dst = Some v
  /\ exists xs' ps',
       Store.extent f m' dst = Some (dst :: xs', ps')
       /\ (forall y, In y xs' -> brk <= y < brk')
       /\ (forall q, In q ps' -> brk <= q < brk')
       /\ NoDup xs' /\ NoDup ps'.

(** The objects at [x] and [y] both have the value [v], and each keeps
    it when the other is destroyed. *)
Definition independent (fuel : nat) (m : Store.memory) (x y : Store.var) (v : JSON) : Prop :=
  Store.value_of fuel m x = Some v /\ Store.value_of fuel m y = Some v
  /\ (exists m', Store.destroy fuel x m = Ret m' /\ Store.value_of fuel m' y = Some v)
  /\ (exists m', Store.destroy fuel y m = Ret m' /\ Store.value_of fuel m' x = Some v).

(** ** Sample texts and values *)


(** [{"a":{"b":null}}] *)
Definition vivified_text : string :=
  "{" ++ str1 DQ ++ "a" ++ str1 DQ ++ ":{" ++ str1 DQ ++ "b" ++ str1 DQ ++ ":null}}".

(** The double 1.5. *)
Definition one_and_a_half : double := S754_finite false 6755399441055744 (-52).

(** The double nearest to one ten-millionth. *)
Definition tenth_of_a_millionth : double := S754_finite false 7555786372591432 (-76).

(** An object with an array, a string with a quote and a backslash in it,
    a double and a nested object. *)
Definition sample : JSON :=
  JObject
    [("a", JArray [JIntegral 1; JNull; JString (String DQ (String BSL "u0041"));
                   JFloating one_and_a_half; JIntegral (-7)]);
     ("b", JBoolean true);
     ("c", JObject [("d", JArray [])])].

(** Objects in memory: at 0 an Array that owns the deque at 0, with an
    Integral at 10 and a Null at 11; at 1 a String that owns the string
    at 1; at 3 an Array that owns the deque at 2, whose one element, at
    4, is an Array that owns the deque at 3 with a Boolean at 12. *)
Definition sample_memory : Store.memory :=
  Store.mk_memory
    (fun x => match x with
              | 0 => Some (Store.mk_object (Store.Ptr (Some 0)) Class.Array)
              | 1 => Some (Store.mk_object (Store.Ptr (Some 1)) Class.String)
              | 3 => Some (Store.mk_object (Store.Ptr (Some 2)) Class.Array)
              | 4 => Some (Store.mk_object (Store.Ptr (Some 3)) Class.Array)
              | 10 => Some (Store.mk_object (Store.Int 1) Class.Integral)
              | 11 => Some (Store.mk_object (Store.Ptr None) Class.Null)
              | 12 => Some (Store.mk_object (Store.Bool true) Class.Boolean)
              | _ => None
              end)
    (fun p => match p with
              | 0 => Some (Store.CList [10; 11])
              | 1 => Some (Store.CString "old")
              | 2 => Some (Store.CList [4])
              | 3 => Some (Store.CList [12])
              | _ => None
              end).

(** The double -1.5. *)
Definition minus_one_and_a_half : double := S754_finite true 6755399441055744 (-52).

(** ** Further members of [JSON] *)

(** [string ToUnescapedString( bool &ok ) const]: the tests of the tag in
    the order of the source, the member of the union read under its tag. *)
Definition ToUnescapedString (this : JSON) : string * bool :=
  let Type_ := JSONType this in
  if Class.eqb Type_ Class.String then
    (match this with JString s => s | _ => "" end, true)
  else if Class.eqb Type_ Class.Object then (dumpMinified this, true)
  else if Class.eqb Type_ Class.Array then (dumpMinified this, true)
  else if Class.eqb Type_ Class.Boolean then
    (match this with JBoolean b => if b then "true" else "false" | _ => "" end, true)
  else if Class.eqb Type_ Class.Floating then
    (match this with JFloating d => to_string_double d | _ => "" end, true)
  else if Class.eqb Type_ Class.Integral then
    (match this with JIntegral i => to_string i | _ => "" end, true)
  else if Class.eqb Type_ Class.Null then ("null", true)
  else ("", false).

(** [static_cast<int>] of a size. *)
Definition to_int (n : Z) : Z := ((n + 2 ^ 31) mod UINT_MOD - 2 ^ 31)%Z.

(** [int length() const] and [int size() const] *)
Definition length (this : JSON) : Z :=
  match this with
  | JArray l => to_int (Z.of_nat (List.length l))
  | _ => (-1)%Z
  end.

Definition size (this : JSON) : Z :=
  match this with
  | JObject m => to_int (Z.of_nat (List.length m))
  | JArray l => to_int (Z.of_nat (List.length l))
  | _ => (-1)%Z
  end.

(** The loop [for( int i = 0; i < depth; ++i, pad += tab )]. *)
Fixpoint pad_loop (n : nat) (pad tab : string) : string :=
  match n with
  | O => pad
  | S n' => pad_loop n' (pad ++ tab) tab
  end.

(** [pad.erase( 0, n )] *)
Definition erase (n : nat) (pad : string) : string :=
  String.substring n (String.length pad - n) pad.

(** A sum of two [int]: undefined when it leaves the range of [int]. *)
Definition int_add (a b : Z) : outcome Z :=
  if in_int (a + b) then Ret (a + b)%Z else Undefined SignedOverflow.

Definition pretty_entries (dump : JSON -> outcome string) (pad : string) :=
  fix entries (m : list (string * JSON)) (skip : bool) : outcome string :=
    match m with
    | [] => Ret ""
    | (k, x) :: m' =>
        t <- dump x ;;
        r <- entries m' false ;;
        Ret ((if skip then "" else String "," (str1 LF))
             ++ (pad ++ str1 DQ ++ k ++ String DQ " : " ++ t) ++ r)
    end.

Definition pretty_elements (dump : JSON -> outcome string) :=
  fix elements (l : list JSON) (skip : bool) : outcome string :=
    match l with
    | [] => Ret ""
    | p :: l' =>
        t <- dump p ;;
        r <- elements l' false ;;
        Ret ((if skip then "" else ", ") ++ t ++ r)
    end.

(** [string dump( int depth = 1, string tab = "  " ) const]: every element
    and every entry is dumped at [depth + 1], a sum of two [int]. *)
Fixpoint dump (this : JSON) (depth : Z) (tab : string) : outcome string :=
  match this with
  | JNull => Ret "null"
  | JObject m =>
      let pad := pad_loop (Z.to_nat depth) "" tab in
      s <- pretty_entries (fun p => d <- int_add depth 1 ;; dump p d tab) pad m true ;;
      Ret (String "{" (str1 LF) ++ s ++ (str1 LF ++ erase (String.length tab) pad ++ "}"))
  | JArray l =>
      s <- pretty_elements (fun p => d <- int_add depth 1 ;; dump p d tab) l true ;;
      Ret ("[" ++ s ++ "]")
  | JString s => Ret (str1 DQ ++ json_escape s ++ str1 DQ)
  | JFloating d => Ret (to_string_double d)
  | JIntegral i => Ret (to_string i)
  | JBoolean b => Ret (if b then "true" else "false")
  end.

(** How deep the containers of a value nest, an empty one not counted:
    the calls of [dump] one inside the other, below the first. *)
Fixpoint nesting (v : JSON) : Z :=
  match v with
  | JObject m =>
      match m with
      | [] => 0
      | _ => 1 + fold_right (fun kv acc => Z.max (nesting (snd kv)) acc) 0 m
      end
  | JArray l =>
      match l with
      | [] => 0
      | _ => 1 + fold_right (fun x acc => Z.max (nesting x) acc) 0 l
      end
  | _ => 0
  end%Z.



(** [JSON Array( T... args )] and [JSON Object()] *)
Definition Array (args : list JSON) : JSON := fold_left append args (Make Class.Array).

Definition Object : JSON := Make Class.Object.

(** ** White space between the tokens *)

(** A text of white space. *)
Definition ws (w : string) : Prop := all_chars isspace w = true.

(** The elements of an array laid out behind the bracket: white space
    around every element, a comma between two, the closing bracket. *)
Definition layout_elements (layout : JSON -> string -> Prop) :=
  fix elements (l : list JSON) (t : string) : Prop :=
    match l with
    | [] => False
    | x :: l' =>
        exists w1 tx w2 t',
          ws w1 /\ ws w2 /\ layout x tx /\ t = w1 ++ tx ++ w2 ++ t'
          /\ match l' with
             | [] => t' = "]"
             | _ => exists t'', t' = String "," t'' /\ elements l' t''
             end
    end.

(** The entries of an object laid out behind the brace: white space around
    the key, the colon and the value. *)
Definition layout_entries (layout : JSON -> string -> Prop) :=
  fix entries (m : list (string * JSON)) (t : string) : Prop :=
    match m with
    | [] => False
    | (k, x) :: m' =>
        exists w1 w2 w3 tx w4 t',
          ws w1 /\ ws w2 /\ ws w3 /\ ws w4 /\ escaped_key k /\ layout x tx
          /\ t = w1 ++ (str1 DQ ++ k ++ str1 DQ) ++ w2 ++ String ":" (w3 ++ tx ++ w4 ++ t')
          /\ match m' with
             | [] => t' = "}"
             | _ => exists t'', t' = String "," t'' /\ entries m' t''
             end
    end.

(** [layout v t]: the text [t] is the value [v] written down with any
    white space between its tokens.  The values are those that read back:
    integers of 64 bits, doubles that read back from their text, arrays
    below [2^32] elements, objects with their keys in order and in escaped
    form. *)
Fixpoint layout (v : JSON) (t : string) : Prop :=
  match v with
  | JObject m =>
      sorted_keys m
      /\ match m with
         | [] => exists w, ws w /\ t = String "{" (w ++ "}")
         | _ => exists t', t = String "{" t' /\ layout_entries layout m t'
         end
  | JArray l =>
      (Z.of_nat (List.length l) < UINT_MOD)%Z
      /\ match l with
         | [] => exists w, ws w /\ t = String "[" (w ++ "]")
         | _ => exists t', t = String "[" t' /\ layout_elements layout l t'
         end
  | _ => reads_back v /\ t = dumpMinified v
  end.

(** The parser [rec] reads every layout of [x] shorter than [bound],
    behind any white space, wherever it stands in the buffer. *)
Definition reads_layout (rec : parser) (bound : nat) (x : JSON) : Prop :=
  forall tx, layout x tx -> String.length tx < bound ->
  forall str o ok w rest,
    ws w -> reads str o (w ++ tx ++ rest) ->
    (is_number x = true -> stops rest = true) ->
    rec str o ok = Ret (x, o + String.length w + String.length tx, ok).

(** ** Further notions of the statements *)

(** A character that neither ends a string literal nor starts an escape. *)
Definition plain (c : ascii) : bool := negb (c =? DQ)%char && negb (c =? BSL)%char.





(** A property of the result of a computation that returns. *)
Definition whenever {A : Type} (P : A -> Prop) (r : outcome A) : Prop :=
  match r with
  | Ret a => P a
  | _ => True
  end.

(** The flag of a result is up only if it was up before: [ok]. *)
Definition flag_kept (ok : bool) (r : JSON * nat * bool) : Prop :=
  snd r = true -> ok = true.

(** The parser [rec] never raises the flag. *)
Definition keeps_flag (rec : parser) : Prop :=
  forall str o ok, whenever (flag_kept ok) (rec str o ok).

(** ** Base64.h

    [std::vector<char>] is the list of its characters and [size_t] a [Z]
    below [2^64], with the wrap-around of [in_len - 1] and [in_len - 2]
    written out.  [char] is signed, as on x86-64: in an expression a [char]
    counts as the [int] of [char_to_int].  Every access to an element, of
    the data, of the text, of the two tables and of the buffer written to,
    is checked: outside of its container it ends the run as
    [Undefined (ElementPastEnd index)].  Allocation does not fail: the
    sizes are taken to be below [2^62]. *)

Module Base64.

Definition SIZE_MOD : Z := 2 ^ 64.

(** The largest size the statements consider. *)
Definition MAX_SIZE : Z := 2 ^ 62.

Definition size_t (z : Z) : Z := z mod SIZE_MOD.

Definition uint32_t (z : Z) : Z := z mod 2 ^ 32.

(** A [char] promoted to [int]. *)
Definition char_to_int (c : ascii) : Z :=
  let n := Z.of_N (N_of_ascii c) in
  if (n <? 128)%Z then n else (n - 256)%Z.

(** An integer stored into a [char]: the low eight bits. *)
Definition int_to_char (z : Z) : ascii := ascii_of_N (Z.to_N (z mod 256)).

(** [v[index]] on a vector or an array. *)
Definition element {A : Type} (v : list A) (index : Z) : outcome A :=
  if (0 <=? index)%Z && (index <? Z.of_nat (List.length v))%Z then
    match nth_error v (Z.to_nat index) with
    | Some x => Ret x
    | None => Undefined (ElementPastEnd index)
    end
  else Undefined (ElementPastEnd index).

(** [s[index]] on a [std::string]: [s[s.size()]] is the terminating NUL. *)
Definition char_of (s : string) (index : Z) : outcome ascii :=
  if (0 <=? index)%Z && (index <=? Z.of_nat (String.length s))%Z then
    match String.get (Z.to_nat index) s with
    | Some c => Ret c
    | None => Ret NUL
    end
  else Undefined (ElementPastEnd index).

(** An element overwritten in place. *)
Fixpoint poke {A : Type} (v : list A) (i : nat) (x : A) : list A :=
  match v, i with
  | [], _ => []
  | _ :: v', O => x :: v'
  | y :: v', S i' => y :: poke v' i' x
  end.

(** [v[index] = x] *)
Definition store {A : Type} (v : list A) (index : Z) (x : A) : outcome (list A) :=
  if (0 <=? index)%Z && (index <? Z.of_nat (List.length v))%Z
  then Ret (poke v (Z.to_nat index) x)
  else Undefined (ElementPastEnd index).

Definition sEncodingTable : list ascii :=
  list_ascii_of_string
    "ABCDEFGHIJKLMNOPQRSTUVWXYZabcdefghijklmnopqrstuvwxyz0123456789+/".

Definition kDecodingTable : list Z :=
  [64; 64; 64; 64; 64; 64; 64; 64; 64; 64; 64; 64; 64; 64; 64; 64;
   64; 64; 64; 64; 64; 64; 64; 64; 64; 64; 64; 64; 64; 64; 64; 64;
   64; 64; 64; 64; 64; 64; 64; 64; 64; 64; 64; 62; 64; 64; 64; 63;
   52; 53; 54; 55; 56; 57; 58; 59; 60; 61; 64; 64; 64; 64; 64; 64;
   64;  0;  1;  2;  3;  4;  5;  6;  7;  8;  9; 10; 11; 12; 13; 14;
   15; 16; 17; 18; 19; 20; 21; 22; 23; 24; 25; 64; 64; 64; 64; 64;
   64; 26; 27; 28; 29; 30; 31; 32; 33; 34; 35; 36; 37; 38; 39; 40;
   41; 42; 43; 44; 45; 46; 47; 48; 49; 50; 51; 64; 64; 64; 64; 64;
   64; 64; 64; 64; 64; 64; 64; 64; 64; 64; 64; 64; 64; 64; 64; 64;
   64; 64; 64; 64; 64; 64; 64; 64; 64; 64; 64; 64; 64; 64; 64; 64;
   64; 64; 64; 64; 64; 64; 64; 64; 64; 64; 64; 64; 64; 64; 64; 64;
   64; 64; 64; 64; 64; 64; 64; 64; 64; 64; 64; 64; 64; 64; 64; 64;
   64; 64; 64; 64; 64; 64; 64; 64; 64; 64; 64; 64; 64; 64; 64; 64;
   64; 64; 64; 64; 64; 64; 64; 64; 64; 64; 64; 64; 64; 64; 64; 64;
   64; 64; 64; 64; 64; 64; 64; 64; 64; 64; 64; 64; 64; 64; 64; 64;
   64; 64; 64; 64; 64; 64; 64; 64; 64; 64; 64; 64; 64; 64; 64; 64]%Z.

(** *** Encode *)

(** The four indices into [sEncodingTable] for the bytes [x], [y], [z]. *)
Definition index1 (x : Z) : Z := Z.land (Z.shiftr x 2) 63.
Definition index2 (x y : Z) : Z :=
  Z.lor (Z.shiftl (Z.land x 3) 4) (Z.shiftr (Z.land y 240) 4).
Definition index3 (y z : Z) : Z :=
  Z.lor (Z.shiftl (Z.land y 15) 2) (Z.shiftr (Z.land z 192) 6).
Definition index4 (z : Z) : Z := Z.land z 63.

(** The buffer of [ret] and the position of [p] in it. *)
Definition writer : Type := (list ascii * Z)%type.

(** [*p++ = c] *)
Definition write (c : ascii) (w : writer) : outcome writer :=
  let '(ret, p) := w in
  ret <- store ret p c ;;
  Ret (ret, (p + 1)%Z).

(** [*p++ = sEncodingTable[index]] *)
Definition emit (index : Z) (w : writer) : outcome writer :=
  c <- element sEncodingTable index ;;
  write c w.

(** [data[i]] promoted to [int]. *)
Definition byte (data : list ascii) (i : Z) : outcome Z :=
  c <- element data i ;; Ret (char_to_int c).

(** The loop over the groups of three bytes: the index and the writer it
    leaves. *)
Fixpoint encode_loop (n : nat) (data : list ascii) (in_len i : Z) (w : writer)
  : outcome (Z * writer) :=
  match n with
  | O => OutOfFuel
  | S n' =>
      if (i <? size_t (in_len - 2))%Z then
        x <- byte data i ;;
        w <- emit (index1 x) w ;;
        x <- byte data i ;;
        y <- byte data (i + 1) ;;
        w <- emit (index2 x y) w ;;
        y <- byte data (i + 1) ;;
        z <- byte data (i + 2) ;;
        w <- emit (index3 y z) w ;;
        z <- byte data (i + 2) ;;
        w <- emit (index4 z) w ;;
        encode_loop n' data in_len (size_t (i + 3)) w
      else Ret (i, w)
  end.

(** The one or two bytes behind the last group, and the padding. *)
Definition encode_rest (data : list ascii) (in_len : Z) (r : Z * writer)
  : outcome string :=
  let '(i, w) := r in
  if (i <? in_len)%Z then
    x <- byte data i ;;
    w <- emit (index1 x) w ;;
    w <- (if (i =? size_t (in_len - 1))%Z then
            x <- byte data i ;;
            w <- emit (Z.shiftl (Z.land x 3) 4) w ;;
            write "=" w
          else
            x <- byte data i ;;
            y <- byte data (i + 1) ;;
            w <- emit (index2 x y) w ;;
            y <- byte data (i + 1) ;;
            emit (Z.shiftl (Z.land y 15) 2) w) ;;
    w <- write "=" w ;;
    Ret (string_of_list_ascii (fst w))
  else Ret (string_of_list_ascii (fst w)).

(** [std::string Encode(const std::vector<char>& data)] *)
Definition Encode (data : list ascii) : outcome string :=
  let in_len := Z.of_nat (List.length data) in
  let out_len := size_t (4 * (size_t (in_len + 2) / 3)) in
  let ret := repeat NUL (Z.to_nat out_len) in
  r <- encode_loop (S (List.length data)) data in_len 0 (ret, 0%Z) ;;
  encode_rest data in_len r.

(** *** Decode *)

(** One character of the text as six bits: [=] counts as 0, any other
    character as its entry in [kDecodingTable]. *)
Definition sextet (base64Data : string) (i : Z) : outcome Z :=
  c <- char_of base64Data i ;;
  if (c =? "=")%char then Ret 0%Z
  else
    c <- char_of base64Data i ;;
    element kDecodingTable (char_to_int c).

(** [if (j < out_len) out[j++] = v] *)
Definition put (out_len : Z) (v : Z) (o : list ascii * Z) : outcome (list ascii * Z) :=
  let '(out, j) := o in
  if (j <? out_len)%Z then
    out <- store out j (int_to_char v) ;;
    Ret (out, (j + 1)%Z)
  else Ret (out, j).

Definition triple_of (a b c d : Z) : Z :=
  uint32_t (uint32_t (uint32_t (uint32_t (Z.shiftl a 18) + uint32_t (Z.shiftl b 12))
                      + uint32_t (Z.shiftl c 6))
            + uint32_t (Z.shiftl d 0)).

Fixpoint decode_loop (n : nat) (base64Data : string) (in_len out_len i : Z)
  (o : list ascii * Z) : outcome (list ascii) :=
  match n with
  | O => OutOfFuel
  | S n' =>
      if (i <? in_len)%Z then
        a <- sextet base64Data i ;;
        b <- sextet base64Data (i + 1) ;;
        c <- sextet base64Data (i + 2) ;;
        d <- sextet base64Data (i + 3) ;;
        let triple := triple_of a b c d in
        o <- put out_len (Z.land (Z.shiftr triple 16) 255) o ;;
        o <- put out_len (Z.land (Z.shiftr triple 8) 255) o ;;
        o <- put out_len (Z.land (Z.shiftr triple 0) 255) o ;;
        decode_loop n' base64Data in_len out_len (i + 4) o
      else Ret (fst o)
  end.

(** [std::vector<char> Decode(const std::string& base64Data)] *)
Definition Decode (base64Data : string) : outcome (list ascii) :=
  let in_len := Z.of_nat (String.length base64Data) in
  if negb (in_len mod 4 =? 0)%Z then Ret []
  else
    let out_len := (in_len / 4 * 3)%Z in
    c <- char_of base64Data (size_t (in_len - 1)) ;;
    let out_len := if (c =? "=")%char then size_t (out_len - 1) else out_len in
    c <- char_of base64Data (size_t (in_len - 2)) ;;
    let out_len := if (c =? "=")%char then size_t (out_len - 1) else out_len in
    let out := repeat NUL (Z.to_nat out_len) in
    decode_loop (S (String.length base64Data)) base64Data in_len out_len 0 (out, 0%Z).

(** *** The text of a row of bytes, group by group *)

(** The character [sEncodingTable] holds at [index]. *)
Definition letter (index : Z) : ascii := nth (Z.to_nat index) sEncodingTable NUL.

Fixpoint encoded (data : list ascii) : list ascii :=
  match data with
  | x :: y :: z :: data' =>
      letter (index1 (char_to_int x))
      :: letter (index2 (char_to_int x) (char_to_int y))
      :: letter (index3 (char_to_int y) (char_to_int z))
      :: letter (index4 (char_to_int z))
      :: encoded data'
  | [x; y] =>
      [letter (index1 (char_to_int x));
       letter (index2 (char_to_int x) (char_to_int y));
       letter (Z.shiftl (Z.land (char_to_int y) 15) 2); "="%char]
  | [x] =>
      [letter (index1 (char_to_int x));
       letter (Z.shiftl (Z.land (char_to_int x) 3) 4); "="%char; "="%char]
  | [] => []
  end.

(** *** Notions of the statements on Base64 *)

(** The byte a [char] holds, from 0 to 255. *)
Definition byte_val (c : ascii) : Z := Z.of_N (N_of_ascii c).

(** An entry of [sEncodingTable] read, and read back through
    [kDecodingTable]. *)
Definition letter_ok (k : nat) : bool :=
  let s := Z.of_nat k in
  match element sEncodingTable s, element kDecodingTable (char_to_int (letter s)) with
  | Ret c, Ret v =>
      (c =? letter s)%char && negb (letter s =? "=")%char && (v =? s)%Z
      && (0 <=? char_to_int (letter s))%Z
  | _, _ => false
  end.

(** The characters [Encode] writes. *)
Definition base64_char (c : ascii) : bool :=
  existsb (Ascii.eqb c) sEncodingTable || (c =? "=")%char.

(** A character of the ASCII range: a [char] that is not negative. *)
Definition is_ascii (c : ascii) : bool := (0 <=? char_to_int c)%Z.

(** 1 for a [=] at [k] places before the end of [s]. *)
Definition pad_at (s : string) (k : nat) : Z :=
  match String.get (String.length s - k) s with
  | Some c => if (c =? "=")%char then 1%Z else 0%Z
  | None => 0%Z
  end.

End Base64.

(** [Blob::toBase64] and [Blob::loadBase64] of Blob.h, a [Blob] being a
    [std::vector<char>]: the text of the data, and the blob after the
    assignment of the decoded text. *)
Definition toBase64 (this : list ascii) : outcome string := Base64.Encode this.

Definition loadBase64 (this : list ascii) (data : string) : outcome (list ascii) :=
  Base64.Decode data.

(** * Properties *)

(** ** Strings and reads *)

Lemma append_assoc (s1 s2 s3 : string) : (s1 ++ s2) ++ s3 = s1 ++ (s2 ++ s3).
Proof. induction s1 as [|c s1 IH]; simpl; [reflexivity | now rewrite IH]. Qed.

Lemma append_nil_r (s : string) : s ++ "" = s.
Proof. induction s as [|c s IH]; simpl; [reflexivity | now rewrite IH]. Qed.

Lemma length_append (s1 s2 : string) :
  String.length (s1 ++ s2) = String.length s1 + String.length s2.
Proof. induction s1 as [|c s1 IH]; simpl; [reflexivity | now rewrite IH]. Qed.

Lemma get_append_at (pre : string) (c : ascii) (s : string) :
  String.get (String.length pre) (pre ++ String c s) = Some c.
Proof. induction pre as [|a pre IH]; simpl; [reflexivity | exact IH]. Qed.

Lemma get_length (pre : string) : String.get (String.length pre) pre = None.
Proof. induction pre as [|a pre IH]; simpl; [reflexivity | exact IH]. Qed.

Lemma substring_append (pre s rest : string) :
  String.substring (String.length pre) (String.length s) (pre ++ s ++ rest) = s.
Proof.
  induction pre as [|a pre IH]; simpl; [| exact IH].
  induction s as [|c s IHs]; simpl.
  - destruct rest; reflexivity.
  - now rewrite IHs.
Qed.

Lemma reads_start (s : string) : reads s 0 s.
Proof. exists ""; split; reflexivity. Qed.

Lemma reads_char (str : string) (o : nat) (c : ascii) (s : string) :
  reads str o (String c s) -> char_at str o = Ret c.
Proof.
  intros (pre & -> & <-). unfold char_at. now rewrite get_append_at.
Qed.

Lemma reads_next (str : string) (o : nat) (c : ascii) (s : string) :
  reads str o (String c s) -> reads str (S o) s.
Proof.
  intros (pre & -> & <-). exists (pre ++ str1 c); split.
  - now rewrite append_assoc.
  - rewrite length_append; simpl; lia.
Qed.

Lemma reads_app (str : string) (o : nat) (s1 s2 : string) :
  reads str o (s1 ++ s2) -> reads str (o + String.length s1) s2.
Proof.
  intros (pre & -> & <-). exists (pre ++ s1); split.
  - now rewrite append_assoc.
  - now rewrite length_append.
Qed.

Lemma reads_end (str : string) (o : nat) : reads str o "" -> char_at str o = Ret NUL.
Proof.
  intros (pre & -> & <-). unfold char_at.
  rewrite append_nil_r, get_length, Nat.eqb_refl. reflexivity.
Qed.

Lemma reads_length (str : string) (o : nat) (s : string) :
  reads str o s -> o + String.length s = String.length str.
Proof. intros (pre & -> & <-). now rewrite length_append. Qed.

Lemma reads_substr (str : string) (o : nat) (s rest : string) :
  reads str o (s ++ rest) -> substr str o (String.length s) = Ret s.
Proof.
  intros (pre & -> & <-). unfold substr.
  rewrite length_append, substring_append.
  destruct (Nat.leb_spec (String.length pre)
              (String.length pre + String.length (s ++ rest))); [reflexivity | lia].
Qed.

Lemma consume_ws_stay (str : string) (o : nat) (c : ascii) (s : string) :
  reads str o (String c s) -> isspace c = false -> consume_ws str o = Ret o.
Proof.
  intros Hr Hc. unfold consume_ws, steps. simpl.
  rewrite (reads_char _ _ _ _ Hr). simpl. now rewrite Hc.
Qed.

Lemma Class_eqb_spec (a b : Class.t) : reflect (a = b) (Class.eqb a b).
Proof. destruct a, b; simpl; constructor; congruence. Qed.

(** ** Integers and their text *)

Lemma read_digits_stop (rest : string) (acc : Z) (seen : bool) :
  starts_digit rest = false -> read_digits rest acc seen = (acc, seen, rest).
Proof.
  destruct rest as [|c rest]; simpl; [reflexivity |].
  now intros ->.
Qed.

Lemma read_digits_uint (d : Decimal.uint) (rest : string) :
  starts_digit rest = false ->
  forall acc seen,
    read_digits (NilEmpty.string_of_uint d ++ rest) acc seen
    = (uint_val d acc,
       seen || match d with Decimal.Nil => false | _ => true end, rest).
Proof.
  intros Hrest.
  induction d as [|d IH|d IH|d IH|d IH|d IH|d IH|d IH|d IH|d IH|d IH];
    intros acc seen;
    [ simpl; rewrite (read_digits_stop _ _ _ Hrest); now rewrite orb_false_r
    | simpl; rewrite IH; rewrite orb_true_r; reflexivity .. ].
Qed.

Lemma uint_val_pos (d : Decimal.uint) :
  forall p, uint_val d (Zpos p) = Zpos (Pos.of_uint_acc d p).
Proof.
  induction d as [|d IH|d IH|d IH|d IH|d IH|d IH|d IH|d IH|d IH|d IH];
    intros p; cbn [uint_val Pos.of_uint_acc];
    [reflexivity | rewrite <- IH; f_equal; lia ..].
Qed.

Lemma uint_val_zero (d : Decimal.uint) : uint_val d 0 = Z.of_uint d.
Proof.
  unfold Z.of_uint.
  induction d as [|d IH|d IH|d IH|d IH|d IH|d IH|d IH|d IH|d IH|d IH];
    simpl; [reflexivity | exact IH | apply uint_val_pos ..].
Qed.

Lemma digits_all (d : Decimal.uint) :
  all_chars is_digit (NilEmpty.string_of_uint d) = true.
Proof.
  induction d as [|d IH|d IH|d IH|d IH|d IH|d IH|d IH|d IH|d IH|d IH];
    simpl; [reflexivity | exact IH ..].
Qed.

Lemma digits_start (d : Decimal.uint) :
  d <> Decimal.Nil -> starts_digit (NilEmpty.string_of_uint d) = true.
Proof. destruct d; intros H; [congruence | reflexivity ..]. Qed.

(** The text of an integer: a sign and a row of digits with its value. *)
Lemma to_string_spec (z : Z) :
  exists d, d <> Decimal.Nil /\
    to_string z = (if (z <? 0)%Z then "-" else "") ++ NilEmpty.string_of_uint d /\
    Z.of_uint d = Z.abs z.
Proof.
  destruct z as [|p|p]; unfold to_string; simpl.
  - exists (Decimal.D0 Decimal.Nil); repeat split; congruence.
  - exists (Pos.to_uint p); split; [apply DecimalPos.Unsigned.to_uint_nonnil |].
    split.
    + unfold NilZero.string_of_uint.
      destruct (Pos.to_uint p) eqn:E; try reflexivity.
      now apply DecimalPos.Unsigned.to_uint_nonnil in E.
    + unfold Z.of_uint. now rewrite DecimalPos.Unsigned.of_to.
  - exists (Pos.to_uint p); split; [apply DecimalPos.Unsigned.to_uint_nonnil |].
    split.
    + unfold NilZero.string_of_uint.
      destruct (Pos.to_uint p) eqn:E; try reflexivity.
      now apply DecimalPos.Unsigned.to_uint_nonnil in E.
    + unfold Z.of_uint. now rewrite DecimalPos.Unsigned.of_to.
Qed.

(** ** Facts on characters *)

Ltac char_cases c := destruct c as [[] [] [] [] [] [] [] []].

Lemma digit_char (c : ascii) :
  is_digit c = true ->
  isspace c = false /\ (c =? "-")%char = false /\ (c =? "+")%char = false
  /\ (c =? ".")%char = false /\ num_char c = true.
Proof. char_cases c; intros H; try discriminate H; repeat split; reflexivity. Qed.

Lemma ends_number_char (c : ascii) :
  ends_number c = true ->
  is_digit c = false /\ (c =? "-")%char = false /\ (c =? ".")%char = false
  /\ (c =? "E")%char = false /\ (c =? "e")%char = false.
Proof. char_cases c; intros H; try discriminate H; repeat split; reflexivity. Qed.

Lemma num_char_no_space (c : ascii) : num_char c = true -> isspace c = false.
Proof. char_cases c; intros H; try discriminate H; reflexivity. Qed.

Lemma skip_space_digit (s : string) : starts_digit s = true -> skip_space s = s.
Proof.
  destruct s as [|c s]; simpl; [reflexivity |].
  intros H. now destruct (digit_char c H) as (-> & _).
Qed.

Lemma take_sign_digit (plus : bool) (s : string) :
  starts_digit s = true -> take_sign plus s = (false, s).
Proof.
  destruct s as [|c s]; simpl; [reflexivity |].
  intros H. destruct (digit_char c H) as (_ & -> & -> & _).
  now rewrite andb_false_r.
Qed.

(** ** Reading the text of an integer *)

Lemma read_digits_text (d : Decimal.uint) (rest : string) :
  d <> Decimal.Nil -> starts_digit rest = false ->
  read_digits (NilEmpty.string_of_uint d ++ rest) 0 false = (Z.of_uint d, true, rest).
Proof.
  intros Hd Hrest. rewrite (read_digits_uint d rest Hrest), uint_val_zero.
  destruct d; try reflexivity. congruence.
Qed.

Lemma starts_digit_app (s rest : string) :
  starts_digit s = true -> starts_digit (s ++ rest) = true.
Proof. destruct s; simpl; [discriminate | trivial]. Qed.

(** [std::stol] and [std::from_chars] on the text of [z] followed by
    something that is not a digit. *)
Lemma stol_to_string (z : Z) (rest : string) :
  starts_digit rest = false ->
  stol (to_string z ++ rest) = if in_llong z then Ret z else Throw out_of_range.
Proof.
  intros Hrest. destruct (to_string_spec z) as (d & Hd & E & V). rewrite E.
  unfold stol. destruct (Z.ltb_spec z 0) as [Hz|Hz].
  - change (("-" ++ NilEmpty.string_of_uint d) ++ rest)
      with (String "-" (NilEmpty.string_of_uint d ++ rest)).
    cbn [skip_space]. change (isspace "-") with false. cbv iota.
    cbn [take_sign]. change ("-" =? "-")%char with true. cbv iota.
    rewrite (read_digits_text d rest Hd Hrest), V.
    replace (- Z.abs z)%Z with z by lia. reflexivity.
  - change ("" ++ NilEmpty.string_of_uint d) with (NilEmpty.string_of_uint d).
    pose proof (starts_digit_app _ rest (digits_start d Hd)) as Hs.
    rewrite (skip_space_digit _ Hs), (take_sign_digit _ _ Hs).
    rewrite (read_digits_text d rest Hd Hrest), V.
    replace (Z.abs z) with z by lia. reflexivity.
Qed.

Lemma from_chars_to_string (fits : Z -> bool) (z : Z) (rest : string) :
  starts_digit rest = false ->
  from_chars fits (to_string z ++ rest) = if fits z then Some z else None.
Proof.
  intros Hrest. destruct (to_string_spec z) as (d & Hd & E & V). rewrite E.
  unfold from_chars. destruct (Z.ltb_spec z 0) as [Hz|Hz].
  - change (("-" ++ NilEmpty.string_of_uint d) ++ rest)
      with (String "-" (NilEmpty.string_of_uint d ++ rest)).
    cbn [take_sign]. change ("-" =? "-")%char with true. cbv iota.
    rewrite (read_digits_text d rest Hd Hrest), V.
    replace (- Z.abs z)%Z with z by lia. reflexivity.
  - change ("" ++ NilEmpty.string_of_uint d) with (NilEmpty.string_of_uint d).
    pose proof (starts_digit_app _ rest (digits_start d Hd)) as Hs.
    rewrite (take_sign_digit _ _ Hs).
    rewrite (read_digits_text d rest Hd Hrest), V.
    replace (Z.abs z) with z by lia. reflexivity.
Qed.

Lemma from_chars_no_integer (fits : Z -> bool) (s : string) :
  starts_integer s = false -> from_chars fits s = None.
Proof.
  unfold starts_integer, from_chars. destruct (take_sign false s) as [neg t]. simpl.
  intros H. now rewrite (read_digits_stop t 0 false H).
Qed.

Lemma all_chars_app (f : ascii -> bool) (s1 s2 : string) :
  all_chars f (s1 ++ s2) = all_chars f s1 && all_chars f s2.
Proof. induction s1 as [|c s1 IH]; simpl; [reflexivity | now rewrite IH, andb_assoc]. Qed.

Lemma all_chars_weaken (f g : ascii -> bool) (s : string) :
  (forall c, f c = true -> g c = true) -> all_chars f s = true -> all_chars g s = true.
Proof.
  intros Hfg. induction s as [|c s IH]; simpl; [trivial |].
  intros H. apply andb_true_iff in H as [Hc Hs]. now rewrite (Hfg c Hc), IH.
Qed.

Lemma has_dot_app (s1 s2 : string) : has_dot (s1 ++ s2) = has_dot s1 || has_dot s2.
Proof. induction s1 as [|c s1 IH]; simpl; [reflexivity | now rewrite IH, orb_assoc]. Qed.

Lemma digits_no_dot (s : string) : all_chars is_digit s = true -> has_dot s = false.
Proof.
  induction s as [|c s IH]; simpl; [trivial |].
  intros H. apply andb_true_iff in H as [Hc Hs].
  destruct (digit_char c Hc) as (_ & _ & _ & -> & _). now apply IH.
Qed.

(** The text of an integer is made of what [parse_number] collects, starts
    as a number does and has no point. *)
Lemma to_string_text (z : Z) :
  number_start (to_string z) = true /\ all_chars num_char (to_string z) = true
  /\ has_dot (to_string z) = false.
Proof.
  destruct (to_string_spec z) as (d & Hd & E & _). rewrite E.
  pose proof (digits_all d) as Hall. pose proof (digits_start d Hd) as Hst.
  assert (Hnum : all_chars num_char (NilEmpty.string_of_uint d) = true).
  { revert Hall. apply all_chars_weaken. intros c Hc. now apply digit_char. }
  destruct (z <? 0)%Z.
  - change ("-" ++ NilEmpty.string_of_uint d) with (String "-" (NilEmpty.string_of_uint d)).
    repeat split; simpl; trivial. now apply digits_no_dot.
  - change ("" ++ NilEmpty.string_of_uint d) with (NilEmpty.string_of_uint d).
    repeat split; trivial.
    + destruct (NilEmpty.string_of_uint d); simpl in *; [discriminate | now rewrite Hst].
    + now apply digits_no_dot.
Qed.

(** ** Strings: escaping and reading back *)

Lemma escape_char_length (c : ascii) : 1 <= String.length (escape_char c).
Proof.
  unfold escape_char.
  repeat match goal with |- context [if ?b then _ else _] => destruct b end;
    simpl; lia.
Qed.

(** The two characters of an escape, met by the loop of [parse_string]. *)
Ltac escaped_char :=
  let H := fresh "H" in
  let H1 := fresh "H" in
  intros H; pose proof (reads_next _ _ _ _ H) as H1;
  cbn [parse_string_loop]; rewrite (reads_char _ _ _ _ H); cbn [bind];
  change (BSL =? DQ)%char with false; change (BSL =? BSL)%char with true; cbv iota;
  rewrite (reads_char _ _ _ _ H1); cbn [bind];
  simpl String.length;
  match goal with |- context [?o + 2] => now replace (o + 2) with (S (S o)) by lia end.

(** One character of a string, escaped and read back. *)
Lemma parse_string_loop_char (c : ascii) (n : nat) (str : string) (o : nat)
  (val : string) (ok : bool) (rest : string) :
  reads str o (escape_char c ++ rest) ->
  parse_string_loop (S n) str o val ok
  = parse_string_loop n str (o + String.length (escape_char c)) (val ++ str1 c) ok.
Proof.
  unfold escape_char.
  destruct (c =? DQ)%char eqn:E1; [apply Ascii.eqb_eq in E1; subst c; escaped_char |].
  destruct (c =? BSL)%char eqn:E2; [apply Ascii.eqb_eq in E2; subst c; escaped_char |].
  destruct (c =? BS)%char eqn:E3; [apply Ascii.eqb_eq in E3; subst c; escaped_char |].
  destruct (c =? FF)%char eqn:E4; [apply Ascii.eqb_eq in E4; subst c; escaped_char |].
  destruct (c =? LF)%char eqn:E5; [apply Ascii.eqb_eq in E5; subst c; escaped_char |].
  destruct (c =? CR)%char eqn:E6; [apply Ascii.eqb_eq in E6; subst c; escaped_char |].
  destruct (c =? HT)%char eqn:E7; [apply Ascii.eqb_eq in E7; subst c; escaped_char |].
  intros H. cbn [parse_string_loop]. rewrite (reads_char _ _ _ _ H). cbn [bind].
  rewrite E1, E2. simpl String.length. now replace (o + 1) with (S o) by lia.
Qed.

Lemma parse_string_loop_escape (s : string) :
  forall n str o val ok rest,
    String.length (json_escape s) < n ->
    reads str o (json_escape s ++ String DQ rest) ->
    parse_string_loop n str o val ok
    = Ret (JString (val ++ s), o + String.length (json_escape s) + 1, ok).
Proof.
  induction s as [|c s IH]; intros n str o val ok rest Hn H.
  - destruct n as [|n]; [simpl in Hn; lia |].
    simpl in H. cbn [parse_string_loop]. rewrite (reads_char _ _ _ _ H). cbn [bind].
    change (DQ =? DQ)%char with true. cbv iota.
    rewrite append_nil_r. simpl. now replace (o + 0 + 1) with (S o) by lia.
  - destruct n as [|n]; [simpl in Hn; lia |].
    cbn [json_escape] in *. rewrite append_assoc in H.
    rewrite length_append in *. pose proof (escape_char_length c) as Hc.
    rewrite (parse_string_loop_char c n str o val ok _ H).
    rewrite (IH n str _ (val ++ str1 c) ok rest); [| lia | now apply reads_app in H].
    rewrite append_assoc. simpl. do 3 f_equal. lia.
Qed.

(** A string value, printed and read back. *)
Lemma parse_string_dump (s : string) (str : string) (o : nat) (ok : bool) (rest : string) :
  reads str o (dumpMinified (JString s) ++ rest) ->
  parse_string str o ok
  = Ret (JString s, o + String.length (dumpMinified (JString s)), ok).
Proof.
  intros H. cbn [dumpMinified] in *. unfold str1 in *.
  cbn [String.append] in H. rewrite append_assoc in H. cbn [String.append] in H.
  pose proof (reads_length _ _ _ H) as HL.
  cbn [String.length] in HL. rewrite length_append in HL. cbn [String.length] in HL.
  unfold parse_string, steps.
  rewrite (parse_string_loop_escape s _ str (S o) "" ok rest);
    [| lia | now apply reads_next in H].
  cbn [String.append String.length]. rewrite length_append. cbn [String.length].
  do 3 f_equal. lia.
Qed.

(** ** Numbers read back *)

Lemma number_loop_text (s : string) :
  forall n str o val isD t rest,
    all_chars num_char s = true -> num_char t = false ->
    String.length s < n -> reads str o (s ++ String t rest) ->
    number_loop n str o val isD
    = Ret (t, o + String.length s + 1, val ++ s, isD || has_dot s).
Proof.
  induction s as [|c s IH]; intros n str o val isD t rest Hall Ht Hn H;
    (destruct n as [|n]; [simpl in Hn; lia |]).
  - simpl in H. cbn [number_loop]. rewrite (reads_char _ _ _ _ H). cbn [bind].
    unfold num_char in Ht. apply orb_false_iff in Ht as [-> ->].
    rewrite append_nil_r, orb_false_r. simpl. now replace (o + 0 + 1) with (S o) by lia.
  - simpl in H, Hall, Hn. apply andb_true_iff in Hall as [Hc Hall].
    cbn [number_loop]. rewrite (reads_char _ _ _ _ H). cbn [bind].
    apply reads_next in H.
    replace (val ++ String c s) with ((val ++ str1 c) ++ s)
      by (now rewrite append_assoc).
    replace (o + String.length (String c s) + 1) with (S o + String.length s + 1)
      by (simpl; lia).
    unfold num_char in Hc.
    destruct ((c =? "-")%char || is_digit c) eqn:E.
    + rewrite (IH n str (S o) _ isD t rest Hall Ht); [| lia | exact H].
      assert (Hdot : (c =? ".")%char = false).
      { apply orb_true_iff in E as [E|E].
        - apply Ascii.eqb_eq in E. now subst c.
        - now destruct (digit_char c E) as (_ & _ & _ & -> & _). }
      simpl. now rewrite Hdot.
    + simpl in Hc. rewrite Hc.
      rewrite (IH n str (S o) _ true t rest Hall Ht); [| lia | exact H].
      simpl. rewrite Hc. simpl. now rewrite orb_true_r.
Qed.

(** A number whose text [t] reads as [v], behind which the buffer goes on
    with something a number may end on. *)
Lemma parse_number_text (t : string) (v : JSON) (str : string) (o : nat)
  (ok : bool) (rest : string) :
  all_chars num_char t = true -> stops rest = true ->
  number_value t "" (has_dot t) 0 = Ret v ->
  reads str o (t ++ rest) ->
  parse_number str o ok = Ret (v, o + String.length t, ok).
Proof.
  intros Hall Hstop Hv H.
  destruct rest as [|e rest]; [discriminate Hstop |]. simpl in Hstop.
  destruct (ends_number_char e Hstop) as (He1 & He2 & He3 & He4 & He5).
  pose proof (reads_length _ _ _ H) as HL. rewrite length_append in HL. simpl in HL.
  unfold parse_number.
  rewrite (number_loop_text t (steps str) str o "" false e rest Hall); trivial;
    [| unfold num_char; now rewrite He1, He2, He3 | unfold steps; lia].
  cbn [bind]. rewrite He4, He5, Hstop. simpl orb. cbv iota. simpl negb. cbv iota.
  change ("" ++ t) with t. rewrite Hv. cbn [bind].
  now replace (pred (o + String.length t + 1)) with (o + String.length t) by lia.
Qed.

Lemma number_value_to_string (i : Z) :
  in_llong i = true ->
  number_value (to_string i) "" (has_dot (to_string i)) 0 = Ret (JIntegral i).
Proof.
  intros Hi. destruct (to_string_text i) as (_ & _ & ->).
  unfold number_value. simpl.
  rewrite <- (append_nil_r (to_string i)), (stol_to_string i "" eq_refl), Hi.
  reflexivity.
Qed.

(** ** The ordered map *)

Lemma compare_refl (s : string) : String.compare s s = Eq.
Proof.
  pose proof (String.compare_antisym s s) as H.
  destruct (String.compare s s); simpl in H; congruence.
Qed.

Lemma key_lt_gt (a b : string) : key_lt a b -> String.compare b a = Gt.
Proof. unfold key_lt. intros H. now rewrite String.compare_antisym, H. Qed.

Lemma key_lt_neq (a b : string) : key_lt a b -> (b =? a)%string = false.
Proof.
  intros H. apply String.eqb_neq. intros ->.
  unfold key_lt in H. rewrite compare_refl in H. discriminate.
Qed.

Lemma map_find_put (key : string) (v : JSON) (m : list (string * JSON)) :
  map_find key (map_put key v m) = Some v.
Proof.
  induction m as [|[k x] m IH]; simpl.
  - now rewrite String.eqb_refl.
  - destruct (String.compare key k) eqn:E; simpl.
    + now rewrite String.eqb_refl.
    + now rewrite String.eqb_refl.
    + assert (Hne : (key =? k)%string = false).
      { apply String.eqb_neq. intros ->. rewrite compare_refl in E. discriminate. }
      now rewrite Hne.
Qed.

Lemma map_put_put (key : string) (v1 v2 : JSON) (m : list (string * JSON)) :
  map_put key v2 (map_put key v1 m) = map_put key v2 m.
Proof.
  induction m as [|[k x] m IH]; simpl.
  - now rewrite compare_refl.
  - destruct (String.compare key k) eqn:E; simpl.
    + now rewrite compare_refl.
    + now rewrite compare_refl.
    + now rewrite E, IH.
Qed.

Lemma map_find_above (key : string) (m : list (string * JSON)) :
  Forall (fun kv => key_lt (fst kv) key) m -> map_find key m = None.
Proof.
  induction 1 as [|[k x] m Hk _ IH]; simpl; [reflexivity |].
  simpl in Hk. now rewrite (key_lt_neq _ _ Hk).
Qed.

Lemma map_put_above (key : string) (v : JSON) (m : list (string * JSON)) :
  Forall (fun kv => key_lt (fst kv) key) m ->
  map_put key v m = (m ++ [(key, v)])%list.
Proof.
  induction 1 as [|[k x] m Hk _ IH]; simpl; [reflexivity |].
  simpl in Hk. now rewrite (key_lt_gt _ _ Hk), IH.
Qed.

Lemma map_put_last (key : string) (x v : JSON) (m : list (string * JSON)) :
  Forall (fun kv => key_lt (fst kv) key) m ->
  map_put key v (m ++ [(key, x)])%list = (m ++ [(key, v)])%list.
Proof.
  induction 1 as [|[k y] m Hk _ IH]; simpl.
  - now rewrite compare_refl.
  - simpl in Hk. now rewrite (key_lt_gt _ _ Hk), IH.
Qed.

(** An entry with a key above all the keys of the map goes to its end. *)
Lemma assign_key_above (key : string) (v : JSON) (m : list (string * JSON)) :
  Forall (fun kv => key_lt (fst kv) key) m ->
  assign_key (JObject m) key v = JObject (m ++ [(key, v)])%list.
Proof.
  intros H. unfold assign_key, subscript_key, map_subscript. simpl.
  rewrite (map_find_above _ _ H), (map_put_above _ _ _ H). simpl.
  now rewrite (map_put_last _ _ _ _ H).
Qed.

Lemma sorted_keys_below (done todo : list (string * JSON)) (k : string) (x : JSON) :
  sorted_keys (done ++ (k, x) :: todo)%list ->
  Forall (fun kv => key_lt (fst kv) k) done.
Proof.
  induction done as [|[k' x'] done IH]; simpl; [constructor |].
  intros [Hall Hs]. constructor.
  - apply Forall_app in Hall as [_ Hall]. now inversion Hall.
  - now apply IH.
Qed.

Lemma fold_assign_sorted (todo : list (string * JSON)) :
  forall done,
    sorted_keys (done ++ todo)%list ->
    fold_left (fun O kv => assign_key O (fst kv) (snd kv)) todo (JObject done)
    = JObject (done ++ todo)%list.
Proof.
  induction todo as [|[k x] todo IH]; intros done Hs; simpl.
  - now rewrite app_nil_r.
  - rewrite (assign_key_above k x done (sorted_keys_below _ _ _ _ Hs)).
    rewrite IH; rewrite <- app_assoc; [reflexivity | exact Hs].
Qed.

(** ** The array under indexed access *)

Lemma resize_grow (l : list JSON) (k : nat) :
  resize (List.length l + k) l = (l ++ repeat JNull k)%list.
Proof.
  unfold resize. rewrite firstn_all2 by lia. f_equal. f_equal. lia.
Qed.

Lemma list_set_last (l : list JSON) (x v : JSON) :
  list_set (l ++ [x])%list (List.length l) v = (l ++ [v])%list.
Proof. induction l as [|y l IH]; simpl; [reflexivity | now rewrite IH]. Qed.

(** [Array[index] = v] at the index behind the last element appends. *)
Lemma assign_index_push (l : list JSON) (v : JSON) :
  (Z.of_nat (List.length l) + 1 < UINT_MOD)%Z ->
  assign_index (JArray l) (Z.of_nat (List.length l)) v = Ret (JArray (l ++ [v])%list).
Proof.
  intros Hlen. unfold assign_index, subscript_index.
  change (SetType Class.Array (JArray l)) with (JArray l). cbv iota.
  rewrite Z.leb_refl, Z.mod_small by lia.
  replace (Z.to_nat (Z.of_nat (List.length l) + 1)) with (List.length l + 1) by lia.
  rewrite resize_grow. simpl repeat.
  rewrite length_app. simpl List.length.
  destruct (Z.ltb_spec (Z.of_nat (List.length l)) (Z.of_nat (List.length l + 1))); [| lia].
  cbn [bind]. unfold store_index. rewrite Nat2Z.id. now rewrite list_set_last.
Qed.

(** ** The text of a value *)

Lemma value_start_char (c : ascii) :
  value_start c = true ->
  isspace c = false /\ (c =? "]")%char = false /\ (c =? "}")%char = false.
Proof. char_cases c; intros H; try discriminate H; repeat split; reflexivity. Qed.

Lemma number_start_char (c : ascii) :
  is_digit c || (c =? "-")%char = true ->
  value_start c = true /\ (c =? "[")%char = false /\ (c =? "{")%char = false
  /\ (c =? DQ)%char = false /\ (c =? "t")%char = false /\ (c =? "f")%char = false
  /\ (c =? "n")%char = false.
Proof. char_cases c; intros H; try discriminate H; repeat split; reflexivity. Qed.

Lemma number_start_value (s : string) : number_start s = true -> starts_value s = true.
Proof.
  destruct s as [|c s]; simpl; [discriminate |].
  intros H. now destruct (number_start_char c H) as (-> & _).
Qed.

Lemma reads_back_start (x : JSON) : reads_back x -> starts_value (dumpMinified x) = true.
Proof.
  destruct 1 as [|b|s|i Hi|d (Hd & _)|l|m]; cbn [dumpMinified]; try reflexivity.
  - destruct b; reflexivity.
  - apply number_start_value. now destruct (to_string_text i) as (-> & _).
  - now apply number_start_value.
Qed.

Lemma dump_elements_cons (x : JSON) (l : list JSON) :
  dump_elements dumpMinified (x :: l) true
  = dumpMinified x ++ dump_elements dumpMinified l false.
Proof. reflexivity. Qed.

Lemma dump_elements_more (l : list JSON) :
  l <> [] ->
  dump_elements dumpMinified l false = String "," (dump_elements dumpMinified l true).
Proof. destruct l; [congruence | reflexivity]. Qed.

Lemma dump_entries_cons (s : string) (x : JSON) (m : list (string * JSON)) :
  dump_entries dumpMinified ((json_escape s, x) :: m) true
  = dumpMinified (JString s)
    ++ String ":" (dumpMinified x ++ dump_entries dumpMinified m false).
Proof.
  cbn [dump_entries dumpMinified]. unfold str1. cbn [String.append].
  f_equal. rewrite !append_assoc. cbn [String.append]. reflexivity.
Qed.

Lemma dump_entries_more (m : list (string * JSON)) :
  m <> [] ->
  dump_entries dumpMinified m false = String "," (dump_entries dumpMinified m true).
Proof. destruct m as [|[k x] m]; [congruence | reflexivity]. Qed.

Lemma stops_elements (l : list JSON) (rest : string) :
  stops (dump_elements dumpMinified l false ++ String "]" rest) = true.
Proof. destruct l; reflexivity. Qed.

Lemma stops_entries (m : list (string * JSON)) (rest : string) :
  stops (dump_entries dumpMinified m false ++ String "}" rest) = true.
Proof. destruct m as [|[k x] m]; reflexivity. Qed.

(** ** The loops over elements and entries *)

Lemma parse_array_loop_dump (rec : parser) (todo : list JSON) :
  forall done n str o ok rest,
    Forall (parses_back rec) todo -> todo <> [] ->
    (Z.of_nat (List.length done + List.length todo) < UINT_MOD)%Z ->
    String.length (dump_elements dumpMinified todo true) < n ->
    reads str o (dump_elements dumpMinified todo true ++ String "]" rest) ->
    parse_array_loop rec n str (JArray done) (Z.of_nat (List.length done)) o ok
    = Ret (JArray (done ++ todo)%list,
           o + String.length (dump_elements dumpMinified todo true) + 1, ok).
Proof.
  induction todo as [|x todo IH]; intros done n str o ok rest Hall Hne Hlen Hn H;
    [congruence |].
  unfold UINT_MOD in Hlen.
  inversion Hall as [|? ? Hx Hrest]; subst.
  destruct n as [|n]; [lia |].
  rewrite dump_elements_cons in *. rewrite append_assoc in H.
  rewrite length_append in Hn.
  cbn [parse_array_loop].
  rewrite (Hx str o ok _ H (fun _ => stops_elements todo rest)). cbn [bind].
  simpl List.length in Hlen.
  rewrite assign_index_push by (unfold UINT_MOD; lia). cbn [bind].
  apply reads_app in H.
  assert (Hidx : ((Z.of_nat (List.length done) + 1) mod UINT_MOD)%Z
                 = Z.of_nat (List.length (done ++ [x])%list)).
  { rewrite Z.mod_small, length_app by (unfold UINT_MOD; lia). simpl. lia. }
  rewrite Hidx. clear Hidx.
  destruct todo as [|y todo].
  - simpl in H. rewrite (consume_ws_stay _ _ _ _ H eq_refl). cbn [bind].
    rewrite (reads_char _ _ _ _ H). cbn [bind].
    change ("]" =? ",")%char with false. change ("]" =? "]")%char with true. cbv iota.
    rewrite length_append. simpl. do 3 f_equal. lia.
  - rewrite dump_elements_more in * by congruence.
    cbn [String.append] in H.
    rewrite (consume_ws_stay _ _ _ _ H eq_refl). cbn [bind].
    rewrite (reads_char _ _ _ _ H). cbn [bind].
    change ("," =? ",")%char with true. cbv iota.
    apply reads_next in H.
    rewrite (IH (done ++ [x])%list n str _ ok rest Hrest); trivial;
      [| congruence | unfold UINT_MOD; rewrite length_app; cbn [List.length] in *; lia
       | cbn [String.length] in Hn; lia].
    rewrite <- app_assoc. cbn [List.app]. rewrite length_append.
    cbn [String.length]. do 3 f_equal. lia.
Qed.

Lemma consume_ws_value (str : string) (o : nat) (t rest : string) :
  reads str o (t ++ rest) -> starts_value t = true -> consume_ws str o = Ret o.
Proof.
  destruct t as [|c t]; simpl; [discriminate |].
  intros H Hc. destruct (value_start_char c Hc) as (Hs & _).
  exact (consume_ws_stay _ _ _ _ H Hs).
Qed.

Lemma parse_object_loop_dump (rec : parser) (todo : list (string * JSON)) :
  (forall s, parses_back rec (JString s)) ->
  forall Obj n str o ok rest,
    Forall (fun kv => escaped_key (fst kv) /\ parses_back rec (snd kv)
                      /\ starts_value (dumpMinified (snd kv)) = true) todo ->
    todo <> [] ->
    String.length (dump_entries dumpMinified todo true) < n ->
    reads str o (dump_entries dumpMinified todo true ++ String "}" rest) ->
    parse_object_loop rec n str Obj o ok
    = Ret (fold_left (fun O kv => assign_key O (fst kv) (snd kv)) todo Obj,
           o + String.length (dump_entries dumpMinified todo true) + 1, ok).
Proof.
  intros Hstr.
  induction todo as [|[k x] todo IH]; intros Obj n str o ok rest Hall Hne Hn H;
    [congruence |].
  inversion Hall as [|? ? ((s & Hk) & Hx & Hv) Hrest]; subst. simpl in Hk. subst k.
  destruct n as [|n]; [lia |].
  rewrite dump_entries_cons in *.
  replace ((dumpMinified (JString s)
            ++ String ":" (dumpMinified x ++ dump_entries dumpMinified todo false))
           ++ String "}" rest)
    with (dumpMinified (JString s)
          ++ String ":" (dumpMinified x
                         ++ dump_entries dumpMinified todo false ++ String "}" rest))
    in H by (rewrite !append_assoc; cbn [String.append]; now rewrite append_assoc).
  rewrite length_append in Hn. cbn [String.length] in Hn. rewrite length_append in Hn.
  cbn [parse_object_loop].
  rewrite (Hstr s str o ok _ H) by discriminate. cbn [bind].
  apply reads_app in H.
  rewrite (consume_ws_stay _ _ _ _ H eq_refl). cbn [bind].
  rewrite (reads_char _ _ _ _ H). cbn [bind].
  change (":" =? ":")%char with true. cbn [negb]. cbv iota.
  apply reads_next in H.
  rewrite (consume_ws_value _ _ _ _ H Hv). cbn [bind].
  rewrite (Hx str _ ok _ H (fun _ => stops_entries todo rest)). cbn [bind].
  apply reads_app in H.
  cbn [ToString fst snd fold_left].
  destruct todo as [|y todo].
  - cbn [dump_entries String.append] in H.
    rewrite (consume_ws_stay _ _ _ _ H eq_refl). cbn [bind].
    rewrite (reads_char _ _ _ _ H). cbn [bind].
    change ("}" =? ",")%char with false. change ("}" =? "}")%char with true. cbv iota.
    rewrite !length_append. cbn [String.length dump_entries]. rewrite length_append.
    cbn [String.length]. do 3 f_equal. lia.
  - rewrite dump_entries_more in * by congruence.
    cbn [String.append] in H.
    rewrite (consume_ws_stay _ _ _ _ H eq_refl). cbn [bind].
    rewrite (reads_char _ _ _ _ H). cbn [bind].
    change ("," =? ",")%char with true. cbv iota.
    apply reads_next in H.
    rewrite (IH _ n str _ ok rest Hrest); trivial;
      [| congruence | cbn [String.length] in Hn; lia].
    rewrite !length_append. cbn [String.length]. rewrite length_append.
    cbn [String.length]. do 3 f_equal. lia.
Qed.

(** ** A value read back *)

Lemma dump_elements_length (x : JSON) (l : list JSON) (skip : bool) :
  In x l ->
  String.length (dumpMinified x) <= String.length (dump_elements dumpMinified l skip).
Proof.
  revert skip. induction l as [|y l IH]; intros skip Hin; [destruct Hin |].
  cbn [dump_elements]. rewrite !length_append.
  destruct Hin as [-> | Hin]; [lia |].
  specialize (IH false Hin). lia.
Qed.

Lemma dump_entries_length (kv : string * JSON) (m : list (string * JSON)) (skip : bool) :
  In kv m ->
  String.length (dumpMinified (snd kv)) <= String.length (dump_entries dumpMinified m skip).
Proof.
  revert skip. induction m as [|[k y] m IH]; intros skip Hin; [destruct Hin |].
  cbn [dump_entries]. rewrite !length_append. cbn [String.length].
  rewrite ?length_append.
  destruct Hin as [<- | Hin]; [cbn [snd]; lia |].
  specialize (IH false Hin). lia.
Qed.

Lemma parse_next_string (f : nat) (s : string) : parses_back (parse_next (S f)) (JString s).
Proof.
  intros str o ok rest H _. cbn [parse_next].
  rewrite (consume_ws_value _ _ _ _ H eq_refl). cbn [bind].
  pose proof H as H'. cbn [dumpMinified] in H'. unfold str1 in H'.
  cbn [String.append] in H'. rewrite (reads_char _ _ _ _ H'). cbn [bind].
  change (DQ =? "[")%char with false. change (DQ =? "{")%char with false.
  change (DQ =? DQ)%char with true. cbv iota.
  exact (parse_string_dump s str o ok rest H).
Qed.

Lemma parse_next_number (f : nat) (v : JSON) :
  is_number v = true ->
  number_start (dumpMinified v) = true ->
  all_chars num_char (dumpMinified v) = true ->
  number_value (dumpMinified v) "" (has_dot (dumpMinified v)) 0 = Ret v ->
  parses_back (parse_next (S f)) v.
Proof.
  intros Hnum Hst Hall Hval str o ok rest H Hstop. cbn [parse_next].
  rewrite (consume_ws_value _ _ _ _ H (number_start_value _ Hst)). cbn [bind].
  pose proof H as H'.
  destruct (dumpMinified v) as [|c t] eqn:Et; [discriminate Hst |].
  cbn [String.append] in H'. rewrite (reads_char _ _ _ _ H'). cbn [bind].
  cbn [number_start] in Hst.
  destruct (number_start_char c Hst) as (_ & -> & -> & -> & -> & -> & ->).
  rewrite Hst. cbn [orb]. cbv iota.
  rewrite <- Et in *.
  exact (parse_number_text _ v str o ok rest Hall (Hstop Hnum) Hval H).
Qed.

(** The text of an object, whatever the order of its keys: the entries are
    assigned as they come. *)
Lemma parse_next_object_text (f : nat) (es : list (string * JSON)) :
  Forall (fun kv => escaped_key (fst kv) /\ parses_back (parse_next (S f)) (snd kv)
                    /\ starts_value (dumpMinified (snd kv)) = true) es ->
  forall str o ok rest,
    reads str o (object_text es ++ rest) ->
    parse_next (S (S f)) str o ok
    = Ret (assign_all es (JObject []), o + String.length (object_text es), ok).
Proof.
  intros Hall str o ok rest H. unfold object_text in *.
  assert (Hstr : forall s, parses_back (parse_next (S f)) (JString s))
    by apply parse_next_string.
  remember (S f) as g eqn:Eg. clear Eg.
  cbn [parse_next]. cbn [String.append] in H.
  rewrite (consume_ws_stay _ _ _ _ H eq_refl). cbn [bind].
  rewrite (reads_char _ _ _ _ H). cbn [bind].
  change ("{" =? "[")%char with false. change ("{" =? "{")%char with true. cbv iota.
  apply reads_next in H. rewrite append_assoc in H. cbn [String.append] in H.
  unfold parse_object. change (Make Class.Object) with (JObject []).
  destruct es as [|kv es].
  - cbn [dump_entries String.append] in H.
    rewrite (consume_ws_stay _ _ _ _ H eq_refl). cbn [bind].
    rewrite (reads_char _ _ _ _ H). cbn [bind].
    change ("}" =? "}")%char with true. cbv iota.
    cbn [dump_entries String.append String.length]. unfold assign_all. simpl.
    do 3 f_equal. lia.
  - assert (Hq : consume_ws str (S o) = Ret (S o) /\ char_at str (S o) = Ret DQ).
    { destruct kv as [k x]. cbn [dump_entries String.append] in H. unfold str1 in H.
      cbn [String.append] in H.
      split; [exact (consume_ws_stay _ _ _ _ H eq_refl) | exact (reads_char _ _ _ _ H)]. }
    destruct Hq as [Hq Hc]. rewrite Hq. cbn [bind]. rewrite Hc. cbn [bind].
    change (DQ =? "}")%char with false. cbv iota.
    pose proof (reads_length _ _ _ H) as HL. rewrite length_append in HL.
    rewrite (parse_object_loop_dump (parse_next g) (kv :: es)
               Hstr (JObject []) (steps str) str (S o) ok rest);
      trivial; [| congruence | unfold steps; lia].
    unfold assign_all. cbn [String.append String.length]. rewrite !length_append.
    cbn [String.length]. do 3 f_equal. lia.
Qed.

(** Into [parse_next], up to the character it branches on. *)
Ltac enter_value Hrb :=
  let str := fresh "str" in
  let o := fresh "o" in
  let ok := fresh "ok" in
  let rest := fresh "rest" in
  intros str o ok rest H Hstop; cbn [parse_next];
  rewrite (consume_ws_value _ _ _ _ H (reads_back_start _ Hrb)); cbn [bind].

Lemma parse_next_dump (v : JSON) :
  reads_back v ->
  forall fuel, String.length (dumpMinified v) < fuel -> parses_back (parse_next fuel) v.
Proof.
  induction v as [|m IH|l IH|s|d|i|b] using JSON_nested_ind;
    intros Hrb fuel Hfuel; (destruct fuel as [|f]; [lia |]);
    [ | | | apply parse_next_string | | | ];
    [ enter_value Hrb | | enter_value Hrb | | | enter_value Hrb ].
  - (* null *)
    pose proof (reads_substr str o "null" rest H) as Hs. cbn [String.length] in Hs.
    cbn [dumpMinified String.append] in H. rewrite (reads_char _ _ _ _ H). cbn [bind].
    cbn. unfold parse_null. rewrite Hs. reflexivity.
  - (* object *)
    inversion Hrb as [| | | | | |m' Hsorted Hall]; subst m'.
    intros str o ok rest H Hstop.
    assert (Hf : 2 <= f).
    { cbn [dumpMinified String.append String.length] in Hfuel.
      rewrite length_append in Hfuel. cbn [String.length] in Hfuel. lia. }
    destruct f as [|f]; [lia |].
    rewrite (parse_next_object_text f m) with (rest := rest); [| | exact H].
    + unfold assign_all. now rewrite (fold_assign_sorted m [] Hsorted).
    + apply Forall_forall. intros e He.
      rewrite Forall_forall in Hall, IH.
      destruct (Hall e He) as [Hk Hx]. split; [exact Hk |]. split.
      * apply IH; trivial.
        pose proof (dump_entries_length e m true He).
        cbn [dumpMinified String.append String.length] in Hfuel.
        rewrite length_append in Hfuel. lia.
      * now apply reads_back_start.
  - (* array *)
    inversion Hrb as [| | | | |l' Hlen Hall|]; subst l'.
    cbn [dumpMinified] in *. cbn [String.append] in H.
    rewrite (reads_char _ _ _ _ H). cbn [bind].
    change ("[" =? "[")%char with true. cbv iota.
    cbn [String.append String.length] in Hfuel. rewrite length_append in Hfuel.
    cbn [String.length] in Hfuel.
    apply reads_next in H. rewrite append_assoc in H. cbn [String.append] in H.
    unfold parse_array. change (Make Class.Array) with (JArray []).
    destruct l as [|x l].
    + cbn [dump_elements String.append] in H.
      rewrite (consume_ws_stay _ _ _ _ H eq_refl). cbn [bind].
      rewrite (reads_char _ _ _ _ H). cbn [bind].
      change ("]" =? "]")%char with true. cbv iota.
      cbn [dump_elements String.append String.length]. do 3 f_equal. lia.
    + assert (Hx : starts_value (dumpMinified x) = true).
      { apply reads_back_start. now inversion Hall. }
      rewrite dump_elements_cons, append_assoc in H.
      rewrite (consume_ws_value _ _ _ _ H Hx). cbn [bind].
      destruct (dumpMinified x) as [|c t] eqn:Ex; [discriminate Hx |].
      pose proof H as H'. cbn [String.append] in H'.
      rewrite (reads_char _ _ _ _ H'). cbn [bind]. clear H'.
      cbn [starts_value] in Hx. destruct (value_start_char c Hx) as (_ & -> & _).
      rewrite <- Ex in H. rewrite <- append_assoc, <- dump_elements_cons in H.
      pose proof (reads_length _ _ _ H) as HL. rewrite length_append in HL.
      etransitivity;
        [apply (parse_array_loop_dump (parse_next f) (x :: l) [] (steps str) str
                  (S o) ok rest); trivial |].
      * apply Forall_forall. intros e He.
        rewrite Forall_forall in Hall, IH.
        apply IH; auto.
        pose proof (dump_elements_length e (x :: l) true He). lia.
      * congruence.
      * unfold steps. lia.
      * cbn [List.app String.length]. rewrite !length_append. cbn [String.length].
        do 3 f_equal. lia.
  - (* floating *)
    inversion Hrb as [| | | |d' (Hst & Hall & Hval)| |]; subst d'.
    exact (parse_next_number f (JFloating d) eq_refl Hst Hall Hval).
  - (* integral *)
    inversion Hrb as [| | |i' Hi| | |]; subst i'.
    destruct (to_string_text i) as (Hst & Hall & _).
    exact (parse_next_number f (JIntegral i) eq_refl Hst Hall
             (number_value_to_string i Hi)).
  - (* boolean *)
    destruct b.
    + pose proof (reads_substr str o "true" rest H) as Hs. cbn [String.length] in Hs.
      cbn [dumpMinified String.append] in H. rewrite (reads_char _ _ _ _ H). cbn [bind].
      cbn. unfold parse_bool. rewrite Hs. reflexivity.
    + pose proof (reads_substr str o "fals" (String "e" rest) H) as Hs4.
      pose proof (reads_substr str o "false" rest H) as Hs5.
      cbn [String.length] in Hs4, Hs5.
      cbn [dumpMinified String.append] in H. rewrite (reads_char _ _ _ _ H). cbn [bind].
      cbn. unfold parse_bool. rewrite Hs4. cbn. rewrite Hs5. reflexivity.
Qed.

(** The text of a value that reads back and is not a bare number, loaded. *)
Lemma Load_dumpMinified (v : JSON) :
  reads_back v -> is_number v = false -> Load (dumpMinified v) = Ret (v, true).
Proof.
  intros Hrb Hnum. unfold Load, steps.
  rewrite (parse_next_dump v Hrb (S (String.length (dumpMinified v))) (Nat.lt_succ_diag_r _)
             (dumpMinified v) 0 true "").
  - reflexivity.
  - rewrite append_nil_r. apply reads_start.
  - rewrite Hnum. discriminate.
Qed.

(** ** Tags, keys and indices *)

Lemma SetType_Object (this : JSON) :
  exists m, SetType Class.Object this = JObject m
            /\ (forall m', this = JObject m' -> m = m')
            /\ (JSONType this <> Class.Object -> m = []).
Proof.
  destruct this; cbn; eexists; (split; [reflexivity |]); split;
    congruence.
Qed.

Lemma assign_key_eq (this : JSON) (key : string) (v : JSON) :
  exists m, SetType Class.Object this = JObject m
            /\ assign_key this key v = JObject (map_put key v (map_subscript m key)).
Proof.
  destruct (SetType_Object this) as (m & E & _). exists m. split; [exact E |].
  unfold assign_key, subscript_key. now rewrite E.
Qed.

(** Assigning twice to a key leaves the second value. *)
Lemma assign_key_twice (Object : JSON) (key : string) (v1 v2 : JSON) :
  assign_key (assign_key Object key v1) key v2 = assign_key Object key v2.
Proof.
  destruct (assign_key_eq Object key v1) as (m & E & ->).
  destruct (assign_key_eq Object key v2) as (m2 & E2 & ->).
  assert (m2 = m) by congruence. subst m2.
  unfold assign_key, subscript_key.
  change (SetType Class.Object (JObject ?x)) with (JObject x). cbv iota.
  cbn [store_key]. unfold map_subscript at 1.
  now rewrite map_find_put, map_put_put.
Qed.

Lemma map_find_put_other (key k : string) (v : JSON) (m : list (string * JSON)) :
  k <> key -> map_find k (map_put key v m) = map_find k m.
Proof.
  intros Hne. apply String.eqb_neq in Hne.
  induction m as [|[k0 x] m IH]; simpl.
  - now rewrite Hne.
  - destruct (String.compare key k0) eqn:E; simpl.
    + apply String.compare_eq_iff in E. subst k0. now rewrite Hne.
    + now rewrite Hne.
    + now rewrite IH.
Qed.

Lemma map_find_subscript (key k : string) (m : list (string * JSON)) :
  map_find k (map_subscript m key)
  = if (k =? key)%string
    then Some (match map_find key m with Some x => x | None => JNull end)
    else map_find k m.
Proof.
  unfold map_subscript. destruct (String.eqb_spec k key) as [-> | Hne].
  - destruct (map_find key m) eqn:E; [exact E | apply map_find_put].
  - destruct (map_find key m); [reflexivity | now apply map_find_put_other].
Qed.

Lemma SetType_Array (this : JSON) :
  exists l, SetType Class.Array this = JArray l
            /\ (forall l', this = JArray l' -> l = l')
            /\ (JSONType this <> Class.Array -> l = []).
Proof.
  destruct this; cbn; eexists; (split; [reflexivity |]); split;
    congruence.
Qed.

(** Below the last value of [unsigned], [v[i]] leaves an Array that holds
    the elements [v] had, filled up with Null through index [i]. *)
Lemma subscript_index_grows (v : JSON) (i : Z) :
  (0 <= i)%Z -> (i + 1 < UINT_MOD)%Z ->
  exists l, SetType Class.Array v = JArray l
    /\ subscript_index v i
       = Ret (JArray (l ++ repeat JNull (Z.to_nat (i + 1) - List.length l))%list).
Proof.
  intros H0 Hi. destruct (SetType_Array v) as (l & E & _). exists l.
  split; [exact E |]. unfold subscript_index. rewrite E. unfold UINT_MOD in *.
  rewrite Z.mod_small; [| lia].
  destruct (Z.leb_spec (Z.of_nat (List.length l)) i) as [Hle | Hgt].
  - assert (Hr : resize (Z.to_nat (i + 1)) l
                 = (l ++ repeat JNull (Z.to_nat (i + 1) - List.length l))%list).
    { rewrite <- resize_grow. f_equal. lia. }
    rewrite Hr, length_app, repeat_length.
    destruct (Z.ltb_spec i (Z.of_nat (List.length l + (Z.to_nat (i + 1) - List.length l))));
      [reflexivity | lia].
  - destruct (Z.ltb_spec i (Z.of_nat (List.length l))); [| lia].
    replace (Z.to_nat (i + 1) - List.length l) with 0 by lia.
    simpl. now rewrite app_nil_r.
Qed.

(** ** The map stays in order *)

Lemma key_lt_trans (a b c : string) : key_lt a b -> key_lt b c -> key_lt a c.
Proof.
  unfold key_lt. change String.compare with String_as_OT.cmp.
  rewrite !String_as_OT.cmp_lt. apply String_as_OT.lt_trans.
Qed.

Lemma Forall_map_put (P : string * JSON -> Prop) (key : string) (v : JSON)
  (m : list (string * JSON)) :
  P (key, v) -> Forall P m -> Forall P (map_put key v m).
Proof.
  intros Hk. induction 1 as [|[k x] m Hx Hm IH]; simpl.
  - now constructor.
  - destruct (String.compare key k); repeat constructor; assumption.
Qed.

Lemma map_put_sorted (key : string) (v : JSON) (m : list (string * JSON)) :
  sorted_keys m -> sorted_keys (map_put key v m).
Proof.
  induction m as [|[k x] m IH]; simpl.
  - intros _. split; constructor.
  - intros [Hall Hs]. destruct (String.compare key k) eqn:E; simpl.
    + apply String.compare_eq_iff in E. subst k. now split.
    + split; [| now split]. constructor; [exact E |].
      revert Hall. apply Forall_impl. intros kv. now apply key_lt_trans.
    + split; [| now apply IH].
      apply Forall_map_put; [| exact Hall].
      simpl. unfold key_lt. now rewrite String.compare_antisym, E.
Qed.

(** Keyed access and assignment through it keep the keys of an object in
    order: the objects the mutators build are those of [reads_back]. *)
Lemma assign_key_sorted (this : JSON) (key : string) (v : JSON) :
  (forall m, this = JObject m -> sorted_keys m) ->
  exists m', assign_key this key v = JObject m' /\ sorted_keys m'
             /\ exists m'', subscript_key this key = JObject m'' /\ sorted_keys m''.
Proof.
  intros Hs. destruct (assign_key_eq this key v) as (m & E & ->).
  assert (Hm : sorted_keys m).
  { destruct this; cbn in E; injection E as <-; try exact I. now apply Hs. }
  assert (Hsub : sorted_keys (map_subscript m key)).
  { unfold map_subscript. destruct (map_find key m); [exact Hm | now apply map_put_sorted]. }
  eexists. split; [reflexivity |]. split; [now apply map_put_sorted |].
  unfold subscript_key. rewrite E. eexists. split; [reflexivity | exact Hsub].
Qed.

(** ** The last binding of a key *)




(** ** The text of an object *)


(** ** The steps suffice

    No loop of the parser runs out of its counter: every step moves the
    cursor, and a read behind the buffer ends the parse. *)

Lemma fine_bind {A B : Type} (Q : A -> Prop) (P : B -> Prop) (m : outcome A)
  (k : A -> outcome B) :
  fine Q m -> (forall a, Q a -> fine P (k a)) -> fine P (bind m k).
Proof. destruct m; cbn; auto. Qed.

Lemma fine_weaken {A : Type} (Q P : A -> Prop) (r : outcome A) :
  fine Q r -> (forall a, Q a -> P a) -> fine P r.
Proof. destruct r; cbn; auto. Qed.

Lemma get_some_lt (str : string) :
  forall o c, String.get o str = Some c -> o < String.length str.
Proof.
  induction str as [|a str IH]; intros o c; [discriminate |].
  destruct o as [|o]; simpl; [lia |]. intros H. apply IH in H. lia.
Qed.

Lemma fine_char_at (str : string) (o : nat) :
  fine (fun c => o <= String.length str /\ (c <> NUL -> o < String.length str))
    (char_at str o).
Proof.
  unfold char_at. destruct (String.get o str) eqn:E; cbn.
  - apply get_some_lt in E. lia.
  - destruct (Nat.eqb_spec o (String.length str)); cbn; [| trivial].
    split; [lia | congruence].
Qed.

Lemma fine_consume_ws_loop (str : string) (n : nat) :
  forall o, 1 <= n -> String.length str < n + o ->
    fine (fun o' => o <= o' <= String.length str) (consume_ws_loop n str o).
Proof.
  induction n as [|n IH]; intros o Hn Ho; [lia |].
  cbn [consume_ws_loop].
  apply (fine_bind _ _ _ _ (fine_char_at str o)). intros c [Hle Hlt].
  destruct (isspace c) eqn:Ec; [| cbn; lia].
  assert (o < String.length str) by (apply Hlt; intros ->; discriminate Ec).
  apply (fine_weaken (fun o' => S o <= o' <= String.length str)); [| intros; lia].
  apply IH; lia.
Qed.

Lemma fine_consume_ws (str : string) (o : nat) :
  fine (fun o' => o <= o' <= String.length str) (consume_ws str o).
Proof. apply fine_consume_ws_loop; unfold steps; lia. Qed.

Lemma fine_unicode_digits (str : string) (k : nat) :
  forall i o val,
    fine (fun r => r <> None -> k = 0 \/ o + i + k <= S (String.length str))
      (unicode_digits k i str o val).
Proof.
  induction k as [|k IH]; intros i o val; cbn; [auto |].
  apply (fine_bind _ _ _ _ (fine_char_at str (o + i))). intros c [Hle _].
  destruct (is_hex c); [| cbn; congruence].
  apply (fine_weaken _ _ _ (IH (S i) o (val ++ str1 c))).
  intros r Hr Hne. right. destruct (Hr Hne); lia.
Qed.

Lemma fine_parse_string_loop (str : string) (n : nat) :
  forall o val ok, 1 <= n -> S (String.length str) < n + o ->
    fine (from_cursor o) (parse_string_loop n str o val ok).
Proof.
  induction n as [|n IH]; intros o val ok Hn Ho; [lia |].
  assert (Hgo : forall o' val', o <= String.length str -> o < o' ->
                fine (from_cursor o) (parse_string_loop n str o' val' ok)).
  { intros o' val' Hle Hlt.
    apply (fine_weaken (from_cursor o')); [apply IH; lia |].
    unfold from_cursor. intros; lia. }
  cbn [parse_string_loop].
  apply (fine_bind _ _ _ _ (fine_char_at str o)). intros c [Hle _].
  destruct (c =? DQ)%char; [cbn; unfold from_cursor; cbn; lia |].
  destruct (c =? BSL)%char; [| apply Hgo; lia].
  apply (fine_bind _ _ _ _ (fine_char_at str (S o))). intros e [Hle' _].
  repeat match goal with
         | |- fine _ (if ?b then _ else _) => destruct b; [apply Hgo; lia |]
         end.
  destruct (e =? "u")%char; [| apply Hgo; lia].
  apply (fine_bind _ _ _ _ (fine_unicode_digits str 4 1 (S o) _)). intros r Hr.
  destruct r as [val'|]; [| cbn; unfold from_cursor; cbn; lia].
  apply Hgo; lia.
Qed.

Lemma fine_parse_string (str : string) (o : nat) (ok : bool) :
  fine (from_cursor o) (parse_string str o ok).
Proof.
  unfold parse_string, steps.
  apply (fine_weaken (from_cursor (S o))).
  - apply fine_parse_string_loop; lia.
  - unfold from_cursor. intros; lia.
Qed.

Lemma fine_number_loop (str : string) (n : nat) :
  forall o val isD, 1 <= n -> String.length str < n + o ->
    fine (fun r => o < snd (fst (fst r))) (number_loop n str o val isD).
Proof.
  induction n as [|n IH]; intros o val isD Hn Ho; [lia |].
  assert (Hgo : forall c val' isD', (c <> NUL -> o < String.length str) -> c <> NUL ->
                fine (fun r => o < snd (fst (fst r)))
                  (number_loop n str (S o) val' isD')).
  { intros c val' isD' Hlt Hc. specialize (Hlt Hc).
    apply (fine_weaken (fun r => S o < snd (fst (fst r)))); [apply IH; lia |].
    intros; lia. }
  cbn [number_loop].
  apply (fine_bind _ _ _ _ (fine_char_at str o)). intros c [Hle Hlt].
  destruct ((c =? "-")%char || is_digit c) eqn:E1.
  - apply (Hgo c); [exact Hlt | intros ->; discriminate E1].
  - destruct (c =? ".")%char eqn:E2.
    + apply (Hgo c); [exact Hlt | intros ->; discriminate E2].
    + cbn. lia.
Qed.

Lemma fine_exponent_loop (str : string) (n : nat) :
  forall o exp_str, 1 <= n -> String.length str < n + o ->
    fine (fun r => o < fst r) (exponent_loop n str o exp_str).
Proof.
  induction n as [|n IH]; intros o exp_str Hn Ho; [lia |].
  cbn [exponent_loop].
  apply (fine_bind _ _ _ _ (fine_char_at str o)). intros c [Hle Hlt].
  destruct (is_digit c) eqn:E1.
  - assert (o < String.length str) by (apply Hlt; intros ->; discriminate E1).
    apply (fine_weaken (fun r => S o < fst r)); [apply IH; lia | intros; lia].
  - destruct (negb (ends_number c)); cbn; lia.
Qed.

Lemma fine_stol (P : Z -> Prop) (s : string) : (forall z, P z) -> fine P (stol s).
Proof.
  intros HP. unfold stol. destruct (take_sign true (skip_space s)) as [neg t].
  destruct (read_digits t 0 false) as [[n seen] rest].
  destruct seen; cbn; [| trivial].
  match goal with |- context [in_llong ?v] => destruct (in_llong v) end; cbn; auto.
Qed.

Lemma fine_stod (P : double -> Prop) (s : string) : (forall d, P d) -> fine P (stod s).
Proof.
  intros HP. unfold stod. destruct (take_sign true (skip_space s)) as [neg t].
  destruct (read_digits t 0 false) as [[ip seen_i] t'].
  assert (Hcore : forall D seen_f k,
            fine P (if seen_i || seen_f
                    then if (D =? 0)%Z then Ret (S754_zero neg)
                         else match round_ratio neg D (10 ^ Z.of_nat k) with
                              | S754_finite s m e => Ret (S754_finite s m e)
                              | _ => Throw out_of_range
                              end
                    else Throw invalid_argument)).
  { intros D seen_f k. destruct (seen_i || seen_f); cbn; [| trivial].
    destruct (D =? 0)%Z; cbn; [auto |].
    destruct (round_ratio neg D (10 ^ Z.of_nat k)); cbn; auto. }
  destruct t' as [|c t'']; [apply Hcore |].
  destruct (c =? ".")%char; [| apply Hcore].
  destruct (read_digits t'' ip false) as [[fp seen_f] rest]. apply Hcore.
Qed.

Lemma fine_number_value (val exp_str : string) (isDouble : bool) (exp : Z) :
  fine (fun _ => True) (number_value val exp_str isDouble exp).
Proof.
  unfold number_value.
  destruct isDouble; [| destruct (negb (exp_str =? "")%string)].
  - apply (fine_bind (fun _ => True)); [now apply fine_stod | cbn; trivial].
  - apply (fine_bind (fun _ => True)); [now apply fine_stol | cbn; trivial].
  - apply (fine_bind (fun _ => True)); [now apply fine_stol | cbn; trivial].
Qed.

Lemma fine_parse_number (str : string) (o : nat) (ok : bool) :
  fine (from_cursor o) (parse_number str o ok).
Proof.
  unfold parse_number.
  apply (fine_bind _ _ _ _ (fine_number_loop str (steps str) o "" false
                              ltac:(unfold steps; lia) ltac:(unfold steps; lia))).
  intros [[[c o1] val] isD] Ho1. cbn in Ho1.
  destruct ((c =? "E")%char || (c =? "e")%char).
  - apply (fine_bind _ _ _ _ (fine_char_at str o1)). intros c' _.
    assert (Hexp : forall o2 exp_str, o1 <= o2 ->
              fine (from_cursor o)
                ('(offset, r) <- exponent_loop (steps str) str o2 exp_str ;;
                 match r with
                 | None => Ret (Make Class.Null, offset, false)
                 | Some exp_str =>
                     exp <- stol exp_str ;;
                     Number <- number_value val exp_str isD exp ;;
                     Ret (Number, pred offset, ok)
                 end)).
    { intros o2 exp_str Ho2.
      apply (fine_bind _ _ _ _ (fine_exponent_loop str (steps str) o2 exp_str
                                  ltac:(unfold steps; lia) ltac:(unfold steps; lia))).
      intros [o3 r] Ho3. cbn in Ho3.
      destruct r as [exp_str'|]; [| cbn; unfold from_cursor; cbn; lia].
      apply (fine_bind (fun _ => True)); [now apply fine_stol |]. intros exp _.
      apply (fine_bind _ _ _ _ (fine_number_value val exp_str' isD exp)). intros v _.
      cbn. unfold from_cursor. cbn. lia. }
    destruct (c' =? "-")%char; [apply Hexp; lia |].
    destruct (c' =? "+")%char; apply Hexp; lia.
  - destruct (negb (ends_number c)); [cbn; unfold from_cursor; cbn; lia |].
    apply (fine_bind _ _ _ _ (fine_number_value val "" isD 0)). intros v _.
    cbn. unfold from_cursor. cbn. lia.
Qed.

Lemma fine_substr (P : string -> Prop) (str : string) (pos n : nat) :
  (forall s, P s) -> fine P (substr str pos n).
Proof. intros HP. unfold substr. destruct (pos <=? String.length str)%nat; cbn; auto. Qed.

Lemma fine_parse_bool (str : string) (o : nat) (ok : bool) :
  fine (from_cursor o) (parse_bool str o ok).
Proof.
  unfold parse_bool.
  apply (fine_bind (fun _ => True)); [now apply fine_substr |]. intros t _.
  destruct (t =? "true")%string; [cbn; unfold from_cursor; cbn; lia |].
  apply (fine_bind (fun _ => True)); [now apply fine_substr |]. intros f _.
  destruct (f =? "false")%string; cbn; unfold from_cursor; cbn; lia.
Qed.

Lemma fine_parse_null (str : string) (o : nat) (ok : bool) :
  fine (from_cursor o) (parse_null str o ok).
Proof.
  unfold parse_null.
  apply (fine_bind (fun _ => True)); [now apply fine_substr |]. intros t _.
  destruct (negb (t =? "null")%string); cbn; unfold from_cursor; cbn; lia.
Qed.

Lemma fine_assign_index (Array : JSON) (index : Z) (v : JSON) :
  fine (fun _ => True) (assign_index Array index v).
Proof.
  unfold assign_index, subscript_index.
  destruct (SetType Class.Array Array); cbn; trivial.
  repeat (match goal with |- context [if ?b then _ else _] => destruct b end; cbn);
    trivial.
Qed.

Lemma comma_inside (str : string) (o : nat) (c c' : ascii) :
  (c <> NUL -> o < String.length str) -> (c =? c')%char = true -> c' <> NUL ->
  o < String.length str.
Proof. intros Hlt Hc Hn. apply Ascii.eqb_eq in Hc. subst c'. now apply Hlt. Qed.

Lemma fine_parse_array_loop (rec : parser) (str : string) (b n : nat) :
  advancing str b rec ->
  forall Array index o ok,
    1 <= n -> String.length str < n + o -> b <= o -> o <= String.length str ->
    fine (from_cursor o) (parse_array_loop rec n str Array index o ok).
Proof.
  intros Hrec. induction n as [|n IH]; intros Array index o ok Hn Ho Hb Hle; [lia |].
  cbn [parse_array_loop].
  apply (fine_bind _ _ _ _ (Hrec o ok Hb Hle)). intros [[v o1] ok1] Ho1.
  unfold from_cursor in Ho1. cbn in Ho1.
  apply (fine_bind _ _ _ _ (fine_assign_index Array index v)). intros Array' _.
  apply (fine_bind _ _ _ _ (fine_consume_ws str o1)). intros o2 Ho2.
  apply (fine_bind _ _ _ _ (fine_char_at str o2)). intros c [_ Hlt].
  destruct (c =? ",")%char eqn:E1.
  - pose proof (comma_inside _ _ _ _ Hlt E1 ltac:(discriminate)).
    apply (fine_weaken (from_cursor (S o2))); [apply IH; lia |].
    unfold from_cursor. intros; lia.
  - destruct (c =? "]")%char; cbn; unfold from_cursor; cbn; lia.
Qed.

Lemma fine_parse_array (rec : parser) (str : string) (o : nat) (ok : bool) :
  advancing str (S o) rec -> fine (from_cursor o) (parse_array rec str o ok).
Proof.
  intros Hrec. unfold parse_array.
  apply (fine_bind _ _ _ _ (fine_consume_ws str (S o))). intros o1 Ho1.
  apply (fine_bind _ _ _ _ (fine_char_at str o1)). intros c _.
  destruct (c =? "]")%char; [cbn; unfold from_cursor; cbn; lia |].
  apply (fine_weaken (from_cursor o1)).
  - apply (fine_parse_array_loop rec str (S o)); trivial; unfold steps; lia.
  - unfold from_cursor. intros; lia.
Qed.

Lemma fine_parse_object_loop (rec : parser) (str : string) (b n : nat) :
  advancing str b rec ->
  forall Object o ok,
    1 <= n -> String.length str < n + o -> b <= o -> o <= String.length str ->
    fine (from_cursor o) (parse_object_loop rec n str Object o ok).
Proof.
  intros Hrec. induction n as [|n IH]; intros Object o ok Hn Ho Hb Hle; [lia |].
  cbn [parse_object_loop].
  apply (fine_bind _ _ _ _ (Hrec o ok Hb Hle)). intros [[Key o1] ok1] Ho1.
  unfold from_cursor in Ho1. cbn in Ho1.
  apply (fine_bind _ _ _ _ (fine_consume_ws str o1)). intros o2 Ho2.
  apply (fine_bind _ _ _ _ (fine_char_at str o2)). intros c [_ Hlt].
  destruct (c =? ":")%char eqn:E0; cbn [negb]; [| cbn; unfold from_cursor; cbn; lia].
  pose proof (comma_inside _ _ _ _ Hlt E0 ltac:(discriminate)).
  apply (fine_bind _ _ _ _ (fine_consume_ws str (S o2))). intros o3 Ho3.
  apply (fine_bind _ _ _ _ (Hrec o3 ok1 ltac:(lia) ltac:(lia))).
  intros [[Value o4] ok4] Ho4. unfold from_cursor in Ho4. cbn in Ho4.
  apply (fine_bind _ _ _ _ (fine_consume_ws str o4)). intros o5 Ho5.
  apply (fine_bind _ _ _ _ (fine_char_at str o5)). intros c' [_ Hlt'].
  destruct (c' =? ",")%char eqn:E1.
  - pose proof (comma_inside _ _ _ _ Hlt' E1 ltac:(discriminate)).
    apply (fine_weaken (from_cursor (S o5))); [apply IH; lia |].
    unfold from_cursor. intros; lia.
  - destruct (c' =? "}")%char; cbn; unfold from_cursor; cbn; lia.
Qed.

Lemma fine_parse_object (rec : parser) (str : string) (o : nat) (ok : bool) :
  advancing str (S o) rec -> fine (from_cursor o) (parse_object rec str o ok).
Proof.
  intros Hrec. unfold parse_object.
  apply (fine_bind _ _ _ _ (fine_consume_ws str (S o))). intros o1 Ho1.
  apply (fine_bind _ _ _ _ (fine_char_at str o1)). intros c _.
  destruct (c =? "}")%char; [cbn; unfold from_cursor; cbn; lia |].
  apply (fine_weaken (from_cursor o1)).
  - apply (fine_parse_object_loop rec str (S o)); trivial; unfold steps; lia.
  - unfold from_cursor. intros; lia.
Qed.

Lemma fine_parse_next (str : string) (fuel : nat) :
  forall o ok, o <= String.length str -> String.length str < fuel + o ->
    fine (from_cursor o) (parse_next fuel str o ok).
Proof.
  induction fuel as [|f IH]; intros o ok Hle Ho; [lia |].
  cbn [parse_next].
  apply (fine_bind _ _ _ _ (fine_consume_ws str o)). intros o1 Ho1.
  apply (fine_bind _ _ _ _ (fine_char_at str o1)). intros c [_ Hlt].
  assert (Hrec : o1 < String.length str -> advancing str (S o1) (parse_next f)).
  { intros Hin o' ok' Hb Hle'. apply IH; lia. }
  assert (Hw : forall r, fine (from_cursor o1) r -> fine (from_cursor o) r).
  { intros r Hr. apply (fine_weaken _ _ _ Hr). unfold from_cursor. intros; lia. }
  destruct (c =? "[")%char eqn:E1.
  { apply Hw, fine_parse_array, Hrec.
    exact (comma_inside _ _ _ _ Hlt E1 ltac:(discriminate)). }
  destruct (c =? "{")%char eqn:E2.
  { apply Hw, fine_parse_object, Hrec.
    exact (comma_inside _ _ _ _ Hlt E2 ltac:(discriminate)). }
  destruct (c =? DQ)%char; [apply Hw, fine_parse_string |].
  destruct ((c =? "t")%char || (c =? "f")%char); [apply Hw, fine_parse_bool |].
  destruct (c =? "n")%char; [apply Hw, fine_parse_null |].
  destruct (is_digit c || (c =? "-")%char); [apply Hw, fine_parse_number |].
  cbn. unfold from_cursor. cbn. lia.
Qed.

(** [JSON::Load] always comes to an end within its steps: it returns,
    throws, or reads behind the buffer. *)
Lemma Load_within_steps (str : string) : Load str <> OutOfFuel.
Proof.
  unfold Load.
  pose proof (fine_parse_next str (steps str) 0 true (Nat.le_0_l _)
                ltac:(unfold steps; lia)) as H.
  destruct (parse_next (steps str) str 0 true) as [[[v o] ok]| | |]; cbn in *;
    [discriminate | discriminate | discriminate | contradiction].
Qed.

(** ** Number tokens *)

(** A number token [t], behind which the buffer goes on with something a
    number may end on: whatever the conversion of [t] gives. *)
Lemma parse_number_token (t : string) (str : string) (o : nat) (ok : bool)
  (rest : string) :
  all_chars num_char t = true -> stops rest = true ->
  reads str o (t ++ rest) ->
  parse_number str o ok
  = (Number <- number_value t "" (has_dot t) 0 ;; Ret (Number, o + String.length t, ok)).
Proof.
  intros Hall Hstop H.
  destruct rest as [|e rest]; [discriminate Hstop |]. cbn [stops] in Hstop.
  destruct (ends_number_char e Hstop) as (He1 & He2 & He3 & He4 & He5).
  pose proof (reads_length _ _ _ H) as HL. rewrite length_append in HL.
  cbn [String.length] in HL.
  unfold parse_number.
  rewrite (number_loop_text t (steps str) str o "" false e rest Hall); trivial;
    [| unfold num_char; now rewrite He1, He2, He3 | unfold steps; lia].
  cbn [bind]. rewrite He4, He5, Hstop. cbn [orb negb]. cbv iota.
  change ("" ++ t) with t.
  now replace (pred (o + String.length t + 1)) with (o + String.length t) by lia.
Qed.

(** An array of one number token. *)
Lemma Load_number_token (t : string) :
  number_start t = true -> all_chars num_char t = true ->
  Load ("[" ++ t ++ "]")
  = (Number <- number_value t "" (has_dot t) 0 ;; Ret (JArray [Number], true)).
Proof.
  intros Hst Hall.
  destruct t as [|c t'] eqn:Et; [discriminate Hst |]. rewrite <- Et in *.
  assert (Hc : is_digit c || (c =? "-")%char = true) by (rewrite Et in Hst; exact Hst).
  destruct (number_start_char c Hc) as (Hv & Hc1 & Hc2 & Hc3 & Hc4 & Hc5 & Hc6).
  destruct (value_start_char c Hv) as (Hsp & Hbr & _).
  set (str := "[" ++ t ++ "]").
  assert (H1 : reads str 1 (t ++ "]")) by (exists "["; split; reflexivity).
  assert (H1c : reads str 1 (String c (t' ++ "]"))) by (now rewrite Et in H1).
  assert (Hlen : String.length str = S (String.length t + 1)).
  { unfold str. cbn [String.append String.length]. now rewrite length_append. }
  unfold Load, steps. rewrite Hlen.
  cbn [parse_next].
  rewrite (consume_ws_stay str 0 "[" (t ++ "]") (reads_start _) eq_refl). cbn [bind].
  change (char_at str 0) with (Ret (A := ascii) "["%char). cbn [bind].
  change ("[" =? "[")%char with true. cbv iota.
  unfold parse_array. change (Make Class.Array) with (JArray []).
  rewrite (consume_ws_stay str 1 c _ H1c Hsp). cbn [bind].
  rewrite (reads_char _ _ _ _ H1c). cbn [bind]. rewrite Hbr.
  unfold steps. rewrite Hlen. cbn [parse_array_loop].
  replace (String.length t + 1) with (S (String.length t)) by lia.
  cbn [parse_next].
  rewrite (consume_ws_stay str 1 c _ H1c Hsp). cbn [bind].
  rewrite (reads_char _ _ _ _ H1c). cbn [bind].
  rewrite Hc1, Hc2, Hc3, Hc4, Hc5, Hc6, Hc. cbn [orb]. cbv iota.
  rewrite (parse_number_token t str 1 true "]" Hall eq_refl H1).
  destruct (number_value t "" (has_dot t) 0) as [N| | |]; cbn [bind]; try reflexivity.
  change (assign_index (JArray []) 0 N) with (Ret (JArray [N])). cbn [bind].
  apply reads_app in H1.
  rewrite (consume_ws_stay _ _ _ _ H1 eq_refl). cbn [bind].
  rewrite (reads_char _ _ _ _ H1). cbn [bind].
  reflexivity.
Qed.

(** ** The loop of [json_escape] *)

Lemma char_at_append (pre : string) (c : ascii) (s : string) :
  char_at (pre ++ String c s) (String.length pre) = Ret c.
Proof. unfold char_at. now rewrite get_append_at. Qed.

Lemma json_escape_loop_text (rest : string) :
  forall pre n output,
    short (pre ++ rest) -> String.length rest < n ->
    json_escape_loop n (pre ++ rest) (Z.of_nat (String.length pre)) output
    = Ret (output ++ json_escape rest).
Proof.
  unfold short.
  induction rest as [|c rest IH]; intros pre n output Hs Hn;
    (destruct n as [|n]; [cbn [String.length] in Hn; lia |]); cbn [json_escape_loop].
  - rewrite append_nil_r, Z.ltb_irrefl. cbn [json_escape]. now rewrite append_nil_r.
  - rewrite length_append in *. cbn [String.length] in *.
    replace (Z.of_nat (String.length pre) <? Z.of_nat (String.length pre + S (String.length rest)))%Z
      with true by (symmetry; apply Z.ltb_lt; lia).
    rewrite Nat2Z.id, char_at_append. cbn [bind].
    replace (pre ++ String c rest) with ((pre ++ str1 c) ++ rest)
      by (rewrite append_assoc; reflexivity).
    replace ((Z.of_nat (String.length pre) + 1) mod UINT_MOD)%Z
      with (Z.of_nat (String.length (pre ++ str1 c))).
    2:{ rewrite Z.mod_small by (unfold UINT_MOD in *; lia).
        rewrite length_append. cbn [str1 String.length]. lia. }
    rewrite IH.
    + cbn [json_escape]. now rewrite append_assoc.
    + rewrite !length_append. cbn [str1 String.length]. lia.
    + lia.
Qed.

(** On a string shorter than [2^32] bytes the loop ends with the escaped
    text. *)
Lemma json_escape_returns (str : string) : short str -> escapes str (json_escape str).
Proof.
  intros Hs. exists (S (String.length str)).
  exact (json_escape_loop_text str "" _ "" Hs (Nat.lt_succ_diag_r _)).
Qed.

Lemma char_at_inside (str : string) :
  forall o, o < String.length str -> exists c, char_at str o = Ret c.
Proof.
  intros o Ho.
  assert (H : exists c, String.get o str = Some c).
  { revert o Ho. induction str as [|a str IH]; intros o Ho; [cbn in Ho; lia |].
    destruct o as [|o]; [now exists a |].
    cbn [String.length] in Ho. cbn [String.get]. apply IH. lia. }
  destruct H as (c & Hc). exists c. unfold char_at. now rewrite Hc.
Qed.

(** On a string of [2^32] bytes or more the counter wraps before it
    reaches the length: the loop does not end, whatever the steps. *)
Lemma json_escape_loop_long (str : string) :
  ~ short str ->
  forall n i output, (0 <= i < UINT_MOD)%Z -> json_escape_loop n str i output = OutOfFuel.
Proof.
  unfold short. intros Hlong.
  induction n as [|n IH]; intros i output Hi; [reflexivity |].
  cbn [json_escape_loop].
  replace (i <? Z.of_nat (String.length str))%Z with true
    by (symmetry; apply Z.ltb_lt; lia).
  destruct (char_at_inside str (Z.to_nat i)) as (c & ->); [lia |].
  cbn [bind]. apply IH. apply Z.mod_pos_bound. reflexivity.
Qed.

Lemma escapes_iff (str output : string) :
  escapes str output <-> short str /\ output = json_escape str.
Proof.
  split.
  - intros (n & Hn).
    assert (Hs : short str).
    { destruct (Z.lt_ge_cases (Z.of_nat (String.length str)) UINT_MOD) as [H | H];
        [exact H |].
      rewrite json_escape_loop_long in Hn; [discriminate | unfold short; lia |].
      unfold UINT_MOD. lia. }
    split; [exact Hs |].
    assert (Hm : forall a b r, a <= b -> json_escape_loop a str 0 "" = Ret r ->
                   json_escape_loop b str 0 "" = Ret r).
    { intros a b r. generalize 0%Z, "". revert b.
      induction a as [|a IH]; intros b i out Hab Ha; [discriminate Ha |].
      destruct b as [|b]; [lia |]. cbn [json_escape_loop] in *.
      destruct (i <? Z.of_nat (String.length str))%Z; [| exact Ha].
      destruct (char_at str (Z.to_nat i)); cbn [bind] in *; try discriminate Ha.
      apply IH; [lia | exact Ha]. }
    pose proof (json_escape_loop_text str "" (S (String.length str)) "" Hs
                  (Nat.lt_succ_diag_r _)) as Hr.
    cbn [String.append String.length] in Hr. change (Z.of_nat 0) with 0%Z in Hr.
    destruct (Nat.le_ge_cases n (S (String.length str))) as [Hle | Hle].
    + rewrite (Hm _ _ _ Hle Hn) in Hr. now injection Hr.
    + rewrite (Hm _ _ _ Hle Hr) in Hn. now injection Hn.
  - intros [Hs ->]. now apply json_escape_returns.
Qed.

Lemma json_escape_length (s : string) : String.length s <= String.length (json_escape s).
Proof.
  induction s as [|c s IH]; [reflexivity |].
  cbn [json_escape String.length]. rewrite length_append.
  pose proof (escape_char_length c). lia.
Qed.

Lemma short_escape_returns (t : string) : short t -> escape_returns t.
Proof.
  intros Ht s [-> | ->]; apply json_escape_returns; [exact Ht |].
  unfold short in *. pose proof (json_escape_length s). lia.
Qed.

Lemma short_texts_returns (v : JSON) : short_texts v -> Forall escape_returns (texts v).
Proof. apply Forall_impl. exact short_escape_returns. Qed.

Lemma short_texts_Array (l : list JSON) :
  short_texts (JArray l) <-> Forall short_texts l.
Proof.
  unfold short_texts. cbn [texts]. induction l as [|x l IH]; cbn [flat_map].
  - split; constructor.
  - rewrite Forall_app, IH. split.
    + intros [Hx Hl]. now constructor.
    + intros H. inversion H; subst. now split.
Qed.

Lemma short_texts_Object (m : list (string * JSON)) :
  short_texts (JObject m) <-> Forall (fun kv => short (fst kv) /\ short_texts (snd kv)) m.
Proof.
  unfold short_texts. cbn [texts]. induction m as [|[k x] m IH]; cbn [flat_map].
  - split; constructor.
  - cbn [fst snd List.app]. split.
    + intros H. inversion H as [|? ? Hk Hr]; subst.
      apply Forall_app in Hr as [Hx Hm]. constructor; [now split | now apply IH].
    + intros H. inversion H as [|? ? [Hk Hx] Hm]; subst. cbn [fst snd] in *.
      constructor; [assumption |]. apply Forall_app. split; [assumption | now apply IH].
Qed.

(** ** A text printed again *)

Lemma reads_back_prints_back (v : JSON) : reads_back v -> prints_back v.
Proof.
  induction v as [|m IH|l IH|s|d|i|b] using JSON_nested_ind; intros H;
    inversion H; subst; try (now constructor).
  - apply pb_Object; [assumption |].
    apply Forall_forall. intros kv Hin. rewrite Forall_forall in *.
    match goal with Hall : forall x, In x m -> escaped_key _ /\ _ |- _ =>
      destruct (Hall kv Hin) as [Hk Hx] end.
    split; [assumption | now apply IH].
  - apply pb_Array; [assumption |].
    apply Forall_forall. intros x Hin. rewrite Forall_forall in *. apply IH; auto.
  - apply pb_Floating.
    match goal with Hf : float_reads_back d |- _ => destruct Hf as (H1 & H2 & H3) end.
    repeat split; trivial. now exists d.
Qed.

Lemma reread_double_spec (d : double) :
  float_reprints d ->
  float_reads_back (reread_double d)
  /\ to_string_double (reread_double d) = to_string_double d.
Proof.
  intros (H1 & H2 & d' & Hv & Ht). unfold reread_double. cbv zeta. rewrite Hv.
  split; [| exact Ht]. unfold float_reads_back. cbv zeta. rewrite Ht. now repeat split.
Qed.

Lemma sorted_keys_map (f : JSON -> JSON) (m : list (string * JSON)) :
  sorted_keys m -> sorted_keys (List.map (fun kv => (fst kv, f (snd kv))) m).
Proof.
  induction m as [|[k x] m IH]; [trivial |].
  cbn [sorted_keys List.map fst snd]. intros [Hk Hm]. split; [| now apply IH].
  apply Forall_map. cbn [fst]. exact Hk.
Qed.

Lemma dump_entries_ext (f : JSON -> JSON) (m : list (string * JSON)) :
  Forall (fun kv => dumpMinified (f (snd kv)) = dumpMinified (snd kv)) m ->
  forall skip,
    dump_entries dumpMinified (List.map (fun kv => (fst kv, f (snd kv))) m) skip
    = dump_entries dumpMinified m skip.
Proof.
  induction 1 as [|[k x] m Hx _ IH]; intros skip; [reflexivity |].
  cbn [List.map dump_entries fst snd] in *. now rewrite Hx, IH.
Qed.

Lemma dump_elements_ext (f : JSON -> JSON) (l : list JSON) :
  Forall (fun x => dumpMinified (f x) = dumpMinified x) l ->
  forall skip,
    dump_elements dumpMinified (List.map f l) skip = dump_elements dumpMinified l skip.
Proof.
  induction 1 as [|x l Hx _ IH]; intros skip; [reflexivity |].
  cbn [List.map dump_elements] in *. now rewrite Hx, IH.
Qed.

Lemma reread_spec (v : JSON) :
  prints_back v ->
  reads_back (reread v) /\ dumpMinified (reread v) = dumpMinified v
  /\ is_number (reread v) = is_number v.
Proof.
  induction v as [|m IH|l IH|s|d|i|b] using JSON_nested_ind; intros H;
    inversion H; subst; cbn [reread];
    try (split; [now constructor | split; reflexivity]).
  - assert (Hall : Forall (fun kv => escaped_key (fst kv) /\ reads_back (reread (snd kv))
                                     /\ dumpMinified (reread (snd kv)) = dumpMinified (snd kv)) m).
    { apply Forall_forall. intros kv Hin. rewrite Forall_forall in *.
      match goal with Hm : forall x, In x m -> escaped_key _ /\ _ |- _ =>
        destruct (Hm kv Hin) as [Hk Hx] end.
      destruct (IH kv Hin Hx) as (Hr & Hd & _). now repeat split. }
    split; [| split; [| reflexivity]].
    + apply rb_Object; [now apply sorted_keys_map |].
      apply Forall_map. cbn [fst snd]. revert Hall. apply Forall_impl. tauto.
    + cbn [dumpMinified]. rewrite dump_entries_ext; [reflexivity |].
      revert Hall. apply Forall_impl. tauto.
  - assert (Hall : Forall (fun x => reads_back (reread x)
                                    /\ dumpMinified (reread x) = dumpMinified x) l).
    { apply Forall_forall. intros x Hin. rewrite Forall_forall in *.
      destruct (IH x Hin) as (Hr & Hd & _); auto. }
    split; [| split; [| reflexivity]].
    + apply rb_Array; [now rewrite length_map |].
      apply Forall_map. revert Hall. apply Forall_impl. tauto.
    + cbn [dumpMinified]. rewrite dump_elements_ext; [reflexivity |].
      revert Hall. apply Forall_impl. tauto.
  - match goal with Hf : float_reprints d |- _ =>
      destruct (reread_double_spec d Hf) as [Hr Ht] end.
    split; [now constructor | split; [exact Ht | reflexivity]].
Qed.

Lemma reprint_prints_back (v : JSON) :
  prints_back v -> is_number v = false -> reprint (dumpMinified v) = Ret (dumpMinified v).
Proof.
  intros Hp Hn. destruct (reread_spec v Hp) as (Hr & Hd & Hi).
  unfold reprint. rewrite <- Hd at 1.
  rewrite (Load_dumpMinified (reread v) Hr) by congruence.
  cbn [bind]. now rewrite Hd.
Qed.

Lemma append_inv_head (a s t : string) : a ++ s = a ++ t -> s = t.
Proof. induction a as [|c a IH]; cbn [String.append]; [trivial |]. intros H. injection H as H. auto. Qed.

Lemma append_inv_tail (s t : string) (c : ascii) : s ++ str1 c = t ++ str1 c -> s = t.
Proof.
  revert t. induction s as [|a s IH]; intros [|b t] H; cbn [String.append str1] in *.
  - reflexivity.
  - injection H as -> H. destruct t; discriminate H.
  - injection H as -> H. destruct s; discriminate H.
  - injection H as -> H. f_equal. now apply IH.
Qed.

Lemma dumpMinified_single (x : JSON) :
  dumpMinified (JArray [x]) = "[" ++ dumpMinified x ++ "]".
Proof. cbn [dumpMinified dump_elements String.append]. now rewrite append_nil_r. Qed.

Lemma pad6_num_char (n : Z) : all_chars num_char (pad6 n) = true.
Proof.
  unfold pad6. destruct (to_string_text (1000000 + n)) as (_ & Hall & _).
  destruct (to_string (1000000 + n)) as [|c s]; [reflexivity |].
  cbn [all_chars] in Hall. now apply andb_prop in Hall as [_ Hall].
Qed.

(** The text of a finite double: a plain decimal with a point. *)
Lemma to_string_double_text (s : bool) (m : positive) (e : Z) :
  let t := to_string_double (S754_finite s m e) in
  number_start t = true /\ all_chars num_char t = true /\ has_dot t = true.
Proof.
  cbn [to_string_double]. cbv zeta.
  match goal with |- context [to_string (?n / 10 ^ 6)] => set (q := (n / 10 ^ 6)%Z);
    set (r := pad6 _) end.
  destruct (to_string_text q) as (Hst & Hall & _).
  assert (Hbody : number_start (to_string q ++ "." ++ r) = true
                  /\ all_chars num_char (to_string q ++ "." ++ r) = true
                  /\ has_dot (to_string q ++ "." ++ r) = true).
  { split; [| split].
    - destruct (to_string q); [discriminate Hst | exact Hst].
    - rewrite all_chars_app, Hall. cbn [String.append all_chars]. apply pad6_num_char.
    - rewrite has_dot_app. cbn [String.append has_dot]. now rewrite orb_true_r. }
  destruct s; cbn [String.append]; [| exact Hbody].
  destruct Hbody as (_ & H2 & H3). repeat split.
  - cbn [all_chars]. exact H2.
  - cbn [has_dot]. exact H3.
Qed.

(** A double outside [float_reprints] is printed as another text, or not
    at all, once its text went through [JSON::Load]. *)
Lemma reprint_double_differs (d : double) :
  ~ float_reprints d ->
  reprint (dumpMinified (JArray [JFloating d])) <> Ret (dumpMinified (JArray [JFloating d])).
Proof.
  intros Hno. destruct d as [s|s| |s m e].
  - exfalso. apply Hno. destruct s; repeat split; eexists; split; reflexivity.
  - destruct s; vm_compute; discriminate.
  - vm_compute. discriminate.
  - destruct (to_string_double_text s m e) as (Hst & Hall & Hdot).
    rewrite dumpMinified_single. cbn [dumpMinified].
    set (t := to_string_double (S754_finite s m e)) in *.
    unfold reprint. rewrite (Load_number_token t Hst Hall).
    destruct (number_value t "" (has_dot t) 0) as [N| | |] eqn:EN; cbn [bind];
      try discriminate.
    intros H0. assert (H : dumpMinified (JArray [N]) = "[" ++ t ++ "]") by congruence.
    clear H0. rewrite dumpMinified_single in H.
    apply append_inv_head in H. apply (append_inv_tail _ _ "]") in H.
    pose proof EN as EN'. unfold number_value in EN'. rewrite Hdot in EN'.
    destruct (stod t) as [d'| | |]; cbn [bind] in EN'; try discriminate EN'.
    injection EN' as <-. cbn [dumpMinified] in H.
    apply Hno. repeat split; trivial.
    exists (double_mul d' (pow10 0)). split; [exact EN | exact H].
Qed.

(** ** The integer at the head of a text, and a double cut off *)

Lemma read_digits_value (digits : string) :
  forall rest acc seen,
    all_chars is_digit digits = true -> starts_digit rest = false ->
    read_digits (digits ++ rest) acc seen
    = ((acc * 10 ^ Z.of_nat (String.length digits) + digits_value digits)%Z,
       seen || negb (digits =? "")%string, rest).
Proof.
  induction digits as [|c digits IH]; intros rest acc seen Hall Hrest.
  - cbn [String.append String.length digits_value]. rewrite (read_digits_stop _ _ _ Hrest).
    cbn. rewrite orb_false_r. f_equal. f_equal. lia.
  - cbn [all_chars] in Hall. apply andb_prop in Hall as [Hc Hall].
    cbn [String.append read_digits]. rewrite Hc, (IH rest _ true Hall Hrest).
    cbn [String.length digits_value orb]. rewrite orb_true_r.
    rewrite Nat2Z.inj_succ, Z.pow_succ_r by lia.
    f_equal. f_equal. ring.
Qed.

Lemma from_chars_head (fits : Z -> bool) (neg : bool) (digits rest : string) :
  digits <> "" -> all_chars is_digit digits = true -> starts_digit rest = false ->
  from_chars fits ((if neg then "-" else "") ++ digits ++ rest)
  = let v := if neg then (- digits_value digits)%Z else digits_value digits in
    if fits v then Some v else None.
Proof.
  intros Hne Hall Hrest. unfold from_chars.
  assert (Hst : starts_digit (digits ++ rest) = true).
  { destruct digits as [|c digits]; [congruence |].
    cbn [all_chars] in Hall. now apply andb_prop in Hall as [Hc _]. }
  assert (Hnn : negb (digits =? "")%string = true) by (destruct digits; [congruence | reflexivity]).
  destruct neg.
  - cbn [String.append take_sign]. change ("-" =? "-")%char with true. cbv iota.
    rewrite (read_digits_value digits rest 0 false Hall Hrest), Hnn. cbn [orb].
    now rewrite Z.mul_0_l, Z.add_0_l.
  - cbn [String.append]. rewrite (take_sign_digit false _ Hst).
    rewrite (read_digits_value digits rest 0 false Hall Hrest), Hnn. cbn [orb].
    now rewrite Z.mul_0_l, Z.add_0_l.
Qed.

(** A text that begins with an integer is a sign, digits, and a rest that
    does not go on with a digit. *)
Lemma starts_integer_head (s : string) :
  starts_integer s = true ->
  exists (neg : bool) digits rest,
    s = (if neg then "-" else "") ++ digits ++ rest
    /\ digits <> "" /\ all_chars is_digit digits = true /\ starts_digit rest = false.
Proof.
  assert (Hd : forall t, starts_digit t = true ->
            exists digits rest, t = digits ++ rest /\ digits <> ""
              /\ all_chars is_digit digits = true /\ starts_digit rest = false).
  { induction t as [|c t IH]; intros Ht; [discriminate Ht |].
    cbn [starts_digit] in Ht.
    destruct (starts_digit t) eqn:Et.
    - destruct (IH eq_refl) as (ds & rest & -> & _ & Hall & Hrest).
      exists (String c ds), rest. repeat split; trivial; [discriminate |].
      cbn [all_chars]. now rewrite Ht.
    - exists (str1 c), t. repeat split; trivial; [discriminate |].
      cbn [str1 all_chars]. now rewrite Ht. }
  unfold starts_integer. intros H.
  destruct s as [|c s]; [discriminate H |]. cbn [take_sign] in H.
  destruct (c =? "-")%char eqn:Ec.
  - apply Ascii.eqb_eq in Ec. subst c. cbn [snd] in H.
    destruct (Hd s H) as (ds & rest & -> & Hne & Hall & Hrest).
    now exists true, ds, rest.
  - cbn [andb snd] in H.
    destruct (Hd (String c s) H) as (ds & rest & E & Hne & Hall & Hrest).
    now exists false, ds, rest.
Qed.

(** What the conversion computes is the double with its fraction cut
    off, and nothing else is. *)
Lemma truncated_finite (s : bool) (m : positive) (e : Z) :
  let a := match e with
           | Zneg p => (Zpos m / 2 ^ Zpos p)%Z
           | _ => (Zpos m * 2 ^ e)%Z
           end in
  forall n, truncated (S754_finite s m e) n <-> n = if s then (- a)%Z else a.
Proof.
  cbv zeta. intros n. cbn [truncated].
  assert (Hpow : forall p, (0 < 2 ^ Zpos p)%Z) by (intros p; apply Z.pow_pos_nonneg; lia).
  destruct e as [|p|p].
  - change (Z.max 0 (- 0)) with 0%Z. change (Z.max 0 0) with 0%Z.
    rewrite !Z.pow_0_r, !Z.mul_1_r. destruct s; split; intros H; lia.
  - change (Z.max 0 (- Zpos p)) with 0%Z. change (Z.max 0 (Zpos p)) with (Zpos p).
    rewrite !Z.pow_0_r, !Z.mul_1_r. pose proof (Hpow p).
    assert (0 < Zpos m * 2 ^ Zpos p)%Z by nia.
    destruct s; split; intros H'; lia.
  - change (Z.max 0 (- Zneg p)) with (Zpos p). change (Z.max 0 (Zneg p)) with 0%Z.
    rewrite Z.pow_0_r, Z.mul_1_r. pose proof (Hpow p) as Hp.
    pose proof (Z.div_mod (Zpos m) (2 ^ Zpos p) ltac:(lia)) as Hdm.
    pose proof (Z.mod_pos_bound (Zpos m) (2 ^ Zpos p) Hp) as Hmod.
    assert (Ha : (0 <= Zpos m / 2 ^ Zpos p)%Z) by (apply Z.div_pos; lia).
    split.
    + intros [Hs [Hlo Hhi]].
      assert (Z.abs n = Zpos m / 2 ^ Zpos p)%Z.
      { apply (Z.div_unique (Zpos m) (2 ^ Zpos p) (Z.abs n)
                 (Zpos m - Z.abs n * 2 ^ Zpos p)); [left; nia | lia]. }
      destruct s; lia.
    + intros ->.
      assert (E : Z.abs (if s then - (Zpos m / 2 ^ Zpos p) else Zpos m / 2 ^ Zpos p)%Z
                  = (Zpos m / 2 ^ Zpos p)%Z) by (destruct s; lia).
      rewrite E. split; [destruct s; lia | nia].
Qed.

Lemma double_to_ll_truncated (d : double) (n : Z) :
  truncated d n -> in_llong n = true -> double_to_ll d = Ret n.
Proof.
  destruct d as [s|s| |s m e]; cbn [truncated]; try contradiction.
  - now intros ->.
  - intros H Hn. apply (truncated_finite s m e n) in H. cbn [double_to_ll]. cbv zeta.
    rewrite <- H. now rewrite Hn.
Qed.

Lemma double_to_ll_outside (d : double) :
  (forall n, truncated d n -> in_llong n = false) ->
  double_to_ll d = Undefined FloatToIntRange.
Proof.
  destruct d as [s|s| |s m e]; intros H; try reflexivity.
  - now specialize (H 0%Z eq_refl).
  - cbn [double_to_ll]. cbv zeta.
    match goal with |- context [in_llong ?v] =>
      rewrite (H v (proj2 (truncated_finite s m e v) eq_refl)) end.
    reflexivity.
Qed.

(** ** Objects in memory *)

Import Store.

Lemma traverse_ext {A B : Type} (f g : A -> option B) (l : list A) :
  (forall x, In x l -> f x = g x) -> traverse f l = traverse g l.
Proof.
  induction l as [|a l IH]; intros H; [reflexivity |].
  cbn [traverse]. rewrite (H a (or_introl eq_refl)), IH; [reflexivity |].
  intros x Hx. apply H. now right.
Qed.

Lemma traverse_In {A B : Type} (f : A -> option B) (l : list A) :
  forall rs, traverse f l = Some rs ->
  forall x, In x l -> exists r, f x = Some r /\ In r rs.
Proof.
  induction l as [|a l IH]; intros rs H x Hx; [contradiction |].
  cbn [traverse] in H. destruct (f a) as [y|] eqn:Ea; [| discriminate H].
  destruct (traverse f l) as [r|] eqn:El; [| discriminate H].
  injection H as <-. destruct Hx as [<- | Hx].
  - exists y. split; [assumption | now left].
  - destruct (IH r eq_refl x Hx) as (r' & Hr & Hin). exists r'. split; [assumption | now right].
Qed.

Lemma content_ext (h h' : loc -> option container) (rec rec' : var -> option JSON)
  (o : object) :
  (forall p, owned o = Some p -> h' p = h p) ->
  (forall p c e, owned o = Some p -> h p = Some c -> In e (held c) -> rec' e = rec e) ->
  content h' rec' o = content h rec o.
Proof.
  unfold content, owned. destruct o as [i t].
  destruct t, i as [[p|]| | |]; cbn; try reflexivity; intros Hh Hr;
    rewrite (Hh p eq_refl); destruct (h p) as [[es|l|s]|] eqn:E; try reflexivity;
    f_equal; apply traverse_ext; intros x Hx.
  - f_equal. apply (Hr p _ (snd x) eq_refl E). cbn [held]. now apply in_map.
  - exact (Hr p _ x eq_refl E Hx).
Qed.

Lemma payload_ext (h h' : loc -> option container)
  (rec rec' : var -> option (list var * list loc)) (o : object) :
  (forall p, owned o = Some p -> h' p = h p) ->
  (forall p c e, owned o = Some p -> h p = Some c -> In e (held c) -> rec' e = rec e) ->
  payload h' rec' o = payload h rec o.
Proof.
  unfold payload. intros Hh Hr. destruct (owned o) as [p|]; [| reflexivity].
  rewrite (Hh p eq_refl). destruct (h p) as [c|] eqn:E; [| reflexivity].
  now rewrite (traverse_ext rec' rec (held c) (fun e He => Hr p c e eq_refl E He)).
Qed.

(** What [payload] lists: the container owned, and for every element held
    its own extent. *)
Lemma payload_cells (h : loc -> option container)
  (rec : var -> option (list var * list loc)) (o : object) (xs : list var)
  (ps : list loc) :
  payload h rec o = Some (xs, ps) ->
  (forall p, owned o = Some p -> In p ps)
  /\ (forall p c e, owned o = Some p -> h p = Some c -> In e (held c) ->
        exists r, rec e = Some r /\ incl (fst r) xs /\ incl (snd r) ps).
Proof.
  unfold payload. destruct (owned o) as [p|]; [| intros _; split; intros; discriminate].
  destruct (h p) as [c|] eqn:E; [| discriminate].
  destruct (traverse rec (held c)) as [rs|] eqn:Et; [| discriminate].
  intros H. injection H as <- <-. split.
  - intros p' Hp. injection Hp as <-. now left.
  - intros p' c' e Hp Hc He. injection Hp as <-. assert (c' = c) by congruence. subst c'.
    destruct (traverse_In rec (held c) rs Et e He) as (r & Hr & Hin).
    exists r. split; [assumption |]. split; intros z Hz.
    + apply in_flat_map. now exists r.
    + right. apply in_flat_map. now exists r.
Qed.

(** The extent and the value of an object rest on the cells of the extent
    alone. *)
Lemma extent_frame (fuel : nat) :
  forall m m' x xs ps,
    extent fuel m x = Some (xs, ps) ->
    (forall y, In y xs -> objects m' y = objects m y) ->
    (forall q, In q ps -> heap m' q = heap m q) ->
    extent fuel m' x = Some (xs, ps).
Proof.
  induction fuel as [|f IH]; intros m m' x xs ps H Ho Hh; [discriminate H |].
  cbn [extent] in *. destruct (objects m x) as [o|] eqn:Eo; [| discriminate H].
  destruct (payload (heap m) (extent f m) o) as [[xs0 ps0]|] eqn:Ep; [| discriminate H].
  injection H as <- <-. rewrite (Ho x (or_introl eq_refl)), Eo.
  destruct (payload_cells _ _ _ _ _ Ep) as [Hp He].
  rewrite (payload_ext (heap m) (heap m') (extent f m) (extent f m') o), Ep; [reflexivity | |].
  - intros p Hown. apply Hh. now apply Hp.
  - intros p c e Hown Hc Hin. destruct (He p c e Hown Hc Hin) as ([xe pe] & Hr & Hx & Hq).
    rewrite Hr. apply (IH m m' e xe pe Hr).
    + intros y Hy. apply Ho. right. now apply Hx.
    + intros q Hq'. apply Hh. now apply Hq.
Qed.

Lemma content_frame (f : nat) (m m' : memory) (o : object) (xs : list var) (ps : list loc) :
  (forall m m' x xs ps,
      extent f m x = Some (xs, ps) ->
      (forall y, In y xs -> objects m' y = objects m y) ->
      (forall q, In q ps -> heap m' q = heap m q) ->
      value_of f m' x = value_of f m x) ->
  payload (heap m) (extent f m) o = Some (xs, ps) ->
  (forall y, In y xs -> objects m' y = objects m y) ->
  (forall q, In q ps -> heap m' q = heap m q) ->
  content (heap m') (value_of f m') o = content (heap m) (value_of f m) o.
Proof.
  intros IH Ep Ho Hh. destruct (payload_cells _ _ _ _ _ Ep) as [Hp He].
  apply content_ext.
  - intros p Hown. apply Hh. now apply Hp.
  - intros p c e Hown Hc Hin. destruct (He p c e Hown Hc Hin) as ([xe pe] & Hr & Hx & Hq).
    apply (IH m m' e xe pe Hr).
    + intros y Hy. apply Ho. now apply Hx.
    + intros q Hq'. apply Hh. now apply Hq.
Qed.

Lemma value_of_frame (fuel : nat) :
  forall m m' x xs ps,
    extent fuel m x = Some (xs, ps) ->
    (forall y, In y xs -> objects m' y = objects m y) ->
    (forall q, In q ps -> heap m' q = heap m q) ->
    value_of fuel m' x = value_of fuel m x.
Proof.
  induction fuel as [|f IH]; intros m m' x xs ps H Ho Hh; [reflexivity |].
  cbn [extent value_of] in *. destruct (objects m x) as [o|] eqn:Eo; [| discriminate H].
  destruct (payload (heap m) (extent f m) o) as [[xs0 ps0]|] eqn:Ep; [| discriminate H].
  injection H as <- <-. rewrite (Ho x (or_introl eq_refl)), Eo.
  apply (content_frame f m m' o xs0 ps0 IH Ep); [| exact Hh].
  intros y Hy. apply Ho. now right.
Qed.

(** The cells of an extent hold live objects. *)
Lemma extent_live (fuel : nat) :
  forall m x xs ps, extent fuel m x = Some (xs, ps) ->
  forall y, In y xs -> objects m y <> None.
Proof.
  induction fuel as [|f IH]; intros m x xs ps H y Hy; [discriminate H |].
  cbn [extent] in H. destruct (objects m x) as [o|] eqn:Eo; [| discriminate H].
  destruct (payload (heap m) (extent f m) o) as [[xs0 ps0]|] eqn:Ep; [| discriminate H].
  injection H as <- <-. destruct Hy as [<- | Hy]; [congruence |].
  unfold payload in Ep. destruct (owned o) as [p|]; [| injection Ep as <- <-; contradiction].
  destruct (heap m p) as [c|]; [| discriminate Ep].
  destruct (traverse (extent f m) (held c)) as [rs|] eqn:Et; [| discriminate Ep].
  injection Ep as <- <-. apply in_flat_map in Hy as ([xe pe] & Hin & Hy).
  assert (He : exists e, extent f m e = Some (xe, pe)).
  { clear -Et Hin. revert rs Et Hin. induction (held c) as [|a l IHl]; intros rs Et Hin.
    - injection Et as <-. contradiction.
    - cbn [traverse] in Et. destruct (extent f m a) as [ra|] eqn:Ea; [| discriminate Et].
      destruct (traverse (extent f m) l) as [r|]; [| discriminate Et].
      injection Et as <-. destruct Hin as [-> | Hin]; [now exists a | now apply (IHl r)]. }
  destruct He as (e & He). exact (IH m e xe pe He y Hy).
Qed.

Lemma released_refl (m : memory) : released m m [] [].
Proof. repeat split; intros; contradiction || reflexivity. Qed.

Lemma released_trans (m m1 m2 : memory) (xs xs' : list var) (ps ps' : list loc) :
  released m m1 xs ps -> released m1 m2 xs' ps' -> released m m2 (xs ++ xs') (ps ++ ps').
Proof.
  intros (A1 & A2 & A3 & A4) (B1 & B2 & B3 & B4). repeat split.
  - intros y Hy. destruct (in_dec Nat.eq_dec y xs') as [H | H]; [now apply B1 |].
    rewrite (B2 y H). apply A1. apply in_app_or in Hy. tauto.
  - intros y Hy. rewrite B2, A2; [reflexivity | |]; intros H; apply Hy, in_or_app; tauto.
  - intros q Hq. destruct (in_dec Nat.eq_dec q ps') as [H | H]; [now apply B3 |].
    rewrite (B4 q H). apply A3. apply in_app_or in Hq. tauto.
  - intros q Hq. rewrite B4, A4; [reflexivity | |]; intros H; apply Hq, in_or_app; tauto.
Qed.

Lemma released_object (m m' : memory) (xs : list var) (ps : list loc) (e : var) :
  released m m' xs ps -> released m (set_object e None m') (e :: xs) ps.
Proof.
  intros (A1 & A2 & A3 & A4). repeat split; cbn [objects heap set_object]; trivial.
  - intros y Hy. destruct (Nat.eqb_spec y e) as [_ | Hne]; [reflexivity |].
    apply A1. destruct Hy; [congruence | assumption].
  - intros y Hy. destruct (Nat.eqb_spec y e) as [-> | Hne]; [exfalso; apply Hy; now left |].
    apply A2. intros H. apply Hy. now right.
Qed.

Lemma released_free (m m' : memory) (xs : list var) (ps : list loc) (p : loc) :
  released m m' xs ps -> released m (free p m') xs (p :: ps).
Proof.
  intros (A1 & A2 & A3 & A4). repeat split; cbn [objects heap free]; trivial.
  - intros q Hq. destruct (Nat.eqb_spec q p) as [_ | Hne]; [reflexivity |].
    apply A3. destruct Hq; [congruence | assumption].
  - intros q Hq. destruct (Nat.eqb_spec q p) as [-> | Hne]; [exfalso; apply Hq; now left |].
    apply A4. intros H. apply Hq. now right.
Qed.

Lemma NoDup_app_l {A : Type} (l l' : list A) : NoDup (l ++ l') -> NoDup l.
Proof. induction l as [|a l IH]; cbn; intros H; [constructor |]. inversion H; subst.
  constructor; [intros Hin; apply H2, in_or_app; now left | now apply IH]. Qed.

Lemma NoDup_app_r {A : Type} (l l' : list A) : NoDup (l ++ l') -> NoDup l'.
Proof. induction l as [|a l IH]; cbn; intros H; [exact H |]. inversion H; subst. now apply IH. Qed.

Lemma NoDup_app_disjoint {A : Type} (l l' : list A) :
  NoDup (l ++ l') -> forall x, In x l -> ~ In x l'.
Proof.
  induction l as [|a l IH]; cbn; intros H x Hx; [contradiction |].
  inversion H; subst. destruct Hx as [<- | Hx].
  - intros Hin. apply H2, in_or_app. now right.
  - now apply IH.
Qed.

(** [delete] on a container whose elements have extents that do not
    overlap: the elements, what they own and the container are gone, and
    nothing else has changed. *)
Lemma destroy_all (f : nat) :
  (forall q m c rs,
      heap m q = Some c -> traverse (extent f m) (held c) = Some rs ->
      NoDup (flat_map fst rs) -> NoDup (q :: flat_map snd rs) ->
      exists m', delete (S f) q m = Ret m'
                 /\ released m m' (flat_map fst rs) (q :: flat_map snd rs)) ->
  forall es rs m,
    traverse (extent (S f) m) es = Some rs ->
    NoDup (flat_map fst rs) -> NoDup (flat_map snd rs) ->
    exists m',
      fold_left (fun r x => m <- r ;; destroy_with (delete (S f)) x m) es (Ret m) = Ret m'
      /\ released m m' (flat_map fst rs) (flat_map snd rs).
Proof.
  intros HB. induction es as [|e es IH]; intros rs m Ht Hx Hp.
  - injection Ht as <-. exists m. split; [reflexivity | apply released_refl].
  - cbn [traverse] in Ht.
    destruct (extent (S f) m e) as [[xe pe]|] eqn:Ee; [| discriminate Ht].
    destruct (traverse (extent (S f) m) es) as [rs'|] eqn:Et; [| discriminate Ht].
    injection Ht as <-. cbn [flat_map fst snd] in *.
    assert (Hstep : exists m1, destroy_with (delete (S f)) e m = Ret m1 /\ released m m1 xe pe).
    { cbn [extent] in Ee. unfold destroy_with, read.
      destruct (objects m e) as [o|] eqn:Eo; [| discriminate Ee]. cbn [bind].
      destruct (payload (heap m) (extent f m) o) as [[xs0 ps0]|] eqn:Epl; [| discriminate Ee].
      injection Ee as <- <-. unfold payload in Epl.
      destruct (owned o) as [q|] eqn:Eown.
      - destruct (heap m q) as [c|] eqn:Eh; [| discriminate Epl].
        destruct (traverse (extent f m) (held c)) as [rs0|] eqn:Et0; [| discriminate Epl].
        injection Epl as <- <-.
        destruct (HB q m c rs0 Eh Et0) as (m1 & E1 & R1).
        + apply NoDup_app_l in Hx. now inversion Hx.
        + now apply NoDup_app_l in Hp.
        + rewrite E1. cbn [bind]. eexists. split; [reflexivity |]. now apply released_object.
      - injection Epl as <- <-. cbn [bind]. eexists. split; [reflexivity |].
        apply released_object, released_refl. }
    destruct Hstep as (m1 & E1 & R1).
    cbn [fold_left bind]. rewrite E1.
    destruct (IH rs' m1) as (m' & E' & R').
    + rewrite <- Et. apply traverse_ext. intros x Hin.
      destruct (traverse_In _ _ _ Et x Hin) as ([xr pr] & Hr & Hrin). rewrite Hr.
      destruct R1 as (_ & A2 & _ & A4).
      apply (extent_frame (S f) m m1 x xr pr Hr).
      * intros y Hy. apply A2. intros Hin'.
        apply (NoDup_app_disjoint _ _ Hx y Hin'). apply in_flat_map. now exists (xr, pr).
      * intros q Hq. apply A4. intros Hin'.
        apply (NoDup_app_disjoint _ _ Hp q Hin'). apply in_flat_map. now exists (xr, pr).
    + now apply NoDup_app_r in Hx.
    + now apply NoDup_app_r in Hp.
    + exists m'. split; [exact E' | exact (released_trans _ _ _ _ _ _ _ R1 R')].
Qed.

Lemma delete_released (f : nat) :
  forall q m c rs,
    heap m q = Some c -> traverse (extent f m) (held c) = Some rs ->
    NoDup (flat_map fst rs) -> NoDup (q :: flat_map snd rs) ->
    exists m', delete (S f) q m = Ret m'
               /\ released m m' (flat_map fst rs) (q :: flat_map snd rs).
Proof.
  induction f as [|f IH]; intros q m c rs Eh Et Hx Hp.
  - assert (rs = [] /\ held c = []) as [-> Hc].
    { destruct (held c) as [|e es]; [now injection Et as <- | discriminate Et]. }
    cbn [delete]. rewrite Eh, Hc. cbn [fold_left bind flat_map].
    eexists. split; [reflexivity |]. apply released_free, released_refl.
  - inversion Hp as [|? ? Hq Hp']; subst.
    destruct (destroy_all f IH (held c) rs m Et Hx Hp') as (m1 & E1 & R1).
    cbn [delete]. rewrite Eh. cbn [delete] in E1. rewrite E1. cbn [bind].
    eexists. split; [reflexivity |]. now apply released_free.
Qed.

Lemma ClearInternal_released (f : nat) (m : memory) (this : var) (xs : list var)
  (ps : list loc) :
  extent (S f) m this = Some (xs, ps) -> NoDup xs -> NoDup ps ->
  exists o xs0 m1,
    objects m this = Some o /\ xs = this :: xs0
    /\ ClearInternal (S f) this m = Ret m1 /\ released m m1 xs0 ps.
Proof.
  intros He Hx Hp. cbn [extent] in He.
  destruct (objects m this) as [o|] eqn:Eo; [| discriminate He].
  destruct (payload (heap m) (extent f m) o) as [[xs0 ps0]|] eqn:Epl; [| discriminate He].
  injection He as <- <-. inversion Hx as [|? ? Hthis Hx0]; subst.
  exists o, xs0. unfold ClearInternal, read. rewrite Eo. cbn [bind].
  unfold payload in Epl. destruct (owned o) as [p|].
  - destruct (heap m p) as [c|] eqn:Eh; [| discriminate Epl].
    destruct (traverse (extent f m) (held c)) as [rs|] eqn:Et; [| discriminate Epl].
    injection Epl as <- <-.
    destruct (delete_released f p m c rs Eh Et Hx0 Hp) as (m1 & E1 & R1).
    exists m1. split; [reflexivity |]. split; [reflexivity |]. split; [exact E1 | exact R1].
  - injection Epl as <- <-. exists m.
    split; [reflexivity |]. split; [reflexivity |]. split; [reflexivity | apply released_refl].
Qed.

Lemma extent_head (fuel : nat) (m : memory) (x : var) (xs : list var) (ps : list loc) :
  extent fuel m x = Some (xs, ps) ->
  exists f o xs0,
    fuel = S f /\ objects m x = Some o /\ xs = x :: xs0
    /\ payload (heap m) (extent f m) o = Some (xs0, ps).
Proof.
  destruct fuel as [|f]; [discriminate |]. cbn [extent].
  destruct (objects m x) as [o|]; [| discriminate].
  destruct (payload (heap m) (extent f m) o) as [[xs0 ps0]|] eqn:Epl; [| discriminate].
  intros H. injection H as <- <-. now exists f, o, xs0.
Qed.

Lemma object_eta (o : object) : mk_object (Internal o) (Type_ o) = o.
Proof. now destruct o. Qed.



(** A move assignment to itself leaves Null, whatever the object held. *)
Lemma move_assign_self (fuel : nat) (m m' : memory) (x : var) :
  move_assign fuel x x m = Ret m' -> value_of (S fuel) m' x = Some JNull.
Proof.
  unfold move_assign, set_Internal, set_Type, read. intros H.
  destruct (ClearInternal fuel x m) as [m1| | |]; cbn [bind] in H; try discriminate H.
  destruct (objects m1 x) as [o|]; cbn [bind] in H; try discriminate H.
  cbn [objects set_object] in H. rewrite !Nat.eqb_refl in H. cbn [bind Internal Type_] in H.
  cbn [objects set_object] in H. rewrite !Nat.eqb_refl in H. cbn [bind Internal Type_] in H.
  cbn [objects set_object] in H. rewrite !Nat.eqb_refl in H. cbn [bind Internal Type_] in H.
  injection H as <-. cbn [value_of objects set_object]. now rewrite Nat.eqb_refl.
Qed.


(** ** Copies in memory: new storage and what it leaves *)

Lemma traverse_mono {A B : Type} (f g : A -> option B) (l : list A) :
  forall rs, traverse f l = Some rs ->
  (forall x y, In x l -> f x = Some y -> g x = Some y) ->
  traverse g l = Some rs.
Proof.
  induction l as [|a l IH]; intros rs H Hm; [exact H |].
  cbn [traverse] in *. destruct (f a) as [y|] eqn:Ea; [| discriminate H].
  destruct (traverse f l) as [r|] eqn:El; [| discriminate H].
  rewrite (Hm a y (or_introl eq_refl) Ea), (IH r eq_refl); [exact H |].
  intros x z Hx. apply Hm. now right.
Qed.

Lemma traverse_length {A B : Type} (f : A -> option B) (l : list A) :
  forall rs, traverse f l = Some rs -> List.length rs = List.length l.
Proof.
  induction l as [|a l IH]; intros rs H; cbn [traverse] in H.
  - now injection H as <-.
  - destruct (f a); [| discriminate H]. destruct (traverse f l) as [r|]; [| discriminate H].
    injection H as <-. cbn [List.length]. now rewrite (IH r eq_refl).
Qed.

(** The value of an object is kept when the memory grows. *)
Lemma content_stable (h h' : loc -> option container) (rec rec' : var -> option JSON)
  (o : object) (v : JSON) :
  content h rec o = Some v ->
  (forall q c, h q = Some c -> h' q = Some c) ->
  (forall e x, rec e = Some x -> rec' e = Some x) ->
  content h' rec' o = Some v.
Proof.
  unfold content. destruct o as [i t].
  destruct t, i as [[p|]| | |]; cbn; trivial; intros H Hh Hr;
    destruct (h p) as [[es|l|s]|] eqn:E; try discriminate H; rewrite (Hh p _ E); trivial.
  - destruct (traverse _ es) as [r|] eqn:Et; [| discriminate H].
    rewrite (traverse_mono _ (fun kx => option_map (pair (fst kx)) (rec' (snd kx))) es r Et);
      [exact H |].
    intros x y _ Hx. destruct (rec (snd x)) as [z|] eqn:Ez; [| discriminate Hx].
    now rewrite (Hr _ _ Ez).
  - destruct (traverse rec l) as [r|] eqn:Et; [| discriminate H].
    rewrite (traverse_mono rec rec' l r Et); [exact H |]. intros x y _. apply Hr.
Qed.

Lemma value_of_stable (fuel : nat) :
  forall m m' x v,
    value_of fuel m x = Some v ->
    (forall y o, objects m y = Some o -> objects m' y = Some o) ->
    (forall q c, heap m q = Some c -> heap m' q = Some c) ->
    value_of fuel m' x = Some v.
Proof.
  induction fuel as [|f IH]; intros m m' x v H Ho Hh; [discriminate H |].
  cbn [value_of] in *. destruct (objects m x) as [o|] eqn:Eo; [| discriminate H].
  rewrite (Ho x o Eo). apply (content_stable _ _ _ _ _ _ H Hh).
  intros e y He. exact (IH m m' e y He Ho Hh).
Qed.

Lemma extent_live_loc (fuel : nat) :
  forall m x xs ps, extent fuel m x = Some (xs, ps) ->
  forall q, In q ps -> heap m q <> None.
Proof.
  induction fuel as [|f IH]; intros m x xs ps H q Hq; [discriminate H |].
  cbn [extent] in H. destruct (objects m x) as [o|] eqn:Eo; [| discriminate H].
  destruct (payload (heap m) (extent f m) o) as [[xs0 ps0]|] eqn:Ep; [| discriminate H].
  injection H as <- <-.
  unfold payload in Ep. destruct (owned o) as [p|]; [| injection Ep as <- <-; contradiction].
  destruct (heap m p) as [c|] eqn:Eh; [| discriminate Ep].
  destruct (traverse (extent f m) (held c)) as [rs|] eqn:Et; [| discriminate Ep].
  injection Ep as <- <-. destruct Hq as [<- | Hq]; [congruence |].
  apply in_flat_map in Hq as ([xe pe] & Hin & Hq).
  assert (He : exists e, extent f m e = Some (xe, pe)).
  { clear -Et Hin. revert rs Et Hin. induction (held c) as [|a l IHl]; intros rs Et Hin.
    - injection Et as <-. contradiction.
    - cbn [traverse] in Et. destruct (extent f m a) as [ra|] eqn:Ea; [| discriminate Et].
      destruct (traverse (extent f m) l) as [r|]; [| discriminate Et].
      injection Et as <-. destruct Hin as [-> | Hin]; [now exists a | now apply (IHl r)]. }
  destruct He as (e & He). exact (IH m e xe pe He q Hq).
Qed.

Lemma NoDup_append {A : Type} (l l' : list A) :
  NoDup l -> NoDup l' -> (forall x, In x l -> ~ In x l') -> NoDup (l ++ l').
Proof.
  induction l as [|a l IH]; intros H H' Hd; [exact H' |].
  inversion H; subst. cbn [List.app]. constructor.
  - intros Hin. apply in_app_or in Hin as [Hin | Hin]; [contradiction |].
    apply (Hd a); [now left | exact Hin].
  - apply IH; trivial. intros x Hx. apply Hd. now right.
Qed.

Lemma unused_extends (brk : nat) (m m' : memory) :
  unused brk m ->
  (forall y, y < brk -> objects m' y = objects m y) ->
  (forall q, q < brk -> heap m' q = heap m q) ->
  (forall y o, objects m y = Some o -> objects m' y = Some o)
  /\ (forall q c, heap m q = Some c -> heap m' q = Some c).
Proof.
  intros [U1 U2] Ho Hh. split.
  - intros y o E. destruct (Nat.lt_ge_cases y brk) as [H | H]; [now rewrite Ho |].
    rewrite (U1 y H) in E. discriminate E.
  - intros q c E. destruct (Nat.lt_ge_cases q brk) as [H | H]; [now rewrite Hh |].
    rewrite (U2 q H) in E. discriminate E.
Qed.

Lemma copy_elements_spec (f : nat) :
  (forall m dst src brk v,
      value_of f m src = Some v -> unused brk m -> dst < brk ->
      exists r, copy_into f dst src brk m = Ret r /\ copied f m dst brk v r) ->
  forall l vs brk m,
    traverse (value_of f m) l = Some vs -> unused brk m ->
    exists l' brk' m' rs,
      copy_elements (copy_into f) l brk m = Ret (l', brk', m')
      /\ brk <= brk' /\ unused brk' m'
      /\ (forall y, y < brk -> objects m' y = objects m y)
      /\ (forall q, q < brk -> heap m' q = heap m q)
      /\ List.length l' = List.length l
      /\ traverse (value_of f m') l' = Some vs
      /\ traverse (extent f m') l' = Some rs
      /\ (forall y, In y (flat_map fst rs) -> brk <= y < brk')
      /\ (forall q, In q (flat_map snd rs) -> brk <= q < brk')
      /\ NoDup (flat_map fst rs) /\ NoDup (flat_map snd rs).
Proof.
  intros IHf. induction l as [|e l IH]; intros vs brk m Hv Hu.
  - injection Hv as <-. exists [], brk, m, []. cbn [copy_elements traverse flat_map].
    split; [reflexivity |]. split; [lia |]. split; [exact Hu |].
    split; [reflexivity |]. split; [reflexivity |]. split; [reflexivity |].
    split; [reflexivity |]. split; [reflexivity |].
    split; [intros y [] |]. split; [intros q [] |]. split; constructor.
  - cbn [traverse] in Hv. destruct (value_of f m e) as [ve|] eqn:Ee; [| discriminate Hv].
    destruct (traverse (value_of f m) l) as [vr|] eqn:El; [| discriminate Hv].
    injection Hv as <-.
    assert (Hu' : unused (S brk) m).
    { destruct Hu as [U1 U2]. split; intros; [apply U1 | apply U2]; lia. }
    destruct (IHf m brk e (S brk) ve Ee Hu' (Nat.lt_succ_diag_r _)) as ([brk1 m1] & E1 & C1).
    destruct C1 as (Hle1 & Hu1 & Ho1 & Hh1 & Hv1 & xs1 & ps1 & Ex1 & Rx1 & Rp1 & Nx1 & Np1).
    assert (Hext : (forall y o, objects m y = Some o -> objects m1 y = Some o)
                   /\ (forall q c, heap m q = Some c -> heap m1 q = Some c)).
    { apply (unused_extends brk m m1 Hu).
      - intros y Hy. apply Ho1; lia.
      - intros q Hq. apply Hh1; lia. }
    destruct Hext as [Xo Xh].
    assert (El1 : traverse (value_of f m1) l = Some vr).
    { apply (traverse_mono _ _ _ _ El). intros x y _ Hx.
      exact (value_of_stable f m m1 x y Hx Xo Xh). }
    destruct (IH vr brk1 m1 El1 Hu1)
      as (l' & brk2 & m2 & rs & E2 & Hle2 & Hu2 & Ho2 & Hh2 & Hlen & Hv2 & Hx2
          & Rx2 & Rp2 & Nx2 & Np2).
    assert (Fx : forall y, In y (brk :: xs1) -> objects m2 y = objects m1 y).
    { intros y [<- | Hy]; apply Ho2; [lia |]. specialize (Rx1 y Hy). lia. }
    assert (Fp : forall q, In q ps1 -> heap m2 q = heap m1 q).
    { intros q Hq. apply Hh2. specialize (Rp1 q Hq). lia. }
    exists (brk :: l'), brk2, m2, ((brk :: xs1, ps1) :: rs).
    cbn [copy_elements]. rewrite E1. cbn [bind].
    change ((fix elements (l0 : list var) (brk0 : nat) (m0 : memory) {struct l0} :
                outcome (list var * nat * memory) :=
              match l0 with
              | [] => Ret ([], brk0, m0)
              | e0 :: l'0 =>
                  ' (brk3, m3) <- copy_into f brk0 e0 (S brk0) m0;;
                  ' (r, brk4, m4) <- elements l'0 brk3 m3;; Ret (brk0 :: r, brk4, m4)
              end) l brk1 m1) with (copy_elements (copy_into f) l brk1 m1).
    rewrite E2. cbn [bind].
    split; [reflexivity |]. split; [lia |]. split; [exact Hu2 |].
    split; [intros y Hy; rewrite Ho2 by lia; apply Ho1; lia |].
    split; [intros q Hq; rewrite Hh2 by lia; apply Hh1; lia |].
    split; [cbn [List.length]; now rewrite Hlen |].
    split.
    { cbn [traverse]. rewrite (value_of_frame f m1 m2 brk _ _ Ex1 Fx Fp), Hv1, Hv2.
      reflexivity. }
    split.
    { cbn [traverse]. now rewrite (extent_frame f m1 m2 brk _ _ Ex1 Fx Fp), Hx2. }
    cbn [flat_map fst snd].
    split.
    { intros y [<- | Hy]; [lia |]. apply in_app_or in Hy as [Hy | Hy].
      - specialize (Rx1 y Hy). lia.
      - specialize (Rx2 y Hy). lia. }
    split.
    { intros q Hq. apply in_app_or in Hq as [Hq | Hq].
      - specialize (Rp1 q Hq). lia.
      - specialize (Rp2 q Hq). lia. }
    split.
    { constructor.
      - intros Hin. apply in_app_or in Hin as [Hy | Hy].
        + specialize (Rx1 brk Hy). lia.
        + specialize (Rx2 brk Hy). lia.
      - apply NoDup_append; trivial. intros y Hy Hy'.
        specialize (Rx1 y Hy). specialize (Rx2 y Hy'). lia. }
    apply NoDup_append; trivial. intros q Hq Hq'.
    specialize (Rp1 q Hq). specialize (Rp2 q Hq'). lia.
Qed.

Lemma map_snd_combine {A B : Type} (ks : list A) (l : list B) :
  List.length l = List.length ks -> List.map snd (combine ks l) = l.
Proof.
  revert l. induction ks as [|k ks IH]; intros [|x l] H; try discriminate H; [reflexivity |].
  cbn [combine List.map snd]. f_equal. apply IH. now injection H.
Qed.

Lemma held_refill (c : container) (l : list var) :
  List.length l = List.length (held c) -> held (refill c l) = l.
Proof.
  destruct c as [es|l0|s]; cbn [held refill]; intros H.
  - apply map_snd_combine. now rewrite H, !length_map.
  - reflexivity.
  - destruct l; [reflexivity | discriminate H].
Qed.

Lemma traverse_entries {B : Type} (g : var -> option B) (es : list (string * var)) :
  forall kvs,
    traverse (fun kx => option_map (pair (fst kx)) (g (snd kx))) es = Some kvs ->
    traverse g (List.map snd es) = Some (List.map snd kvs)
    /\ List.map fst kvs = List.map fst es.
Proof.
  induction es as [|[k x] es IH]; intros kvs H; cbn [traverse List.map fst snd] in *.
  - injection H as <-. split; reflexivity.
  - destruct (g x) as [y|] eqn:Ex; [| discriminate H]. cbn [option_map] in H.
    destruct (traverse _ es) as [r|] eqn:Er; [| discriminate H].
    injection H as <-. destruct (IH r eq_refl) as [H1 H2].
    cbn [List.map fst snd]. rewrite H1, H2. split; reflexivity.
Qed.

Lemma traverse_combine {B : Type} (g : var -> option B) (ws : list (string * B)) :
  forall ks l,
    List.map fst ws = ks -> traverse g l = Some (List.map snd ws) ->
    traverse (fun kx => option_map (pair (fst kx)) (g (snd kx))) (combine ks l) = Some ws.
Proof.
  induction ws as [|[k w] ws IH]; intros ks l Hk Hl.
  - cbn in Hk. subst ks. reflexivity.
  - cbn [List.map fst snd] in *. subst ks.
    destruct l as [|x l]; cbn [traverse] in Hl; [discriminate Hl |].
    destruct (g x) as [y|] eqn:Ex; [| discriminate Hl].
    destruct (traverse g l) as [r|] eqn:Er; [| discriminate Hl].
    injection Hl as -> ->. cbn [combine traverse fst snd]. rewrite Ex. cbn [option_map].
    now rewrite (IH _ l eq_refl Er).
Qed.

Lemma plain_copied (f : nat) (m : memory) (dst : var) (brk : nat) (v : JSON) (o : object) :
  holds_pointer (Type_ o) = false ->
  (forall h rec, content h rec o = Some v) ->
  unused brk m -> dst < brk ->
  copied (S f) m dst brk v (brk, set_object dst (Some o) m).
Proof.
  intros Hp Hc [U1 U2] Hd. unfold copied.
  split; [lia |]. split.
  { split; [| exact U2]. intros y Hy. cbn [objects set_object].
    destruct (Nat.eqb_spec y dst); [lia | now apply U1]. }
  split.
  { intros y _ Hy. cbn [objects set_object]. now destruct (Nat.eqb_spec y dst). }
  split; [reflexivity |]. split.
  { cbn [value_of objects set_object]. rewrite Nat.eqb_refl. apply Hc. }
  exists [], []. cbn [extent objects set_object]. rewrite Nat.eqb_refl.
  unfold payload, owned. rewrite Hp.
  split; [reflexivity |]. split; [intros y [] |]. split; [intros q [] |]. split; constructor.
Qed.

Lemma pointer_copied (f : nat) (m m2 : memory) (dst : var) (brk brk' : nat) (v : JSON)
  (t : Class.t) (c : container) (l' : list var) (vs : list JSON)
  (rs : list (list var * list loc)) :
  holds_pointer t = true -> unused brk m -> dst < brk ->
  S brk <= brk' -> unused brk' m2 ->
  (forall y, y < S brk -> objects m2 y = objects m y) ->
  (forall q, q < S brk -> heap m2 q = heap m q) ->
  List.length l' = List.length (held c) ->
  traverse (value_of f m2) l' = Some vs ->
  traverse (extent f m2) l' = Some rs ->
  (forall y, In y (flat_map fst rs) -> S brk <= y < brk') ->
  (forall q, In q (flat_map snd rs) -> S brk <= q < brk') ->
  NoDup (flat_map fst rs) -> NoDup (flat_map snd rs) ->
  (forall h rec, h brk = Some (refill c l') -> traverse rec l' = Some vs ->
     content h rec (mk_object (Ptr (Some brk)) t) = Some v) ->
  copied (S f) m dst brk v
    (brk', set_object dst (Some (mk_object (Ptr (Some brk)) t)) (alloc brk (refill c l') m2)).
Proof.
  intros Hp Hu Hd Hle [U1 U2] Ho Hh Hlen Hv Hx Rx Rp Nx Np Hc.
  set (m' := set_object dst (Some (mk_object (Ptr (Some brk)) t)) (alloc brk (refill c l') m2)).
  assert (Fo : forall y, In y (flat_map fst rs) -> objects m' y = objects m2 y).
  { intros y Hy. specialize (Rx y Hy). unfold m'. cbn [objects set_object alloc].
    destruct (Nat.eqb_spec y dst); [lia | reflexivity]. }
  assert (Fh : forall q, In q (flat_map snd rs) -> heap m' q = heap m2 q).
  { intros q Hq. specialize (Rp q Hq). unfold m'. cbn [heap set_object alloc].
    destruct (Nat.eqb_spec q brk); [lia | reflexivity]. }
  assert (Hcell : forall e, In e l' ->
            exists xe pe, extent f m2 e = Some (xe, pe)
              /\ (forall y, In y xe -> objects m' y = objects m2 y)
              /\ (forall q, In q pe -> heap m' q = heap m2 q)).
  { intros e He. destruct (traverse_In _ _ _ Hx e He) as ([xe pe] & Ee & Hin).
    exists xe, pe. split; [exact Ee |]. split.
    - intros y Hy. apply Fo. apply in_flat_map. now exists (xe, pe).
    - intros q Hq. apply Fh. apply in_flat_map. now exists (xe, pe). }
  assert (Hv' : traverse (value_of f m') l' = Some vs).
  { rewrite <- Hv. apply traverse_ext. intros e He.
    destruct (Hcell e He) as (xe & pe & Ee & F1 & F2).
    exact (value_of_frame f m2 m' e xe pe Ee F1 F2). }
  assert (Hx' : traverse (extent f m') l' = Some rs).
  { rewrite <- Hx. apply traverse_ext. intros e He.
    destruct (Hcell e He) as (xe & pe & Ee & F1 & F2).
    rewrite Ee. exact (extent_frame f m2 m' e xe pe Ee F1 F2). }
  assert (Hb : heap m' brk = Some (refill c l')).
  { unfold m'. cbn [heap set_object alloc]. now rewrite Nat.eqb_refl. }
  assert (Hdst : objects m' dst = Some (mk_object (Ptr (Some brk)) t)).
  { unfold m'. cbn [objects set_object]. now rewrite Nat.eqb_refl. }
  unfold copied. fold m'.
  split; [lia |]. split.
  { split.
    - intros y Hy. unfold m'. cbn [objects set_object alloc].
      destruct (Nat.eqb_spec y dst); [lia | now apply U1].
    - intros q Hq. unfold m'. cbn [heap set_object alloc].
      destruct (Nat.eqb_spec q brk); [lia | now apply U2]. }
  split.
  { intros y Hy Hne. unfold m'. cbn [objects set_object alloc].
    destruct (Nat.eqb_spec y dst); [contradiction | apply Ho; lia]. }
  split.
  { intros q Hq. unfold m'. cbn [heap set_object alloc].
    destruct (Nat.eqb_spec q brk); [lia | apply Hh; lia]. }
  split.
  { cbn [value_of]. rewrite Hdst. now apply Hc. }
  exists (flat_map fst rs), (brk :: flat_map snd rs).
  split.
  { cbn [extent]. rewrite Hdst. unfold payload, owned. cbn [Type_ Internal].
    rewrite Hp, Hb, (held_refill c l' Hlen), Hx'. reflexivity. }
  split; [intros y Hy; specialize (Rx y Hy); lia |].
  split; [intros q [<- | Hq]; [lia | specialize (Rp q Hq); lia] |].
  split; [exact Nx |].
  constructor; [| exact Np]. intros Hin. specialize (Rp brk Hin). lia.
Qed.

(** The copy constructor on a source with a value: the copy has the
    value, lies in new storage, and leaves the rest as it was. *)
Lemma copy_into_spec (f : nat) :
  forall m dst src brk v,
    value_of f m src = Some v -> unused brk m -> dst < brk ->
    exists r, copy_into f dst src brk m = Ret r /\ copied f m dst brk v r.
Proof.
  induction f as [|f IH]; intros m dst src brk v Hv Hu Hd; [discriminate Hv |].
  cbn [value_of] in Hv. destruct (objects m src) as [o|] eqn:Eo; [| discriminate Hv].
  assert (Hplain : holds_pointer (Type_ o) = false ->
            (forall h rec, content h rec o = Some v) ->
            exists r, copy_into (S f) dst src brk m = Ret r /\ copied (S f) m dst brk v r).
  { intros Hp Hc. cbn [copy_into]. unfold read. rewrite Eo. cbn [bind]. rewrite Hp.
    cbn [bind]. rewrite Eo. cbn [bind]. rewrite object_eta.
    eexists. split; [reflexivity |]. now apply plain_copied. }
  assert (Hu' : unused (S brk) m).
  { destruct Hu as [U1 U2]. split; intros; [apply U1 | apply U2]; lia. }
  assert (Hptr : forall q c vs,
            holds_pointer (Type_ o) = true -> Internal o = Ptr (Some q) ->
            heap m q = Some c -> fits (Type_ o) c = true ->
            traverse (value_of f m) (held c) = Some vs ->
            (forall l' h rec, h brk = Some (refill c l') -> traverse rec l' = Some vs ->
               content h rec (mk_object (Ptr (Some brk)) (Type_ o)) = Some v) ->
            exists r, copy_into (S f) dst src brk m = Ret r /\ copied (S f) m dst brk v r).
  { intros q c vs Hp Hi Hq Hfit Hvs Hc.
    destruct (copy_elements_spec f IH (held c) vs (S brk) m Hvs Hu')
      as (l' & brk' & m2 & rs & E2 & Hle & Hu2 & Ho2 & Hh2 & Hlen & Hv2 & Hx2
          & Rx & Rp & Nx & Np).
    assert (Eo2 : objects m2 src = Some o).
    { destruct (unused_extends (S brk) m m2 Hu' Ho2 Hh2) as [Xo _]. now apply Xo. }
    cbn [copy_into]. unfold read. rewrite Eo. cbn [bind]. rewrite Hp, Hi, Hq, Hfit, E2.
    cbn [bind objects alloc]. rewrite Eo2. cbn [bind].
    eexists. split; [reflexivity |].
    apply (pointer_copied f m m2 dst brk brk' v (Type_ o) c l' vs rs); trivial.
    intros h rec. apply Hc. }
  unfold content in Hv. destruct o as [i t]. cbn [Type_ Internal] in *.
  destruct t, i as [[q|]| | |]; try discriminate Hv;
    try (apply Hplain; [reflexivity | intros h rec; exact Hv]).
  - (* Object *)
    destruct (heap m q) as [[es|l|s]|] eqn:Eq; try discriminate Hv.
    destruct (traverse _ es) as [kvs|] eqn:Et; [| discriminate Hv].
    cbn [option_map] in Hv. injection Hv as <-.
    destruct (traverse_entries (value_of f m) es kvs Et) as [H1 H2].
    apply (Hptr q (CMap es) (List.map snd kvs)); trivial.
    intros l' h rec Hh Hl. unfold content. cbn [Type_ Internal refill] in *. rewrite Hh.
    now rewrite (traverse_combine rec kvs (List.map fst es) l' H2 Hl).
  - (* Array *)
    destruct (heap m q) as [[es|l|s]|] eqn:Eq; try discriminate Hv.
    destruct (traverse (value_of f m) l) as [vs|] eqn:Et; [| discriminate Hv].
    cbn [option_map] in Hv. injection Hv as <-.
    apply (Hptr q (CList l) vs); trivial.
    intros l' h rec Hh Hl. unfold content. cbn [Type_ Internal refill] in *.
    now rewrite Hh, Hl.
  - (* String *)
    destruct (heap m q) as [[es|l|s]|] eqn:Eq; try discriminate Hv.
    injection Hv as <-.
    apply (Hptr q (CString s) []); trivial.
    intros l' h rec Hh Hl. unfold content. cbn [Type_ Internal refill] in *.
    now rewrite Hh.
Qed.

(** The destructor on an object whose value is whole. *)
Lemma destroy_released (f : nat) (m : memory) (x : var) (xs : list var) (ps : list loc) :
  extent (S f) m x = Some (xs, ps) -> NoDup xs -> NoDup ps ->
  exists m', destroy (S f) x m = Ret m' /\ released m m' xs ps.
Proof.
  intros He Hx Hp.
  destruct (ClearInternal_released f m x xs ps He Hx Hp)
    as (o & xs0 & m1 & Eo & -> & Ec & R).
  unfold ClearInternal, read in Ec. rewrite Eo in Ec. cbn [bind] in Ec.
  unfold destroy, destroy_with, read. rewrite Eo. cbn [bind].
  destruct (owned o) as [q|].
  - rewrite Ec. cbn [bind]. eexists. split; [reflexivity |]. now apply released_object.
  - injection Ec as <-. cbn [bind]. eexists. split; [reflexivity |].
    now apply released_object.
Qed.

Lemma extent_below (fuel : nat) (m : memory) (x : var) (xs : list var) (ps : list loc)
  (brk : nat) :
  extent fuel m x = Some (xs, ps) -> unused brk m ->
  (forall y, In y xs -> y < brk) /\ (forall q, In q ps -> q < brk).
Proof.
  intros He [U1 U2]. split.
  - intros y Hy. destruct (Nat.lt_ge_cases y brk) as [H | H]; [exact H |].
    exfalso. exact (extent_live _ _ _ _ _ He y Hy (U1 y H)).
  - intros q Hq. destruct (Nat.lt_ge_cases q brk) as [H | H]; [exact H |].
    exfalso. exact (extent_live_loc _ _ _ _ _ He q Hq (U2 q H)).
Qed.

(** A copy and its source, the copy made of new storage. *)
Lemma copied_independent (f : nat) (m m' : memory) (this other : var) (v : JSON)
  (ys : list var) (qs : list loc) (brk brk' : nat) :
  extent f m other = Some (ys, qs) -> NoDup ys -> NoDup qs ->
  value_of f m other = Some v -> unused brk m -> this < brk -> ~ In this ys ->
  copied f m this brk v (brk', m') ->
  independent f m' this other v.
Proof.
  intros He Hys Hqs Hv Hu Hlt Hni (Hle & Hu' & Ho & Hh & Hv' & xs' & ps' & He' & Rx & Rp & Nx & Np).
  destruct (extent_below _ _ _ _ _ _ He Hu) as [By Bq].
  assert (Fo : forall y, In y ys -> objects m' y = objects m y).
  { intros y Hy. apply Ho; [now apply By | intros ->; contradiction]. }
  assert (Fh : forall q, In q qs -> heap m' q = heap m q).
  { intros q Hq. apply Hh. now apply Bq. }
  pose proof (extent_frame f m m' other ys qs He Fo Fh) as Heo.
  assert (Hvo : value_of f m' other = Some v).
  { rewrite <- Hv. exact (value_of_frame f m m' other ys qs He Fo Fh). }
  destruct f as [|f]; [discriminate He |].
  assert (Nt : NoDup (this :: xs')).
  { constructor; [| exact Nx]. intros Hin. specialize (Rx this Hin). lia. }
  split; [exact Hv' |]. split; [exact Hvo |]. split.
  - destruct (destroy_released f m' this (this :: xs') ps' He' Nt Np)
      as (m'' & Ed & (_ & A2 & _ & A4)).
    exists m''. split; [exact Ed |]. rewrite <- Hvo.
    apply (value_of_frame (S f) m' m'' other ys qs Heo).
    + intros y Hy. apply A2. intros [<- | Hin]; [contradiction |].
      specialize (Rx y Hin). specialize (By y Hy). lia.
    + intros q Hq. apply A4. intros Hin.
      specialize (Rp q Hin). specialize (Bq q Hq). lia.
  - destruct (destroy_released f m' other ys qs Heo Hys Hqs)
      as (m'' & Ed & (_ & A2 & _ & A4)).
    exists m''. split; [exact Ed |]. rewrite <- Hv'.
    apply (value_of_frame (S f) m' m'' this (this :: xs') ps' He').
    + intros y Hy. apply A2. intros Hin. destruct Hy as [<- | Hy]; [contradiction |].
      specialize (Rx y Hy). specialize (By y Hin). lia.
    + intros q Hq. apply A4. intros Hin.
      specialize (Rp q Hq). specialize (Bq q Hin). lia.
Qed.

Lemma copy_construct_independent (fuel : nat) (m : memory) (this other : var) (v : JSON)
  (ys : list var) (qs : list loc) (brk : nat) :
  extent fuel m other = Some (ys, qs) -> NoDup ys -> NoDup qs ->
  value_of fuel m other = Some v -> unused brk m ->
  this < brk -> objects m this = None ->
  exists brk' m',
    copy_construct fuel this other brk m = Ret (brk', m')
    /\ independent fuel m' this other v.
Proof.
  intros He Hys Hqs Hv Hu Hlt Hnew.
  destruct (copy_into_spec fuel m this other brk v Hv Hu Hlt) as ([brk' m'] & Ec & Hc).
  exists brk', m'. split; [exact Ec |].
  apply (copied_independent fuel m m' this other v ys qs brk brk'); trivial.
  intros Hin. exact (extent_live _ _ _ _ _ He this Hin Hnew).
Qed.

Lemma copy_assign_independent (fuel : nat) (m : memory) (this other : var) (v : JSON)
  (xs ys : list var) (ps qs : list loc) (brk : nat) :
  extent fuel m other = Some (ys, qs) -> NoDup ys -> NoDup qs ->
  value_of fuel m other = Some v -> unused brk m ->
  extent fuel m this = Some (xs, ps) -> NoDup xs -> NoDup ps ->
  (forall y, In y xs -> ~ In y ys) -> (forall q, In q ps -> ~ In q qs) ->
  exists brk' m',
    copy_assign fuel this other brk m = Ret (brk', m')
    /\ independent fuel m' this other v.
Proof.
  intros He Hys Hqs Hv Hu Het Hxs Hps Hdx Hdp.
  destruct (extent_below _ _ _ _ _ _ Het Hu) as [Bx _].
  destruct (extent_head _ _ _ _ _ He) as (f & oo & ys0 & -> & Eoo & -> & _).
  destruct (ClearInternal_released f m this xs ps Het Hxs Hps)
    as (ot & xs0 & m1 & Eot & -> & Ec & (R1 & R2 & R3 & R4)).
  assert (Hni : ~ In this (other :: ys0)) by (apply Hdx; now left).
  assert (Hot : (other =? this)%nat = false).
  { apply Nat.eqb_neq. intros ->. apply Hni. now left. }
  assert (Fo : forall y, In y (other :: ys0) -> objects m1 y = objects m y).
  { intros y Hy. apply R2. intros Hin. apply (Hdx y); [now right | exact Hy]. }
  assert (Fh : forall q, In q qs -> heap m1 q = heap m q).
  { intros q Hq. apply R4. intros Hin. now apply (Hdp q). }
  pose proof (extent_frame (S f) m m1 other _ qs He Fo Fh) as He1.
  assert (Hv1 : value_of (S f) m1 other = Some v).
  { rewrite <- Hv. exact (value_of_frame (S f) m m1 other _ qs He Fo Fh). }
  assert (Hu1 : unused brk m1).
  { destruct Hu as [U1 U2]. split.
    - intros y Hy. destruct (in_dec Nat.eq_dec y xs0) as [Hin | Hin];
        [now apply R1 | rewrite (R2 y Hin); now apply U1].
    - intros q Hq. destruct (in_dec Nat.eq_dec q ps) as [Hin | Hin];
        [now apply R3 | rewrite (R4 q Hin); now apply U2]. }
  assert (Hlt : this < brk) by (apply Bx; now left).
  destruct (copy_into_spec (S f) m1 this other brk v Hv1 Hu1 Hlt) as ([brk' m'] & Ei & Hc).
  exists brk', m'. unfold copy_assign. rewrite Hot, Ec. cbn [bind].
  split; [exact Ei |].
  exact (copied_independent (S f) m1 m' this other v _ qs brk brk' He1 Hys Hqs Hv1 Hu1 Hlt Hni Hc).
Qed.

(** A copy assignment from an object within what the target owns reads
    the source after [ClearInternal] has destroyed it. *)
Lemma copy_assign_element (fuel : nat) (m : memory) (this other : var) (xs : list var)
  (ps : list loc) (brk : nat) :
  extent fuel m this = Some (this :: xs, ps) -> NoDup (this :: xs) -> NoDup ps ->
  In other xs ->
  copy_assign fuel this other brk m = Undefined (Destroyed other).
Proof.
  intros Het Hxs Hps Hin.
  destruct (extent_head _ _ _ _ _ Het) as (f & ot & xs0 & -> & _ & _ & _).
  destruct (ClearInternal_released f m this _ ps Het Hxs Hps)
    as (ot' & xs0' & m1 & Eot & Exs & Ec & (R1 & _)).
  injection Exs as <-.
  assert (Hot : (other =? this)%nat = false).
  { apply Nat.eqb_neq. intros ->. inversion Hxs; contradiction. }
  unfold copy_assign. rewrite Hot, Ec. cbn [bind copy_into]. unfold read.
  now rewrite (R1 other Hin).
Qed.

(** * The claims *)

(** ** Round trip (C1, C2) *)

Lemma sample_reads_back : reads_back sample.
Proof.
  unfold sample.
  repeat first
    [ apply rb_Null | apply rb_Boolean | apply rb_String
    | apply rb_Integral; reflexivity
    | apply rb_Floating; repeat split; reflexivity
    | apply rb_Array; [reflexivity |]
    | apply rb_Object; [simpl; repeat split; repeat constructor |]
    | apply Forall_nil
    | apply Forall_cons
    | split
    | (exists "a"; reflexivity) | (exists "b"; reflexivity)
    | (exists "c"; reflexivity) | (exists "d"; reflexivity) ].
Defined.

Lemma sample_short_texts : short_texts sample.
Proof. unfold short_texts. cbn [sample texts flat_map List.app fst snd]. repeat constructor. Defined.

(** C1, as amended.  A value that is not a bare number at the root, whose
    integers fit 64 bits, whose doubles print as plain decimals that read
    back as the same double, whose arrays have fewer than 2^32 elements,
    whose object keys are in order and in escaped form and whose Strings
    and keys are shorter than 2^32 bytes: [json_escape] returns on each of
    its Strings and on the text each of its keys stands for, and
    [JSON::Load] yields the value on its minified text, with the flag
    set. *)
Theorem Load_dumpMinified_roundtrip (V : JSON) :
  reads_back V -> short_texts V -> is_number V = false ->
  Forall escape_returns (texts V) /\ Load (dumpMinified V) = Ret (V, true).
Proof.
  intros Hrb Hs Hn. split; [now apply short_texts_returns | exact (Load_dumpMinified V Hrb Hn)].
Qed.

Lemma Load_dumpMinified_roundtrip_witness :
  Forall escape_returns (texts sample) /\ Load (dumpMinified sample) = Ret (sample, true).
Proof.
  apply (Load_dumpMinified_roundtrip sample);
    [exact sample_reads_back | exact sample_short_texts | reflexivity].
Defined.

(** C1 as stated fails on a number at the root: the text "42" ends where
    [parse_number] wants white space, a comma or a closing bracket. *)
Lemma Load_dumpMinified_number_fails :
  Load (dumpMinified (JIntegral 42)) = Ret (JNull, false)
  /\ Load (dumpMinified (JIntegral 42)) <> Ret (JIntegral 42, true).
Proof. split; [reflexivity | discriminate]. Qed.

(** Further values outside the amended claim: a key with a quote in it, a
    key that escaping changes, a double that six decimals do not hold. *)
Example Load_dumpMinified_quoted_key :
  Load (dumpMinified (JObject [(str1 DQ, JNull)])) = Ret (JObject [], false).
Proof. reflexivity. Qed.

Example Load_dumpMinified_newline_key :
  Load (dumpMinified (JObject [(str1 LF, JNull)]))
  = Ret (JObject [(String BSL "n", JNull)], true).
Proof. reflexivity. Qed.

Example Load_dumpMinified_small_double :
  Load (dumpMinified (JArray [JFloating tenth_of_a_millionth]))
  = Ret (JArray [JFloating (S754_zero false)], true).
Proof. vm_compute. reflexivity. Qed.

Lemma tenth_reprints : float_reprints tenth_of_a_millionth.
Proof.
  repeat split. exists (S754_zero false). split; [vm_compute; reflexivity | reflexivity].
Qed.

(** C2, as amended.  For a value that is not a bare number at the root,
    with integers of 64 bits, arrays below 2^32 elements, keys in order
    and in escaped form, Strings and keys below 2^32 bytes, and doubles
    whose six-decimal text reads back as a double printed as that text,
    printing what [JSON::Load] makes of the minified text gives that text
    again.  The values of the amended C1 are among them, and so is the
    double nearest to 1e-7, which they leave out; a double outside the
    class, NaN or an infinity, in an array is not printed as it was. *)
Theorem reprint_dumpMinified :
  (forall V : JSON,
      prints_back V -> short_texts V -> is_number V = false ->
      Forall escape_returns (texts V)
      /\ reprint (dumpMinified V) = Ret (dumpMinified V))
  /\ (forall V : JSON, reads_back V -> prints_back V)
  /\ (float_reprints tenth_of_a_millionth /\ ~ float_reads_back tenth_of_a_millionth)
  /\ (forall d : double,
        ~ float_reprints d ->
        reprint (dumpMinified (JArray [JFloating d]))
        <> Ret (dumpMinified (JArray [JFloating d])))
  /\ ~ float_reprints S754_nan
  /\ (forall s, ~ float_reprints (S754_infinity s)).
Proof.
  split; [| split; [| split; [| split; [| split]]]].
  - intros V Hp Hs Hn. split; [now apply short_texts_returns | now apply reprint_prints_back].
  - exact reads_back_prints_back.
  - split; [exact tenth_reprints |]. intros (_ & _ & H). vm_compute in H. discriminate H.
  - exact reprint_double_differs.
  - intros (H & _). discriminate H.
  - intros s (H & H' & _). destruct s; [discriminate H' | discriminate H].
Qed.

Lemma reprint_dumpMinified_witness :
  reprint (dumpMinified (JArray [sample; JFloating tenth_of_a_millionth]))
  = Ret (dumpMinified (JArray [sample; JFloating tenth_of_a_millionth])).
Proof.
  apply (proj1 reprint_dumpMinified (JArray [sample; JFloating tenth_of_a_millionth])).
  - apply pb_Array; [reflexivity |].
    apply Forall_cons; [exact (reads_back_prints_back sample sample_reads_back) |].
    apply Forall_cons; [apply pb_Floating; exact tenth_reprints | apply Forall_nil].
  - apply short_texts_Array.
    apply Forall_cons; [exact sample_short_texts |].
    apply Forall_cons; [apply Forall_nil | apply Forall_nil].
  - reflexivity.
Defined.

(** C2 as stated fails on a number at the root: "42" comes back as "null". *)
Lemma reprint_number_differs :
  reprint (dumpMinified (JIntegral 42)) = Ret "null"
  /\ reprint (dumpMinified (JIntegral 42)) <> Ret (dumpMinified (JIntegral 42)).
Proof. split; [reflexivity | discriminate]. Qed.

Example reprint_newline_key :
  reprint (dumpMinified (JObject [(str1 LF, JNull)]))
  <> Ret (dumpMinified (JObject [(str1 LF, JNull)])).
Proof. discriminate. Qed.

(** ** Duplicate keys (C3) *)



(** The object text of the specification, loaded: [a] the integer 1, [b]
    an array of three integers, [c] the string x, no key [z]. *)
Example Load_end_to_end :
  exists v,
    Load ("{" ++ str1 DQ ++ "a" ++ str1 DQ ++ ":1," ++ str1 DQ ++ "b" ++ str1 DQ
          ++ ":[1,2,3]," ++ str1 DQ ++ "c" ++ str1 DQ ++ ":" ++ str1 DQ ++ "x"
          ++ str1 DQ ++ "}")
    = Ret (v, true)
    /\ at_key_const v "a" = Ret (JIntegral 1)
    /\ at_key_const v "b" = Ret (JArray [JIntegral 1; JIntegral 2; JIntegral 3])
    /\ at_key_const v "c" = Ret (JString "x")
    /\ hasKey v "z" = false.
Proof. eexists. repeat split. Qed.

(** ** Keyed access (C4, C8) *)

(** C4.  [v[k]] leaves an Object: the map [v] had, or an empty one when
    [v] had another tag, with [k] bound to Null unless it was bound; the
    reference reads that entry, the other entries are as they were; and
    [value["a"]["b"]] on a Null value gives [{"a":{"b":null}}]. *)
Theorem subscript_key_vivifies :
  (forall (v : JSON) (k : string),
      JSONType (subscript_key v k) = Class.Object
      /\ key_slot (subscript_key v k) k
         = Some (match key_slot v k with Some x => x | None => JNull end)
      /\ (forall k', k' <> k -> key_slot (subscript_key v k) k' = key_slot v k')
      /\ (JSONType v <> Class.Object -> subscript_key v k = JObject [(k, JNull)])
      /\ (forall x, key_slot v k = Some x -> subscript_key v k = v))
  /\ update_key JNull "a" (fun s => subscript_key s "b")
     = JObject [("a", JObject [("b", JNull)])]
  /\ update_key JNull "a" (fun s => assign_key s "b" JNull)
     = JObject [("a", JObject [("b", JNull)])]
  /\ dumpMinified (update_key JNull "a" (fun s => subscript_key s "b")) = vivified_text.
Proof.
  split; [| repeat split; reflexivity].
  intros v k. unfold subscript_key.
  destruct (SetType_Object v) as (m & E & Hsame & Hfresh). rewrite E.
  split; [reflexivity |]. split; [| split; [| split]].
  - cbn [key_slot]. rewrite map_find_subscript, String.eqb_refl.
    destruct v; try (rewrite Hfresh by discriminate; reflexivity).
    now rewrite (Hsame _ eq_refl).
  - intros k' Hne. cbn [key_slot]. rewrite map_find_subscript.
    apply String.eqb_neq in Hne. rewrite Hne.
    destruct v; try (rewrite Hfresh by discriminate; reflexivity).
    now rewrite (Hsame _ eq_refl).
  - intros Hv. now rewrite (Hfresh Hv).
  - intros x Hx. destruct v; try discriminate Hx.
    rewrite (Hsame _ eq_refl). cbn [key_slot] in Hx.
    unfold map_subscript. now rewrite Hx.
Qed.

Lemma subscript_key_vivifies_witness :
  subscript_key (JIntegral 5) "a" = JObject [("a", JNull)]
  /\ subscript_key (JObject [("a", JBoolean true)]) "a" = JObject [("a", JBoolean true)]
  /\ key_slot (subscript_key (JObject [("a", JBoolean true)]) "b") "a"
     = key_slot (JObject [("a", JBoolean true)]) "a".
Proof.
  destruct (proj1 subscript_key_vivifies (JIntegral 5) "a") as (_ & _ & _ & H1 & _).
  destruct (proj1 subscript_key_vivifies (JObject [("a", JBoolean true)]) "a")
    as (_ & _ & _ & _ & H2).
  destruct (proj1 subscript_key_vivifies (JObject [("a", JBoolean true)]) "b")
    as (_ & _ & H3 & _).
  split; [apply H1; discriminate |].
  split; [apply (H2 (JBoolean true)); reflexivity |].
  apply H3. discriminate.
Defined.

(** C8.  The const [at(key)] is undefined on a value that is not an Object;
    on an Object without the key it throws, which no conversion does and
    which is neither a value nor a change of the object; with the key it
    yields the entry. *)
Theorem at_key_const_absent_key_throws (this : JSON) (key : string) :
  (JSONType this <> Class.Object -> at_key_const this key = Undefined InactiveMember)
  /\ (JSONType this = Class.Object -> key_slot this key = None ->
      at_key_const this key = Throw out_of_range
      /\ (forall x, at_key_const this key <> Ret x)
      /\ subscript_key this key <> this)
  /\ (forall x, JSONType this = Class.Object -> key_slot this key = Some x ->
      at_key_const this key = Ret x)
  /\ (forall e, ToInt this <> Throw e)
  /\ (forall u, at_key_const this key = Undefined u -> JSONType this <> Class.Object).
Proof.
  split; [| split; [| split; [| split]]].
  - destruct this; cbn; congruence.
  - destruct this as [|Map| | | | |]; cbn; try discriminate. intros _ Hk. rewrite Hk.
    split; [reflexivity |]. split; [discriminate |].
    unfold subscript_key. change (SetType Class.Object (JObject Map)) with (JObject Map).
    cbv iota. intros Heq. injection Heq as Heq.
    apply (f_equal (map_find key)) in Heq.
    rewrite map_find_subscript, String.eqb_refl, Hk in Heq. discriminate.
  - intros x. destruct this; cbn; try discriminate. now intros _ ->.
  - intros e. destruct this as [| | |s|d| |]; cbn; try discriminate.
    + destruct (from_chars in_llong s); discriminate.
    + destruct d as [z|z| |z m ex]; cbn; try discriminate.
      match goal with |- context [in_llong ?v] => destruct (in_llong v) end;
        discriminate.
  - intros u. destruct this as [|Map| | | | |]; cbn; try discriminate.
    destruct (map_find key Map); discriminate.
Qed.

Lemma at_key_const_absent_key_throws_witness :
  at_key_const (JObject [("a", JNull)]) "z" = Throw out_of_range
  /\ at_key_const (JObject [("a", JNull)]) "a" = Ret JNull
  /\ at_key_const (JArray []) "a" = Undefined InactiveMember.
Proof.
  split; [| split].
  - apply (proj1 (proj2 (at_key_const_absent_key_throws (JObject [("a", JNull)]) "z")));
      reflexivity.
  - apply (proj1 (proj2 (proj2 (at_key_const_absent_key_throws (JObject [("a", JNull)]) "a"))));
      reflexivity.
  - apply (proj1 (at_key_const_absent_key_throws (JArray []) "a")). discriminate.
Defined.

(** ** Indexed access (C5, C10) *)

Example subscript_index_three :
  subscript_index JNull 3 = Ret (JArray [JNull; JNull; JNull; JNull])
  /\ assign_index JNull 3 (JBoolean true)
     = Ret (JArray [JNull; JNull; JNull; JBoolean true]).
Proof. split; reflexivity. Qed.

(** C5 at the last value of [unsigned]: [index + 1] wraps to 0, the array
    is resized to no element and the element returned does not exist. *)
Theorem subscript_index_wraps :
  subscript_index JNull 4294967295 = Undefined (ElementPastEnd 4294967295)
  /\ subscript_index (JArray [JIntegral 1; JIntegral 2]) 4294967295
     = Undefined (ElementPastEnd 4294967295)
  /\ (4294967295 < UINT_MOD)%Z.
Proof. repeat split. Qed.

(** C10.  The mutable [at] are the subscripts: on a value of another tag
    they build the Object, or the Array, with the entry, where the const
    [at] are undefined. *)
Theorem at_is_subscript :
  (forall (this : JSON) (key : string), at_key this key = subscript_key this key)
  /\ (forall (this : JSON) (index : Z), at_index this index = subscript_index this index)
  /\ (forall (this : JSON) (key : string),
        JSONType this <> Class.Object ->
        at_key this key = JObject [(key, JNull)]
        /\ at_key_const this key = Undefined InactiveMember)
  /\ (forall (this : JSON) (index : Z),
        JSONType this <> Class.Array -> (0 <= index)%Z -> (index + 1 < UINT_MOD)%Z ->
        at_index this index = Ret (JArray (repeat JNull (Z.to_nat (index + 1))))
        /\ at_index_const this index = Undefined InactiveMember).
Proof.
  split; [reflexivity |]. split; [reflexivity |]. split.
  - intros this key Ht. split.
    + unfold at_key, subscript_key.
      destruct (SetType_Object this) as (m & E & _ & Hfresh).
      rewrite E, (Hfresh Ht). reflexivity.
    + destruct this; cbn in *; congruence.
  - intros this index Ht H0 Hi. split.
    + unfold at_index.
      destruct (subscript_index_grows this index H0 Hi) as (l & E & ->).
      destruct (SetType_Array this) as (l' & E' & _ & Hfresh).
      assert (l = []) by (rewrite <- (Hfresh Ht); congruence). subst l.
      simpl. now rewrite Nat.sub_0_r.
    + destruct this; cbn in *; congruence.
Qed.

Lemma at_is_subscript_witness :
  at_key (JIntegral 5) "a" = JObject [("a", JNull)]
  /\ at_key_const (JIntegral 5) "a" = Undefined InactiveMember
  /\ at_index (JString "x") 2 = Ret (JArray [JNull; JNull; JNull])
  /\ at_index_const (JString "x") 2 = Undefined InactiveMember.
Proof.
  destruct at_is_subscript as (_ & _ & Hk & Hi).
  destruct (Hk (JIntegral 5) "a") as [H1 H2]; [discriminate |].
  destruct (Hi (JString "x") 2%Z) as [H3 H4];
    [discriminate | lia | reflexivity |].
  repeat split; assumption.
Defined.

(** ** Conversion to an integer (C6) *)

(** C6, as amended.  [ToInt] takes the first rule that fits: an Integral
    as it is, a Boolean as 0 or 1, both with success; a Floating with its
    fraction cut off, towards zero, with success when that integer fits
    64 bits, and undefined when it does not or when the double is no
    number; of a String the integer at its head, a minus sign or none and
    decimal digits, whatever follows, with success when it fits 64 bits;
    a String without an integer at its head, a String whose integer does
    not fit, and every other tag give 0 without success.  Every String
    falls under one of the two rules for Strings. *)
Theorem ToInt_resolution :
  (forall i, ToInt (JIntegral i) = Ret (i, true))
  /\ (forall b : bool, ToInt (JBoolean b) = Ret (if b then 1%Z else 0%Z, true))
  /\ (forall d n, truncated d n -> in_llong n = true -> ToInt (JFloating d) = Ret (n, true))
  /\ (forall d, (forall n, truncated d n -> in_llong n = false) ->
        ToInt (JFloating d) = Undefined FloatToIntRange)
  /\ (truncated minus_one_and_a_half (-1) /\ truncated one_and_a_half 1)
  /\ (forall (neg : bool) digits rest,
        digits <> "" -> all_chars is_digit digits = true -> starts_digit rest = false ->
        ToInt (JString ((if neg then "-" else "") ++ digits ++ rest))
        = Ret (let v := if neg then (- digits_value digits)%Z else digits_value digits in
               if in_llong v then (v, true) else (0%Z, false)))
  /\ (forall s, starts_integer s = false -> ToInt (JString s) = Ret (0%Z, false))
  /\ (forall s, starts_integer s = true ->
        exists (neg : bool) digits rest,
          s = (if neg then "-" else "") ++ digits ++ rest
          /\ digits <> "" /\ all_chars is_digit digits = true /\ starts_digit rest = false)
  /\ ToInt JNull = Ret (0%Z, false)
  /\ (forall m, ToInt (JObject m) = Ret (0%Z, false))
  /\ (forall l, ToInt (JArray l) = Ret (0%Z, false))
  /\ ToInt (JString "42") = Ret (42%Z, true)
  /\ ToInt (JString "abc") = Ret (0%Z, false).
Proof.
  split; [reflexivity |]. split; [reflexivity |].
  split; [| split; [| split; [| split; [| split; [| split]]]]].
  - intros d n Ht Hn. cbn [ToInt]. now rewrite (double_to_ll_truncated d n Ht Hn).
  - intros d H. cbn [ToInt]. now rewrite (double_to_ll_outside d H).
  - split; cbn; lia.
  - intros neg digits rest Hne Hall Hrest. cbn [ToInt].
    rewrite (from_chars_head in_llong neg digits rest Hne Hall Hrest). cbv zeta.
    now destruct (in_llong _).
  - intros s Hs. cbn [ToInt]. now rewrite (from_chars_no_integer in_llong s Hs).
  - exact starts_integer_head.
  - repeat split.
Qed.

Lemma ToInt_resolution_witness :
  ToInt (JFloating minus_one_and_a_half) = Ret ((-1)%Z, true)
  /\ ToInt (JString ("-" ++ "007" ++ " apples")) = Ret ((-7)%Z, true)
  /\ ToInt (JString ("" ++ "99999999999999999999" ++ "")) = Ret (0%Z, false)
  /\ ToInt (JString "-x") = Ret (0%Z, false)
  /\ ToInt (JFloating (S754_infinity false)) = Undefined FloatToIntRange.
Proof.
  destruct ToInt_resolution as (_ & _ & Hd & Hu & _ & Hz & Hs & _).
  split; [apply (Hd minus_one_and_a_half (-1)%Z); [cbn; lia | reflexivity] |].
  split; [apply (Hz true "007" " apples"); [discriminate | reflexivity | reflexivity] |].
  split; [apply (Hz false "99999999999999999999" ""); [discriminate | reflexivity | reflexivity] |].
  split; [apply (Hs "-x"); reflexivity |].
  apply (Hu (S754_infinity false)). intros n [].
Defined.

(** C6 as stated fails: "42abc" is not numeric text, and converts to 42
    with success. *)
Lemma ToInt_trailing_text :
  numeric_text "42abc" = false
  /\ ToInt (JString "42abc") = Ret (42%Z, true)
  /\ ToInt (JString "42abc") <> Ret (0%Z, false).
Proof. repeat split. discriminate. Qed.

(** ** Unterminated input (C7) *)

(** C7 on the code: behind the 2 the number stops on the terminating NUL
    with the cursor at 5 and the flag down, and [parse_array] goes on to
    read [str[5]] of a buffer of 4 characters. *)
Theorem Load_unterminated_array_overruns :
  Load "[1,2" = Undefined (ReadPastEnd 5)
  /\ String.length "[1,2" = 4
  /\ parse_number "[1,2" 3 true = Ret (JNull, 5, false)
  /\ consume_ws "[1,2" 5 = Undefined (ReadPastEnd 5).
Proof. repeat split. Qed.

(** ** Moves (C9) *)


Ltac no_dup := repeat (apply NoDup_cons; [cbn; intuition discriminate |]); apply NoDup_nil.



(** And on a move assignment from an element of the target, as in
    [b = std::move( b[0] )]: the element at 4 is destroyed with the deque
    of the Array at 3 before it is read. *)
Example move_assign_element_destroyed :
  value_of 3 sample_memory 4 = Some (JArray [JBoolean true])
  /\ move_assign 3 3 4 sample_memory = Undefined (Destroyed 4).
Proof. split; reflexivity. Qed.

(** * Further properties *)

(** ** White space skipped *)

Lemma consume_ws_loop_skip (w : string) :
  forall n str o c s,
    ws w -> reads str o (w ++ String c s) -> isspace c = false ->
    String.length w < n ->
    consume_ws_loop n str o = Ret (o + String.length w).
Proof.
  induction w as [|a w IH]; intros n str o c s Hw H Hc Hn;
    (destruct n as [|n]; [cbn [String.length] in Hn; lia |]); cbn [consume_ws_loop].
  - cbn [String.append] in H. rewrite (reads_char _ _ _ _ H). cbn [bind].
    rewrite Hc. cbn [String.length]. now rewrite Nat.add_0_r.
  - unfold ws in Hw. cbn [all_chars] in Hw. apply andb_prop in Hw as [Ha Hw].
    cbn [String.append] in H. rewrite (reads_char _ _ _ _ H). cbn [bind].
    rewrite Ha. apply reads_next in H.
    rewrite (IH n str (S o) c s Hw H Hc) by (cbn [String.length] in Hn; lia).
    cbn [String.length]. f_equal. lia.
Qed.

Lemma consume_ws_skip (str : string) (o : nat) (w : string) (c : ascii) (s : string) :
  ws w -> reads str o (w ++ String c s) -> isspace c = false ->
  consume_ws str o = Ret (o + String.length w).
Proof.
  intros Hw H Hc. unfold consume_ws, steps.
  apply (consume_ws_loop_skip w _ str o c s Hw H Hc).
  pose proof (reads_length _ _ _ H) as HL. rewrite length_append in HL. lia.
Qed.

Lemma parse_next_skip (fuel : nat) (str : string) (o o' : nat) (ok : bool) :
  consume_ws str o = Ret o' -> consume_ws str o' = Ret o' ->
  parse_next fuel str o ok = parse_next fuel str o' ok.
Proof.
  intros H H'. destruct fuel as [|f]; [reflexivity |]. cbn [parse_next].
  now rewrite H, H'.
Qed.

Lemma ws_app (w1 w2 : string) : ws w1 -> ws w2 -> ws (w1 ++ w2).
Proof. unfold ws. intros H1 H2. now rewrite all_chars_app, H1, H2. Qed.

Lemma ws_nil : ws "".
Proof. reflexivity. Qed.

(** ** The start of a layout *)

Lemma layout_start (x : JSON) (t : string) : layout x t -> starts_value t = true.
Proof.
  destruct x as [|m|l| | | |]; cbn [layout];
    try (intros [Hrb ->]; now apply reads_back_start).
  - intros [_ H]. destruct m; [destruct H as (w & _ & ->) | destruct H as (t' & -> & _)];
      reflexivity.
  - intros [_ H]. destruct l; [destruct H as (w & _ & ->) | destruct H as (t' & -> & _)];
      reflexivity.
Qed.

Lemma starts_value_char (t rest : string) :
  starts_value t = true ->
  exists c s, t ++ rest = String c s /\ value_start c = true.
Proof.
  destruct t as [|c t]; [discriminate |]. intros H. now exists c, (t ++ rest).
Qed.

(** White space, then a comma, a bracket or a brace: a number may end
    there. *)
Lemma stops_ws (w : string) (c : ascii) (s : string) :
  ws w -> ends_number c = true -> stops (w ++ String c s) = true.
Proof.
  destruct w as [|a w]; intros Hw Hc; [exact Hc |].
  unfold ws in Hw. cbn [all_chars] in Hw. apply andb_prop in Hw as [Ha _].
  cbn. unfold ends_number. now rewrite Ha.
Qed.

(** The text of a value that reads back, behind white space. *)
Lemma parse_next_dump_skip (v : JSON) (fuel : nat) :
  reads_back v -> String.length (dumpMinified v) < fuel ->
  forall str o ok w rest,
    ws w -> reads str o (w ++ dumpMinified v ++ rest) ->
    (is_number v = true -> stops rest = true) ->
    parse_next fuel str o ok
    = Ret (v, o + String.length w + String.length (dumpMinified v), ok).
Proof.
  intros Hrb Hfuel str o ok w rest Hw H Hstop.
  destruct (starts_value_char _ rest (reads_back_start v Hrb)) as (c & s & E & Hc).
  destruct (value_start_char c Hc) as (Hsp & _).
  pose proof H as H0. rewrite E in H0.
  pose proof (reads_app _ _ _ _ H) as H1.
  rewrite (parse_next_skip fuel str o (o + String.length w) ok).
  - exact (parse_next_dump v Hrb fuel Hfuel str _ ok rest H1 Hstop).
  - exact (consume_ws_skip _ _ _ _ _ Hw H0 Hsp).
  - rewrite E in H1. exact (consume_ws_stay _ _ _ _ H1 Hsp).
Qed.

(** ** The loops over laid out elements and entries *)

Lemma parse_array_loop_layout (rec : parser) (b : nat) (todo : list JSON) :
  forall done n str o ok t rest,
    Forall (reads_layout rec b) todo ->
    layout_elements layout todo t ->
    (Z.of_nat (List.length done + List.length todo) < UINT_MOD)%Z ->
    String.length t <= b -> String.length t < n ->
    reads str o (t ++ rest) ->
    parse_array_loop rec n str (JArray done) (Z.of_nat (List.length done)) o ok
    = Ret (JArray (done ++ todo)%list, o + String.length t, ok).
Proof.
  induction todo as [|x todo IH]; intros done n str o ok t rest Hall Hlay Hlen Hb Hn H;
    [contradiction |].
  cbn [layout_elements] in Hlay.
  destruct Hlay as (w1 & tx & w2 & t' & Hw1 & Hw2 & Hx & -> & Ht').
  inversion Hall as [|? ? Hrl Hrest]; subst.
  destruct n as [|n]; [lia |].
  rewrite !length_append in Hb, Hn.
  replace ((w1 ++ tx ++ w2 ++ t') ++ rest) with (w1 ++ tx ++ w2 ++ t' ++ rest) in H
    by now rewrite !append_assoc.
  assert (Ht1 : 1 <= String.length t').
  { destruct todo; [subst t' | destruct Ht' as (t'' & -> & _)]; cbn [String.length]; lia. }
  assert (Hstop : stops (w2 ++ t' ++ rest) = true).
  { destruct todo; [subst t' | destruct Ht' as (t'' & -> & _)];
      cbn [String.append]; now apply stops_ws. }
  cbn [parse_array_loop].
  rewrite (Hrl tx Hx ltac:(lia) str o ok w1 _ Hw1 H (fun _ => Hstop)). cbn [bind].
  cbn [List.length] in Hlen.
  rewrite assign_index_push by (unfold UINT_MOD in *; lia). cbn [bind].
  assert (Hidx : ((Z.of_nat (List.length done) + 1) mod UINT_MOD)%Z
                 = Z.of_nat (List.length (done ++ [x])%list)).
  { rewrite Z.mod_small, length_app by (unfold UINT_MOD in *; lia).
    cbn [List.length]. lia. }
  rewrite Hidx. clear Hidx.
  apply reads_app in H. apply reads_app in H.
  destruct todo as [|y todo].
  - subst t'. cbn [String.append] in H.
    rewrite (consume_ws_skip _ _ _ _ _ Hw2 H eq_refl). cbn [bind].
    apply reads_app in H.
    rewrite (reads_char _ _ _ _ H). cbn [bind].
    change ("]" =? ",")%char with false. change ("]" =? "]")%char with true. cbv iota.
    rewrite !length_append. cbn [String.length]. do 3 f_equal. lia.
  - destruct Ht' as (t'' & -> & Hlay'). cbn [String.append] in H.
    rewrite (consume_ws_skip _ _ _ _ _ Hw2 H eq_refl). cbn [bind].
    apply reads_app in H.
    rewrite (reads_char _ _ _ _ H). cbn [bind].
    change ("," =? ",")%char with true. cbv iota.
    apply reads_next in H. cbn [String.length] in Hb, Hn.
    rewrite (IH (done ++ [x])%list n str _ ok t'' rest Hrest Hlay'); trivial;
      [| rewrite length_app; cbn [List.length] in *; lia | lia | lia].
    rewrite <- app_assoc. cbn [List.app]. rewrite !length_append.
    cbn [String.length]. do 3 f_equal. lia.
Qed.

Lemma parse_object_loop_layout (rec : parser) (b : nat) (todo : list (string * JSON)) :
  (forall s, reads_layout rec b (JString s)) ->
  forall Obj n str o ok t rest,
    Forall (fun kv => reads_layout rec b (snd kv)) todo ->
    layout_entries layout todo t ->
    String.length t <= b -> String.length t < n ->
    reads str o (t ++ rest) ->
    parse_object_loop rec n str Obj o ok
    = Ret (fold_left (fun O kv => assign_key O (fst kv) (snd kv)) todo Obj,
           o + String.length t, ok).
Proof.
  intros Hstr.
  induction todo as [|[k x] todo IH]; intros Obj n str o ok t rest Hall Hlay Hb Hn H;
    [contradiction |].
  cbn [layout_entries] in Hlay.
  destruct Hlay as (w1 & w2 & w3 & tx & w4 & t' & Hw1 & Hw2 & Hw3 & Hw4 & (s & ->)
                    & Hx & -> & Ht').
  inversion Hall as [|? ? Hrl Hrest]; subst. cbn [snd] in Hrl.
  destruct n as [|n]; [lia |].
  rewrite !length_append in Hb, Hn. cbn [String.length] in Hb, Hn.
  rewrite !length_append in Hb, Hn.
  replace ((w1 ++ (str1 DQ ++ json_escape s ++ str1 DQ) ++ w2
            ++ String ":" (w3 ++ tx ++ w4 ++ t')) ++ rest)
    with (w1 ++ (str1 DQ ++ json_escape s ++ str1 DQ)
          ++ (w2 ++ String ":" (w3 ++ tx ++ w4 ++ t' ++ rest))) in H
    by (rewrite !append_assoc; cbn [String.append]; now rewrite !append_assoc).
  assert (Ht1 : 1 <= String.length t').
  { destruct todo; [subst t' | destruct Ht' as (t'' & -> & _)]; cbn [String.length]; lia. }
  assert (Hstop : stops (w4 ++ t' ++ rest) = true).
  { destruct todo; [subst t' | destruct Ht' as (t'' & -> & _)];
      cbn [String.append]; now apply stops_ws. }
  cbn [parse_object_loop].
  rewrite (Hstr s (str1 DQ ++ json_escape s ++ str1 DQ)
             (conj (rb_String s) eq_refl)
             ltac:(rewrite !length_append; lia) str o ok w1 _ Hw1 H)
    by discriminate.
  cbn [bind].
  apply reads_app in H. apply reads_app in H.
  rewrite (consume_ws_skip _ _ _ _ _ Hw2 H eq_refl). cbn [bind].
  apply reads_app in H.
  rewrite (reads_char _ _ _ _ H). cbn [bind].
  change (":" =? ":")%char with true. cbn [negb]. cbv iota.
  apply reads_next in H.
  destruct (starts_value_char tx (w4 ++ t' ++ rest) (layout_start x tx Hx))
    as (c & r & E & Hc).
  destruct (value_start_char c Hc) as (Hsp & _).
  pose proof H as H0. rewrite E in H0.
  rewrite (consume_ws_skip _ _ _ _ _ Hw3 H0 Hsp). cbn [bind]. clear H0 E.
  apply reads_app in H.
  rewrite (Hrl tx Hx ltac:(lia) str _ ok "" _ ws_nil H (fun _ => Hstop)). cbn [bind].
  apply reads_app in H.
  cbn [ToString fst snd fold_left String.length]. rewrite Nat.add_0_r.
  destruct todo as [|y todo].
  - subst t'. cbn [String.append] in H.
    rewrite (consume_ws_skip _ _ _ _ _ Hw4 H eq_refl). cbn [bind].
    apply reads_app in H.
    rewrite (reads_char _ _ _ _ H). cbn [bind].
    change ("}" =? ",")%char with false. change ("}" =? "}")%char with true. cbv iota.
    rewrite !length_append. cbn [String.length]. rewrite !length_append.
    cbn [String.length]. do 3 f_equal. lia.
  - destruct Ht' as (t'' & -> & Hlay'). cbn [String.append] in H.
    rewrite (consume_ws_skip _ _ _ _ _ Hw4 H eq_refl). cbn [bind].
    apply reads_app in H.
    rewrite (reads_char _ _ _ _ H). cbn [bind].
    change ("," =? ",")%char with true. cbv iota.
    apply reads_next in H. cbn [String.length] in Hb, Hn.
    rewrite (IH _ n str _ ok t'' rest Hrest Hlay'); trivial; [| lia | lia].
    rewrite !length_append. cbn [String.length]. rewrite !length_append.
    cbn [String.length]. do 3 f_equal. lia.
Qed.

(** ** Every layout of a value read *)

Lemma reads_layout_leaf (v : JSON) (fuel : nat) :
  (forall t, layout v t -> reads_back v /\ t = dumpMinified v) ->
  reads_layout (parse_next fuel) fuel v.
Proof.
  intros Hleaf tx Hlay Hlen str o ok w rest Hw H Hstop.
  destruct (Hleaf tx Hlay) as [Hrb ->].
  exact (parse_next_dump_skip v fuel Hrb Hlen str o ok w rest Hw H Hstop).
Qed.

Lemma parse_next_layout (v : JSON) : forall fuel, reads_layout (parse_next fuel) fuel v.
Proof.
  induction v as [|m IH|l IH|s|d|i|b] using JSON_nested_ind; intros fuel;
    try (apply reads_layout_leaf; intros t Ht; exact Ht).
  - (* object *)
    intros tx [Hsorted Hm] Hb str o ok w rest Hw H _.
    destruct fuel as [|f]; [lia |].
    assert (Etx : exists t', tx = String "{" t').
    { destruct m; [destruct Hm as (w' & _ & ->) | destruct Hm as (t' & -> & _)]; eauto. }
    destruct Etx as (t' & ->). cbn [String.append] in H.
    cbn [parse_next]. rewrite (consume_ws_skip _ _ _ _ _ Hw H eq_refl). cbn [bind].
    apply reads_app in H. rewrite (reads_char _ _ _ _ H). cbn [bind].
    change ("{" =? "[")%char with false. change ("{" =? "{")%char with true. cbv iota.
    apply reads_next in H. cbn [String.length] in Hb.
    unfold parse_object. change (Make Class.Object) with (JObject []).
    destruct m as [|[k x] m].
    + destruct Hm as (w' & Hw' & E). injection E as ->.
      rewrite append_assoc in H. cbn [String.append] in H.
      rewrite (consume_ws_skip _ _ _ _ _ Hw' H eq_refl). cbn [bind].
      apply reads_app in H. rewrite (reads_char _ _ _ _ H). cbn [bind].
      change ("}" =? "}")%char with true. cbv iota.
      cbn [String.length]. rewrite !length_append. cbn [String.length].
      do 3 f_equal. lia.
    + destruct Hm as (t'' & E & Hlay). injection E as <-.
      pose proof Hlay as Hlay0. cbn [layout_entries] in Hlay.
      destruct Hlay as (w1 & w2 & w3 & tv & w4 & u & Hw1 & Hw2 & Hw3 & Hw4 & Hk
                        & Hx & -> & Hu).
      pose proof H as H0. rewrite !append_assoc in H0.
      unfold str1 in H0 at 1. cbn [String.append] in H0.
      rewrite (consume_ws_skip _ _ _ _ _ Hw1 H0 eq_refl). cbn [bind].
      apply reads_app in H0. rewrite (reads_char _ _ _ _ H0). cbn [bind].
      change (DQ =? "}")%char with false. cbv iota. clear H0.
      rewrite append_assoc in H. apply reads_app in H.
      pose proof (reads_length _ _ _ H) as HL. rewrite length_append in HL.
      rewrite !length_append in Hb. cbn [String.length] in Hb.
      rewrite !length_append in Hb.
      etransitivity;
        [apply (parse_object_loop_layout (parse_next f) f ((k, x) :: m)
                  (fun s => reads_layout_leaf (JString s) f (fun t Ht => Ht))
                  (JObject []) (steps str) str _ ok
                  ((str1 DQ ++ k ++ str1 DQ) ++ w2 ++ String ":" (w3 ++ tv ++ w4 ++ u))
                  rest) |].
      * apply Forall_forall. intros e He. rewrite Forall_forall in IH.
        apply (IH e He).
      * cbn [layout_entries]. exists "", w2, w3, tv, w4, u.
        repeat (split; [assumption || exact ws_nil |]). split; [reflexivity | exact Hu].
      * rewrite !length_append. cbn [String.length]. rewrite !length_append. lia.
      * unfold steps. lia.
      * exact H.
      * rewrite (fold_assign_sorted _ [] Hsorted). cbn [List.app String.length].
        rewrite !length_append. cbn [String.length]. rewrite !length_append.
        do 3 f_equal. lia.
  - (* array *)
    intros tx [Hlen Hl] Hb str o ok w rest Hw H _.
    destruct fuel as [|f]; [lia |].
    assert (Etx : exists t', tx = String "[" t').
    { destruct l; [destruct Hl as (w' & _ & ->) | destruct Hl as (t' & -> & _)]; eauto. }
    destruct Etx as (t' & ->). cbn [String.append] in H.
    cbn [parse_next]. rewrite (consume_ws_skip _ _ _ _ _ Hw H eq_refl). cbn [bind].
    apply reads_app in H. rewrite (reads_char _ _ _ _ H). cbn [bind].
    change ("[" =? "[")%char with true. cbv iota.
    apply reads_next in H. cbn [String.length] in Hb.
    unfold parse_array. change (Make Class.Array) with (JArray []).
    destruct l as [|x l].
    + destruct Hl as (w' & Hw' & E). injection E as ->.
      rewrite append_assoc in H. cbn [String.append] in H.
      rewrite (consume_ws_skip _ _ _ _ _ Hw' H eq_refl). cbn [bind].
      apply reads_app in H. rewrite (reads_char _ _ _ _ H). cbn [bind].
      change ("]" =? "]")%char with true. cbv iota.
      cbn [String.length]. rewrite !length_append. cbn [String.length].
      do 3 f_equal. lia.
    + destruct Hl as (t'' & E & Hlay). injection E as <-.
      cbn [layout_elements] in Hlay.
      destruct Hlay as (w1 & tv & w2 & u & Hw1 & Hw2 & Hx & -> & Hu).
      destruct (starts_value_char tv (w2 ++ u ++ rest) (layout_start x tv Hx))
        as (c & r & E & Hc).
      destruct (value_start_char c Hc) as (Hsp & Hbr & _).
      pose proof H as H0. rewrite !append_assoc, E in H0.
      rewrite (consume_ws_skip _ _ _ _ _ Hw1 H0 Hsp). cbn [bind].
      apply reads_app in H0. rewrite (reads_char _ _ _ _ H0). cbn [bind].
      rewrite Hbr. clear H0 E.
      rewrite append_assoc in H. apply reads_app in H.
      pose proof (reads_length _ _ _ H) as HL. rewrite length_append in HL.
      rewrite !length_append in Hb.
      etransitivity;
        [apply (parse_array_loop_layout (parse_next f) f (x :: l) [] (steps str) str _ ok
                  (tv ++ w2 ++ u) rest) |].
      * apply Forall_forall. intros e He. rewrite Forall_forall in IH.
        apply (IH e He).
      * cbn [layout_elements]. exists "", tv, w2, u.
        repeat (split; [assumption || exact ws_nil |]). split; [reflexivity | exact Hu].
      * exact Hlen.
      * rewrite !length_append. lia.
      * unfold steps. lia.
      * exact H.
      * cbn [List.app String.length]. rewrite !length_append.
        do 3 f_equal. lia.
Qed.

Lemma Load_layout_text (v : JSON) (t w rest : string) :
  layout v t -> ws w -> (is_number v = true -> stops rest = true) ->
  Load (w ++ t ++ rest) = Ret (v, true).
Proof.
  intros Hlay Hw Hstop. unfold Load.
  rewrite (parse_next_layout v (steps (w ++ t ++ rest)) t Hlay) with (w := w) (rest := rest);
    [reflexivity | | assumption | apply reads_start | assumption].
  unfold steps. rewrite !length_append. lia.
Qed.

(** ** The layout [dump] writes *)

Lemma all_chars_substring (f : ascii -> bool) (s : string) :
  all_chars f s = true -> forall n m, all_chars f (String.substring n m s) = true.
Proof.
  induction s as [|c s IH]; intros H n m; [destruct n, m; reflexivity |].
  cbn [all_chars] in H. apply andb_prop in H as [Hc Hs].
  destruct n as [|n]; cbn [String.substring].
  - destruct m as [|m]; [reflexivity |]. cbn [all_chars]. now rewrite Hc, IH.
  - now apply IH.
Qed.

Lemma ws_pad_loop (tab : string) (n : nat) :
  ws tab -> forall pad, ws pad -> ws (pad_loop n pad tab).
Proof.
  intros Htab. induction n as [|n IH]; intros pad Hpad; [exact Hpad |].
  cbn [pad_loop]. apply IH. now apply ws_app.
Qed.

Lemma ws_erase (n : nat) (pad : string) : ws pad -> ws (erase n pad).
Proof. intros H. now apply all_chars_substring. Qed.

Lemma pretty_elements_more (D : JSON -> outcome string) (l : list JSON) :
  l <> [] ->
  pretty_elements D l false
  = (T <- pretty_elements D l true ;; Ret (String "," (" " ++ T))).
Proof.
  destruct l as [|x l]; [congruence |]. intros _. cbn [pretty_elements].
  destruct (D x); cbn [bind]; try reflexivity.
  match goal with |- bind ?e _ = _ => destruct e end; reflexivity.
Qed.

Lemma pretty_entries_more (D : JSON -> outcome string) (pad : string)
  (m : list (string * JSON)) :
  m <> [] ->
  pretty_entries D pad m false
  = (T <- pretty_entries D pad m true ;; Ret (String "," (str1 LF ++ T))).
Proof.
  destruct m as [|[k x] m]; [congruence |]. intros _. cbn [pretty_entries].
  destruct (D x); cbn [bind]; try reflexivity.
  match goal with |- bind ?e _ = _ => destruct e end; reflexivity.
Qed.

Ltac same_text :=
  unfold str1;
  repeat first [rewrite append_assoc | rewrite append_nil_r | progress cbn [String.append]];
  reflexivity.

Lemma layout_pretty_elements (D : JSON -> outcome string) (l : list JSON) :
  Forall (fun x => exists t, D x = Ret t /\ layout x t) l -> l <> [] ->
  exists T,
    pretty_elements D l true = Ret T
    /\ forall w1, ws w1 -> layout_elements layout l (w1 ++ T ++ "]").
Proof.
  induction l as [|x l IH]; intros Hall Hne; [congruence |].
  inversion Hall as [|? ? (t & Et & Hx) Hrest]; subst.
  destruct l as [|y l].
  - exists t. split; [cbn [pretty_elements]; rewrite Et; cbn [bind]; f_equal; same_text |].
    intros w1 Hw1. cbn [layout_elements]. exists w1, t, "", "]".
    repeat split; trivial.
  - destruct (IH Hrest ltac:(congruence)) as (T' & ET' & HT').
    exists (t ++ String "," (" " ++ T')). split.
    + remember (y :: l) as l' eqn:El. cbn [pretty_elements]. rewrite Et. cbn [bind].
      change ((fix elements (l0 : list JSON) (skip : bool) {struct l0} : outcome string :=
                 match l0 with
                 | [] => Ret ""
                 | p :: l'0 =>
                     t0 <- D p;;
                     r <- elements l'0 false;; Ret ((if skip then "" else ", ") ++ t0 ++ r)
                 end) l' false) with (pretty_elements D l' false).
      rewrite pretty_elements_more by (subst; congruence). rewrite ET'. cbn [bind].
      reflexivity.
    + intros w1 Hw1. cbn [layout_elements].
      exists w1, t, "", (String "," (" " ++ T' ++ "]")).
      repeat split; trivial; [same_text |].
      eexists. split; [reflexivity |]. apply HT'. reflexivity.
Qed.

Lemma layout_pretty_entries (D : JSON -> outcome string) (pad wend : string)
  (m : list (string * JSON)) :
  ws pad -> ws wend ->
  Forall (fun kv => escaped_key (fst kv) /\ exists t, D (snd kv) = Ret t /\ layout (snd kv) t) m ->
  m <> [] ->
  exists T,
    pretty_entries D pad m true = Ret T
    /\ layout_entries layout m (str1 LF ++ T ++ wend ++ "}").
Proof.
  intros Hpad Hwend.
  induction m as [|[k x] m IH]; intros Hall Hne; [congruence |].
  inversion Hall as [|? ? [Hk (t & Et & Hx)] Hrest]; subst. cbn [fst snd] in *.
  destruct m as [|y m].
  - exists (pad ++ str1 DQ ++ k ++ String DQ " : " ++ t). split.
    + cbn [pretty_entries]. rewrite Et. cbn [bind]. f_equal. same_text.
    + cbn [layout_entries]. exists (str1 LF ++ pad), " ", " ", t, wend, "}".
      repeat split; trivial; try (apply ws_app; trivial; reflexivity). same_text.
  - destruct (IH Hrest ltac:(congruence)) as (T' & ET' & HT').
    exists ((pad ++ str1 DQ ++ k ++ String DQ " : " ++ t) ++ String "," (str1 LF ++ T')).
    split.
    + remember (y :: m) as m' eqn:Em. cbn [pretty_entries]. rewrite Et. cbn [bind].
      change ((fix entries (m0 : list (string * JSON)) (skip : bool) {struct m0} :
                   outcome string :=
                 match m0 with
                 | [] => Ret ""
                 | (k0, x0) :: m'0 =>
                     t0 <- D x0;;
                     r <- entries m'0 false;;
                     Ret ((if skip then "" else String "," (str1 LF))
                          ++ (pad ++ str1 DQ ++ k0 ++ String DQ " : " ++ t0) ++ r)
                 end) m' false) with (pretty_entries D pad m' false).
      rewrite pretty_entries_more by (subst; congruence). rewrite ET'. cbn [bind].
      reflexivity.
    + cbn [layout_entries]. exists (str1 LF ++ pad), " ", " ", t, "".
      exists (String "," (str1 LF ++ T' ++ wend ++ "}")).
      repeat split; trivial; try (apply ws_app; trivial; reflexivity); [same_text |].
      eexists. split; [reflexivity |]. exact HT'.
Qed.

Lemma int_add_one (depth : Z) :
  in_int depth = true -> (depth + 1 <= INT_MAX)%Z ->
  int_add depth 1 = Ret (depth + 1)%Z /\ in_int (depth + 1) = true.
Proof.
  unfold int_add, in_int, INT_MIN, INT_MAX. intros H Hle.
  apply andb_prop in H as [H1 H2]. apply Z.leb_le in H1, H2.
  assert (E : ((- 2 ^ 31 <=? depth + 1) && (depth + 1 <=? 2 ^ 31 - 1))%Z = true).
  { apply andb_true_intro. split; apply Z.leb_le; lia. }
  now rewrite E.
Qed.

Lemma nesting_nonneg (v : JSON) : (0 <= nesting v)%Z.
Proof.
  destruct v as [|m|l| | | |]; cbn [nesting]; try lia.
  - destruct m as [|kv m]; [lia |].
    assert (0 <= fold_right (fun kv acc => Z.max (nesting (snd kv)) acc) 0 (kv :: m))%Z; [| lia].
    generalize (kv :: m). intros m'. induction m' as [|a m' IH]; cbn [fold_right]; lia.
  - destruct l as [|x l]; [lia |].
    assert (0 <= fold_right (fun x acc => Z.max (nesting x) acc) 0 (x :: l))%Z; [| lia].
    generalize (x :: l). intros l'. induction l' as [|a l' IH]; cbn [fold_right]; lia.
Qed.

Lemma nesting_element (x : JSON) (l : list JSON) :
  In x l -> (nesting x + 1 <= nesting (JArray l))%Z.
Proof.
  intros Hin. cbn [nesting]. destruct l as [|y l]; [contradiction |].
  assert (nesting x <= fold_right (fun x acc => Z.max (nesting x) acc) 0 (y :: l))%Z; [| lia].
  revert Hin. generalize (y :: l). intros l'.
  induction l' as [|a l' IH]; intros Hin; [contradiction |].
  cbn [fold_right]. destruct Hin as [<- | Hin]; [lia | specialize (IH Hin); lia].
Qed.

Lemma nesting_entry (kv : string * JSON) (m : list (string * JSON)) :
  In kv m -> (nesting (snd kv) + 1 <= nesting (JObject m))%Z.
Proof.
  intros Hin. cbn [nesting]. destruct m as [|y m]; [contradiction |].
  assert (nesting (snd kv)
          <= fold_right (fun kv acc => Z.max (nesting (snd kv)) acc) 0 (y :: m))%Z; [| lia].
  revert Hin. generalize (y :: m). intros m'.
  induction m' as [|a m' IH]; intros Hin; [contradiction |].
  cbn [fold_right]. destruct Hin as [<- | Hin]; [lia | specialize (IH Hin); lia].
Qed.

Lemma layout_dump (v : JSON) (tab : string) :
  reads_back v -> ws tab ->
  forall depth, in_int depth = true -> (depth + nesting v <= INT_MAX)%Z ->
    exists t, dump v depth tab = Ret t /\ layout v t.
Proof.
  intros Hrb Htab.
  induction v as [|m IH|l IH|s|d|i|b] using JSON_nested_ind; intros depth Hd Hn;
    try (eexists; split; [reflexivity | split; [assumption | reflexivity]]).
  - (* object *)
    inversion Hrb as [| | | | | |m' Hsorted Hall]; subst m'.
    cbn [dump]. cbv zeta.
    assert (Hpad : ws (pad_loop (Z.to_nat depth) "" tab))
      by (apply ws_pad_loop; [assumption | reflexivity]).
    destruct m as [|kv m].
    + cbn [pretty_entries bind]. eexists. split; [reflexivity |].
      cbn [layout]. split; [assumption |].
      exists (str1 LF ++ str1 LF
              ++ erase (String.length tab) (pad_loop (Z.to_nat depth) "" tab)).
      split; [| same_text].
      apply (ws_app (str1 LF)); [reflexivity |].
      apply (ws_app (str1 LF)); [reflexivity |]. now apply ws_erase.
    + destruct (layout_pretty_entries (fun p => d <- int_add depth 1 ;; dump p d tab)
                  (pad_loop (Z.to_nat depth) "" tab)
                  (str1 LF ++ erase (String.length tab) (pad_loop (Z.to_nat depth) "" tab))
                  (kv :: m)) as (T & ET & HT);
        [assumption | apply (ws_app (str1 LF)); [reflexivity | now apply ws_erase]
         | | congruence |].
      * apply Forall_forall. intros e He. rewrite Forall_forall in Hall, IH.
        destruct (Hall e He) as [Hk Hx]. split; [assumption |].
        pose proof (nesting_entry e _ He) as Hne. pose proof (nesting_nonneg (snd e)).
        destruct (int_add_one depth Hd) as [-> Hd']; [lia |]. cbn [bind].
        apply IH; trivial. lia.
      * rewrite ET. cbn [bind]. eexists. split; [reflexivity |].
        cbn [layout]. split; [assumption |].
        eexists. split; [| exact HT]. same_text.
  - (* array *)
    inversion Hrb as [| | | | |l' Hlen Hall|]; subst l'.
    cbn [dump].
    destruct l as [|x l].
    + cbn [pretty_elements bind]. eexists. split; [reflexivity |].
      cbn [layout]. split; [assumption |]. exists "". split; reflexivity.
    + destruct (layout_pretty_elements (fun p => d <- int_add depth 1 ;; dump p d tab)
                  (x :: l)) as (T & ET & HT); [| congruence |].
      * apply Forall_forall. intros e He. rewrite Forall_forall in Hall, IH.
        pose proof (nesting_element e _ He) as Hne. pose proof (nesting_nonneg e).
        destruct (int_add_one depth Hd) as [-> Hd']; [lia |]. cbn [bind].
        apply IH; trivial; [now apply Hall | lia].
      * rewrite ET. cbn [bind]. eexists. split; [reflexivity |].
        cbn [layout]. split; [assumption |].
        eexists. split; [cbn [String.append]; reflexivity |].
        apply (HT ""). reflexivity.
Qed.

Lemma int_add_overflow : int_add INT_MAX 1 = Undefined SignedOverflow.
Proof. reflexivity. Qed.

(** ** White space and what follows a value: the statements *)



(** X2.  What [dump] writes with a tab of white space is read back by
    [Load] as the value dumped, at every depth of the indentation that
    leaves room in [int] for the nesting of the value, the Strings and
    keys being shorter than 2^32 bytes; at the depth [INT_MAX] the sum
    [depth + 1] for the first element or entry overflows. *)
Theorem Load_dump :
  (forall (V : JSON) (depth : Z) (tab : string),
      reads_back V -> short_texts V -> is_number V = false -> ws tab ->
      in_int depth = true -> (depth + nesting V <= INT_MAX)%Z ->
      Forall escape_returns (texts V)
      /\ exists text, dump V depth tab = Ret text /\ Load text = Ret (V, true))
  /\ (forall x l tab, dump (JArray (x :: l)) INT_MAX tab = Undefined SignedOverflow)
  /\ (forall k x m tab, dump (JObject ((k, x) :: m)) INT_MAX tab = Undefined SignedOverflow).
Proof.
  split; [| split].
  - intros V depth tab Hrb Hs Hnum Htab Hd Hn.
    split; [now apply short_texts_returns |].
    destruct (layout_dump V tab Hrb Htab depth Hd Hn) as (t & Et & Hl).
    exists t. split; [exact Et |].
    rewrite <- (append_nil_r t).
    apply (Load_layout_text V t "" "");
      [exact Hl | reflexivity | rewrite Hnum; discriminate].
  - intros x l tab. cbn [dump pretty_elements]. now rewrite int_add_overflow.
  - intros k x m tab. cbn [dump pretty_entries]. cbv zeta. now rewrite int_add_overflow.
Qed.

Lemma Load_dump_witness :
  exists text, dump sample 1 "  " = Ret text /\ Load text = Ret (sample, true).
Proof.
  apply (proj1 Load_dump sample 1%Z "  ");
    [exact sample_reads_back | exact sample_short_texts | reflexivity | reflexivity
     | reflexivity | vm_compute; discriminate].
Defined.

(** ** Number tokens *)

Lemma stol_minus (t : string) :
  starts_digit t = false -> stol (String "-" t) = Throw invalid_argument.
Proof.
  intros Ht. unfold stol. cbn [skip_space].
  change (isspace "-") with false. cbv iota. cbn [take_sign].
  change ("-" =? "-")%char with true. cbv iota.
  now rewrite (read_digits_stop t 0 false Ht).
Qed.

(** The text of an integer, a minus sign and more signs and digits: the
    conversion stops at the sign. *)
Lemma number_value_signs (z : Z) (junk : string) :
  in_llong z = true ->
  all_chars (fun c => (c =? "-")%char || is_digit c) junk = true ->
  let t := to_string z ++ String "-" junk in
  number_start t = true /\ all_chars num_char t = true
  /\ number_value t "" (has_dot t) 0 = Ret (JIntegral z).
Proof.
  intros Hz Hj t. destruct (to_string_text z) as (Hst & Hall & Hdot).
  assert (Hjn : all_chars num_char junk = true).
  { apply (all_chars_weaken _ num_char _) in Hj; [exact Hj |].
    intros c Hc. unfold num_char. now rewrite Hc. }
  assert (Hjd : has_dot junk = false).
  { clear -Hj. induction junk as [|c junk IH]; [reflexivity |].
    cbn [all_chars] in Hj. apply andb_prop in Hj as [Hc Hj].
    cbn [has_dot]. rewrite (IH Hj), orb_false_r.
    apply orb_prop in Hc as [Hc | Hc].
    - apply Ascii.eqb_eq in Hc. now subst c.
    - now destruct (digit_char c Hc) as (_ & _ & _ & -> & _). }
  split; [| split].
  - unfold t. destruct (to_string z); [discriminate Hst | exact Hst].
  - unfold t. rewrite all_chars_app, Hall. cbn [all_chars]. now rewrite Hjn.
  - unfold t. rewrite has_dot_app, Hdot. cbn [has_dot orb].
    change ("-" =? ".")%char with false. cbn [orb]. rewrite Hjd.
    unfold number_value. cbn [negb String.eqb]. cbv iota.
    rewrite (stol_to_string z (String "-" junk) eq_refl), Hz. reflexivity.
Qed.

(** X3.  What [std::stol] throws on a number token leaves [Load] as an
    exception: [std::out_of_range] for an integer outside 64 bits,
    [std::invalid_argument] for a minus sign without a digit behind it. *)
Theorem Load_number_throws :
  (forall z, in_llong z = false ->
     Load ("[" ++ to_string z ++ "]") = Throw out_of_range)
  /\ (forall t, starts_digit t = false -> all_chars num_char t = true ->
        has_dot t = false ->
        Load ("[" ++ String "-" t ++ "]") = Throw invalid_argument).
Proof.
  split.
  - intros z Hz. destruct (to_string_text z) as (Hst & Hall & Hdot).
    rewrite (Load_number_token _ Hst Hall), Hdot. unfold number_value.
    cbn [negb String.eqb]. cbv iota.
    rewrite <- (append_nil_r (to_string z)), (stol_to_string z "" eq_refl), Hz.
    reflexivity.
  - intros t Ht Hall Hdot.
    rewrite (Load_number_token (String "-" t)); [| reflexivity | exact Hall].
    cbn [has_dot]. change ("-" =? ".")%char with false. cbn [orb]. rewrite Hdot.
    unfold number_value. cbn [negb String.eqb]. cbv iota.
    now rewrite (stol_minus t Ht).
Qed.

Lemma Load_number_throws_witness :
  Load ("[" ++ to_string (2 ^ 63) ++ "]") = Throw out_of_range
  /\ Load ("[" ++ String "-" "-" ++ "]") = Throw invalid_argument.
Proof.
  split.
  - apply (proj1 Load_number_throws (2 ^ 63)%Z). reflexivity.
  - apply (proj2 Load_number_throws "-"); reflexivity.
Defined.

(** X4.  A number token may go on with minus signs and digits behind its
    integer: [std::stol] stops at the first sign, the rest is dropped and
    the flag stays up. *)
Theorem Load_number_trailing_signs (z : Z) (junk : string) :
  in_llong z = true ->
  all_chars (fun c => (c =? "-")%char || is_digit c) junk = true ->
  Load ("[" ++ (to_string z ++ String "-" junk) ++ "]")
  = Ret (JArray [JIntegral z], true).
Proof.
  intros Hz Hj. destruct (number_value_signs z junk Hz Hj) as (Hst & Hall & Hv).
  now rewrite (Load_number_token _ Hst Hall), Hv.
Qed.

Lemma Load_number_trailing_signs_witness :
  Load ("[" ++ (to_string 2024 ++ String "-" "01-15") ++ "]")
  = Ret (JArray [JIntegral 2024], true).
Proof.
  apply (Load_number_trailing_signs 2024 "01-15"); reflexivity.
Defined.

(** ** Blank and unterminated input *)

Lemma consume_ws_loop_end (w : string) :
  forall n str o,
    ws w -> reads str o w -> String.length w < n ->
    consume_ws_loop n str o = Ret (o + String.length w).
Proof.
  induction w as [|a w IH]; intros n str o Hw H Hn;
    (destruct n as [|n]; [cbn [String.length] in Hn; lia |]); cbn [consume_ws_loop].
  - rewrite (reads_end _ _ H). cbn [bind]. change (isspace NUL) with false.
    cbn [String.length]. now rewrite Nat.add_0_r.
  - unfold ws in Hw. cbn [all_chars] in Hw. apply andb_prop in Hw as [Ha Hw].
    rewrite (reads_char _ _ _ _ H). cbn [bind]. rewrite Ha.
    apply reads_next in H.
    rewrite (IH n str (S o) Hw H) by (cbn [String.length] in Hn; lia).
    cbn [String.length]. f_equal. lia.
Qed.

Lemma get_past (str : string) :
  forall o, String.length str <= o -> String.get o str = None.
Proof.
  induction str as [|c str IH]; intros o Ho; [now destruct o |].
  cbn [String.length] in Ho. destruct o as [|o]; [lia |]. cbn. apply IH. lia.
Qed.

Lemma char_at_past (str : string) (o : nat) :
  String.length str < o -> char_at str o = Undefined (ReadPastEnd o).
Proof.
  intros Ho. unfold char_at. rewrite get_past by lia.
  now replace (o =? String.length str)%nat with false by (symmetry; apply Nat.eqb_neq; lia).
Qed.

(** The loop of [parse_string] on a text that ends before a quote. *)
Lemma parse_string_loop_open (s : string) :
  forall n str o val ok,
    all_chars plain s = true -> reads str o s -> String.length s + 1 < n ->
    parse_string_loop n str o val ok
    = Undefined (ReadPastEnd (S (String.length str))).
Proof.
  induction s as [|c s IH]; intros n str o val ok Hs H Hn;
    (destruct n as [|n]; [lia |]); cbn [parse_string_loop].
  - pose proof (reads_length _ _ _ H) as HL. cbn [String.length] in HL.
    rewrite (reads_end _ _ H). cbn [bind].
    change (NUL =? DQ)%char with false. change (NUL =? BSL)%char with false. cbv iota.
    destruct n as [|n]; [cbn [String.length] in Hn; lia |]. cbn [parse_string_loop].
    rewrite char_at_past by lia. cbn [bind]. do 2 f_equal. lia.
  - cbn [all_chars] in Hs. apply andb_prop in Hs as [Hc Hs].
    unfold plain in Hc. apply andb_prop in Hc as [Hq Hb].
    apply negb_true_iff in Hq, Hb.
    rewrite (reads_char _ _ _ _ H). cbn [bind]. rewrite Hq, Hb.
    apply reads_next in H. apply IH; trivial. cbn [String.length] in Hn. lia.
Qed.

(** X5.  On an empty text and on a text of white space [Load] stops at the
    terminating NUL and gives Null with the flag down. *)
Theorem Load_blank (w : string) : ws w -> Load w = Ret (JNull, false).
Proof.
  intros Hw. unfold Load, steps. cbn [parse_next]. unfold consume_ws, steps.
  rewrite (consume_ws_loop_end w _ w 0 Hw (reads_start w)) by lia. cbn [bind].
  assert (H : reads w (String.length w) "").
  { exists w. split; [now rewrite append_nil_r | reflexivity]. }
  cbn [Nat.add]. rewrite (reads_end _ _ H). reflexivity.
Qed.

Lemma Load_blank_witness :
  Load "" = Ret (JNull, false) /\ Load (String " " (str1 LF)) = Ret (JNull, false).
Proof.
  split; [apply (Load_blank "") | apply (Load_blank (String " " (str1 LF)))]; reflexivity.
Defined.

(** X6.  A string literal that the text ends in: the loop of [parse_string]
    takes the terminating NUL for a character of the string and reads the
    buffer behind it, wherever the literal begins; so does [Load] for such
    a literal behind white space. *)
Theorem Load_unterminated_string (s : string) :
  all_chars plain s = true ->
  (forall str o ok, reads str (S o) s ->
     parse_string str o ok = Undefined (ReadPastEnd (S (String.length str))))
  /\ (forall w, ws w ->
        Load (w ++ String DQ s)
        = Undefined (ReadPastEnd (S (String.length (w ++ String DQ s))))).
Proof.
  intros Hs.
  assert (Hp : forall str o ok, reads str (S o) s ->
             parse_string str o ok = Undefined (ReadPastEnd (S (String.length str)))).
  { intros str o ok H. unfold parse_string, steps.
    apply (parse_string_loop_open s); trivial.
    pose proof (reads_length _ _ _ H). lia. }
  split; [exact Hp |].
  intros w Hw. set (str := w ++ String DQ s).
  assert (H : reads str 0 (w ++ String DQ s)) by apply reads_start.
  unfold Load, steps. cbn [parse_next].
  rewrite (consume_ws_skip _ _ _ _ _ Hw H eq_refl). cbn [bind].
  apply reads_app in H. rewrite (reads_char _ _ _ _ H). cbn [bind].
  change (DQ =? "[")%char with false. change (DQ =? "{")%char with false.
  change (DQ =? DQ)%char with true. cbv iota.
  apply reads_next in H. now rewrite (Hp str _ true H).
Qed.

Lemma Load_unterminated_string_witness :
  Load (" " ++ String DQ "abc") = Undefined (ReadPastEnd 6).
Proof.
  apply (proj2 (Load_unterminated_string "abc" eq_refl) " "). reflexivity.
Defined.

(** ** Unicode escapes *)

Lemma escape_char_hex (c : ascii) : is_hex c = true -> escape_char c = str1 c.
Proof. char_cases c; intros H; try discriminate H; reflexivity. Qed.

(** X7.  The parser keeps [\uXXXX] as the six characters it is written with,
    and the serializer escapes the backslash of these: the text printed
    back has two backslashes where it had one. *)
Theorem Load_unicode_escape (a b c d : ascii) :
  is_hex a = true -> is_hex b = true -> is_hex c = true -> is_hex d = true ->
  let hex := String a (String b (String c (str1 d))) in
  let text := String DQ (String BSL (String "u" hex)) ++ str1 DQ in
  Load text = Ret (JString (String BSL (String "u" hex)), true)
  /\ reprint text = Ret (String DQ (String BSL (String BSL (String "u" hex))) ++ str1 DQ)
  /\ reprint text <> Ret text.
Proof.
  intros Ha Hb Hc Hd hex text.
  assert (HL : Load text = Ret (JString (String BSL (String "u" hex)), true)).
  { unfold Load, text, hex. cbn. rewrite Ha. cbn. rewrite Hb. cbn. rewrite Hc. cbn.
    rewrite Hd. reflexivity. }
  assert (HR : reprint text
               = Ret (String DQ (String BSL (String BSL (String "u" hex))) ++ str1 DQ)).
  { unfold reprint. rewrite HL. cbn [bind dumpMinified json_escape]. unfold hex, str1.
    cbn [json_escape].
    rewrite (escape_char_hex a Ha), (escape_char_hex b Hb), (escape_char_hex c Hc),
      (escape_char_hex d Hd). reflexivity. }
  split; [exact HL |]. split; [exact HR |].
  rewrite HR. unfold text, hex. cbn. discriminate.
Qed.

Lemma Load_unicode_escape_witness :
  Load (String DQ (String BSL "u00e9") ++ str1 DQ)
  = Ret (JString (String BSL "u00e9"), true).
Proof.
  apply (Load_unicode_escape "0" "0" "e" "9"); reflexivity.
Defined.

(** ** What cannot start a value *)

Lemma substring_prefix (lit s : string) :
  (String.substring 0 (String.length lit) s =? lit)%string = String.prefix lit s.
Proof.
  revert s. induction lit as [|c lit IH]; intros s.
  - cbn. now destruct s.
  - destruct s as [|a s]; [reflexivity |]. cbn [String.length String.substring String.prefix].
    cbn [String.eqb]. rewrite IH.
    destruct (ascii_dec c a) as [-> | Hne].
    + now rewrite Ascii.eqb_refl.
    + replace (a =? c)%char with false; [reflexivity |].
      symmetry. apply Ascii.eqb_neq. congruence.
Qed.

(** X8.  Behind white space, a character that starts no value, and a word that
    begins like [true], [false] or [null] and is none of them, make [Load]
    give Null with the flag down; the buffer behind the text is not
    read. *)
Theorem Load_rejects (w s : string) (c : ascii) :
  ws w -> isspace c = false ->
  (value_start c = false -> Load (w ++ String c s) = Ret (JNull, false))
  /\ ((c =? "t")%char || (c =? "f")%char || (c =? "n")%char = true ->
      String.prefix "true" (String c s) = false ->
      String.prefix "false" (String c s) = false ->
      String.prefix "null" (String c s) = false ->
      Load (w ++ String c s) = Ret (JNull, false)).
Proof.
  intros Hw Hsp.
  set (str := w ++ String c s).
  assert (H : reads str 0 (w ++ String c s)) by apply reads_start.
  assert (H' : reads str (String.length w) (String c s)) by (apply reads_app in H; exact H).
  assert (Hsub : forall n, substr str (String.length w) n
                           = Ret (String.substring 0 n (String c s))).
  { intros n. unfold substr, str. rewrite length_append.
    replace (String.length w <=? String.length w + String.length (String c s))%nat
      with true by (symmetry; apply Nat.leb_le; lia).
    f_equal. clear. induction w as [|a w IH]; [reflexivity | exact IH]. }
  split.
  - intros Hv. unfold Load, steps. cbn [parse_next].
    rewrite (consume_ws_skip _ _ _ _ _ Hw H Hsp). cbn [bind Nat.add].
    rewrite (reads_char _ _ _ _ H'). cbn [bind].
    unfold value_start in Hv.
    apply orb_false_iff in Hv as [Hv H8]. apply orb_false_iff in Hv as [Hv H7].
    apply orb_false_iff in Hv as [Hv H6]. apply orb_false_iff in Hv as [Hv H5].
    apply orb_false_iff in Hv as [Hv H4]. apply orb_false_iff in Hv as [Hv H3].
    apply orb_false_iff in Hv as [H1 H2].
    now rewrite H1, H2, H3, H4, H5, H6, H7, H8.
  - intros Hc Ht Hf Hn. unfold Load, steps. cbn [parse_next].
    rewrite (consume_ws_skip _ _ _ _ _ Hw H Hsp). cbn [bind Nat.add].
    rewrite (reads_char _ _ _ _ H'). cbn [bind].
    rewrite <- (substring_prefix "true") in Ht.
    rewrite <- (substring_prefix "false") in Hf.
    rewrite <- (substring_prefix "null") in Hn.
    cbn [String.length] in Ht, Hf, Hn.
    assert (Hb : parse_bool str (String.length w) true = Ret (JNull, String.length w, false)).
    { unfold parse_bool. rewrite !Hsub. cbn [bind]. rewrite Ht. cbn [bind]. now rewrite Hf. }
    assert (Hnull : parse_null str (String.length w) true
                    = Ret (JNull, String.length w, false)).
    { unfold parse_null. rewrite Hsub. cbn [bind]. now rewrite Hn. }
    destruct (Ascii.eqb_spec c "t") as [-> | _]; [cbn; now rewrite Hb |].
    destruct (Ascii.eqb_spec c "f") as [-> | _]; [cbn; now rewrite Hb |].
    destruct (Ascii.eqb_spec c "n") as [-> | _]; [cbn; now rewrite Hnull |].
    discriminate Hc.
Qed.

Lemma Load_rejects_witness :
  Load (" " ++ String "x" "yz") = Ret (JNull, false)
  /\ Load ("" ++ String "t" "ru") = Ret (JNull, false)
  /\ Load ("" ++ String "n" "ul") = Ret (JNull, false).
Proof.
  split; [apply (proj1 (Load_rejects " " "yz" "x" eq_refl eq_refl)); reflexivity |].
  split; [apply (proj2 (Load_rejects "" "ru" "t" eq_refl eq_refl)); reflexivity |].
  apply (proj2 (Load_rejects "" "ul" "n" eq_refl eq_refl)); reflexivity.
Defined.

(** ** An array cut off behind a number *)








(** ** Exponents *)

Lemma parse_next_at_number (f : nat) (str : string) (o : nat) (ok : bool)
  (c : ascii) (s : string) :
  reads str o (String c s) -> is_digit c || (c =? "-")%char = true ->
  parse_next (S f) str o ok = parse_number str o ok.
Proof.
  intros H Hc.
  destruct (number_start_char c Hc) as (Hv & Hc1 & Hc2 & Hc3 & Hc4 & Hc5 & Hc6).
  destruct (value_start_char c Hv) as (Hsp & _).
  cbn [parse_next]. rewrite (consume_ws_stay _ _ _ _ H Hsp). cbn [bind].
  rewrite (reads_char _ _ _ _ H). cbn [bind].
  now rewrite Hc1, Hc2, Hc3, Hc4, Hc5, Hc6, Hc.
Qed.

(** An array of the one element that [parse_next] reads from [t]. *)
Lemma Load_single (t : string) (v : JSON) :
  starts_value t = true ->
  parse_next (S (S (String.length t))) ("[" ++ t ++ "]") 1 true
  = Ret (v, 1 + String.length t, true) ->
  Load ("[" ++ t ++ "]") = Ret (JArray [v], true).
Proof.
  intros Hst Hp. set (str := "[" ++ t ++ "]") in *.
  assert (H1 : reads str 1 (t ++ "]")) by (exists "["; split; reflexivity).
  destruct (starts_value_char t "]" Hst) as (c & s & E & Hv).
  destruct (value_start_char c Hv) as (Hsp & Hbr & _).
  assert (Hlen : String.length str = S (S (String.length t))).
  { unfold str. cbn [String.append String.length]. rewrite length_append.
    cbn [String.length]. lia. }
  unfold Load, steps. rewrite Hlen.
  remember (S (S (String.length t))) as g eqn:Eg. cbn [parse_next].
  rewrite (consume_ws_stay str 0 "[" (t ++ "]") (reads_start _) eq_refl). cbn [bind].
  change (char_at str 0) with (Ret (A := ascii) "["%char). cbn [bind].
  change ("[" =? "[")%char with true. cbv iota.
  unfold parse_array. change (Make Class.Array) with (JArray []).
  pose proof H1 as H1'. rewrite E in H1'.
  rewrite (consume_ws_stay _ _ _ _ H1' Hsp). cbn [bind].
  rewrite (reads_char _ _ _ _ H1'). cbn [bind]. rewrite Hbr.
  unfold steps. rewrite Hlen. cbn [parse_array_loop].
  cbn [Nat.add] in Hp. rewrite Hp. cbn [bind].
  change (assign_index (JArray []) 0 v) with (Ret (JArray [v])). cbn [bind].
  apply reads_app in H1. cbn [Nat.add] in H1.
  rewrite (consume_ws_stay _ _ _ _ H1 eq_refl). cbn [bind].
  rewrite (reads_char _ _ _ _ H1). cbn [bind].
  reflexivity.
Qed.

Lemma exponent_loop_digits (ds : string) :
  forall n str o exp t rest,
    all_chars is_digit ds = true -> ends_number t = true ->
    String.length ds < n -> reads str o (ds ++ String t rest) ->
    exponent_loop n str o exp = Ret (o + String.length ds + 1, Some (exp ++ ds)).
Proof.
  induction ds as [|c ds IH]; intros n str o exp t rest Hall Ht Hn H;
    (destruct n as [|n]; [cbn [String.length] in Hn; lia |]); cbn [exponent_loop].
  - cbn [String.append] in H. rewrite (reads_char _ _ _ _ H). cbn [bind].
    destruct (ends_number_char t Ht) as (-> & _). rewrite Ht. cbn [negb].
    rewrite append_nil_r. cbn [String.length]. do 2 f_equal. lia.
  - cbn [all_chars] in Hall. apply andb_prop in Hall as [Hc Hall].
    cbn [String.append] in H. rewrite (reads_char _ _ _ _ H). cbn [bind]. rewrite Hc.
    apply reads_next in H. cbn [String.length] in Hn.
    rewrite (IH n str (S o) _ t rest Hall Ht) by (lia || exact H).
    cbn [String.length]. rewrite append_assoc. cbn [String.append]. do 2 f_equal. lia.
Qed.

Lemma to_string_nonempty (z : Z) : (to_string z =? "")%string = false.
Proof.
  destruct (to_string_text z) as (Hst & _). now destruct (to_string z).
Qed.

(** An integer with an exponent, written as [to_string] writes the two. *)
Lemma parse_number_exponent (z e : Z) (str : string) (o : nat) (ok : bool)
  (t : ascii) (rest : string) :
  in_llong z = true -> in_llong e = true -> ends_number t = true ->
  reads str o ((to_string z ++ String "e" (to_string e)) ++ String t rest) ->
  parse_number str o ok
  = Ret (JFloating (double_mul (double_of_Z z) (pow10 e)),
         o + String.length (to_string z ++ String "e" (to_string e)), ok).
Proof.
  intros Hz He Ht H.
  destruct (to_string_text z) as (_ & Hall & Hdot).
  rewrite append_assoc in H. cbn [String.append] in H.
  pose proof (reads_length _ _ _ H) as HL. rewrite length_append in HL.
  cbn [String.length] in HL. rewrite length_append in HL. cbn [String.length] in HL.
  unfold parse_number.
  rewrite (number_loop_text (to_string z) (steps str) str o "" false "e"
             (to_string e ++ String t rest) Hall eq_refl);
    [| unfold steps; lia | exact H].
  cbn [bind]. change (("e" =? "E")%char || ("e" =? "e")%char) with true. cbv iota.
  change ("" ++ to_string z) with (to_string z).
  apply reads_app in H. apply reads_next in H.
  replace (o + String.length (to_string z) + 1) with (S (o + String.length (to_string z)))
    by lia.
  destruct (to_string_spec e) as (d & Hd & Ee & _).
  pose proof (digits_all d) as Hds. pose proof (digits_start d Hd) as Hd1.
  assert (Hexp : forall o' x,
            reads str o' (NilEmpty.string_of_uint d ++ String t rest) ->
            exponent_loop (steps str) str o' x
            = Ret (o' + String.length (NilEmpty.string_of_uint d) + 1,
                   Some (x ++ NilEmpty.string_of_uint d))).
  { intros o' x H'. apply (exponent_loop_digits _ _ str o' x t rest Hds Ht); [| exact H'].
    pose proof (reads_length _ _ _ H') as HL'. rewrite length_append in HL'.
    unfold steps. lia. }
  assert (Hval : number_value (to_string z) (to_string e)
                   (false || has_dot (to_string z)) e
                 = Ret (JFloating (double_mul (double_of_Z z) (pow10 e)))).
  { cbn [orb]. rewrite Hdot. unfold number_value.
    rewrite to_string_nonempty. cbn [negb].
    rewrite <- (append_nil_r (to_string z)), (stol_to_string z "" eq_refl), Hz.
    reflexivity. }
  assert (Hstol : stol (to_string e) = Ret e).
  { now rewrite <- (append_nil_r (to_string e)), (stol_to_string e "" eq_refl), He. }
  rewrite Ee in H. destruct (e <? 0)%Z eqn:Eneg.
  - cbn [String.append] in H, Ee. rewrite (reads_char _ _ _ _ H). cbn [bind].
    change ("-" =? "-")%char with true. cbv iota.
    apply reads_next in H. rewrite (Hexp _ _ H). cbn [bind].
    change (String "-" "" ++ NilEmpty.string_of_uint d)
      with (String "-" (NilEmpty.string_of_uint d)).
    rewrite <- Ee, Hstol. cbn [bind]. rewrite Hval. cbn [bind].
    rewrite length_append. cbn [String.length]. rewrite Ee. cbn [String.length].
    do 3 f_equal. lia.
  - cbn [String.append] in H, Ee.
    destruct (NilEmpty.string_of_uint d) as [|c ds] eqn:Eds; [discriminate Hd1 |].
    cbn [starts_digit] in Hd1. destruct (digit_char c Hd1) as (_ & Hm & Hp & _).
    pose proof H as H0. cbn [String.append] in H0.
    rewrite (reads_char _ _ _ _ H0). cbn [bind]. rewrite Hm, Hp.
    rewrite (Hexp _ _ H). cbn [bind String.append].
    rewrite <- Ee, Hstol. cbn [bind]. rewrite Hval. cbn [bind].
    rewrite length_append. cbn [String.length]. rewrite Ee.
    do 3 f_equal. lia.
Qed.

(** The powers of ten from [10^0] to [10^22] are doubles: there the
    rounding of [std::pow] has nothing to round. *)
Lemma pow10_exact (e : Z) : (0 <= e <= 22)%Z -> is_integer (pow10 e) (10 ^ e).
Proof.
  intros He. rewrite <- (Z2Nat.id e) by lia.
  assert (Hn : Z.to_nat e <= 22) by lia. revert Hn. generalize (Z.to_nat e). intros n Hn.
  do 23 (destruct n as [|n]; [vm_compute; reflexivity |]). lia.
Qed.

(** X10.  An integer with an exponent from 0 to 22 is read as the Floating
    product of the integer and the power of ten, which is a double
    itself, also with the exponent 0. *)
Theorem Load_exponent (z e : Z) :
  in_llong z = true -> (0 <= e <= 22)%Z ->
  Load ("[" ++ (to_string z ++ String "e" (to_string e)) ++ "]")
  = Ret (JArray [JFloating (double_mul (double_of_Z z) (pow10 e))], true)
  /\ is_integer (pow10 e) (10 ^ e).
Proof.
  intros Hz He. split; [| now apply pow10_exact].
  assert (He' : in_llong e = true).
  { unfold in_llong, LLONG_MIN, LLONG_MAX. apply andb_true_intro.
    split; apply Z.leb_le; lia. }
  destruct (to_string_text z) as (Hst & _).
  assert (Hs : exists c s, to_string z ++ String "e" (to_string e) = String c s
                           /\ is_digit c || (c =? "-")%char = true).
  { destruct (to_string z) as [|c s]; [discriminate Hst |]. now exists c, (s ++ String "e" (to_string e)). }
  destruct Hs as (c & s & E & Hc).
  apply Load_single.
  - rewrite E. now destruct (number_start_char c Hc).
  - set (str := "[" ++ (to_string z ++ String "e" (to_string e)) ++ "]").
    assert (H : reads str 1 ((to_string z ++ String "e" (to_string e)) ++ "]"))
      by (exists "["; split; reflexivity).
    assert (H' : reads str 1 (String c (s ++ "]"))) by (rewrite E in H; exact H).
    rewrite (parse_next_at_number _ _ _ _ _ _ H' Hc).
    now rewrite (parse_number_exponent z e _ 1 true "]" "" Hz He' eq_refl H).
Qed.

Lemma Load_exponent_witness :
  Load ("[" ++ (to_string (-15) ++ String "e" (to_string 2)) ++ "]")
  = Ret (JArray [JFloating (double_mul (double_of_Z (-15)) (pow10 2))], true)
  /\ is_integer (pow10 2) (10 ^ 2).
Proof. apply (Load_exponent (-15) 2); [reflexivity | lia]. Defined.

(** ** A missing separator *)
















(** ** The flag never rises *)

Lemma whenever_bind {A B : Type} (P : B -> Prop) (m : outcome A) (k : A -> outcome B) :
  (forall a, whenever P (k a)) -> whenever P (bind m k).
Proof. intros H. destruct m; cbn; auto. Qed.

Lemma whenever_bind_flag {B : Type} (P : B -> Prop) (ok : bool) (m : parsed)
  (k : JSON * nat * bool -> outcome B) :
  whenever (flag_kept ok) m ->
  (forall v o ok', (ok' = true -> ok = true) -> whenever P (k (v, o, ok'))) ->
  whenever P (bind m k).
Proof.
  intros Hm Hk. destruct m as [[[v o] ok']| | |]; cbn; auto.
Qed.

Lemma flag_kept_same (ok : bool) (v : JSON) (o : nat) : flag_kept ok (v, o, ok).
Proof. now intros H. Qed.

Lemma flag_kept_down (ok : bool) (v : JSON) (o : nat) : flag_kept ok (v, o, false).
Proof. intros H. discriminate H. Qed.

Ltac flag_step :=
  repeat first
    [ progress cbn [whenever]
    | apply flag_kept_same
    | apply flag_kept_down
    | apply whenever_bind; intros ?
    | match goal with
      | |- whenever _ (if ?b then _ else _) => destruct b
      | |- whenever _ (match ?x with _ => _ end) => destruct x
      | |- whenever _ (let '(_, _) := ?x in _) => destruct x
      end ].

Lemma keeps_flag_parse_string_loop (n : nat) :
  forall str o val ok, whenever (flag_kept ok) (parse_string_loop n str o val ok).
Proof.
  induction n as [|n IH]; intros str o val ok; [exact I |].
  cbn [parse_string_loop].
  repeat first
    [ apply IH
    | progress cbn [whenever]
    | apply flag_kept_same
    | apply flag_kept_down
    | apply whenever_bind; intros ?
    | match goal with
      | |- whenever _ (if ?b then _ else _) => destruct b
      | |- whenever _ (match ?x with _ => _ end) => destruct x
      end ].
Qed.

Lemma keeps_flag_parse_number : keeps_flag parse_number.
Proof.
  intros str o ok. unfold parse_number.
  apply whenever_bind. intros [[[c o'] val] isD].
  destruct ((c =? "E")%char || (c =? "e")%char).
  - apply whenever_bind. intros c'.
    destruct (if (c' =? "-")%char then (S o', "-")
              else if (c' =? "+")%char then (S o', "") else (o', "")) as [o'' e].
    apply whenever_bind. intros [o3 [e'|]]; [| apply flag_kept_down].
    flag_step.
  - flag_step.
Qed.

Lemma keeps_flag_parse_bool : keeps_flag parse_bool.
Proof. intros str o ok. unfold parse_bool. flag_step. Qed.

Lemma keeps_flag_parse_null : keeps_flag parse_null.
Proof. intros str o ok. unfold parse_null. flag_step. Qed.

Lemma keeps_flag_parse_array_loop (rec : parser) (n : nat) :
  keeps_flag rec ->
  forall str Array index o ok,
    whenever (flag_kept ok) (parse_array_loop rec n str Array index o ok).
Proof.
  intros Hrec. induction n as [|n IH]; intros str Array index o ok; [exact I |].
  cbn [parse_array_loop].
  apply (whenever_bind_flag _ ok); [apply Hrec |]. intros v o' ok' Hok.
  apply whenever_bind. intros Array'.
  apply whenever_bind. intros o''. apply whenever_bind. intros c.
  destruct (c =? ",")%char.
  - specialize (IH str Array' ((index + 1) mod UINT_MOD)%Z (S o'') ok').
    destruct (parse_array_loop rec n str Array' ((index + 1) mod UINT_MOD) (S o'') ok')
      as [[[v1 o1] ok1]| | |]; cbn [whenever] in *; trivial.
    intros H. apply Hok, IH, H.
  - destruct (c =? "]")%char; cbn [whenever]; [| apply flag_kept_down].
    intros H. apply Hok, H.
Qed.

Lemma keeps_flag_parse_object_loop (rec : parser) (n : nat) :
  keeps_flag rec ->
  forall str Object o ok,
    whenever (flag_kept ok) (parse_object_loop rec n str Object o ok).
Proof.
  intros Hrec. induction n as [|n IH]; intros str Object o ok; [exact I |].
  cbn [parse_object_loop].
  apply (whenever_bind_flag _ ok); [apply Hrec |]. intros Key o1 ok1 Hok1.
  apply whenever_bind. intros o2. apply whenever_bind. intros c.
  destruct (negb (c =? ":")%char); [apply flag_kept_down |].
  apply whenever_bind. intros o3.
  apply (whenever_bind_flag _ ok1); [apply Hrec |]. intros Value o4 ok2 Hok2.
  apply whenever_bind. intros o5. apply whenever_bind. intros c'.
  destruct (c' =? ",")%char.
  - match goal with
    | |- whenever _ ?r =>
        pose proof (IH str (assign_key Object (fst (ToString Key)) Value) (S o5) ok2) as H;
        destruct r as [[[v1 o6] ok3]| | |]; cbn [whenever] in *; trivial
    end.
    intros H3. apply Hok1, Hok2, H, H3.
  - destruct (c' =? "}")%char; cbn [whenever]; [| apply flag_kept_down].
    intros H. apply Hok1, Hok2, H.
Qed.

Lemma keeps_flag_parse_next (fuel : nat) : keeps_flag (parse_next fuel).
Proof.
  induction fuel as [|f IH]; intros str o ok; [exact I |].
  cbn [parse_next]. apply whenever_bind. intros o'. apply whenever_bind. intros c.
  destruct (c =? "[")%char.
  { unfold parse_array. apply whenever_bind. intros o1. apply whenever_bind. intros c1.
    destruct (c1 =? "]")%char; [apply flag_kept_same |].
    now apply keeps_flag_parse_array_loop. }
  destruct (c =? "{")%char.
  { unfold parse_object. apply whenever_bind. intros o1. apply whenever_bind. intros c1.
    destruct (c1 =? "}")%char; [apply flag_kept_same |].
    now apply keeps_flag_parse_object_loop. }
  destruct (c =? DQ)%char; [apply keeps_flag_parse_string_loop |].
  destruct ((c =? "t")%char || (c =? "f")%char); [apply keeps_flag_parse_bool |].
  destruct (c =? "n")%char; [apply keeps_flag_parse_null |].
  destruct (is_digit c || (c =? "-")%char); [apply keeps_flag_parse_number |].
  apply flag_kept_down.
Qed.

(** X12.  The productions pass the flag on or lower it, none raises it: a parse
    entered with the flag down returns with the flag down, and a result
    with the flag up was reached with the flag up all the way. *)
Theorem flag_never_rises (fuel : nat) (str : string) (o : nat) :
  whenever (fun r => snd r = false) (parse_next fuel str o false)
  /\ (forall ok v o', parse_next fuel str o ok = Ret (v, o', true) -> ok = true).
Proof.
  split.
  - pose proof (keeps_flag_parse_next fuel str o false) as H.
    destruct (parse_next fuel str o false) as [[[v o'] ok']| | |]; cbn [whenever] in *;
      trivial.
    destruct ok'; [| reflexivity]. discriminate (H eq_refl).
  - intros ok v o' E. pose proof (keeps_flag_parse_next fuel str o ok) as H.
    rewrite E in H. now apply H.
Qed.

(** ** Keys: present, read and assigned *)

Lemma map_find_put_subscript (key k : string) (v : JSON) (m : list (string * JSON)) :
  map_find k (map_put key v (map_subscript m key))
  = if (k =? key)%string then Some v else map_find k m.
Proof.
  destruct (String.eqb_spec k key) as [-> | Hne].
  - apply map_find_put.
  - rewrite map_find_put_other by assumption. rewrite map_find_subscript.
    now replace (k =? key)%string with false by (symmetry; now apply String.eqb_neq).
Qed.

(** X13.  [hasKey] tells whether the const [at] returns; after [this[key]] and
    after [this[key] = v] the key is there, and an assignment reads back
    through the const [at] and leaves the other keys of an Object alone. *)
Theorem hasKey_at (this : JSON) (key : string) :
  (hasKey this key = true <-> exists x, at_key_const this key = Ret x)
  /\ (hasKey this key = true -> subscript_key this key = this)
  /\ hasKey (subscript_key this key) key = true
  /\ (forall v, hasKey (assign_key this key v) key = true
                /\ at_key_const (assign_key this key v) key = Ret v)
  /\ (forall k v, k <> key ->
        hasKey (assign_key this key v) k = hasKey this k).
Proof.
  split; [| split; [| split; [| split]]].
  - destruct this as [|m| | | | |]; cbn [hasKey at_key_const];
      try (split; [discriminate | intros [x Hx]; discriminate Hx]).
    destruct (map_find key m) as [x|]; split; eauto; try discriminate.
    intros [x Hx]. discriminate Hx.
  - destruct this as [|m| | | | |]; cbn [hasKey]; try discriminate.
    unfold subscript_key. change (SetType Class.Object (JObject m)) with (JObject m).
    cbv iota. unfold map_subscript. destruct (map_find key m); [reflexivity | discriminate].
  - unfold subscript_key. destruct (SetType_Object this) as (m & -> & _).
    cbn [hasKey]. rewrite map_find_subscript, String.eqb_refl. reflexivity.
  - intros v. destruct (assign_key_eq this key v) as (m & _ & ->).
    cbn [hasKey at_key_const]. now rewrite map_find_put.
  - intros k v Hne. destruct (assign_key_eq this key v) as (m & E & ->).
    cbn [hasKey]. rewrite map_find_put_subscript.
    replace (k =? key)%string with false by (symmetry; now apply String.eqb_neq).
    destruct (SetType_Object this) as (m' & E' & Hsame & Hfresh).
    assert (m' = m) by congruence. subst m'.
    destruct this as [|m0| | | | |]; try (rewrite Hfresh by discriminate; reflexivity).
    now rewrite (Hsame m0 eq_refl).
Qed.

(** ** The text of a value as a string *)

(** X14.  [ToString] and [ToUnescapedString] always report success: every tag
    has a text, the empty string of the last line is never returned.  The
    two differ on a String only, where the first escapes; everywhere else
    both give the minified dump. *)
Theorem ToString_always_ok (this : JSON) :
  snd (ToString this) = true
  /\ snd (ToUnescapedString this) = true
  /\ (forall s, this = JString s ->
        ToString this = (json_escape s, true)
        /\ ToUnescapedString this = (s, true)
        /\ dumpMinified this = str1 DQ ++ fst (ToString this) ++ str1 DQ)
  /\ (JSONType this <> Class.String ->
        ToString this = (dumpMinified this, true)
        /\ ToUnescapedString this = (dumpMinified this, true)).
Proof.
  split; [| split; [| split]].
  - now destruct this as [| | | | | |[]].
  - now destruct this as [| | | | | |[]].
  - intros s ->. repeat split.
  - intros Ht. destruct this as [| | | | | |[]]; try (split; reflexivity).
    now destruct Ht.
Qed.

(** ** Strings as truth values *)

Lemma prefix_app (pat post : string) : String.prefix pat (pat ++ post) = true.
Proof.
  induction pat as [|c pat IH]; [now destruct post |].
  cbn. destruct (ascii_dec c c); [assumption | congruence].
Qed.

Lemma contains_app (pat pre post : string) : contains pat (pre ++ pat ++ post) = true.
Proof.
  induction pre as [|c pre IH].
  - cbn [String.append]. destruct (pat ++ post) eqn:E.
    + cbn [contains]. rewrite <- E, prefix_app. reflexivity.
    + cbn [contains]. rewrite <- E, prefix_app. reflexivity.
  - cbn [String.append contains]. rewrite IH. apply orb_true_r.
Qed.

(** X15.  [ToBool] of a String searches it: a String with [true] anywhere in it
    is true, also when [false] stands in it as well; one with [false] and
    without [true] is false; only then is the String read as a number,
    which has to fit an [int]. *)
Theorem ToBool_String :
  (forall pre post, ToBool (JString (pre ++ "true" ++ post)) = (true, true))
  /\ (forall pre post,
        contains "true" (pre ++ "false" ++ post) = false ->
        ToBool (JString (pre ++ "false" ++ post)) = (false, true))
  /\ (forall z rest,
        starts_digit rest = false ->
        contains "true" (to_string z ++ rest) = false ->
        contains "false" (to_string z ++ rest) = false ->
        ToBool (JString (to_string z ++ rest))
        = if in_int z then (negb (z =? 0)%Z, true) else (false, false)).
Proof.
  split; [| split].
  - intros pre post. cbn [ToBool]. now rewrite contains_app.
  - intros pre post Hno. cbn [ToBool]. now rewrite Hno, contains_app.
  - intros z rest Hrest Ht Hf. cbn [ToBool]. rewrite Ht, Hf.
    rewrite (from_chars_to_string in_int z rest Hrest). now destruct (in_int z).
Qed.

Lemma ToBool_String_witness :
  ToBool (JString ("un" ++ "true" ++ "")) = (true, true)
  /\ ToBool (JString ("" ++ "false" ++ "hood")) = (false, true)
  /\ ToBool (JString (to_string 2147483648 ++ "")) = (false, false)
  /\ ToBool (JString (to_string 7 ++ " days")) = (true, true).
Proof.
  destruct ToBool_String as (Ht & Hf & Hn).
  split; [apply (Ht "un" "") |]. split; [apply (Hf "" "hood"); reflexivity |].
  split; [apply (Hn 2147483648%Z ""); reflexivity | apply (Hn 7%Z " days"); reflexivity].
Defined.

(** ** Escaping loses nothing *)

(** X16.  [json_escape] is one to one: the parser reads the escaped text of a
    string back as that string, so two strings with the same escaped text
    are the same string, and so are two keys that [parse_object] stores
    under the same text. *)
Theorem json_escape_injective (s1 s2 : string) :
  json_escape s1 = json_escape s2 -> s1 = s2.
Proof.
  intros E.
  pose proof (parse_string_dump s1 (dumpMinified (JString s1)) 0 true "") as H1.
  pose proof (parse_string_dump s2 (dumpMinified (JString s2)) 0 true "") as H2.
  rewrite append_nil_r in H1, H2.
  specialize (H1 (reads_start _)). specialize (H2 (reads_start _)).
  cbn [dumpMinified] in H1, H2. rewrite E in H1. rewrite H1 in H2.
  now injection H2.
Qed.

Lemma json_escape_injective_witness :
  String LF "a" = String LF "a".
Proof.
  apply (json_escape_injective (String LF "a") (String LF "a")). reflexivity.
Defined.

(** ** Values built by the mutators *)

Lemma append_JArray (l : list JSON) (x : JSON) :
  append (JArray l) x = JArray (l ++ [x])%list.
Proof. reflexivity. Qed.

Lemma append_other (this x : JSON) :
  JSONType this <> Class.Array -> append this x = JArray [x].
Proof.
  intros Ht. unfold append. destruct (SetType_Array this) as (l & -> & _ & Hfresh).
  now rewrite (Hfresh Ht).
Qed.

Lemma fold_append (args : list JSON) :
  forall l, fold_left append args (JArray l) = JArray (l ++ args)%list.
Proof.
  induction args as [|x args IH]; intros l; cbn [fold_left].
  - now rewrite app_nil_r.
  - rewrite append_JArray, IH, <- app_assoc. reflexivity.
Qed.

Lemma to_int_small (n : Z) : (0 <= n < 2 ^ 31)%Z -> to_int n = n.
Proof.
  intros Hn. unfold to_int, UINT_MOD.
  change (2 ^ 31)%Z with 2147483648%Z in *. change (2 ^ 32)%Z with 4294967296%Z.
  rewrite Z.mod_small by lia. lia.
Qed.

(** X17.  [Array( args... )] holds the arguments in their order; [append] adds at
    the end of an Array and makes of any other value the Array of the one
    argument; [length] counts the elements and the const [at] reads them,
    throwing behind the last. *)
Theorem Array_holds_args (args : list JSON) :
  Array args = JArray args
  /\ (forall x, append (Array args) x = Array (args ++ [x]))
  /\ (forall this x, JSONType this <> Class.Array -> append this x = Array [x])
  /\ (forall i, at_index_const (Array args) (Z.of_nat i)
                = match nth_error args i with
                  | Some x => Ret x
                  | None => Throw out_of_range
                  end)
  /\ ((Z.of_nat (List.length args) < 2 ^ 31)%Z ->
      length (Array args) = Z.of_nat (List.length args)
      /\ size (Array args) = Z.of_nat (List.length args)).
Proof.
  assert (E : forall a, Array a = JArray a) by (intros a; apply (fold_append a [])).
  split; [apply E |]. split; [| split; [| split]].
  - intros x. now rewrite !E.
  - intros this x Ht. rewrite E. now apply append_other.
  - intros i. rewrite E. cbn [at_index_const]. now rewrite Nat2Z.id.
  - intros Hlen. rewrite E. cbn [length size]. rewrite to_int_small by lia. now split.
Qed.

Lemma Array_holds_args_witness :
  length (Array [JIntegral 1; JNull; JString "x"]) = 3%Z
  /\ size (Array [JIntegral 1; JNull; JString "x"]) = 3%Z.
Proof.
  apply (proj2 (proj2 (proj2 (proj2 (Array_holds_args [JIntegral 1; JNull; JString "x"]))))).
  reflexivity.
Defined.

Lemma sorted_subscript (m : list (string * JSON)) (key : string) :
  sorted_keys m -> sorted_keys (map_subscript m key).
Proof.
  intros H. unfold map_subscript. destruct (map_find key m); [assumption |].
  now apply map_put_sorted.
Qed.

Lemma Forall_subscript (P : string * JSON -> Prop) (m : list (string * JSON))
  (key : string) :
  P (key, JNull) -> Forall P m -> Forall P (map_subscript m key).
Proof.
  intros Hk H. unfold map_subscript. destruct (map_find key m); [assumption |].
  now apply Forall_map_put.
Qed.

Lemma reads_back_assign_key (this : JSON) (s : string) (v : JSON) :
  reads_back this -> reads_back v -> reads_back (assign_key this (json_escape s) v).
Proof.
  intros Hthis Hv.
  destruct (assign_key_eq this (json_escape s) v) as (m & E & ->).
  assert (Hm : sorted_keys m
               /\ Forall (fun kv => escaped_key (fst kv) /\ reads_back (snd kv)) m).
  { destruct (SetType_Object this) as (m' & E' & Hsame & Hfresh).
    assert (m' = m) by congruence. subst m'.
    destruct this as [|m0| | | | |];
      try (rewrite Hfresh by discriminate; split; [exact I | constructor]).
    rewrite (Hsame m0 eq_refl). inversion Hthis; now split. }
  destruct Hm as [Hs Hall]. apply rb_Object.
  - now apply map_put_sorted, sorted_subscript.
  - apply Forall_map_put; [split; [now exists s | assumption] |].
    apply Forall_subscript; [| assumption].
    split; [now exists s | apply rb_Null].
Qed.

Lemma reads_back_append (this v : JSON) :
  reads_back this -> reads_back v ->
  (forall l, this = JArray l -> (Z.of_nat (List.length l) + 1 < UINT_MOD)%Z) ->
  reads_back (append this v).
Proof.
  intros Hthis Hv Hlen. destruct this as [| |l| | | |];
    try (rewrite append_other by discriminate; apply rb_Array;
         [reflexivity | now repeat constructor]).
  rewrite append_JArray. inversion Hthis as [| | | | |l' Hl Hall|]; subst.
  apply rb_Array.
  - rewrite length_app. cbn [List.length]. specialize (Hlen l eq_refl). lia.
  - apply Forall_app. split; [assumption | now repeat constructor].
Qed.

Lemma short_texts_leaf (v : JSON) : texts v = [] -> short_texts v.
Proof. unfold short_texts. intros ->. constructor. Qed.

Lemma short_texts_assign_key (this : JSON) (k : string) (v : JSON) :
  short_texts this -> short k -> short_texts v -> short_texts (assign_key this k v).
Proof.
  intros Hthis Hk Hv.
  destruct (assign_key_eq this k v) as (m & E & ->).
  assert (Hm : Forall (fun kv => short (fst kv) /\ short_texts (snd kv)) m).
  { destruct (SetType_Object this) as (m' & E' & Hsame & Hfresh).
    assert (m' = m) by congruence. subst m'.
    destruct this as [|m0| | | | |];
      try (rewrite Hfresh by discriminate; constructor).
    rewrite (Hsame m0 eq_refl). now apply short_texts_Object. }
  apply short_texts_Object. apply Forall_map_put; [now split |].
  apply Forall_subscript; [| assumption].
  split; [assumption | now apply short_texts_leaf].
Qed.

Lemma short_texts_append (this v : JSON) :
  short_texts this -> short_texts v -> short_texts (append this v).
Proof.
  intros Hthis Hv. destruct this as [| |l| | | |];
    try (rewrite append_other by discriminate; apply short_texts_Array;
         now repeat constructor).
  rewrite append_JArray. apply short_texts_Array. apply short_texts_Array in Hthis.
  apply Forall_app. split; [assumption | now repeat constructor].
Qed.

(** X18.  A value built by [this[key] = v] and by [append] from values that
    read back and whose Strings and keys are shorter than 2^32 bytes is
    such a value again, the key being in escaped form and shorter than
    2^32 bytes, the array staying below 2^32 elements: it is loaded from
    its dump as it is. *)
Theorem built_values_read_back (this v : JSON) :
  reads_back this -> reads_back v -> short_texts this -> short_texts v ->
  (forall s, short (json_escape s) ->
             reads_back (assign_key this (json_escape s) v)
             /\ short_texts (assign_key this (json_escape s) v)
             /\ Load (dumpMinified (assign_key this (json_escape s) v))
                = Ret (assign_key this (json_escape s) v, true))
  /\ ((forall l, this = JArray l -> (Z.of_nat (List.length l) + 1 < UINT_MOD)%Z) ->
      reads_back (append this v)
      /\ short_texts (append this v)
      /\ Load (dumpMinified (append this v)) = Ret (append this v, true)).
Proof.
  intros Hthis Hv Sthis Sv. split.
  - intros s Hs. pose proof (reads_back_assign_key this s v Hthis Hv) as H.
    split; [exact H |]. split; [now apply short_texts_assign_key |].
    apply Load_dumpMinified; [exact H |].
    now destruct (assign_key_eq this (json_escape s) v) as (m & _ & ->).
  - intros Hlen. pose proof (reads_back_append this v Hthis Hv Hlen) as H.
    split; [exact H |]. split; [now apply short_texts_append |].
    apply Load_dumpMinified; [exact H |].
    unfold append. now destruct (SetType_Array this) as (l & -> & _).
Qed.

Lemma built_values_read_back_witness :
  short_texts (assign_key sample (json_escape (String LF "k")) (JArray [JString "x"]))
  /\ Load (dumpMinified (assign_key sample (json_escape (String LF "k")) (JArray [JString "x"])))
     = Ret (assign_key sample (json_escape (String LF "k")) (JArray [JString "x"]), true).
Proof.
  apply (proj1 (built_values_read_back sample (JArray [JString "x"]) sample_reads_back
                  (rb_Array [JString "x"] eq_refl
                     (Forall_cons _ (rb_String "x") (Forall_nil _)))
                  sample_short_texts
                  ltac:(unfold short_texts; cbn; repeat constructor))
           (String LF "k")).
  reflexivity.
Defined.

(** ** The constructor from an initializer list *)







(** ** Elements: assigned and read *)

Lemma nth_error_list_set (l : list JSON) (v : JSON) :
  forall i j,
    nth_error (list_set l i v) j
    = if (j =? i)%nat then (if (i <? List.length l)%nat then Some v else None)
      else nth_error l j.
Proof.
  induction l as [|x l IH]; intros i j.
  - cbn [list_set List.length]. destruct (j =? i)%nat; [| reflexivity].
    destruct j; reflexivity.
  - destruct i as [|i]; destruct j as [|j]; cbn [list_set nth_error]; try reflexivity.
    rewrite IH. cbn [List.length].
    change (S j =? S i)%nat with (j =? i)%nat.
    now change (S i <? S (List.length l))%nat with (i <? List.length l)%nat.
Qed.

Lemma list_set_length (l : list JSON) (v : JSON) :
  forall i, List.length (list_set l i v) = List.length l.
Proof. induction l as [|x l IH]; intros [|i]; cbn; auto. Qed.

Lemma nth_error_fill (l : list JSON) (k j : nat) :
  nth_error (l ++ repeat JNull k) j
  = match nth_error l j with
    | Some x => Some x
    | None => if (j <? List.length l + k)%nat then Some JNull else None
    end.
Proof.
  destruct (nth_error l j) as [x|] eqn:E.
  - rewrite nth_error_app1 by (apply nth_error_Some; congruence). exact E.
  - apply nth_error_None in E. rewrite nth_error_app2 by assumption.
    destruct (Nat.ltb_spec j (List.length l + k)) as [Hlt | Hge].
    + apply nth_error_repeat. lia.
    + apply nth_error_None. rewrite repeat_length. lia.
Qed.

(** X20.  [this[index] = v] for an index below [2^32 - 1]: the element reads
    back, the elements the array had are as they were, those between
    are Null, and [length] is the larger of the length before and
    [index + 1]. *)
Theorem assign_index_reads (this : JSON) (index : Z) (v : JSON) :
  (0 <= index)%Z -> (index + 1 < UINT_MOD)%Z ->
  exists this',
    assign_index this index v = Ret this'
    /\ index_slot this' index = Some v
    /\ at_index_const this' index = Ret v
    /\ (forall j, (0 <= j)%Z -> j <> index ->
          index_slot this' j
          = match index_slot this j with
            | Some x => Some x
            | None => if (j <? index)%Z then Some JNull else None
            end)
    /\ ((index + 1 < 2 ^ 31)%Z -> (length this < 2 ^ 31)%Z ->
        (forall l, this = JArray l -> (Z.of_nat (List.length l) < 2 ^ 31)%Z) ->
        length this' = Z.max (length this) (index + 1)).
Proof.
  intros H0 Hi. unfold assign_index.
  destruct (subscript_index_grows this index H0 Hi) as (l & E & ->). cbn [bind store_index].
  set (k := (Z.to_nat (index + 1) - List.length l)%nat).
  assert (Hslot : forall j, index_slot this j = nth_error l (Z.to_nat j)).
  { intros j. destruct (SetType_Array this) as (l' & E' & Hsame & Hfresh).
    assert (l' = l) by congruence. subst l'.
    destruct this as [| |l0| | | |];
      try (rewrite Hfresh by discriminate; cbn [index_slot]; now destruct (Z.to_nat j)).
    now rewrite (Hsame l0 eq_refl). }
  assert (Hlen : (Z.to_nat index < List.length (l ++ repeat JNull k))%nat).
  { rewrite length_app, repeat_length. unfold k. lia. }
  eexists. split; [reflexivity |]. split; [| split; [| split]].
  - cbn [index_slot]. rewrite nth_error_list_set, Nat.eqb_refl.
    now replace (Z.to_nat index <? List.length (l ++ repeat JNull k))%nat with true
      by (symmetry; now apply Nat.ltb_lt).
  - cbn [at_index_const]. rewrite nth_error_list_set, Nat.eqb_refl.
    now replace (Z.to_nat index <? List.length (l ++ repeat JNull k))%nat with true
      by (symmetry; now apply Nat.ltb_lt).
  - intros j Hj Hne. cbn [index_slot]. rewrite nth_error_list_set.
    replace (Z.to_nat j =? Z.to_nat index)%nat with false
      by (symmetry; apply Nat.eqb_neq; lia).
    rewrite nth_error_fill, Hslot.
    destruct (nth_error l (Z.to_nat j)) as [x|] eqn:Ej; [reflexivity |].
    apply nth_error_None in Ej.
    destruct (Z.ltb_spec j index) as [Hlt | Hge].
    + replace (Z.to_nat j <? List.length l + k)%nat with true; [reflexivity |].
      symmetry. apply Nat.ltb_lt. unfold k. lia.
    + replace (Z.to_nat j <? List.length l + k)%nat with false; [reflexivity |].
      symmetry. apply Nat.ltb_ge. unfold k. lia.
  - intros Hi31 Hl31 Harr. cbn [length]. rewrite list_set_length, length_app, repeat_length.
    destruct (SetType_Array this) as (l' & E' & Hsame & Hfresh).
    assert (l' = l) by congruence. subst l'. subst k. clear Hslot Hlen.
    destruct this as [| |l0| | | |];
      try (rewrite Hfresh by discriminate; cbn [length List.length];
           rewrite to_int_small by lia; lia).
    pose proof (Hsame l0 eq_refl) as Hl. subst l0.
    specialize (Harr l eq_refl). cbn [length].
    rewrite (to_int_small (Z.of_nat (List.length l))) by lia.
    rewrite to_int_small by lia. lia.
Qed.

Lemma assign_index_reads_witness :
  exists this',
    assign_index (JArray [JBoolean true]) 3 (JIntegral 7) = Ret this'
    /\ index_slot this' 3 = Some (JIntegral 7)
    /\ index_slot this' 0 = Some (JBoolean true)
    /\ index_slot this' 2 = Some JNull
    /\ length this' = 4%Z.
Proof.
  destruct (assign_index_reads (JArray [JBoolean true]) 3 (JIntegral 7))
    as (this' & E & Hr & _ & Hothers & Hlen); [lia | reflexivity |].
  exists this'. split; [exact E |]. split; [exact Hr |].
  split; [apply (Hothers 0%Z); lia |]. split; [apply (Hothers 2%Z); lia |].
  apply Hlen; [reflexivity | reflexivity |].
  intros l El. injection El as <-. reflexivity.
Defined.

(** ** Copies in memory *)

(** X21.  A copy construction into new storage, and a copy assignment to
    an object whose value is whole and shares no object and no container
    with the source, give the target the value of the source, made of
    storage of its own: both then have that value, and each keeps it when
    the other is destroyed.  A copy assignment of an object to itself
    changes nothing.  A copy assignment from an object within what the
    target owns, as in [json = json["data"]], reads the source after it
    has been destroyed. *)
Theorem copy_is_independent (fuel : nat) (m : memory) (other : var) (v : JSON)
  (ys : list var) (qs : list loc) (brk : nat) :
  extent fuel m other = Some (ys, qs) -> NoDup ys -> NoDup qs ->
  value_of fuel m other = Some v -> unused brk m ->
  (forall this,
      this < brk -> objects m this = None ->
      exists brk' m',
        copy_construct fuel this other brk m = Ret (brk', m')
        /\ independent fuel m' this other v)
  /\ (forall this xs ps,
        extent fuel m this = Some (xs, ps) -> NoDup xs -> NoDup ps ->
        (forall y, In y xs -> ~ In y ys) -> (forall q, In q ps -> ~ In q qs) ->
        exists brk' m',
          copy_assign fuel this other brk m = Ret (brk', m')
          /\ independent fuel m' this other v)
  /\ copy_assign fuel other other brk m = Ret (brk, m)
  /\ (forall this xs ps,
        extent fuel m this = Some (this :: xs, ps) -> NoDup (this :: xs) -> NoDup ps ->
        In other xs ->
        copy_assign fuel this other brk m = Undefined (Destroyed other)).
Proof.
  intros He Hys Hqs Hv Hu. split; [| split; [| split]].
  - intros this. now apply (copy_construct_independent fuel m this other v ys qs brk).
  - intros this xs ps. now apply copy_assign_independent.
  - unfold copy_assign. now rewrite Nat.eqb_refl.
  - intros this xs ps. now apply copy_assign_element.
Qed.

Lemma sample_memory_unused : unused 20 sample_memory.
Proof.
  split; intros y Hy;
    do 20 (destruct y as [|y]; [exfalso; lia |]); reflexivity.
Qed.

Lemma copy_is_independent_witness :
  (exists brk' m',
     copy_construct 3 2 4 20 sample_memory = Ret (brk', m')
     /\ independent 3 m' 2 4 (JArray [JBoolean true]))
  /\ (exists brk' m',
        copy_assign 3 1 4 20 sample_memory = Ret (brk', m')
        /\ independent 3 m' 1 4 (JArray [JBoolean true]))
  /\ copy_assign 3 4 4 20 sample_memory = Ret (20, sample_memory)
  /\ copy_assign 3 3 4 20 sample_memory = Undefined (Destroyed 4).
Proof.
  destruct (copy_is_independent 3 sample_memory 4 (JArray [JBoolean true])
              [4; 12] [3] 20 eq_refl) as (Hc & Ha & Hs & He);
    [no_dup | no_dup | reflexivity | exact sample_memory_unused |].
  split; [| split; [| split]].
  - apply (Hc 2); [lia | reflexivity].
  - apply (Ha 1 [1] [1]); clear Hc Ha Hs He;
      [reflexivity | no_dup | no_dup
       | cbn; intuition congruence | cbn; intuition congruence].
  - exact Hs.
  - apply (He 3 [4; 12] [2; 3]); clear Hc Ha Hs He;
      [reflexivity | no_dup | no_dup | cbn; tauto].
Defined.

(** ** The order of assignments and of members *)

Lemma key_lt_neq' (a b : string) : key_lt a b -> (a =? b)%string = false.
Proof. intros H. rewrite String.eqb_sym. now apply key_lt_neq. Qed.

Lemma map_find_below (key : string) (m : list (string * JSON)) :
  Forall (fun kv => key_lt key (fst kv)) m -> map_find key m = None.
Proof.
  induction 1 as [|[k x] m Hk _ IH]; cbn [map_find]; [reflexivity |].
  cbn [fst] in Hk. now rewrite (key_lt_neq' _ _ Hk).
Qed.

Lemma Forall_key_lt_trans (a b : string) (m : list (string * JSON)) :
  key_lt a b -> Forall (fun kv => key_lt b (fst kv)) m ->
  Forall (fun kv => key_lt a (fst kv)) m.
Proof.
  intros Hab H. eapply Forall_impl; [| exact H].
  intros kv Hkv. exact (key_lt_trans _ _ _ Hab Hkv).
Qed.

(** A [std::map] is what it holds: two sorted lists of entries with the
    same value under every key are the same list. *)
Lemma sorted_ext (m1 : list (string * JSON)) :
  forall m2,
    sorted_keys m1 -> sorted_keys m2 ->
    (forall k, map_find k m1 = map_find k m2) -> m1 = m2.
Proof.
  induction m1 as [|[k1 x1] m1 IH]; intros [|[k2 x2] m2] H1 H2 Hf.
  - reflexivity.
  - specialize (Hf k2). cbn [map_find] in Hf. rewrite String.eqb_refl in Hf. discriminate.
  - specialize (Hf k1). cbn [map_find] in Hf. rewrite String.eqb_refl in Hf. discriminate.
  - cbn [sorted_keys] in H1, H2. destruct H1 as [Hb1 Hs1], H2 as [Hb2 Hs2].
    destruct (String.compare k1 k2) eqn:Ec.
    + apply String.compare_eq_iff in Ec. subst k2.
      pose proof (Hf k1) as Hx. cbn [map_find] in Hx. rewrite String.eqb_refl in Hx.
      injection Hx as <-. f_equal. apply IH; trivial.
      intros k. specialize (Hf k). cbn [map_find] in Hf.
      destruct (String.eqb_spec k k1) as [Ek | Hne]; [| exact Hf].
      rewrite Ek. now rewrite !map_find_below.
    + exfalso. specialize (Hf k1). cbn [map_find] in Hf.
      rewrite String.eqb_refl, (key_lt_neq' k1 k2 Ec) in Hf.
      rewrite map_find_below in Hf; [discriminate |].
      exact (Forall_key_lt_trans _ _ _ Ec Hb2).
    + assert (Hlt : key_lt k2 k1).
      { unfold key_lt. rewrite String.compare_antisym, Ec. reflexivity. }
      exfalso. specialize (Hf k2). cbn [map_find] in Hf.
      rewrite String.eqb_refl, (key_lt_neq' k2 k1 Hlt) in Hf.
      rewrite map_find_below in Hf; [discriminate |].
      exact (Forall_key_lt_trans _ _ _ Hlt Hb1).
Qed.

Lemma key_slot_assign (this : JSON) (key k : string) (v : JSON) :
  key_slot (assign_key this key v) k
  = if (k =? key)%string then Some v else key_slot this k.
Proof.
  destruct (assign_key_eq this key v) as (m & E & ->).
  cbn [key_slot]. rewrite map_find_put_subscript.
  destruct (k =? key)%string; [reflexivity |].
  destruct (SetType_Object this) as (m' & E' & Hsame & Hfresh).
  assert (m' = m) by congruence. subst m'.
  destruct this as [|m0| | | | |]; try (rewrite Hfresh by discriminate; reflexivity).
  now rewrite (Hsame m0 eq_refl).
Qed.

Lemma JObject_ext (a b : JSON) :
  (exists m, a = JObject m /\ sorted_keys m) ->
  (exists m, b = JObject m /\ sorted_keys m) ->
  (forall k, key_slot a k = key_slot b k) -> a = b.
Proof.
  intros (ma & -> & Ha) (mb & -> & Hb) Hk. f_equal. now apply sorted_ext.
Qed.

Lemma assign_key_sorted_Object (this : JSON) (key : string) (v : JSON) :
  (forall m, this = JObject m -> sorted_keys m) ->
  exists m, assign_key this key v = JObject m /\ sorted_keys m.
Proof.
  intros Hs. destruct (assign_key_sorted this key v Hs) as (m & E & Hm & _). eauto.
Qed.


(** X27.  Assignments under different keys commute: an Object is the same,
    and is dumped as the same text, whatever the order in which its keys
    were assigned. *)
Theorem assign_key_commutes (this : JSON) (k1 k2 : string) (v1 v2 : JSON) :
  (forall m, this = JObject m -> sorted_keys m) -> k1 <> k2 ->
  assign_key (assign_key this k1 v1) k2 v2 = assign_key (assign_key this k2 v2) k1 v1
  /\ dumpMinified (assign_key (assign_key this k1 v1) k2 v2)
     = dumpMinified (assign_key (assign_key this k2 v2) k1 v1).
Proof.
  intros Hs Hne.
  assert (E : assign_key (assign_key this k1 v1) k2 v2
              = assign_key (assign_key this k2 v2) k1 v1).
  { apply JObject_ext.
    - apply assign_key_sorted_Object. intros m Em.
      destruct (assign_key_sorted_Object this k1 v1 Hs) as (m' & E' & Hm'). congruence.
    - apply assign_key_sorted_Object. intros m Em.
      destruct (assign_key_sorted_Object this k2 v2 Hs) as (m' & E' & Hm'). congruence.
    - intros k. rewrite !key_slot_assign.
      destruct (String.eqb_spec k k2) as [E2 | N2];
        destruct (String.eqb_spec k k1) as [E1 | N1]; congruence. }
  split; [exact E | now rewrite E].
Qed.

Lemma assign_key_commutes_witness :
  assign_key (assign_key JNull "b" JNull) "a" (JBoolean true)
  = assign_key (assign_key JNull "a" (JBoolean true)) "b" JNull.
Proof.
  apply (proj1 (assign_key_commutes JNull "b" "a" JNull (JBoolean true)
                  ltac:(discriminate) ltac:(discriminate))).
Defined.



(** ** The parser comes to an end *)



Import Base64.

(** ** Base64: bytes, indices and letters *)

Lemma forall_ascii (f : ascii -> bool) :
  forallb f (List.map ascii_of_nat (seq 0 256)) = true -> forall c, f c = true.
Proof.
  intros H c. rewrite forallb_forall in H. apply H.
  rewrite <- (ascii_nat_embedding c). apply in_map. apply in_seq.
  pose proof (nat_ascii_bounded c). lia.
Qed.

Lemma byte_val_range (c : ascii) : (0 <= byte_val c < 256)%Z.
Proof.
  unfold byte_val. pose proof (N_ascii_bounded c). lia.
Qed.

Lemma int_to_char_byte_val (c : ascii) : int_to_char (byte_val c) = c.
Proof.
  unfold int_to_char. rewrite Z.mod_small by apply byte_val_range.
  unfold byte_val. rewrite N2Z.id. apply ascii_N_embedding.
Qed.

Lemma index1_val (x : ascii) : index1 (char_to_int x) = (byte_val x / 4)%Z.
Proof.
  apply Z.eqb_eq. revert x. apply forall_ascii. vm_compute. reflexivity.
Qed.

Lemma index4_val (z : ascii) : index4 (char_to_int z) = (byte_val z mod 64)%Z.
Proof.
  apply Z.eqb_eq. revert z. apply forall_ascii. vm_compute. reflexivity.
Qed.

Lemma index2_val (x y : ascii) :
  index2 (char_to_int x) (char_to_int y)
  = ((byte_val x mod 4) * 16 + byte_val y / 16)%Z.
Proof.
  apply Z.eqb_eq. revert y.
  apply (forall_ascii (fun y => (index2 (char_to_int x) (char_to_int y)
            =? (byte_val x mod 4) * 16 + byte_val y / 16)%Z)).
  revert x.
  apply (forall_ascii (fun x => forallb (fun y => (index2 (char_to_int x) (char_to_int y)
            =? (byte_val x mod 4) * 16 + byte_val y / 16)%Z) (List.map ascii_of_nat (seq 0 256)))).
  vm_compute. reflexivity.
Qed.

Lemma index3_val (y z : ascii) :
  index3 (char_to_int y) (char_to_int z)
  = ((byte_val y mod 16) * 4 + byte_val z / 64)%Z.
Proof.
  apply Z.eqb_eq. revert z.
  apply (forall_ascii (fun z => (index3 (char_to_int y) (char_to_int z)
            =? (byte_val y mod 16) * 4 + byte_val z / 64)%Z)).
  revert y.
  apply (forall_ascii (fun y => forallb (fun z => (index3 (char_to_int y) (char_to_int z)
            =? (byte_val y mod 16) * 4 + byte_val z / 64)%Z) (List.map ascii_of_nat (seq 0 256)))).
  vm_compute. reflexivity.
Qed.

Lemma tail2_val (x : ascii) :
  Z.shiftl (Z.land (char_to_int x) 3) 4 = ((byte_val x mod 4) * 16)%Z.
Proof.
  apply Z.eqb_eq. revert x. apply forall_ascii. vm_compute. reflexivity.
Qed.

Lemma tail3_val (y : ascii) :
  Z.shiftl (Z.land (char_to_int y) 15) 2 = ((byte_val y mod 16) * 4)%Z.
Proof.
  apply Z.eqb_eq. revert y. apply forall_ascii. vm_compute. reflexivity.
Qed.

Lemma letter_spec (s : Z) :
  (0 <= s < 64)%Z ->
  element sEncodingTable s = Ret (letter s)
  /\ (letter s =? "=")%char = false
  /\ element kDecodingTable (char_to_int (letter s)) = Ret s.
Proof.
  intros Hs.
  assert (H : forallb letter_ok (seq 0 64) = true) by (vm_compute; reflexivity).
  rewrite forallb_forall in H.
  specialize (H (Z.to_nat s)). unfold letter_ok in H.
  rewrite Z2Nat.id in H by lia.
  destruct (element sEncodingTable s) as [c| | |]; try (now (discriminate H + (exfalso; apply Bool.diff_false_true, H, in_seq; lia))).
  all: destruct (element kDecodingTable (char_to_int (letter s))) as [v| | |];
    try (exfalso; apply Bool.diff_false_true, H, in_seq; lia).
  assert (Hin : In (Z.to_nat s) (seq 0 64)) by (apply in_seq; lia).
  apply H in Hin. apply andb_prop in Hin as [Hin _].
  apply andb_prop in Hin as [Hin Hv]. apply andb_prop in Hin as [Hc He].
  apply Ascii.eqb_eq in Hc. apply Z.eqb_eq in Hv. apply negb_true_iff in He.
  subst. auto.
Qed.

Lemma index_ranges (x y z : ascii) :
  (0 <= index1 (char_to_int x) < 64)%Z
  /\ (0 <= index2 (char_to_int x) (char_to_int y) < 64)%Z
  /\ (0 <= index3 (char_to_int y) (char_to_int z) < 64)%Z
  /\ (0 <= index4 (char_to_int z) < 64)%Z
  /\ (0 <= Z.shiftl (Z.land (char_to_int x) 3) 4 < 64)%Z
  /\ (0 <= Z.shiftl (Z.land (char_to_int y) 15) 2 < 64)%Z.
Proof.
  rewrite index1_val, index2_val, index3_val, index4_val, tail2_val, tail3_val.
  pose proof (byte_val_range x). pose proof (byte_val_range y).
  pose proof (byte_val_range z).
  repeat split; Z.div_mod_to_equations; lia.
Qed.

Lemma triple_bytes (u v w : Z) :
  (0 <= u < 256)%Z -> (0 <= v < 256)%Z -> (0 <= w < 256)%Z ->
  let triple := triple_of (u / 4) ((u mod 4) * 16 + v / 16)
                  ((v mod 16) * 4 + w / 64) (w mod 64) in
  Z.land (Z.shiftr triple 16) 255 = u
  /\ Z.land (Z.shiftr triple 8) 255 = v
  /\ Z.land (Z.shiftr triple 0) 255 = w.
Proof.
  intros Hu Hv Hw triple.
  assert (E : triple = (u * 65536 + v * 256 + w)%Z).
  { unfold triple, triple_of, uint32_t. rewrite !Z.shiftl_mul_pow2 by lia.
    change (2 ^ 18)%Z with 262144%Z. change (2 ^ 12)%Z with 4096%Z.
    change (2 ^ 6)%Z with 64%Z. change (2 ^ 0)%Z with 1%Z.
    change (2 ^ 32)%Z with 4294967296%Z.
    Z.div_mod_to_equations. lia. }
  rewrite E. change 255%Z with (Z.ones 8). rewrite !Z.land_ones by lia.
  rewrite !Z.shiftr_div_pow2 by lia.
  change (2 ^ 16)%Z with 65536%Z. change (2 ^ 8)%Z with 256%Z.
  change (2 ^ 0)%Z with 1%Z.
  repeat split; Z.div_mod_to_equations; lia.
Qed.

(** ** Base64: reads and writes *)

Lemma element_app {A : Type} (pre rest : list A) (k : nat) (x : A) (i : Z) :
  nth_error rest k = Some x -> i = (Z.of_nat (List.length pre) + Z.of_nat k)%Z ->
  element (pre ++ rest)%list i = Ret x.
Proof.
  intros Hk ->. unfold element.
  assert (Hlt : (k < List.length rest)%nat) by (apply nth_error_Some; congruence).
  rewrite List.length_app.
  replace (0 <=? Z.of_nat (List.length pre) + Z.of_nat k)%Z with true
    by (symmetry; apply Z.leb_le; lia).
  replace (Z.of_nat (List.length pre) + Z.of_nat k
           <? Z.of_nat (List.length pre + List.length rest))%Z with true
    by (symmetry; apply Z.ltb_lt; lia).
  cbn [andb]. rewrite <- Nat2Z.inj_add, Nat2Z.id.
  rewrite nth_error_app2 by lia.
  replace (List.length pre + k - List.length pre)%nat with k by lia.
  now rewrite Hk.
Qed.

Lemma byte_app (pre rest : list ascii) (k : nat) (x : ascii) (i : Z) :
  nth_error rest k = Some x -> i = (Z.of_nat (List.length pre) + Z.of_nat k)%Z ->
  byte (pre ++ rest)%list i = Ret (char_to_int x).
Proof.
  intros Hk Hi. unfold byte. now rewrite (element_app pre rest k x i Hk Hi).
Qed.

Lemma poke_app {A : Type} (W : list A) (c0 c : A) (T : list A) :
  poke (W ++ c0 :: T)%list (List.length W) c = ((W ++ [c]) ++ T)%list.
Proof.
  induction W as [|a W IH]; cbn; [reflexivity | now rewrite IH].
Qed.

Lemma store_app {A : Type} (W : list A) (c0 c : A) (T : list A) (p : Z) :
  p = Z.of_nat (List.length W) ->
  store (W ++ c0 :: T)%list p c = Ret ((W ++ [c]) ++ T)%list.
Proof.
  intros ->. unfold store. rewrite List.length_app. cbn [List.length].
  replace (0 <=? Z.of_nat (List.length W))%Z with true by (symmetry; apply Z.leb_le; lia).
  replace (Z.of_nat (List.length W) <? Z.of_nat (List.length W + S (List.length T)))%Z
    with true by (symmetry; apply Z.ltb_lt; lia).
  cbn [andb]. now rewrite Nat2Z.id, poke_app.
Qed.

Lemma write_app (W : list ascii) (c0 c : ascii) (T : list ascii) (p : Z) :
  p = Z.of_nat (List.length W) ->
  write c ((W ++ c0 :: T)%list, p) = Ret (((W ++ [c]) ++ T)%list, (p + 1)%Z).
Proof.
  intros Hp. unfold write. now rewrite (store_app W c0 c T p Hp).
Qed.

Lemma emit_app (W : list ascii) (c0 : ascii) (T : list ascii) (p s : Z) :
  (0 <= s < 64)%Z -> p = Z.of_nat (List.length W) ->
  emit s ((W ++ c0 :: T)%list, p) = Ret (((W ++ [letter s]) ++ T)%list, (p + 1)%Z).
Proof.
  intros Hs Hp. unfold emit. destruct (letter_spec s Hs) as (-> & _).
  cbn [bind]. now apply write_app.
Qed.

Lemma size_t_small (z : Z) : (0 <= z < SIZE_MOD)%Z -> size_t z = z.
Proof. intros H. unfold size_t. now apply Z.mod_small. Qed.

(** ** Base64: the text Encode writes *)

Ltac next_pos := rewrite ?List.length_app; cbn [List.length]; lia.

Lemma encode_loop_encoded (n : nat) :
  forall pre rest W p in_len,
    in_len = Z.of_nat (List.length (pre ++ rest)) ->
    (2 <= in_len < SIZE_MOD)%Z ->
    p = Z.of_nat (List.length W) ->
    (List.length rest < n)%nat ->
    (r <- encode_loop n (pre ++ rest) in_len (Z.of_nat (List.length pre))
            ((W ++ repeat NUL (List.length (encoded rest)))%list, p) ;;
     encode_rest (pre ++ rest) in_len r)
    = Ret (string_of_list_ascii (W ++ encoded rest)).
Proof.
  induction n as [|n IH]; intros pre rest W p in_len Hin Hlen Hp Hn; [lia |].
  rewrite List.length_app in Hin.
  cbn [encode_loop]. rewrite size_t_small by lia.
  destruct rest as [|x [|y [|z rest]]]; cbn [List.length] in Hin, Hn.
  - (* nothing left *)
    replace (Z.of_nat (List.length pre) <? in_len - 2)%Z
      with false by (symmetry; apply Z.ltb_ge; lia).
    cbn [bind encode_rest].
    replace (Z.of_nat (List.length pre) <? in_len)%Z
      with false by (symmetry; apply Z.ltb_ge; lia).
    reflexivity.
  - (* one byte *)
    replace (Z.of_nat (List.length pre) <? in_len - 2)%Z
      with false by (symmetry; apply Z.ltb_ge; lia).
    cbn [bind encode_rest].
    replace (Z.of_nat (List.length pre) <? in_len)%Z
      with true by (symmetry; apply Z.ltb_lt; lia).
    rewrite size_t_small by lia.
    replace (Z.of_nat (List.length pre) =? in_len - 1)%Z
      with true by (symmetry; apply Z.eqb_eq; lia).
    destruct (index_ranges x x x) as (H1 & _ & _ & _ & H2 & _).
    rewrite !(byte_app pre [x] 0 x) by (reflexivity || lia).
    cbn [bind encoded List.length repeat].
    rewrite (emit_app W) by (assumption || next_pos). cbn [bind].
    rewrite (emit_app (W ++ [_])) by (assumption || next_pos). cbn [bind].
    rewrite (write_app ((W ++ [_]) ++ [_])) by next_pos. cbn [bind].
    rewrite (write_app (((W ++ [_]) ++ [_]) ++ [_])) by next_pos. cbn [bind fst].
    now rewrite <- !List.app_assoc.
  - (* two bytes *)
    replace (Z.of_nat (List.length pre) <? in_len - 2)%Z
      with false by (symmetry; apply Z.ltb_ge; lia).
    cbn [bind encode_rest].
    replace (Z.of_nat (List.length pre) <? in_len)%Z
      with true by (symmetry; apply Z.ltb_lt; lia).
    rewrite size_t_small by lia.
    replace (Z.of_nat (List.length pre) =? in_len - 1)%Z
      with false by (symmetry; apply Z.eqb_neq; lia).
    destruct (index_ranges x y y) as (H1 & H2 & _ & _ & _ & H3).
    rewrite !(byte_app pre [x; y] 0 x) by (reflexivity || lia).
    rewrite !(byte_app pre [x; y] 1 y) by (reflexivity || lia).
    cbn [bind encoded List.length repeat].
    rewrite (emit_app W) by (assumption || next_pos). cbn [bind].
    rewrite (emit_app (W ++ [_])) by (assumption || next_pos). cbn [bind].
    rewrite (emit_app ((W ++ [_]) ++ [_])) by (assumption || next_pos). cbn [bind].
    rewrite (write_app (((W ++ [_]) ++ [_]) ++ [_])) by next_pos. cbn [bind fst].
    now rewrite <- !List.app_assoc.
  - (* a group of three *)
    replace (Z.of_nat (List.length pre) <? in_len - 2)%Z
      with true by (symmetry; apply Z.ltb_lt; lia).
    destruct (index_ranges x y z) as (H1 & H2 & H3 & H4 & _).
    rewrite !(byte_app pre (x :: y :: z :: rest) 0 x) by (reflexivity || lia).
    rewrite !(byte_app pre (x :: y :: z :: rest) 1 y) by (reflexivity || lia).
    rewrite !(byte_app pre (x :: y :: z :: rest) 2 z) by (reflexivity || lia).
    cbn [bind encoded List.length repeat].
    rewrite (emit_app W) by (assumption || next_pos). cbn [bind].
    rewrite (emit_app (W ++ [_])) by (assumption || next_pos). cbn [bind].
    rewrite (emit_app ((W ++ [_]) ++ [_])) by (assumption || next_pos). cbn [bind].
    rewrite (emit_app (((W ++ [_]) ++ [_]) ++ [_])) by (assumption || next_pos).
    cbn [bind]. rewrite size_t_small by lia.
    replace (Z.of_nat (List.length pre) + 3)%Z
      with (Z.of_nat (List.length (pre ++ [x; y; z]))) by next_pos.
    replace (pre ++ x :: y :: z :: rest)%list with ((pre ++ [x; y; z]) ++ rest)%list
      by now rewrite <- List.app_assoc.
    rewrite (IH (pre ++ [x; y; z])%list rest).
    + now rewrite <- !List.app_assoc.
    + rewrite !List.length_app. cbn [List.length]. lia.
    + assumption.
    + next_pos.
    + lia.
Qed.

Lemma encoded_length (data : list ascii) :
  Z.of_nat (List.length (encoded data)) = (4 * ((Z.of_nat (List.length data) + 2) / 3))%Z.
Proof.
  assert (H : forall n data, (List.length data < n)%nat ->
             Z.of_nat (List.length (encoded data))
             = (4 * ((Z.of_nat (List.length data) + 2) / 3))%Z).
  { clear data. induction n as [|n IH]; intros data Hn; [lia |].
    destruct data as [|x [|y [|z data]]]; try reflexivity.
    cbn [encoded List.length] in *. rewrite !Nat2Z.inj_succ, IH by lia.
    Z.div_mod_to_equations. lia. }
  apply (H (S (List.length data))). lia.
Qed.

Lemma MAX_SIZE_val : MAX_SIZE = 4611686018427387904%Z.
Proof. reflexivity. Qed.

Lemma SIZE_MOD_val : SIZE_MOD = 18446744073709551616%Z.
Proof. reflexivity. Qed.

Lemma Encode_encoded (data : list ascii) :
  (2 <= Z.of_nat (List.length data) < MAX_SIZE)%Z ->
  Encode data = Ret (string_of_list_ascii (encoded data)).
Proof.
  intros Hlen. rewrite MAX_SIZE_val in Hlen. unfold Encode.
  rewrite (size_t_small (_ + 2)) by (rewrite SIZE_MOD_val; lia).
  rewrite size_t_small
    by (rewrite SIZE_MOD_val; Z.div_mod_to_equations; lia).
  rewrite <- encoded_length, Nat2Z.id.
  apply (encode_loop_encoded (S (List.length data)) [] data []);
    try reflexivity; try rewrite SIZE_MOD_val; lia.
Qed.

(** ** Base64: the text read back *)

Lemma get_string_of_list (l : list ascii) :
  forall k, String.get k (string_of_list_ascii l) = nth_error l k.
Proof.
  induction l as [|c l IH]; intros [|k]; cbn; auto.
Qed.

Lemma length_string_of_list (l : list ascii) :
  String.length (string_of_list_ascii l) = List.length l.
Proof. induction l as [|c l IH]; cbn; auto. Qed.

Lemma char_of_app (pre rest : list ascii) (k : nat) (c : ascii) (i : Z) :
  nth_error rest k = Some c -> i = (Z.of_nat (List.length pre) + Z.of_nat k)%Z ->
  char_of (string_of_list_ascii (pre ++ rest)) i = Ret c.
Proof.
  intros Hk ->. unfold char_of.
  assert (Hlt : (k < List.length rest)%nat) by (apply nth_error_Some; congruence).
  rewrite length_string_of_list, List.length_app.
  replace (0 <=? Z.of_nat (List.length pre) + Z.of_nat k)%Z with true
    by (symmetry; apply Z.leb_le; lia).
  replace (Z.of_nat (List.length pre) + Z.of_nat k
           <=? Z.of_nat (List.length pre + List.length rest))%Z with true
    by (symmetry; apply Z.leb_le; lia).
  cbn [andb]. rewrite <- Nat2Z.inj_add, Nat2Z.id, get_string_of_list.
  rewrite nth_error_app2 by lia.
  replace (List.length pre + k - List.length pre)%nat with k by lia.
  now rewrite Hk.
Qed.

Lemma sextet_letter (pre rest : list ascii) (k : nat) (s i : Z) :
  (0 <= s < 64)%Z -> nth_error rest k = Some (letter s) ->
  i = (Z.of_nat (List.length pre) + Z.of_nat k)%Z ->
  sextet (string_of_list_ascii (pre ++ rest)) i = Ret s.
Proof.
  intros Hs Hk Hi. unfold sextet.
  rewrite (char_of_app pre rest k _ i Hk Hi). cbn [bind].
  destruct (letter_spec s Hs) as (_ & -> & ->). reflexivity.
Qed.

Lemma sextet_pad (pre rest : list ascii) (k : nat) (i : Z) :
  nth_error rest k = Some "="%char ->
  i = (Z.of_nat (List.length pre) + Z.of_nat k)%Z ->
  sextet (string_of_list_ascii (pre ++ rest)) i = Ret 0%Z.
Proof.
  intros Hk Hi. unfold sextet.
  now rewrite (char_of_app pre rest k _ i Hk Hi).
Qed.

Lemma put_app (out_len v : Z) (done : list ascii) (c0 : ascii) (T : list ascii) (j : Z) :
  j = Z.of_nat (List.length done) -> (j < out_len)%Z ->
  put out_len v ((done ++ c0 :: T)%list, j)
  = Ret (((done ++ [int_to_char v]) ++ T)%list, (j + 1)%Z).
Proof.
  intros Hj Hlt. unfold put.
  replace (j <? out_len)%Z with true by (symmetry; apply Z.ltb_lt; lia).
  now rewrite (store_app done c0 _ T j Hj).
Qed.

Lemma put_full (out_len v : Z) (o : list ascii * Z) :
  (out_len <= snd o)%Z -> put out_len v o = Ret o.
Proof.
  destruct o as [out j]. cbn [snd]. intros Hj. unfold put.
  now replace (j <? out_len)%Z with false by (symmetry; apply Z.ltb_ge; lia).
Qed.

Lemma group_bytes (x y z : ascii) :
  let triple := triple_of (index1 (char_to_int x))
                  (index2 (char_to_int x) (char_to_int y))
                  (index3 (char_to_int y) (char_to_int z))
                  (index4 (char_to_int z)) in
  int_to_char (Z.land (Z.shiftr triple 16) 255) = x
  /\ int_to_char (Z.land (Z.shiftr triple 8) 255) = y
  /\ int_to_char (Z.land (Z.shiftr triple 0) 255) = z.
Proof.
  cbv zeta. rewrite index1_val, index2_val, index3_val, index4_val.
  destruct (triple_bytes (byte_val x) (byte_val y) (byte_val z))
    as (-> & -> & ->); try apply byte_val_range.
  now rewrite !int_to_char_byte_val.
Qed.

Lemma pair_bytes (x y : ascii) :
  let triple := triple_of (index1 (char_to_int x))
                  (index2 (char_to_int x) (char_to_int y))
                  (Z.shiftl (Z.land (char_to_int y) 15) 2) 0 in
  int_to_char (Z.land (Z.shiftr triple 16) 255) = x
  /\ int_to_char (Z.land (Z.shiftr triple 8) 255) = y.
Proof.
  cbv zeta. rewrite index1_val, index2_val, tail3_val.
  pose proof (triple_bytes (byte_val x) (byte_val y) 0
                (byte_val_range x) (byte_val_range y)) as H.
  change (0 / 64)%Z with 0%Z in H. change (0 mod 64)%Z with 0%Z in H.
  rewrite Z.add_0_r in H.
  destruct H as (-> & -> & _); [lia |].
  now rewrite !int_to_char_byte_val.
Qed.

Lemma single_byte (x : ascii) :
  let triple := triple_of (index1 (char_to_int x))
                  (Z.shiftl (Z.land (char_to_int x) 3) 4) 0 0 in
  int_to_char (Z.land (Z.shiftr triple 16) 255) = x.
Proof.
  cbv zeta. rewrite index1_val, tail2_val.
  pose proof (triple_bytes (byte_val x) 0 0 (byte_val_range x)) as H.
  change (0 / 64)%Z with 0%Z in H. change (0 mod 64)%Z with 0%Z in H.
  change (0 / 16)%Z with 0%Z in H. change (0 mod 16 * 4 + 0)%Z with 0%Z in H.
  rewrite Z.add_0_r in H.
  destruct H as (-> & _); [lia | lia |].
  now rewrite !int_to_char_byte_val.
Qed.

Lemma decode_loop_encoded (n : nat) :
  forall pre rest done in_len out_len i j,
    in_len = Z.of_nat (List.length (pre ++ encoded rest)) ->
    i = Z.of_nat (List.length pre) ->
    j = Z.of_nat (List.length done) ->
    out_len = Z.of_nat (List.length done + List.length rest) ->
    (List.length rest < n)%nat ->
    decode_loop n (string_of_list_ascii (pre ++ encoded rest)) in_len out_len i
      ((done ++ repeat NUL (List.length rest))%list, j)
    = Ret (done ++ rest)%list.
Proof.
  induction n as [|n IH]; intros pre rest done in_len out_len i j Hin Hi Hj Hout Hn;
    [lia |].
  rewrite List.length_app in Hin. cbn [decode_loop].
  destruct rest as [|x [|y [|z rest]]]; cbn [encoded List.length] in Hin, Hn, Hout.
  - replace (i <? in_len)%Z with false by (symmetry; apply Z.ltb_ge; lia).
    reflexivity.
  - (* one byte, two pads *)
    replace (i <? in_len)%Z with true by (symmetry; apply Z.ltb_lt; lia).
    destruct (index_ranges x x x) as (H1 & _ & _ & _ & H2 & _).
    cbn [encoded].
    rewrite (sextet_letter pre _ 0 _ i H1) by (reflexivity || lia).
    rewrite (sextet_letter pre _ 1 _ (i + 1) H2) by (reflexivity || lia).
    rewrite (sextet_pad pre _ 2 (i + 2)) by (reflexivity || lia).
    rewrite (sextet_pad pre _ 3 (i + 3)) by (reflexivity || lia).
    cbn [bind List.length repeat].
    rewrite (put_app _ _ done) by (assumption || lia). cbn [bind].
    rewrite (single_byte x).
    rewrite put_full by (cbn [snd]; lia). cbn [bind].
    rewrite put_full by (cbn [snd]; lia). cbn [bind].
    destruct n as [|n]; [lia |]. cbn [decode_loop].
    replace (i + 4 <? in_len)%Z with false by (symmetry; apply Z.ltb_ge; lia).
    cbn [fst]. now rewrite List.app_nil_r.
  - (* two bytes, one pad *)
    replace (i <? in_len)%Z with true by (symmetry; apply Z.ltb_lt; lia).
    destruct (index_ranges x y y) as (H1 & H2 & _ & _ & _ & H3).
    cbn [encoded].
    rewrite (sextet_letter pre _ 0 _ i H1) by (reflexivity || lia).
    rewrite (sextet_letter pre _ 1 _ (i + 1) H2) by (reflexivity || lia).
    rewrite (sextet_letter pre _ 2 _ (i + 2) H3) by (reflexivity || lia).
    rewrite (sextet_pad pre _ 3 (i + 3)) by (reflexivity || lia).
    cbn [bind List.length repeat].
    destruct (pair_bytes x y) as (Ex & Ey).
    rewrite (put_app _ _ done) by (assumption || lia). cbn [bind]. rewrite Ex.
    rewrite (put_app _ _ (done ++ [x])) by next_pos. cbn [bind]. rewrite Ey.
    rewrite put_full by (cbn [snd]; lia). cbn [bind].
    destruct n as [|n]; [lia |]. cbn [decode_loop].
    replace (i + 4 <? in_len)%Z with false by (symmetry; apply Z.ltb_ge; lia).
    cbn [fst]. now rewrite List.app_nil_r, <- List.app_assoc.
  - (* a group of three *)
    replace (i <? in_len)%Z with true by (symmetry; apply Z.ltb_lt; lia).
    destruct (index_ranges x y z) as (H1 & H2 & H3 & H4 & _).
    cbn [encoded].
    rewrite (sextet_letter pre _ 0 _ i H1) by (reflexivity || lia).
    rewrite (sextet_letter pre _ 1 _ (i + 1) H2) by (reflexivity || lia).
    rewrite (sextet_letter pre _ 2 _ (i + 2) H3) by (reflexivity || lia).
    rewrite (sextet_letter pre _ 3 _ (i + 3) H4) by (reflexivity || lia).
    cbn [bind List.length repeat].
    destruct (group_bytes x y z) as (Ex & Ey & Ez).
    rewrite (put_app _ _ done) by (assumption || lia). cbn [bind]. rewrite Ex.
    rewrite (put_app _ _ (done ++ [x])) by next_pos. cbn [bind]. rewrite Ey.
    rewrite (put_app _ _ ((done ++ [x]) ++ [y])) by next_pos. cbn [bind]. rewrite Ez.
    match goal with
    | |- context [string_of_list_ascii (pre ++ ?a :: ?b :: ?c :: ?d :: encoded rest)] =>
        replace (pre ++ a :: b :: c :: d :: encoded rest)%list
          with ((pre ++ [a; b; c; d]) ++ encoded rest)%list
          by now rewrite <- List.app_assoc
    end.
    rewrite (IH _ rest (((done ++ [x]) ++ [y]) ++ [z])%list).
    + now rewrite <- !List.app_assoc.
    + rewrite !List.length_app. cbn [List.length]. lia.
    + next_pos.
    + next_pos.
    + next_pos.
    + lia.
Qed.

Lemma encoded_end (data : list ascii) :
  data <> [] ->
  exists T c3 c4,
    encoded data = (T ++ [c3; c4])%list
    /\ (c3 =? "=")%char = (Z.of_nat (List.length data) mod 3 =? 1)%Z
    /\ (c4 =? "=")%char = negb (Z.of_nat (List.length data) mod 3 =? 0)%Z.
Proof.
  assert (H : forall n data, (List.length data < n)%nat -> data <> [] ->
    exists T c3 c4,
      encoded data = (T ++ [c3; c4])%list
      /\ (c3 =? "=")%char = (Z.of_nat (List.length data) mod 3 =? 1)%Z
      /\ (c4 =? "=")%char = negb (Z.of_nat (List.length data) mod 3 =? 0)%Z).
  { clear data. induction n as [|n IH]; intros data Hn Hne; [lia |].
    destruct data as [|x [|y [|z data]]]; [congruence | | |].
    - exists [letter (index1 (char_to_int x));
              letter (Z.shiftl (Z.land (char_to_int x) 3) 4)], "="%char, "="%char.
      repeat split.
    - destruct (index_ranges x y y) as (_ & _ & _ & _ & _ & H3).
      destruct (letter_spec _ H3) as (_ & E3 & _).
      exists [letter (index1 (char_to_int x));
              letter (index2 (char_to_int x) (char_to_int y))],
        (letter (Z.shiftl (Z.land (char_to_int y) 15) 2)), "="%char.
      rewrite E3. repeat split.
    - destruct data as [|w data].
      + destruct (index_ranges x y z) as (_ & _ & H3 & H4 & _).
        destruct (letter_spec _ H3) as (_ & E3 & _).
        destruct (letter_spec _ H4) as (_ & E4 & _).
        exists [letter (index1 (char_to_int x));
                letter (index2 (char_to_int x) (char_to_int y))],
          (letter (index3 (char_to_int y) (char_to_int z))),
          (letter (index4 (char_to_int z))).
        rewrite E3, E4. repeat split.
      + destruct (IH (w :: data)) as (T & c3 & c4 & E & E3 & E4);
          [cbn [List.length] in *; lia | discriminate |].
        exists (letter (index1 (char_to_int x))
                :: letter (index2 (char_to_int x) (char_to_int y))
                :: letter (index3 (char_to_int y) (char_to_int z))
                :: letter (index4 (char_to_int z)) :: T), c3, c4.
        cbn [encoded] in *. rewrite E, E3, E4.
        replace (Z.of_nat (List.length (x :: y :: z :: w :: data)) mod 3)%Z
          with (Z.of_nat (List.length (w :: data)) mod 3)%Z; [repeat split |].
        cbn [List.length]. rewrite !Nat2Z.inj_succ.
        Z.div_mod_to_equations. lia. }
  apply (H (S (List.length data))). lia.
Qed.

Lemma Decode_encoded (data : list ascii) :
  data <> [] -> (Z.of_nat (List.length data) < MAX_SIZE)%Z ->
  Decode (string_of_list_ascii (encoded data)) = Ret data.
Proof.
  intros Hne Hlen. rewrite MAX_SIZE_val in Hlen.
  destruct (encoded_end data Hne) as (T & c3 & c4 & E & E3 & E4).
  pose proof (encoded_length data) as HL.
  assert (Hn : (0 < Z.of_nat (List.length data))%Z)
    by (destruct data; [congruence | cbn [List.length]; lia]).
  unfold Decode. rewrite length_string_of_list.
  remember (Z.of_nat (List.length data)) as n eqn:En.
  remember (Z.of_nat (List.length (encoded data))) as in_len eqn:Ein.
  assert (Hk : (4 <= in_len < SIZE_MOD)%Z)
    by (rewrite SIZE_MOD_val; Z.div_mod_to_equations; lia).
  replace (in_len mod 4 =? 0)%Z with true
    by (symmetry; apply Z.eqb_eq; Z.div_mod_to_equations; lia).
  cbn [negb]. rewrite !size_t_small by lia.
  assert (HT : in_len = (Z.of_nat (List.length T) + 2)%Z).
  { rewrite Ein, E, List.length_app. cbn [List.length]. lia. }
  assert (Hc4 : char_of (string_of_list_ascii (encoded data)) (in_len - 1) = Ret c4).
  { rewrite E. apply (char_of_app T [c3; c4] 1); [reflexivity | lia]. }
  assert (Hc3 : char_of (string_of_list_ascii (encoded data)) (in_len - 2) = Ret c3).
  { rewrite E. apply (char_of_app T [c3; c4] 0); [reflexivity | lia]. }
  rewrite Hc4. cbn [bind]. rewrite Hc3. cbn [bind]. rewrite E3, E4.
  match goal with
  | |- decode_loop _ _ _ ?o _ _ = _ => assert (Ho : o = n)
  end.
  { rewrite SIZE_MOD_val in Hk.
    rewrite (size_t_small (in_len / 4 * 3 - 1))
      by (rewrite SIZE_MOD_val; Z.div_mod_to_equations; lia).
    destruct (Z.eqb_spec (n mod 3) 0) as [H0 | H0]; cbn [negb];
      destruct (Z.eqb_spec (n mod 3) 1) as [H1 | H1];
      rewrite ?size_t_small
        by (rewrite SIZE_MOD_val; Z.div_mod_to_equations; lia);
      Z.div_mod_to_equations; lia. }
  rewrite Ho, En, Nat2Z.id.
  apply (decode_loop_encoded _ [] data []); cbn [List.length List.app];
    try reflexivity; try lia.
  apply Nat2Z.inj_lt. rewrite Nat2Z.inj_succ, <- Ein, <- En.
  Z.div_mod_to_equations. lia.
Qed.


(** ** Base64: short and empty input *)

Lemma Encode_short (data : list ascii) :
  (List.length data < 2)%nat ->
  Encode data = Undefined (ElementPastEnd (Z.of_nat (List.length data))).
Proof.
  intros Hlen. destruct data as [|x [|y data]]; [reflexivity | | cbn in Hlen; lia].
  destruct (index_ranges x x x) as (H1 & _).
  unfold Encode. cbn [List.length encode_loop].
  change (0 <? size_t (Z.of_nat 1 - 2))%Z with true. cbv iota.
  change (byte [x] 0) with (Ret (A := Z) (char_to_int x)).
  change (byte [x] (0 + 1)) with (Undefined (A := Z) (ElementPastEnd 1)).
  cbn [bind].
  change (repeat NUL (Z.to_nat (size_t (4 * (size_t (Z.of_nat 1 + 2) / 3)))))
    with ([] ++ NUL :: [NUL; NUL; NUL])%list.
  rewrite (emit_app []) by (assumption || reflexivity). reflexivity.
Qed.

(** ** Base64: the alphabet *)

Lemma all_chars_list (f : ascii -> bool) (l : list ascii) :
  all_chars f (string_of_list_ascii l) = forallb f l.
Proof. induction l as [|c l IH]; cbn; [reflexivity | now rewrite IH]. Qed.

Lemma letter_base64 (s : Z) : (0 <= s < 64)%Z -> base64_char (letter s) = true.
Proof.
  intros Hs.
  assert (H : forallb (fun k => base64_char (letter (Z.of_nat k))) (seq 0 64) = true)
    by (vm_compute; reflexivity).
  rewrite forallb_forall in H. specialize (H (Z.to_nat s)).
  rewrite Z2Nat.id in H by lia. apply H, in_seq. lia.
Qed.

Lemma encoded_base64 (data : list ascii) : forallb base64_char (encoded data) = true.
Proof.
  assert (H : forall n data, (List.length data < n)%nat ->
                forallb base64_char (encoded data) = true).
  { clear data. induction n as [|n IH]; intros data Hn; [lia |].
    destruct data as [|x [|y [|z data]]]; [reflexivity | | |].
    - destruct (index_ranges x x x) as (H1 & _ & _ & _ & H2 & _).
      cbn [encoded forallb]. now rewrite !letter_base64.
    - destruct (index_ranges x y y) as (H1 & H2 & _ & _ & _ & H3).
      cbn [encoded forallb]. now rewrite !letter_base64.
    - destruct (index_ranges x y z) as (H1 & H2 & H3 & H4 & _).
      cbn [encoded forallb]. rewrite !letter_base64 by assumption.
      cbn [andb]. apply IH. cbn [List.length] in Hn. lia. }
  apply (H (S (List.length data))). lia.
Qed.

(** ** Base64: what Decode does with any text *)

Lemma all_chars_get (f : ascii -> bool) (s : string) :
  all_chars f s = true -> forall k c, String.get k s = Some c -> f c = true.
Proof.
  induction s as [|a s IH]; intros H k c Hk; [destruct k; discriminate |].
  cbn [all_chars] in H. apply andb_prop in H as [Ha Hs].
  destruct k as [|k]; cbn in Hk; [congruence | eauto].
Qed.

Lemma get_lt (s : string) :
  forall k, (k < String.length s)%nat -> exists c, String.get k s = Some c.
Proof.
  induction s as [|a s IH]; intros k Hk; cbn in Hk; [lia |].
  destruct k as [|k]; cbn; [eauto | apply IH; lia].
Qed.

Lemma char_of_get (s : string) (k : nat) (c : ascii) (i : Z) :
  String.get k s = Some c -> i = Z.of_nat k -> char_of s i = Ret c.
Proof.
  intros Hk ->. unfold char_of.
  assert (Hlt : (k < String.length s)%nat) by (eapply get_some_lt; eauto).
  replace (0 <=? Z.of_nat k)%Z with true by (symmetry; apply Z.leb_le; lia).
  replace (Z.of_nat k <=? Z.of_nat (String.length s))%Z with true
    by (symmetry; apply Z.leb_le; lia).
  cbn [andb]. now rewrite Nat2Z.id, Hk.
Qed.

Lemma is_ascii_range (c : ascii) : is_ascii c = true -> (0 <= char_to_int c < 128)%Z.
Proof.
  unfold is_ascii, char_to_int. pose proof (N_ascii_bounded c).
  destruct (Z.ltb_spec (Z.of_N (N_of_ascii c)) 128); intros Hc%Z.leb_le; lia.
Qed.

Lemma not_ascii_negative (c : ascii) : is_ascii c = false -> (char_to_int c < 0)%Z.
Proof. unfold is_ascii. now intros Hc%Z.leb_gt. Qed.

Lemma element_lt {A : Type} (v : list A) (i : Z) :
  (0 <= i < Z.of_nat (List.length v))%Z -> exists x, element v i = Ret x.
Proof.
  intros Hi. unfold element.
  replace (0 <=? i)%Z with true by (symmetry; apply Z.leb_le; lia).
  replace (i <? Z.of_nat (List.length v))%Z with true by (symmetry; apply Z.ltb_lt; lia).
  cbn [andb]. destruct (nth_error v (Z.to_nat i)) as [x|] eqn:E; [eauto |].
  apply nth_error_None in E. lia.
Qed.

Lemma sextet_ascii (s : string) (k : nat) (c : ascii) (i : Z) :
  String.get k s = Some c -> is_ascii c = true -> i = Z.of_nat k ->
  exists v, sextet s i = Ret v.
Proof.
  intros Hk Hc Hi. unfold sextet. rewrite (char_of_get s k c i Hk Hi). cbn [bind].
  destruct (c =? "=")%char; [eauto |].
  apply element_lt. pose proof (is_ascii_range c Hc).
  change (Z.of_nat (List.length kDecodingTable)) with 256%Z. lia.
Qed.

Lemma sextet_high_bit (s : string) (k : nat) (c : ascii) (i : Z) :
  String.get k s = Some c -> is_ascii c = false -> i = Z.of_nat k ->
  sextet s i = Undefined (ElementPastEnd (char_to_int c)).
Proof.
  intros Hk Hc Hi. unfold sextet. rewrite (char_of_get s k c i Hk Hi). cbn [bind].
  destruct (Ascii.eqb_spec c "=") as [-> | _]; [discriminate Hc |].
  unfold element.
  now replace (0 <=? char_to_int c)%Z with false
    by (symmetry; apply Z.leb_gt; now apply not_ascii_negative).
Qed.

Lemma poke_length {A : Type} (v : list A) (x : A) :
  forall i, List.length (poke v i x) = List.length v.
Proof. induction v as [|a v IH]; intros [|i]; cbn; auto. Qed.

Lemma put_total (out_len v : Z) (out : list ascii) (j : Z) :
  out_len = Z.of_nat (List.length out) -> (0 <= j)%Z ->
  exists out' j',
    put out_len v (out, j) = Ret (out', j')
    /\ List.length out' = List.length out /\ (0 <= j')%Z.
Proof.
  intros Ho Hj. unfold put. destruct (Z.ltb_spec j out_len) as [Hlt | Hge].
  - unfold store.
    replace (0 <=? j)%Z with true by (symmetry; apply Z.leb_le; lia).
    replace (j <? Z.of_nat (List.length out))%Z with true
      by (symmetry; apply Z.ltb_lt; lia).
    cbn [andb bind]. eexists _, _. split; [reflexivity |].
    split; [apply poke_length | lia].
  - eexists _, _. split; [reflexivity |]. split; [reflexivity | lia].
Qed.

Ltac put_step out' j' Hlen Hj :=
  match goal with
  | |- context [put ?n ?v (?o, ?j)] =>
      let Eput := fresh "Eput" in
      destruct (put_total n v o j) as (out' & j' & Eput & Hlen & Hj);
      [congruence || lia | lia | rewrite Eput; clear Eput; cbn [bind]]
  end.

Lemma decode_loop_total (s : string) (n : nat) :
  all_chars is_ascii s = true ->
  (Z.of_nat (String.length s) mod 4 = 0)%Z ->
  forall i out j,
    (0 <= i <= Z.of_nat (String.length s))%Z -> (i mod 4 = 0)%Z ->
    (Z.of_nat (String.length s) - i < 4 * Z.of_nat n)%Z -> (0 <= j)%Z ->
    exists out',
      decode_loop n s (Z.of_nat (String.length s)) (Z.of_nat (List.length out)) i (out, j)
      = Ret out'
      /\ List.length out' = List.length out.
Proof.
  intros Hs Hm. induction n as [|n IH]; intros i out j Hi Hi4 Hn Hj.
  - lia.
  - cbn [decode_loop]. destruct (Z.ltb_spec i (Z.of_nat (String.length s))) as [Hlt | Hge];
      [| eexists; split; reflexivity].
    assert (Hlt3 : (i + 3 < Z.of_nat (String.length s))%Z)
      by (Z.div_mod_to_equations; lia).
    assert (Hsx : forall d, (0 <= d <= 3)%Z -> exists v, sextet s (i + d) = Ret v).
    { intros d Hd. destruct (get_lt s (Z.to_nat (i + d))) as [c Hc]; [lia |].
      apply (sextet_ascii s (Z.to_nat (i + d)) c); [assumption | | lia].
      apply (all_chars_get _ _ Hs _ _ Hc). }
    destruct (Hsx 0%Z) as [a Ea]; [lia |]. rewrite Z.add_0_r in Ea.
    destruct (Hsx 1%Z) as [b Eb]; [lia |].
    destruct (Hsx 2%Z) as [c Ec]; [lia |].
    destruct (Hsx 3%Z) as [d Ed]; [lia |].
    rewrite Ea, Eb, Ec, Ed. cbn [bind].
    put_step out1 j1 Hl1 Hj1. rewrite <- Hl1.
    put_step out2 j2 Hl2 Hj2. rewrite <- Hl2.
    put_step out3 j3 Hl3 Hj3. rewrite <- Hl3.
    destruct (IH (i + 4)%Z out3 j3) as (out' & E & Hl);
      [lia | Z.div_mod_to_equations; lia | lia | lia |].
    exists out'. split; [assumption | congruence].
Qed.

Lemma get_append_pre (pre s : string) :
  forall k, (k < String.length pre)%nat -> String.get k (pre ++ s) = String.get k pre.
Proof.
  induction pre as [|a pre IH]; intros k Hk; cbn in Hk; [lia |].
  destruct k as [|k]; cbn; [reflexivity | apply IH; lia].
Qed.

Lemma decode_loop_high_bit (pre post : string) (c : ascii) (n : nat) :
  all_chars is_ascii pre = true -> is_ascii c = false ->
  forall i out j,
    (0 <= i <= Z.of_nat (String.length pre))%Z -> (i mod 4 = 0)%Z ->
    (Z.of_nat (String.length pre) - i < 4 * Z.of_nat n)%Z -> (0 <= j)%Z ->
    decode_loop n (pre ++ String c post)
      (Z.of_nat (String.length (pre ++ String c post)))
      (Z.of_nat (List.length out)) i (out, j)
    = Undefined (ElementPastEnd (char_to_int c)).
Proof.
  intros Hpre Hc. induction n as [|n IH]; intros i out j Hi Hi4 Hn Hj; [lia |].
  cbn [decode_loop]. rewrite length_append. cbn [String.length].
  replace (i <? Z.of_nat (String.length pre + S (String.length post)))%Z with true
    by (symmetry; apply Z.ltb_lt; lia).
  assert (Hsx : forall d, (0 <= d)%Z -> (i + d < Z.of_nat (String.length pre))%Z ->
                  exists v, sextet (pre ++ String c post) (i + d) = Ret v).
  { intros d Hd Hlt. destruct (get_lt pre (Z.to_nat (i + d))) as [a Ha]; [lia |].
    apply (sextet_ascii _ (Z.to_nat (i + d)) a); [| | lia].
    - rewrite get_append_pre by lia. assumption.
    - apply (all_chars_get _ _ Hpre _ _ Ha). }
  assert (Hbad : forall d, (i + d = Z.of_nat (String.length pre))%Z ->
                   sextet (pre ++ String c post) (i + d)
                   = Undefined (ElementPastEnd (char_to_int c))).
  { intros d Hd. apply (sextet_high_bit _ (String.length pre) c);
      [apply get_append_at | assumption | assumption]. }
  destruct (Z.eq_dec i (Z.of_nat (String.length pre))) as [E0 | N0].
  { rewrite <- (Z.add_0_r i) at 1. rewrite (Hbad 0%Z) by lia. reflexivity. }
  destruct (Hsx 0%Z) as [a Ea]; [lia | lia |]. rewrite Z.add_0_r in Ea.
  rewrite Ea. cbn [bind].
  destruct (Z.eq_dec (i + 1) (Z.of_nat (String.length pre))) as [E1 | N1].
  { now rewrite (Hbad 1%Z). }
  destruct (Hsx 1%Z) as [b Eb]; [lia | lia |]. rewrite Eb. cbn [bind].
  destruct (Z.eq_dec (i + 2) (Z.of_nat (String.length pre))) as [E2 | N2].
  { now rewrite (Hbad 2%Z). }
  destruct (Hsx 2%Z) as [c' Ec]; [lia | lia |]. rewrite Ec. cbn [bind].
  destruct (Z.eq_dec (i + 3) (Z.of_nat (String.length pre))) as [E3 | N3].
  { now rewrite (Hbad 3%Z). }
  destruct (Hsx 3%Z) as [d Ed]; [lia | lia |]. rewrite Ed. cbn [bind].
  put_step out1 j1 Hl1 Hj1. rewrite <- Hl1.
  put_step out2 j2 Hl2 Hj2. rewrite <- Hl2.
  put_step out3 j3 Hl3 Hj3. rewrite <- Hl3.
  specialize (IH (i + 4)%Z out3 j3). rewrite length_append in IH.
  cbn [String.length] in IH. apply IH; try lia.
  Z.div_mod_to_equations. lia.
Qed.

Lemma Decode_sizes (s : string) :
  (4 <= Z.of_nat (String.length s) < MAX_SIZE)%Z ->
  exists out_len,
    (out_len = Z.of_nat (String.length s) / 4 * 3 - pad_at s 1 - pad_at s 2)%Z
    /\ (0 <= out_len)%Z
    /\ (negb (Z.of_nat (String.length s) mod 4 =? 0)%Z = false ->
        Decode s
        = decode_loop (S (String.length s)) s (Z.of_nat (String.length s)) out_len 0
            (repeat NUL (Z.to_nat out_len), 0%Z)).
Proof.
  intros Hlen. rewrite MAX_SIZE_val in Hlen.
  destruct (get_lt s (String.length s - 1)) as [c4 E4]; [lia |].
  destruct (get_lt s (String.length s - 2)) as [c3 E3]; [lia |].
  unfold pad_at. rewrite E4, E3.
  eexists. split; [reflexivity |]. split.
  - destruct (c4 =? "=")%char, (c3 =? "=")%char; Z.div_mod_to_equations; lia.
  - intros Hm. unfold Decode. rewrite Hm.
    rewrite !(size_t_small (Z.of_nat (String.length s) - _))
      by (rewrite SIZE_MOD_val; lia).
    rewrite (char_of_get s _ c4 _ E4) by lia. cbn [bind].
    rewrite (char_of_get s _ c3 _ E3) by lia. cbn [bind].
    rewrite (size_t_small (Z.of_nat (String.length s) / 4 * 3 - 1))
      by (rewrite SIZE_MOD_val; Z.div_mod_to_equations; lia).
    destruct (c4 =? "=")%char, (c3 =? "=")%char;
      rewrite ?size_t_small by (rewrite SIZE_MOD_val; Z.div_mod_to_equations; lia);
      rewrite ?Z.sub_0_r; reflexivity.
Qed.

(** ** Base64: the statements *)

(** X22.  Text written by [Encode] for two bytes or more decodes to the same
    bytes; so a blob written with [toBase64] and loaded with [loadBase64]
    into any blob is the blob written. *)
Theorem Decode_Encode (data : list ascii) :
  (2 <= Z.of_nat (List.length data) < MAX_SIZE)%Z ->
  (text <- Encode data ;; Decode text) = Ret data
  /\ forall this, (text <- toBase64 data ;; loadBase64 this text) = Ret data.
Proof.
  intros Hlen.
  assert (H : (text <- Encode data ;; Decode text) = Ret data).
  { rewrite (Encode_encoded data Hlen). cbn [bind].
    apply Decode_encoded; [| lia].
    destruct data; [cbn [List.length] in Hlen; lia | discriminate]. }
  split; [exact H | intros this; exact H].
Qed.

Lemma Decode_Encode_witness :
  (text <- Encode (list_ascii_of_string "any carnal pleas") ;; Decode text)
  = Ret (list_ascii_of_string "any carnal pleas").
Proof.
  apply (Decode_Encode (list_ascii_of_string "any carnal pleas")).
  rewrite MAX_SIZE_val. cbn. lia.
Defined.

(** X23.  For two bytes or more [Encode] returns a text of four characters for
    every three bytes begun, each of them from the table or a [=]. *)
Theorem Encode_text (data : list ascii) :
  (2 <= Z.of_nat (List.length data) < MAX_SIZE)%Z ->
  exists text,
    Encode data = Ret text
    /\ Z.of_nat (String.length text) = (4 * ((Z.of_nat (List.length data) + 2) / 3))%Z
    /\ all_chars base64_char text = true.
Proof.
  intros Hlen. exists (string_of_list_ascii (encoded data)).
  split; [now apply Encode_encoded |]. split.
  - rewrite length_string_of_list. apply encoded_length.
  - rewrite all_chars_list. apply encoded_base64.
Qed.

Lemma Encode_text_witness :
  exists text,
    Encode (list_ascii_of_string "hello") = Ret text
    /\ Z.of_nat (String.length text) = 8%Z
    /\ all_chars base64_char text = true.
Proof.
  apply (Encode_text (list_ascii_of_string "hello")).
  rewrite MAX_SIZE_val. cbn. lia.
Defined.

(** X24.  On no byte and on one byte the loop of [Encode] runs, [in_len - 2]
    being a large [size_t], and reads the data behind its end: the empty
    blob and the blob of one byte have no text. *)
Theorem Encode_short_reads_outside (data : list ascii) :
  (List.length data < 2)%nat ->
  Encode data = Undefined (ElementPastEnd (Z.of_nat (List.length data)))
  /\ toBase64 data = Undefined (ElementPastEnd (Z.of_nat (List.length data))).
Proof.
  intros Hlen. split; now apply Encode_short.
Qed.

Lemma Encode_short_reads_outside_witness :
  Encode [] = Undefined (ElementPastEnd 0)
  /\ Encode ["M"%char] = Undefined (ElementPastEnd 1).
Proof.
  split.
  - apply (Encode_short_reads_outside []). cbn. lia.
  - apply (Encode_short_reads_outside ["M"%char]). cbn. lia.
Defined.

(** X25.  [Decode] reports nothing: a text whose length is no multiple of four
    gives the empty vector; a text of ASCII characters whose length is a
    multiple of four gives three bytes for every four characters, less one
    for a [=] in each of the last two places, whatever the characters are;
    on the empty text it reads [base64Data[in_len - 1]] far outside. *)
Theorem Decode_any_text (s : string) :
  ((Z.of_nat (String.length s) mod 4 =? 0)%Z = false -> Decode s = Ret [])
  /\ (s = "" -> Decode s = Undefined (ElementPastEnd (SIZE_MOD - 1)))
  /\ (s <> "" -> (Z.of_nat (String.length s) mod 4 = 0)%Z ->
      (Z.of_nat (String.length s) < MAX_SIZE)%Z ->
      all_chars is_ascii s = true ->
      exists out,
        Decode s = Ret out
        /\ Z.of_nat (List.length out)
           = (Z.of_nat (String.length s) / 4 * 3 - pad_at s 1 - pad_at s 2)%Z).
Proof.
  split; [| split].
  - intros Hm. unfold Decode. cbv zeta. now rewrite Hm.
  - intros ->. reflexivity.
  - intros Hne Hm Hlen Hs.
    assert (H4 : (4 <= Z.of_nat (String.length s))%Z).
    { destruct s; [congruence |]. cbn [String.length] in *.
      Z.div_mod_to_equations. lia. }
    destruct (Decode_sizes s) as (out_len & Eo & Ho & HD); [lia |].
    rewrite HD by (apply Z.eqb_eq in Hm; now rewrite Hm).
    destruct (decode_loop_total s (S (String.length s)) Hs Hm 0%Z
                (repeat NUL (Z.to_nat out_len)) 0%Z) as (out & E & Hl);
      [lia | reflexivity | lia | lia |].
    rewrite repeat_length, Z2Nat.id in E by assumption.
    exists out. split; [assumption |].
    rewrite Hl, repeat_length, Z2Nat.id by assumption. assumption.
Qed.

Lemma Decode_any_text_witness :
  Decode "abc" = Ret []
  /\ exists out, Decode "!?!=" = Ret out /\ Z.of_nat (List.length out) = 2%Z.
Proof.
  split.
  - apply (proj1 (Decode_any_text "abc")). reflexivity.
  - apply (proj2 (proj2 (Decode_any_text "!?!="))).
    + discriminate.
    + reflexivity.
    + rewrite MAX_SIZE_val. cbn. lia.
    + reflexivity.
Defined.

(** X26.  A character with the high bit set is a negative [char]: [Decode]
    reads [kDecodingTable] before its first entry, whatever stands behind
    that character. *)
Theorem Decode_high_bit (pre post : string) (c : ascii) :
  all_chars is_ascii pre = true -> is_ascii c = false ->
  (Z.of_nat (String.length (pre ++ String c post)) mod 4 = 0)%Z ->
  (Z.of_nat (String.length (pre ++ String c post)) < MAX_SIZE)%Z ->
  Decode (pre ++ String c post) = Undefined (ElementPastEnd (char_to_int c))
  /\ (char_to_int c < 0)%Z.
Proof.
  intros Hpre Hc Hm Hlen. split; [| now apply not_ascii_negative].
  assert (H4 : (4 <= Z.of_nat (String.length (pre ++ String c post)))%Z).
  { rewrite length_append in *. cbn [String.length] in *.
    Z.div_mod_to_equations. lia. }
  destruct (Decode_sizes (pre ++ String c post)) as (out_len & Eo & Ho & HD); [lia |].
  rewrite HD by (apply Z.eqb_eq in Hm; now rewrite Hm).
  pose proof (decode_loop_high_bit pre post c
                (S (String.length (pre ++ String c post))) Hpre Hc 0%Z
                (repeat NUL (Z.to_nat out_len)) 0%Z) as H.
  rewrite repeat_length, Z2Nat.id in H by assumption.
  apply H; try lia; try reflexivity.
  rewrite length_append. lia.
Qed.

Lemma Decode_high_bit_witness :
  Decode (String "T" (String "W" (String (ascii_of_nat 233) "u")))
  = Undefined (ElementPastEnd (-23)).
Proof.
  apply (Decode_high_bit "TW" "u" (ascii_of_nat 233)); reflexivity.
Defined.
